(** * KITE moment-estimation engine: embedding and verified properties

    Shallow embedding of the KPM core of KITE (KPM_Vector.hpp,
    KPM_Vector2D.hpp, Simulation.hpp, main.cpp and the Gamma1D/2D/3D
    drivers) together with the properties stated about it.

    Conventions of the embedding.
    - The scalar template parameter [T] (float, double, long double and their
      std::complex versions) is idealised as an exact commutative ring with a
      conjugation; rounding is not modelled.  Integral inputs are exactly
      representable, which is why the integer instance is used to run the
      model on concrete data.
    - [std::size_t] / [int] index arithmetic is done in [Z], without
      wrap-around; the C++ remainder [%] is [Z.rem].
    - An Eigen matrix [v] with [Sized] rows is column-major storage: the
      pointer [v.col(k).data()] is the offset [k * Sized] into one flat
      store, and [p[i]] is the cell [p + i].  Aliasing between the slots of
      one ring buffer is therefore visible in the model. *)

From Stdlib Require Import String Ascii.
From Stdlib Require Import ZArith List Lia Bool Arith Ring Field.
From Stdlib Require Import Reals Lra.
Import ListNotations.

(** * Scalars *)

(** The operations the sources use on [T]: ring arithmetic, [myconj]
    (ComplexTraits), and [peierls2] (KPM_Vector2D.hpp, lines 710-720), which
    is [exp(i*phase)] for complex [T] and the constant 1 for real [T]; in both
    cases [peierls2 0 = 1].  A phase, a real number in the source, is
    carried in [T] itself. *)
Class Scalar (T : Type) : Type := {
  s0 : T;
  s1 : T;
  sadd : T -> T -> T;
  smul : T -> T -> T;
  ssub : T -> T -> T;
  sopp : T -> T;
  myconj : T -> T;
  peierls2 : T -> T;
  scalar_ring : ring_theory s0 s1 sadd smul ssub sopp (@eq T);
  myconj_add : forall a b, myconj (sadd a b) = sadd (myconj a) (myconj b);
  myconj_mul : forall a b, myconj (smul a b) = smul (myconj a) (myconj b);
  myconj_one : myconj s1 = s1;
  myconj_invol : forall a, myconj (myconj a) = a;
  peierls2_0 : peierls2 s0 = s1
}.

(** Division, for the accumulators; [of_nat (S n)] never vanishes
    (characteristic zero), as for the real and complex numbers. *)
Fixpoint of_nat {T} `{Scalar T} (n : nat) : T :=
  match n with
  | O => s0
  | S k => sadd (of_nat k) s1
  end.

Definition of_Z {T} `{Scalar T} (z : Z) : T :=
  match z with
  | Z0 => s0
  | Zpos p => of_nat (Pos.to_nat p)
  | Zneg p => sopp (of_nat (Pos.to_nat p))
  end.

Class ScalarField (T : Type) `{Scalar T} : Type := {
  sdiv : T -> T -> T;
  sinv : T -> T;
  scalar_field : field_theory s0 s1 sadd smul ssub sopp sdiv sinv (@eq T);
  char0 : forall n : nat, of_nat (S n) <> s0
}.

Declare Scope scalar_scope.
Delimit Scope scalar_scope with S.
Notation "a + b" := (sadd a b) : scalar_scope.
Notation "a * b" := (smul a b) : scalar_scope.
Notation "a - b" := (ssub a b) : scalar_scope.
Notation "- a" := (sopp a) : scalar_scope.
Notation "a / b" := (sdiv a b) : scalar_scope.

(** The same operations under names of their own, for expressions that
    mix scalars with integer index arithmetic. *)
Notation "a [+] b" := (sadd a b) (at level 50, left associativity).
Notation "a [-] b" := (ssub a b) (at level 50, left associativity).
Notation "a [*] b" := (smul a b) (at level 40, left associativity).
Notation "a [/] b" := (sdiv a b) (at level 40, left associativity).
Notation "[-] a" := (sopp a) (at level 35, right associativity).

(** ** Instances *)

(** Integers: real amplitudes with integral values. *)
#[export, refine] Instance Z_Scalar : Scalar Z := {
  s0 := 0%Z; s1 := 1%Z; sadd := Z.add; smul := Z.mul; ssub := Z.sub;
  sopp := Z.opp; myconj := fun z => z; peierls2 := fun _ => 1%Z
}.
Proof.
  - exact Zth.
  - reflexivity.
  - reflexivity.
  - reflexivity.
  - reflexivity.
  - reflexivity.
Defined.

(** Real numbers: the real instantiations of [T]. *)
#[export, refine] Instance R_Scalar : Scalar R := {
  s0 := 0%R; s1 := 1%R; sadd := Rplus; smul := Rmult; ssub := Rminus;
  sopp := Ropp; myconj := fun x => x; peierls2 := fun _ => 1%R
}.
Proof.
  - exact RTheory.
  - reflexivity.
  - reflexivity.
  - reflexivity.
  - reflexivity.
  - reflexivity.
Defined.

#[export, refine] Instance R_ScalarField : ScalarField R := {
  sdiv := Rdiv; sinv := Rinv
}.
Proof.
  - exact Rfield.
  - intros n.
    assert (E : forall k : nat, of_nat (T:=R) k = INR k).
    { induction k as [|k IH]; [reflexivity|].
      rewrite S_INR, <- IH. reflexivity. }
    rewrite E. apply not_0_INR. discriminate.
Defined.

(** * Running mean (Welford update) *)

Section RunningMean.
Context {T : Type} `{ScalarField T}.
Local Open Scope scalar_scope.

(** [gamma(ind) += (flatten - gamma(ind))/value_type(average + 1)]
    (Gamma2D, line 125; the same statement, on 1x2 blocks, in Gamma1D
    lines 343 and 353 and recursive_KPM lines 726 and 733). *)
Definition welford_update (average : nat) (mu x : T) : T :=
  mu + (x - mu) / of_nat (average + 1).

(** One accumulator entry over the random-vector/disorder loops:
    [average] starts at 0 and is incremented once per sample. *)
Fixpoint accumulate (average : nat) (mu : T) (xs : list T) : nat * T :=
  match xs with
  | [] => (average, mu)
  | x :: rest => accumulate (S average) (welford_update average mu x) rest
  end.

Definition running_mean (xs : list T) : T := snd (accumulate 0 s0 xs).

Fixpoint ssum (xs : list T) : T :=
  match xs with
  | [] => s0
  | x :: rest => x + ssum rest
  end.

End RunningMean.

(** * Process outcomes *)

(** A call either returns a value or ends the process through [exit(status)]. *)
Inductive outcome (A : Type) : Type :=
| Returns (a : A)
| Exits (status : Z).
Arguments Returns {A} a.
Arguments Exits {A} status.

(** * Direction strings: [Simulation::process_string]
    (Simulation.hpp, lines 743-793) *)

Module Direction.
Local Open Scope string_scope.
Local Open Scope Z_scope.

(** [std::string::find(c)] stored into an [int]: the position of the first
    occurrence, or -1 ([npos] converted to [int]) when there is none. *)
Fixpoint find_from (c : ascii) (s : string) (pos : Z) : Z :=
  match s with
  | EmptyString => -1
  | String a rest => if Ascii.eqb a c then pos else find_from c rest (pos + 1)
  end.

Definition find (c : ascii) (s : string) : Z := find_from c s 0.

(** [s.substr(pos, n)] with [int] arguments converted to [size_t]: a
    negative [n] is [npos] and takes the rest of the string; the result is
    clipped at the end of [s]. *)
Definition substr (s : string) (pos n : Z) : string :=
  if n <? 0
  then substring (Z.to_nat pos) (String.length s) s
  else substring (Z.to_nat pos) (Z.to_nat n) s.

Definition size (s : string) : Z := Z.of_nat (String.length s).

(** The splitting loop, lines 746-751:
<<
    int end_pos = 0;
    while(end_pos != -1){
      end_pos = indices_string.find(',');
      strings.push_back(indices_string.substr(0, end_pos));
      indices_string = indices_string.substr(end_pos + 1,
                                indices_string.size() - end_pos - 1);
    }
>>
    [fuel] bounds the number of iterations. *)
Fixpoint split_loop (fuel : nat) (indices_string : string)
         (strings : list string) : option (list string) :=
  match fuel with
  | O => None
  | S fuel' =>
      let end_pos := find "," indices_string in
      let strings' := (strings ++ [substr indices_string 0 end_pos])%list in
      let indices_string' :=
        substr indices_string (end_pos + 1)
               (size indices_string - end_pos - 1) in
      if end_pos =? -1 then Some strings'
      else split_loop fuel' indices_string' strings'
  end.

(** Lines 770-785: the characters of one factor, left to right;
    ['x'] gives 0, ['y'] gives 1, anything else prints a message and calls
    [exit(0)]. *)
Fixpoint factor_digits (s : string) (temp : list Z) : outcome (list Z) :=
  match s with
  | EmptyString => Returns temp
  | String single_char rest =>
      if Ascii.eqb single_char "x" then factor_digits rest (temp ++ [0])%list
      else if Ascii.eqb single_char "y" then factor_digits rest (temp ++ [1])%list
      else Exits 0
  end.

(** Lines 764-789: the factors, in order. *)
Fixpoint all_factors (strings : list string) (indices : list (list Z))
  : outcome (list (list Z)) :=
  match strings with
  | [] => Returns indices
  | s :: rest =>
      match factor_digits s [] with
      | Exits status => Exits status
      | Returns temp => all_factors rest (indices ++ [temp])%list
      end
  end.

(** [process_string]; [None] would mean that the splitting loop did not
    finish within [length + 1] iterations (it always does, see
    [split_loop_total]). *)
Definition process_string (indices_string : string)
  : option (outcome (list (list Z))) :=
  match split_loop (S (String.length indices_string)) indices_string [] with
  | None => None
  | Some strings => Some (all_factors strings [])
  end.

(** ** The direction encoding as the specification words it *)

(** Factors are separated by commas. *)
Fixpoint split_commas (s : string) : list string :=
  match s with
  | EmptyString => [EmptyString]
  | String c rest =>
      if Ascii.eqb c ","
      then EmptyString :: split_commas rest
      else match split_commas rest with
           | h :: t => String c h :: t
           | [] => [String c EmptyString]
           end
  end.

(** ['x' -> 0], ['y' -> 1], ['z' -> 2]. *)
Definition axis_of_spec (c : ascii) : Z :=
  if Ascii.eqb c "x" then 0 else if Ascii.eqb c "y" then 1 else 2.

Definition legal_spec (c : ascii) : bool :=
  Ascii.eqb c "x" || Ascii.eqb c "y" || Ascii.eqb c "z" || Ascii.eqb c ",".

Definition spec_process_string (s : string) : outcome (list (list Z)) :=
  if forallb legal_spec (list_ascii_of_string s)
  then Returns (map (fun f => map axis_of_spec (list_ascii_of_string f))
                    (split_commas s))
  else Exits 1.

(** What the code accepts: ['x'], ['y'] and the comma. *)
Definition legal_xy (c : ascii) : bool :=
  Ascii.eqb c "x" || Ascii.eqb c "y" || Ascii.eqb c ",".

Definition axis_xy (c : ascii) : Z :=
  if Ascii.eqb c "x" then 0 else 1.

(** Within one factor (no comma left) only ['x'] and ['y'] pass. *)
Definition legal_factor (c : ascii) : bool :=
  Ascii.eqb c "x" || Ascii.eqb c "y".

(** The value a call produces, if it returns at all. *)
Definition result_of {A} (o : outcome A) : option A :=
  match o with
  | Returns a => Some a
  | Exits _ => None
  end.

End Direction.

(** * [main] (main.cpp, lines 74-219) *)

Module Main.
Local Open Scope Z_scope.

(** The datasets [main] reads: [/IS_COMPLEX], [/PRECISION], [/DIM] and
    [/Hamiltonian/MagneticField] (0 when the dataset is absent). *)
Record config : Type := {
  is_complex : Z;
  precision : Z;
  dim : Z;
  MagneticField : Z
}.

(** [main]'s exit status.  [simulation index] is the outcome of
    constructing [GlobalSimulation<T,D> h(argv[1])] for the type selected
    by [index]; only the cases 1, 4, 12, 13 and 14 of the [switch] are
    compiled in, every other index reaches [default: exit(0)].  After the
    [switch], [main] ends with [return 1]. *)
Definition main (c : config) (simulation : Z -> outcome unit) : Z :=
  if (MagneticField c =? 1) && (is_complex c =? 0) then 1
  else if (dim c <? 1) || (dim c >? 3) then 0
  else if (precision c <? 0) || (precision c >? 2) then 0
  else if (is_complex c <? 0) || (is_complex c >? 1) then 0
  else
    let index := dim c - 1 + 3 * precision c + is_complex c * 3 * 3 in
    if (index =? 1) || (index =? 4) || (index =? 12) || (index =? 13)
       || (index =? 14)
    then match simulation index with
         | Exits status => status
         | Returns _ => 1
         end
    else 0.

(** A configuration error in the sense of the specification: a dimension
    outside 1..3, a precision outside 0..2, or a magnetic field together
    with real amplitudes. *)
Definition configuration_error (c : config) : bool :=
  (dim c <? 1) || (dim c >? 3) || (precision c <? 0) || (precision c >? 2)
  || ((MagneticField c =? 1) && (is_complex c =? 0)).

End Main.

(** * Arrays and loops *)

(** A block of memory: cells addressed by integers.  Eigen arrays and
    [std::vector]s are such blocks; reading or writing outside the
    allocated range, undefined in C++, is a plain access to the cell of that
    address here, and the properties below say which ranges they need. *)
Definition mem (T : Type) : Type := Z -> T.

Definition upd {T} (m : mem T) (a : Z) (x : T) : mem T :=
  fun b => if Z.eqb b a then x else m b.

(** [lo, lo+1, ..., hi-1], the values of [for(i = lo; i < hi; i++)]. *)
Definition Zrange (lo hi : Z) : list Z :=
  map (fun k => (lo + Z.of_nat k)%Z) (seq 0 (Z.to_nat (hi - lo))).

(** [lo, lo+step, ...] below [hi], the values of
    [for(i = lo; i < hi; i += step)] for a positive [step]. *)
Definition Zrange_step (lo hi step : Z) : list Z :=
  map (fun k => (lo + Z.of_nat k * step)%Z)
      (seq 0 (Z.to_nat ((hi - lo + step - 1) / step))).

(** A loop over the elements of [l], threading the state [s]. *)
Definition for_each {A S : Type} (l : list A) (body : A -> S -> S) (s : S) : S :=
  fold_left (fun s x => body x s) l s.

(** [v[i]] of a [std::vector] given as a list (0 outside, where C++ is
    undefined). *)
Definition at_ {A} (d : A) (l : list A) (i : Z) : A :=
  if (i <? 0)%Z then d else nth (Z.to_nat i) l d.

(** * Moment accumulators: Gamma1D, Gamma2D and the [store_gamma] family *)

Section Gamma.
Context {T : Type} `{ScalarField T}.
Local Open Scope Z_scope.

(** [#define MEMORY 10] (main.cpp, line 24). *)
Definition MEMORY : Z := 10.

(** Lines 44-47 of Gamma2D (and 297-300, 484-487, 545-548):
<<
    int num_velocities = 0;
    for(int i = 0; i < int(indices.size()); i++)
      num_velocities += indices.at(i).size();
    int factor = 1 - (num_velocities % 2)*2;
>> *)
Definition num_velocities (indices : list (list Z)) : Z :=
  for_each indices (fun ind acc => acc + Z.of_nat (length ind)) 0.

Definition factor_of (indices : list (list Z)) : Z :=
  1 - (Z.rem (num_velocities indices) 2) * 2.

(** Element [(r, c)] of a column-major Eigen array with [rows] rows, the
    layout of [Eigen::Map<...>(gamma->data(), rows, cols)]. *)
Definition entry (rows r c : Z) : Z := r + rows * c.

(** ** Gamma1D (lines 293-364) *)

(** Lines 343 and 353: the 1x2 block at column [m] absorbs the two dot
    products [tmp] of the current sample. *)
Definition Gamma1D_block (average : nat) (m : Z) (tmp : Z -> T) (gamma : mem T)
  : mem T :=
  let gamma := upd gamma m (welford_update average (gamma m) (tmp 0)) in
  upd gamma (m + 1) (welford_update average (gamma (m + 1)) (tmp 1)).

(** One random vector (lines 335-355): the block at column 0 (line 343),
    whatever [N_moments] is, then the blocks of the loop
    [for(int m = 2; m < N_moments; m += 2)] (lines 346-355).  [dots n]
    stands for the product of the bra with the [n]-th Chebyshev vector,
    which the two [Multiply] calls before each block produce in the two
    slots of [kpm1]. *)
Definition Gamma1D_sample (N_moments : Z) (average : nat) (dots : Z -> T)
           (gamma : mem T) : mem T :=
  let gamma := Gamma1D_block average 0 (fun k => dots (0 + k)) gamma in
  for_each (Zrange_step 2 N_moments 2)
           (fun m => Gamma1D_block average m (fun k => dots (m + k)))
           gamma.

(** The disorder and random-vector loops; [average] is incremented after
    each sample (line 358). *)
Fixpoint Gamma1D_samples (N_moments : Z) (average : nat)
         (samples : list (Z -> T)) (gamma : mem T) : mem T :=
  match samples with
  | [] => gamma
  | dots :: rest =>
      Gamma1D_samples N_moments (S average) rest
                      (Gamma1D_sample N_moments average dots gamma)
  end.

(** ** Gamma2D (lines 18-135) *)

(** Lines 121-126: the MEMORY x MEMORY block of products of the current
    sample goes into the flat array.
<<
    for(int j = 0; j < MEMORY; j++)
      for(int i = 0; i < MEMORY; i++){
        flatten = tmp(i,j);
        ind = (m+j)*N_moments.at(0) + n+i;
        gamma(ind) += (flatten - gamma(ind))/value_type(average + 1);
      }
>> *)
Definition Gamma2D_block (N0 : Z) (average : nat) (n m : Z) (tmp : Z -> Z -> T)
           (gamma : mem T) : mem T :=
  for_each (Zrange 0 MEMORY) (fun j =>
    for_each (Zrange 0 MEMORY) (fun i g =>
      let flatten := tmp i j in
      let ind := (m + j) * N0 + n + i in
      upd g ind (welford_update average (g ind) flatten)))
    gamma.

(** One random vector (lines 89-128): [dots a b] stands for the product
    of the [a]-th left vector with the [b]-th right vector. *)
Definition Gamma2D_sample (N0 N1 : Z) (average : nat) (dots : Z -> Z -> T)
           (gamma : mem T) : mem T :=
  for_each (Zrange_step 0 N0 MEMORY) (fun n =>
    for_each (Zrange_step 0 N1 MEMORY) (fun m =>
      Gamma2D_block N0 average n m (fun i j => dots (n + i) (m + j))))
    gamma.

Fixpoint Gamma2D_samples (N0 N1 : Z) (average : nat)
         (samples : list (Z -> Z -> T)) (gamma : mem T) : mem T :=
  match samples with
  | [] => gamma
  | dots :: rest =>
      Gamma2D_samples N0 N1 (S average) rest
                      (Gamma2D_sample N0 N1 average dots gamma)
  end.

(** [gamma = gamma*factor] (line 132). *)
Definition scale_array (factor : Z) (gamma : mem T) : mem T :=
  fun a => gamma a [*] of_Z factor.

(** [M.adjoint()]: conjugate transpose. *)
Definition adjoint (M : Z -> Z -> T) : Z -> Z -> T :=
  fun r c => myconj (M c r).

Definition two : T := of_nat 2.
Definition six : T := of_nat 6.

(** [store_gamma] (lines 468-527): what one thread adds to
    [Global.general_gamma], given as the matrix [Global]; the result is the
    matrix written to the file when the thread is alone. *)
Definition store_gamma (gamma : mem T) (N0 N1 : Z) (indices : list (list Z))
           (Global : Z -> Z -> T) : outcome (Z -> Z -> T) :=
  let factor := factor_of indices in
  match length indices with
  | 2%nat =>
      let general_gamma := fun r c => gamma (entry N0 r c) in
      Returns (fun r c =>
                 Global r c
                 [+] (general_gamma r c
                      [+] of_Z factor [*] adjoint general_gamma r c) [/] two)
  | 1%nat =>
      let general_gamma := fun r c => gamma (entry 1 r c) in
      Returns (fun r c => Global r c [+] general_gamma r c)
  | _ => Exits 1
  end.

(** The end of Gamma2D (lines 132-134) for an accumulated array [gamma];
    [Global.general_gamma] has just been zeroed by the master thread
    (line 493). *)
Definition Gamma2D_finish (gamma : mem T) (N0 N1 : Z)
           (indices : list (list Z)) : outcome (Z -> Z -> T) :=
  let factor := factor_of indices in
  let gamma := scale_array factor gamma in
  store_gamma gamma N0 N1 indices (fun _ _ => s0).

(** Gamma2D for one thread: the parity checks of lines 58-64, the sample
    loops on a zeroed array, and the end above. *)
Definition Gamma2D (N0 N1 : Z) (indices : list (list Z))
           (samples : list (Z -> Z -> T)) : outcome (Z -> Z -> T) :=
  if negb (Z.rem N0 2 =? 0) then Exits 1
  else if negb (Z.rem N1 2 =? 0) then Exits 1
  else
    let gamma := Gamma2D_samples N0 N1 0 samples (fun _ => s0) in
    Gamma2D_finish gamma N0 N1 indices.

(** The symmetrisation as the specification words it:
    [(mu + factor * mu^dagger)/2] on the accumulated running mean [mu]. *)
Definition spec_symmetrize2D (factor : Z) (mu : Z -> Z -> T) : Z -> Z -> T :=
  fun n m => (mu n m [+] of_Z factor [*] adjoint mu n m) [/] two.

(** ** store_gamma3D (lines 529-637) *)

(** [indices.at(i) == indices.at(j)] on [std::vector<unsigned>]. *)
Definition vec_eqb (a b : list Z) : bool :=
  if list_eq_dec Z.eq_dec a b then true else false.

(** [storage_gamma(r, c) += x] on an array with [rows] rows. *)
Definition add_entry (rows : Z) (storage : mem T) (r c : Z) (x : T) : mem T :=
  upd storage (entry rows r c) (storage (entry rows r c) [+] x).

(** The three nested loops over [n], [m], [p] of lines 564-576 and their
    copies. *)
Definition for_nmp (N0 N1 N2 : Z) (body : Z -> Z -> Z -> mem T -> mem T)
           (storage : mem T) : mem T :=
  for_each (Zrange 0 N0) (fun n =>
    for_each (Zrange 0 N1) (fun m =>
      for_each (Zrange 0 N2) (fun p => body n m p)))
    storage.

Definition store_gamma3D (gamma : mem T) (N0 N1 N2 : Z)
           (indices : list (list Z)) : outcome (mem T) :=
  let factor := factor_of indices in
  let rows := N0 * N1 in
  let general_gamma := fun r c => gamma (entry rows r c) in
  let add := add_entry rows in
  let i0 := nth 0 indices [] in
  let i1 := nth 1 indices [] in
  let i2 := nth 2 indices [] in
  let storage_gamma : mem T := fun _ => s0 in
  match length indices with
  | 3%nat =>
      (* all the directions are the same *)
      let storage_gamma :=
        if vec_eqb i0 i1 && vec_eqb i0 i2 then
          for_nmp N0 N1 N2 (fun n m p s =>
            let s := add s (n + N0*m) p (general_gamma (n + N0*m) p [/] six) in
            let s := add s (n + N0*m) p (general_gamma (m + N0*p) n [/] six) in
            let s := add s (n + N0*m) p (general_gamma (p + N0*n) m [/] six) in
            let s := add s (n + N0*m) p
                         (of_Z factor [/] six [*] myconj (general_gamma (p + N0*m) n)) in
            let s := add s (n + N0*m) p
                         (of_Z factor [/] six [*] myconj (general_gamma (n + N0*p) m)) in
            add s (n + N0*m) p
                (of_Z factor [/] six [*] myconj (general_gamma (m + N0*n) p)))
            storage_gamma
        else storage_gamma in
      (* the two first directions are the same, the third differs *)
      let storage_gamma :=
        if vec_eqb i0 i1 && negb (vec_eqb i0 i2) && (N1 =? N2) then
          for_nmp N0 N1 N2 (fun n m p s =>
            let s := add s (n + N0*m) p (general_gamma (n + N0*m) p [/] two) in
            add s (n + N0*m) p
                (of_Z factor [/] two [*] myconj (general_gamma (n + N0*p) m)))
            storage_gamma
        else storage_gamma in
      (* the first and last directions are the same, the second differs *)
      let storage_gamma :=
        if vec_eqb i0 i2 && negb (vec_eqb i0 i1) && (N0 =? N2) then
          for_nmp N0 N1 N2 (fun n m p s =>
            let s := add s (n + N0*m) p (general_gamma (n + N0*m) p [/] two) in
            add s (n + N0*m) p
                (of_Z factor [/] two [*] myconj (general_gamma (m + N0*n) p)))
            storage_gamma
        else storage_gamma in
      (* the last two directions are the same, the first differs *)
      let storage_gamma :=
        if vec_eqb i2 i1 && negb (vec_eqb i0 i2) && (N0 =? N1) then
          for_nmp N0 N1 N2 (fun n m p s =>
            let s := add s (n + N0*m) p (general_gamma (n + N0*m) p [/] two) in
            add s (n + N0*m) p
                (of_Z factor [/] two [*] myconj (general_gamma (p + N0*m) n)))
            storage_gamma
        else storage_gamma in
      (* all the directions are different *)
      let storage_gamma :=
        if negb (vec_eqb i0 i1) && negb (vec_eqb i0 i2) && negb (vec_eqb i1 i2)
        then fun a => storage_gamma a [+] gamma a
        else storage_gamma in
      Returns storage_gamma
  | _ => Exits 1
  end.

(** [G_abc], the element of the flat 3D array at [a + N0*b + N0*N1*c]. *)
Definition G3 (gamma : mem T) (N0 N1 : Z) (a b c : Z) : T :=
  gamma (a + N0 * b + N0 * N1 * c).

End Gamma.

(** * KPM vectors: [KPM_VectorBasis], [KPM_Vector<T,2>] *)

(** [#define NGHOSTS 2] (main.cpp, line 26). *)
Definition NGHOSTS : Z := 2.

Section KPM.
Context {T : Type} `{Scalar T}.
Local Open Scope Z_scope.

(** ** The data [Multiply] reads

    [LatticeStructure], [Hamiltonian] and [Coordinates] are declared in
    headers outside the sources at hand; the records below hold the members
    that KPM_Vector2D.hpp reads, as it reads them. *)

(** [LatticeStructure<2>]: [Ld] is the domain of the thread with its
    ghosts, [ld] without them, [lStr[0]] the number of tiles along axis 0,
    [Sized] the number of rows of [v].  [convertCoordinates] is given by the
    two global coordinates it computes for a local index. *)
Record LatticeStructure : Type := {
  Ld0 : Z;
  Ld1 : Z;
  ld1 : Z;
  Orb : Z;
  lStr0 : Z;
  Nd : Z;
  Sized : Z;
  vect_pot : Z -> Z -> T;
  convertCoordinates : Z -> Z * Z
}.

(** [Coordinates<_,3> x(r.Ld)]: [x.basis[1]] and [x.basis[2]], the strides
    of axis 1 and of the orbital in [x.set({i0, i1, io}).index]. *)
Definition basis1 (r : LatticeStructure) : Z := Ld0 r.
Definition basis2 (r : LatticeStructure) : Z := Ld0 r * Ld1 r.
Definition set_index (r : LatticeStructure) (i0 i1 io : Z) : Z :=
  i0 + i1 * basis1 r + io * basis2 r.

(** One structural-disorder pattern (an element of [h.hd]). *)
Record Defect : Type := {
  position : Z -> list Z;
  node_position : list Z;
  element1 : list Z;
  element2 : list Z;
  hopping : list T;
  element : list Z;
  U : list T;
  border_element1 : list Z;
  border_element2 : list Z;
  border_hopping : list T;
  border_element : list Z;
  border_U : list T
}.

(** [Hamiltonian<T,2>]: the regular part [hr], the Anderson tables, the
    patterns [hd], the vacancies [hV] and the tile flags.  [NHoppings], [t]
    and [d] are the accessors [Multiply2] calls on [h] itself. *)
Record Hamiltonian : Type := {
  cross_mozaic_indexes : list Z;
  cross_mozaic : Z -> bool;
  Anderson_orb_address : Z -> Z;
  U_Anderson : Z -> T;
  U_Orbital : Z -> T;
  hr_NHoppings : Z -> Z;
  hr_distance : Z -> Z -> Z;
  hr_hopping : Z -> Z -> T;
  hr_dist : Z -> Z -> Z;
  hd : list Defect;
  hV_position : Z -> list Z;
  vacancies_with_defects : list Z;
  NHoppings : Z -> Z;
  t : Z -> Z -> T;
  d : Z -> Z -> Z
}.

(** ** The ring buffer *)

(** What one thread owns: its lattice and Hamiltonian, the neighbour ids
    [block[d][b]], the ring buffer [v] of [memory] columns with its rotating
    [index], and the staging array [simul.ghosts]. *)
Record Thread : Type := {
  r : LatticeStructure;
  h : Hamiltonian;
  block : Z -> Z -> Z;
  memory : Z;
  index : Z;
  v : mem T;
  ghosts : mem T
}.

Definition with_vector (th : Thread) (index' : Z) (v' : mem T) : Thread :=
  {| r := r th; h := h th; block := block th; memory := memory th;
     index := index'; v := v'; ghosts := ghosts th |}.

Definition with_ghosts (th : Thread) (ghosts' : mem T) : Thread :=
  {| r := r th; h := h th; block := block th; memory := memory th;
     index := index th; v := v th; ghosts := ghosts' |}.

(** [v.col(k).data()]: the offset of column [k] in the storage of [v]. *)
Definition col (r : LatticeStructure) (k : Z) : Z := k * Sized r.

(** [void inc_index() {index = (index + 1) % memory;}]
    (KPM_Vector.hpp, line 18). *)
Definition inc_index (memory index : Z) : Z := Z.rem (index + 1) memory.

(** ** Statements on the new slot *)

(** [phi0[i] = - value_type(MULT) * phiM2[i]]. *)
Definition init_cell (MULT phi0 phiM2 i : Z) (v : mem T) : mem T :=
  upd v (phi0 + i) ([-] of_Z MULT [*] v (phiM2 + i)).

(** [phi0[i] += a * phiM1[k] * b]. *)
Definition add_cell (phi0 phiM1 i : Z) (a : T) (k : Z) (b : T) (v : mem T)
  : mem T :=
  upd v (phi0 + i) (v (phi0 + i) [+] a [*] v (phiM1 + k) [*] b).

(** [phi0[i] += a * b * phiM1[k] * c]. *)
Definition add_cell3 (phi0 phiM1 i : Z) (a b : T) (k : Z) (c : T) (v : mem T)
  : mem T :=
  upd v (phi0 + i) (v (phi0 + i) [+] a [*] b [*] v (phiM1 + k) [*] c).

(** [phi0[i] += a * b * phiM1[k]]. *)
Definition add_cell2 (phi0 phiM1 i : Z) (a b : T) (k : Z) (v : mem T)
  : mem T :=
  upd v (phi0 + i) (v (phi0 + i) [+] a [*] b [*] v (phiM1 + k)).

(** [phi0[i] = 0.]. *)
Definition zero_cell (phi0 i : Z) (v : mem T) : mem T :=
  upd v (phi0 + i) s0.

Variable STRIDE : Z.

(** The loops over one STRIDE x STRIDE tile starting at [j0]:
<<
    for(std::size_t j = j0; j < j1; j += std )
      for(std::size_t i = j; i < j + STRIDE ; i++)
>>
    with [j1 = j0 + STRIDE * std]. *)
Definition for_tile {S : Type} (r : LatticeStructure) (j0 : Z)
           (body : Z -> Z -> S -> S) (s : S) : S :=
  let std := basis1 r in
  let j1 := j0 + STRIDE * std in
  for_each (Zrange_step j0 j1 std) (fun j =>
    for_each (Zrange j (j + STRIDE)) (fun i => body j i))
    s.

(** ** Peierls phases *)

(** Modelled from the spec: [Coordinates::set_coord] is not among the
    sources; a site index packs the coordinates with axis 0 fastest and the
    orbital slowest.  For [b3] (dimensions 3, 3, Orb), after
    [b3.set_coord(h.hr.dist(ib,io)); vee.array() -= 1;], [vee(0)] is *)
Definition vee0 (dist : Z) : Z := Z.rem dist 3 - 1.

(** Lines 180-181: [r.convertCoordinates(global, local1.set_coord(j));
    phase = vee(0)*global.coord[1]*r.vect_pot(0,1);]. *)
Definition hopping_phase (r : LatticeStructure) (dist j : Z) : T :=
  of_Z (vee0 dist * snd (convertCoordinates r j)) [*] vect_pot r 0 1.

(** Lines 204-207 (and 243-246):
<<
    r.convertCoordinates(global1, local1.set_coord(k1));
    r.convertCoordinates(global2, local1.set_coord(k2));
    temp_vect = (v_global2 - v_global1).template cast<double>().matrix().transpose();
    phase = temp_vect*r.vect_pot*v_global1.template cast<double>().matrix();
>> *)
Definition bond_phase (r : LatticeStructure) (k1 k2 : Z) : T :=
  let g1 := convertCoordinates r k1 in
  let g2 := convertCoordinates r k2 in
  let t0 := of_Z (fst g2 - fst g1) in
  let t1 := of_Z (snd g2 - snd g1) in
  (t0 [*] vect_pot r 0 0 [+] t1 [*] vect_pot r 1 0) [*] of_Z (fst g1)
  [+] (t0 [*] vect_pot r 0 1 [+] t1 [*] vect_pot r 1 1) [*] of_Z (snd g1).

(** ** [Multiply] (KPM_Vector2D.hpp, lines 80-262), before the exchange *)

Section MultiplyBody.
Variable MULT : Z.
Variable r_ : LatticeStructure.
Variable h_ : Hamiltonian.
Variables phi0 phiM1 phiM2 : Z.

(** Lines 116-131: the tiles listed in [cross_mozaic_indexes]. *)
Definition initialize_cross_tiles (v : mem T) : mem T :=
  for_each (cross_mozaic_indexes h_) (fun istr =>
    let i0 := Z.rem istr (lStr0 r_) * STRIDE + NGHOSTS in
    let i1 := Z.quot istr (lStr0 r_) * STRIDE + NGHOSTS in
    for_each (Zrange 0 (Orb r_)) (fun io =>
      let ip := io * basis2 r_ in
      let std := basis1 r_ in
      let j0 := ip + i0 + i1 * std in
      for_tile r_ j0 (fun j i => init_cell MULT phi0 phiM2 i)))
    v.

(** Lines 147-154, "Initialize phi0": [if(h.cross_mozaic.at(istr))]. *)
Definition orbital_init (j0 istr : Z) (v : mem T) : mem T :=
  if cross_mozaic h_ istr
  then for_tile r_ j0 (fun j i => init_cell MULT phi0 phiM2 i) v
  else v.

(** Lines 156-168, "Anderson disorder". *)
Definition orbital_onsite (j0 io : Z) (v : mem T) : mem T :=
  let dd := (Anderson_orb_address h_ io - io) * Nd r_ in
  if Anderson_orb_address h_ io >=? 0 then
    for_tile r_ j0 (fun j i =>
      add_cell phi0 phiM1 i (of_Z (MULT + 1)) i (U_Anderson h_ (i - dd))) v
  else if Anderson_orb_address h_ io =? -1 then
    for_tile r_ j0 (fun j i =>
      add_cell phi0 phiM1 i (of_Z (MULT + 1)) i (U_Orbital h_ io)) v
  else v.

(** Lines 170-187, "Hoppings". *)
Definition orbital_hoppings (j0 io : Z) (v : mem T) : mem T :=
  for_each (Zrange 0 (hr_NHoppings h_ io)) (fun ib =>
    let d1 := hr_distance h_ ib io in
    let t1 := of_Z (MULT + 1) [*] hr_hopping h_ ib io in
    for_tile r_ j0 (fun j i =>
      let phase := hopping_phase r_ (hr_dist h_ ib io) j in
      add_cell phi0 phiM1 i t1 (i + d1) (peierls2 phase)))
    v.

(** Lines 139-188: one orbital of one tile. *)
Definition tile_orbital (i0 i1 istr io : Z) (v : mem T) : mem T :=
  let ip := io * basis2 r_ in
  let std := basis1 r_ in
  let j0 := ip + i0 + i1 * std in
  let v := orbital_init j0 istr v in
  let v := orbital_onsite j0 io v in
  orbital_hoppings j0 io v.

(** Lines 193-216: the patterns anchored in the tile [istr]. *)
Definition tile_defects (istr : Z) (v : mem T) : mem T :=
  for_each (hd h_) (fun id =>
    for_each (position id istr) (fun ip v =>
      let v :=
        for_each (Zrange 0 (Z.of_nat (length (hopping id)))) (fun k =>
          let k1 := ip + at_ 0 (node_position id) (at_ 0 (element1 id) k) in
          let k2 := ip + at_ 0 (node_position id) (at_ 0 (element2 id) k) in
          let phase := bond_phase r_ k1 k2 in
          add_cell3 phi0 phiM1 k1 (of_Z (MULT + 1)) (at_ s0 (hopping id) k) k2
                    (peierls2 phase))
          v in
      for_each (Zrange 0 (Z.of_nat (length (U id)))) (fun k =>
        let k1 := ip + at_ 0 (node_position id) (at_ 0 (element id) k) in
        add_cell2 phi0 phiM1 k1 (of_Z (MULT + 1)) (at_ s0 (U id) k) k1)
        v))
    v.

(** Lines 219-221: the vacancies of the tile. *)
Definition tile_vacancies (istr : Z) (v : mem T) : mem T :=
  for_each (hV_position h_ istr) (fun k => zero_cell phi0 k) v.

(** Lines 133-223: the sweep over the tiles. *)
Definition tile_sweep (v : mem T) : mem T :=
  for_each (Zrange_step NGHOSTS (Ld1 r_ - NGHOSTS) STRIDE) (fun i1 =>
    for_each (Zrange_step NGHOSTS (Ld0 r_ - NGHOSTS) STRIDE) (fun i0 v =>
      let istr :=
        Z.quot (i1 - NGHOSTS) STRIDE * lStr0 r_ + Z.quot (i0 - NGHOSTS) STRIDE in
      let v := for_each (Zrange 0 (Orb r_)) (tile_orbital i0 i1 istr) v in
      let v := tile_defects istr v in
      tile_vacancies istr v))
    v.

(** Lines 225-226. *)
Definition zero_vacancies_with_defects (v : mem T) : mem T :=
  for_each (vacancies_with_defects h_) (fun vc => zero_cell phi0 vc) v.

(** Lines 236-249: the bonds broken by the domain border. *)
Definition border_bonds (v : mem T) : mem T :=
  for_each (hd h_) (fun id =>
    for_each (Zrange 0 (Z.of_nat (length (border_element1 id)))) (fun i =>
      let i1 := at_ 0 (border_element1 id) i in
      let i2 := at_ 0 (border_element2 id) i in
      let phase := bond_phase r_ i1 i2 in
      add_cell3 phi0 phiM1 i1 (of_Z (MULT + 1)) (at_ s0 (border_hopping id) i)
                i2 (peierls2 phase)))
    v.

(** Lines 251-256: the on-site terms of the broken patterns. *)
Definition border_onsite (v : mem T) : mem T :=
  for_each (hd h_) (fun id =>
    for_each (Zrange 0 (Z.of_nat (length (border_element id)))) (fun i =>
      let i1 := at_ 0 (border_element id) i in
      add_cell2 phi0 phiM1 i1 (of_Z (MULT + 1)) (at_ s0 (border_U id) i) i1))
    v.

(** Lines 116-256 in order. *)
Definition Multiply_sweep (v : mem T) : mem T :=
  let v := initialize_cross_tiles v in
  let v := tile_sweep v in
  let v := zero_vacancies_with_defects v in
  let v := border_bonds v in
  border_onsite v.

(** Lines 502-510 of [Multiply2]. *)
Definition Multiply2_sweep (v : mem T) : mem T :=
  for_each (Zrange 0 (Orb r_)) (fun io =>
    for_each (Zrange NGHOSTS (Ld1 r_ - NGHOSTS)) (fun iy =>
      for_each (Zrange NGHOSTS (Ld0 r_ - NGHOSTS)) (fun ix v =>
        let i := ix + iy * Ld0 r_ + io * Nd r_ in
        let v := init_cell MULT phi0 phiM2 i v in
        for_each (Zrange 0 (NHoppings h_ io)) (fun ib =>
          add_cell2 phi0 phiM1 i (of_Z (MULT + 1)) (t h_ ib io) (i + d h_ ib io))
          v)))
    v.

End MultiplyBody.

(** Lines 110-113 (and 497-500): the index advances, then the three column
    pointers are taken. *)
Definition phi0_of (th : Thread) : Z :=
  col (r th) (inc_index (memory th) (index th)).
Definition phiM1_of (th : Thread) : Z :=
  col (r th)
      (Z.rem (memory th + inc_index (memory th) (index th) - 1) (memory th)).
Definition phiM2_of (th : Thread) : Z :=
  col (r th)
      (Z.rem (memory th + inc_index (memory th) (index th) - 2) (memory th)).

(** [Multiply<MULT>] up to the call of [Exchange_Boundaries]. *)
Definition Multiply_local (MULT : Z) (th : Thread) : Thread :=
  with_vector th (inc_index (memory th) (index th))
              (Multiply_sweep MULT (r th) (h th)
                              (phi0_of th) (phiM1_of th) (phiM2_of th) (v th)).

(** [Multiply2<MULT>] up to the call of [Exchange_Boundaries]. *)
Definition Multiply2_local (MULT : Z) (th : Thread) : Thread :=
  with_vector th (inc_index (memory th) (index th))
              (Multiply2_sweep MULT (r th) (h th)
                               (phi0_of th) (phiM1_of th) (phiM2_of th) (v th)).

(** ** [Exchange_Boundaries] (lines 517-579) *)

(** The members set by the constructor (lines 28-47).  [MemIndBeg] and
    [MemIndEnd] are declared [std::size_t MemIndBeg[2][2][2]] (lines 6-7):
    axis, side, orbital.  The constructor stores the entry [d][b][io] for
    every [io < r.Orb]; the tables hold the entries of two orbitals, so that
    the stores and the reads of the exchange stay within them when there are
    at most two orbitals, which is what [index_tables_fit] says.  The
    definitions give the entry [d][b][io] the constructor computes; every
    statement that depends on what the exchange does with the tables asks
    for [index_tables_fit]. *)
Definition index_tables_fit (r : LatticeStructure) : Prop := Orb r <= 2.

Definition max_ (r : LatticeStructure) (d : Z) : Z :=
  if d =? 0 then ld1 r else Ld0 r.
Definition stride (r : LatticeStructure) (d : Z) : Z :=
  if d =? 0 then Ld0 r else 1.
Definition stride_ghosts (r : LatticeStructure) (d : Z) : Z :=
  if d =? 0 then 1 else Ld0 r.
Definition MemIndBeg (r : LatticeStructure) (d b io : Z) : Z :=
  if d =? 0 then
    if b =? 0 then set_index r NGHOSTS NGHOSTS io
    else set_index r (Ld0 r - 2 * NGHOSTS) NGHOSTS io
  else
    if b =? 0 then set_index r 0 NGHOSTS io
    else set_index r 0 (Ld1 r - 2 * NGHOSTS) io.
Definition MemIndEnd (r : LatticeStructure) (d b io : Z) : Z :=
  if d =? 0 then
    if b =? 0 then set_index r 0 NGHOSTS io
    else set_index r (Ld0 r - NGHOSTS) NGHOSTS io
  else
    if b =? 0 then set_index r 0 0 io
    else set_index r 0 (Ld1 r - NGHOSTS) io.

Definition BSize (r : LatticeStructure) (d : Z) : Z :=
  Orb r * max_ r d * NGHOSTS.

(** The three nested loops of lines 534-550 and 561-577; [il] and [ir],
    advanced by [stride[d]] at the end of each iteration of [i], are
    [MemInd...[d][0][io] + i * stride[d]] and
    [MemInd...[d][1][io] + i * stride[d]]. *)
Definition for_faces {S : Type} (r : LatticeStructure) (d : Z)
           (body : Z -> Z -> Z -> S -> S) (s : S) : S :=
  for_each (Zrange 0 (Orb r)) (fun io =>
    for_each (Zrange 0 (max_ r d)) (fun i =>
      for_each (Zrange 0 NGHOSTS) (fun ig => body io i ig)))
    s.

(** Lines 534-550: the two bulk faces go to the staging array
    ([ghosts_left] at offset 0, [ghosts_right] at offset [BSize]). *)
Definition pack_faces (d : Z) (th : Thread) : Thread :=
  let r := r th in
  let phi := col r (index th) in
  with_ghosts th
    (for_faces r d (fun io i ig g =>
       let il := MemIndBeg r d 0 io + i * stride r d in
       let ir := MemIndBeg r d 1 io + i * stride r d in
       let g := upd g (0 + (i + (ig + NGHOSTS * io) * max_ r d))
                    (v th (phi + (il + ig * stride_ghosts r d))) in
       upd g (BSize r d + (i + (ig + NGHOSTS * io) * max_ r d))
           (v th (phi + (ir + ig * stride_ghosts r d))))
       (ghosts th)).

(** [std::copy(first, first + n, result)] between two arrays. *)
Definition copy_block (src : mem T) (first n : Z) (dst : mem T) (result : Z)
  : mem T :=
  for_each (Zrange 0 n) (fun k m => upd m (result + k) (src (first + k))) dst.

(** Line 553: the staging array goes to the slot of the thread in
    [simul.Global.ghosts]. *)
Definition publish_faces (d : Z) (thread_id : Z) (th : Thread) (Global : mem T)
  : mem T :=
  copy_block (ghosts th) 0 (2 * BSize (r th) d) Global
             (2 * BSize (r th) d * thread_id).

(** Lines 555-558: the slices of the two neighbours come back. *)
Definition fetch_faces (d : Z) (Global : mem T) (th : Thread) : Thread :=
  let B := BSize (r th) d in
  let neigh_left := 2 * block th d 0 * B in
  let neigh_right := 2 * block th d 1 * B in
  let g := copy_block Global neigh_right B (ghosts th) B in
  let g := copy_block Global (neigh_left + B) B g 0 in
  with_ghosts th g.

(** Lines 561-577: the staging array goes to the two ghost faces. *)
Definition unpack_faces (d : Z) (th : Thread) : Thread :=
  let r := r th in
  let phi := col r (index th) in
  with_vector th (index th)
    (for_faces r d (fun io i ig w =>
       let il := MemIndEnd r d 0 io + i * stride r d in
       let ir := MemIndEnd r d 1 io + i * stride r d in
       let w := upd w (phi + (il + ig * stride_ghosts r d))
                    (ghosts th (0 + (i + (ig + NGHOSTS * io) * max_ r d))) in
       upd w (phi + (ir + ig * stride_ghosts r d))
           (ghosts th (BSize r d + (i + (ig + NGHOSTS * io) * max_ r d))))
       (v th)).

(** The threads of the parallel region, thread [k] at position [k], and
    the shared array [simul.Global.ghosts]. *)
Definition System : Type := (list Thread * mem T)%type.

(** The threads numbered by their ids. *)
Definition numbered (ths : list Thread) : list (Z * Thread) :=
  combine (Zrange 0 (Z.of_nat (length ths))) ths.

(** One axis of the exchange.  Between two barriers the threads work on
    disjoint data: every thread packs and publishes, then (barrier, line
    554) every thread fetches, then (barrier, line 560) every thread
    unpacks. *)
Definition exchange_axis (d : Z) (sys : System) : System :=
  let (ths, Global) := sys in
  let ths := map (pack_faces d) ths in
  let Global :=
    for_each (numbered ths) (fun it G => publish_faces d (fst it) (snd it) G)
             Global in
  let ths := map (fetch_faces d Global) ths in
  let ths := map (unpack_faces d) ths in
  (ths, Global).

(** [for(unsigned d = 0; d < 2; d++)]. *)
Definition Exchange_Boundaries (sys : System) : System :=
  for_each (Zrange 0 2) exchange_axis sys.

(** [Multiply<MULT>()] and [Multiply2<MULT>()], called by every thread of
    the parallel region. *)
Definition Multiply (MULT : Z) (sys : System) : System :=
  Exchange_Boundaries (map (Multiply_local MULT) (fst sys), snd sys).

Definition Multiply2 (MULT : Z) (sys : System) : System :=
  Exchange_Boundaries (map (Multiply2_local MULT) (fst sys), snd sys).

End KPM.

Arguments LatticeStructure T : clear implicits.
Arguments Defect T : clear implicits.
Arguments Hamiltonian T : clear implicits.
Arguments Thread T : clear implicits.
Arguments System T : clear implicits.

(** * The Hamiltonian as a sparse matrix, and well-formed inputs *)

Section KPMSpec.
Context {T : Type} `{Scalar T}.
Local Open Scope Z_scope.

Variable STRIDE : Z.

(** ** Sites and tiles *)

(** The coordinates packed in a site index of the thread domain. *)
Definition coord0 (r : LatticeStructure T) (i : Z) : Z := Z.rem i (Ld0 r).
Definition coord1 (r : LatticeStructure T) (i : Z) : Z :=
  Z.rem (Z.quot i (Ld0 r)) (Ld1 r).
Definition coord_orb (r : LatticeStructure T) (i : Z) : Z :=
  Z.quot i (Ld0 r * Ld1 r).

(** A cell of the slot, and a bulk (non-ghost) site. *)
Definition in_slot (r : LatticeStructure T) (i : Z) : Prop :=
  0 <= i < Sized r.

Definition bulk (r : LatticeStructure T) (i : Z) : Prop :=
  in_slot r i
  /\ NGHOSTS <= coord0 r i < Ld0 r - NGHOSTS
  /\ NGHOSTS <= coord1 r i < Ld1 r - NGHOSTS.

(** The number of the tile of a bulk site, as line 137 computes it from the
    tile origin. *)
Definition tile_of (r : LatticeStructure T) (i : Z) : Z :=
  Z.quot (coord1 r i - NGHOSTS) STRIDE * lStr0 r
  + Z.quot (coord0 r i - NGHOSTS) STRIDE.

(** The number of tiles along axis 1, and the tile numbers. *)
Definition lStr1 (r : LatticeStructure T) : Z :=
  Z.quot (Ld1 r - 2 * NGHOSTS) STRIDE.

Definition valid_tile (r : LatticeStructure T) (istr : Z) : Prop :=
  0 <= istr < lStr0 r * lStr1 r.

(** The tile numbers in the order of the sweep (lines 133-137). *)
Definition sweep_tiles (r : LatticeStructure T) : list Z :=
  flat_map (fun i1 =>
    map (fun i0 =>
           Z.quot (i1 - NGHOSTS) STRIDE * lStr0 r
           + Z.quot (i0 - NGHOSTS) STRIDE)
        (Zrange_step NGHOSTS (Ld0 r - NGHOSTS) STRIDE))
    (Zrange_step NGHOSTS (Ld1 r - NGHOSTS) STRIDE).

(** ** The Hamiltonian in coordinate form *)

(** A matrix element: row, column, value. *)
Definition term : Type := (Z * Z * T)%type.
Definition row (e : term) : Z := fst (fst e).
Definition column (e : term) : Z := snd (fst e).
Definition coefficient (e : term) : T := snd e.

(** Row [i] of the product of a matrix, given by its elements, with a
    vector. *)
Definition matvec (A : list term) (psi : Z -> T) (i : Z) : T :=
  ssum (map (fun e => coefficient e [*] psi (column e))
            (filter (fun e => row e =? i) A)).

(** The on-site energy of the site [i] of orbital [io]: per site, per
    orbital, or none. *)
Definition onsite_energy (r : LatticeStructure T) (h : Hamiltonian T) (io i : Z)
  : T :=
  if Anderson_orb_address h io >=? 0
  then U_Anderson h (i - (Anderson_orb_address h io - io) * Nd r)
  else if Anderson_orb_address h io =? -1 then U_Orbital h io
  else s0.

(** The regular part of row [i]: the on-site energy and the hoppings of the
    orbital, each with its Peierls factor at the site. *)
Definition regular_terms (r : LatticeStructure T) (h : Hamiltonian T) (i : Z)
  : list term :=
  let io := coord_orb r i in
  (i, i, onsite_energy r h io i)
  :: map (fun ib =>
            (i, i + hr_distance h ib io,
             hr_hopping h ib io
             [*] peierls2 (hopping_phase r (hr_dist h ib io) i)))
         (Zrange 0 (hr_NHoppings h io)).

(** The elements of one pattern placed at the anchor [ip]. *)
Definition defect_terms (r : LatticeStructure T) (id : Defect T) (ip : Z)
  : list term :=
  map (fun k =>
         let k1 := ip + at_ 0 (node_position id) (at_ 0 (element1 id) k) in
         let k2 := ip + at_ 0 (node_position id) (at_ 0 (element2 id) k) in
         (k1, k2, at_ s0 (hopping id) k [*] peierls2 (bond_phase r k1 k2)))
      (Zrange 0 (Z.of_nat (length (hopping id))))
  ++ map (fun k =>
            let k1 := ip + at_ 0 (node_position id) (at_ 0 (element id) k) in
            (k1, k1, at_ s0 (U id) k))
         (Zrange 0 (Z.of_nat (length (U id)))).

(** The patterns anchored in one tile, and in all the tiles. *)
Definition tile_terms (r : LatticeStructure T) (h : Hamiltonian T) (istr : Z)
  : list term :=
  flat_map (fun id => flat_map (defect_terms r id) (position id istr)) (hd h).

Definition structural_terms (r : LatticeStructure T) (h : Hamiltonian T)
  : list term :=
  flat_map (tile_terms r h) (sweep_tiles r).

(** The bonds and on-site terms of the patterns broken by the domain
    border. *)
Definition border_terms (r : LatticeStructure T) (h : Hamiltonian T) : list term :=
  flat_map (fun id =>
    map (fun i =>
           let i1 := at_ 0 (border_element1 id) i in
           let i2 := at_ 0 (border_element2 id) i in
           (i1, i2,
            at_ s0 (border_hopping id) i [*] peierls2 (bond_phase r i1 i2)))
        (Zrange 0 (Z.of_nat (length (border_element1 id)))))
    (hd h)
  ++ flat_map (fun id =>
       map (fun i =>
              let i1 := at_ 0 (border_element id) i in
              (i1, i1, at_ s0 (border_U id) i))
           (Zrange 0 (Z.of_nat (length (border_element id)))))
       (hd h).

(** A vacancy: a site of the list of its tile or of
    [vacancies_with_defects]. *)
Definition is_vacancy (r : LatticeStructure T) (h : Hamiltonian T) (i : Z) : bool :=
  existsb (Z.eqb i) (vacancies_with_defects h)
  || existsb (Z.eqb i) (hV_position h (tile_of r i)).

(** [(H psi)(i)] for the bulk Hamiltonian: regular and structural parts. *)
Definition H_bulk (r : LatticeStructure T) (h : Hamiltonian T) (psi : Z -> T)
           (i : Z) : T :=
  matvec (regular_terms r h i) psi i [+] matvec (structural_terms r h) psi i.

(** What [Multiply<MULT>] leaves at the bulk site [i] of the new slot:
    zero at a vacancy and [(MULT+1) H psi1 - MULT psi2] elsewhere, plus the
    terms of the broken patterns, which are added last. *)
Definition Multiply_value (MULT : Z) (r : LatticeStructure T) (h : Hamiltonian T)
           (psi1 psi2 : Z -> T) (i : Z) : T :=
  (if is_vacancy r h i then s0
   else [-] of_Z MULT [*] psi2 i [+] of_Z (MULT + 1) [*] H_bulk r h psi1 i)
  [+] of_Z (MULT + 1) [*] matvec (border_terms r h) psi1 i.

(** The recursion as the specification words it, with every term of [H]
    applied before the vacancies are zeroed:
    [(MULT+1) H psi1 - MULT psi2] off the vacancies, zero on them. *)
Definition spec_Multiply_value (MULT : Z) (r : LatticeStructure T)
           (h : Hamiltonian T) (psi1 psi2 : Z -> T) (i : Z) : T :=
  if is_vacancy r h i then s0
  else of_Z (MULT + 1)
       [*] (H_bulk r h psi1 i [+] matvec (border_terms r h) psi1 i)
       [-] of_Z MULT [*] psi2 i.

(** ** Well-formed inputs *)

(** The geometry: positive tile side, bulk extents that are multiples of
    it (the comment of lines 84-85), the strides of the site index. *)
Record lattice_ok (r : LatticeStructure T) : Prop := {
  ok_stride : 0 < STRIDE;
  ok_lStr0 : 0 <= lStr0 r;
  ok_Ld0 : Ld0 r = 2 * NGHOSTS + lStr0 r * STRIDE;
  ok_lStr1 : 0 <= lStr1 r;
  ok_Ld1 : Ld1 r = 2 * NGHOSTS + lStr1 r * STRIDE;
  ok_ld1 : ld1 r = Ld1 r - 2 * NGHOSTS;
  ok_Orb : 0 <= Orb r;
  ok_Nd : Nd r = Ld0 r * Ld1 r;
  ok_Sized : Sized r = Ld0 r * Ld1 r * Orb r;
  ok_row : forall i k,
      0 <= coord0 r i -> 0 <= k -> coord0 r i + k < Ld0 r -> 0 <= i ->
      snd (convertCoordinates r (i + k)) = snd (convertCoordinates r i)
}.

(** The targets and sources of a list of matrix elements lie in the slot. *)
Definition terms_in_slot (r : LatticeStructure T) (A : list term) : Prop :=
  forall e, In e A -> in_slot r (row e) /\ in_slot r (column e).

(** The tables address cells of the slot only. *)
Record tables_in_slot (r : LatticeStructure T) (h : Hamiltonian T) : Prop := {
  slot_hoppings : forall i ib,
      bulk r i -> 0 <= ib < hr_NHoppings h (coord_orb r i) ->
      in_slot r (i + hr_distance h ib (coord_orb r i));
  slot_defects : forall istr,
      valid_tile r istr -> terms_in_slot r (tile_terms r h istr);
  slot_border : terms_in_slot r (border_terms r h);
  slot_vacancies : forall istr k,
      valid_tile r istr -> In k (hV_position h istr) ->
      bulk r k /\ tile_of r k = istr;
  slot_vacancies_with_defects : forall k,
      In k (vacancies_with_defects h) -> in_slot r k;
  slot_cross : forall istr,
      In istr (cross_mozaic_indexes h) -> valid_tile r istr
}.

(** The tile flags and the lists agree with the patterns:
    - a tile is initialised exactly once, before the sweep when it is listed
      in [cross_mozaic_indexes] and inside the sweep when its flag is set;
    - a pattern reaches outside the tile of its anchor only into listed
      tiles;
    - a vacancy reached by a pattern anchored in another tile is listed in
      [vacancies_with_defects]. *)
Record tiles_consistent (r : LatticeStructure T) (h : Hamiltonian T) : Prop := {
  cross_nodup : NoDup (cross_mozaic_indexes h);
  cross_flag : forall istr,
      valid_tile r istr ->
      (cross_mozaic h istr = true <-> ~ In istr (cross_mozaic_indexes h));
  cross_targets : forall istr e,
      valid_tile r istr -> In e (tile_terms r h istr) -> bulk r (row e) ->
      tile_of r (row e) = istr \/ In (tile_of r (row e)) (cross_mozaic_indexes h);
  cross_vacancies : forall istr e,
      valid_tile r istr -> In e (tile_terms r h istr) ->
      In (row e) (hV_position h (tile_of r (row e))) ->
      tile_of r (row e) <> istr -> bulk r (row e) ->
      In (row e) (vacancies_with_defects h)
}.

(** A Hamiltonian without Anderson disorder, structural disorder,
    vacancies or magnetic field, whose accessors [NHoppings], [t] and [d]
    read the tables of its regular part. *)
Record clean_hamiltonian (r : LatticeStructure T) (h : Hamiltonian T)
  : Prop := {
  clean_anderson : forall io, Anderson_orb_address h io < -1;
  clean_defects : hd h = [];
  clean_vacancies : forall istr, hV_position h istr = [];
  clean_vacancies_with_defects : vacancies_with_defects h = [];
  clean_field : forall a b, vect_pot r a b = s0;
  same_NHoppings : forall io, NHoppings h io = hr_NHoppings h io;
  same_t : forall ib io, t h ib io = hr_hopping h ib io;
  same_d : forall ib io, d h ib io = hr_distance h ib io
}.

(** The ring buffer: at least two slots, the index inside it. *)
Definition ring_ok (th : Thread T) : Prop :=
  2 <= memory th /\ 0 <= index th < memory th.

(** The two predecessor slots as vectors. *)
Definition psi_M1 (th : Thread T) : Z -> T := fun k => v th (phiM1_of th + k).
Definition psi_M2 (th : Thread T) : Z -> T := fun k => v th (phiM2_of th + k).

(** The thread [k] of a system (a thread with empty tables outside). *)
Definition empty_lattice : LatticeStructure T :=
  {| Ld0 := 0; Ld1 := 0; ld1 := 0; Orb := 0; lStr0 := 0; Nd := 0; Sized := 0;
     vect_pot := fun _ _ => s0; convertCoordinates := fun _ => (0, 0) |}.

Definition empty_hamiltonian : Hamiltonian T :=
  {| cross_mozaic_indexes := []; cross_mozaic := fun _ => true;
     Anderson_orb_address := fun _ => -2; U_Anderson := fun _ => s0;
     U_Orbital := fun _ => s0; hr_NHoppings := fun _ => 0;
     hr_distance := fun _ _ => 0; hr_hopping := fun _ _ => s0;
     hr_dist := fun _ _ => 0; hd := []; hV_position := fun _ => [];
     vacancies_with_defects := []; NHoppings := fun _ => 0;
     t := fun _ _ => s0; d := fun _ _ => 0 |}.

Definition no_thread : Thread T :=
  {| r := empty_lattice; h := empty_hamiltonian; block := fun _ _ => 0;
     memory := 1; index := 0; v := fun _ => s0; ghosts := fun _ => s0 |}.

Definition thread (sys : System T) (k : nat) : Thread T :=
  nth k (fst sys) no_thread.

End KPMSpec.

Arguments ok_stride {T STRIDE r} _.
Arguments ok_lStr0 {T STRIDE r} _.
Arguments ok_Ld0 {T STRIDE r} _.
Arguments ok_lStr1 {T STRIDE r} _.
Arguments ok_Ld1 {T STRIDE r} _.
Arguments ok_ld1 {T STRIDE r} _.
Arguments ok_Orb {T STRIDE r} _.
Arguments ok_Nd {T STRIDE r} _.
Arguments ok_Sized {T STRIDE r} _.
Arguments ok_row {T STRIDE r} _.
Arguments slot_hoppings {T H STRIDE r h} _.
Arguments slot_defects {T H STRIDE r h} _.
Arguments slot_border {T H STRIDE r h} _.
Arguments slot_vacancies {T H STRIDE r h} _.
Arguments slot_vacancies_with_defects {T H STRIDE r h} _.
Arguments slot_cross {T H STRIDE r h} _.
Arguments cross_nodup {T H STRIDE r h} _.
Arguments cross_flag {T H STRIDE r h} _.
Arguments cross_targets {T H STRIDE r h} _.
Arguments cross_vacancies {T H STRIDE r h} _.
Arguments clean_anderson {T H r h} _.
Arguments clean_defects {T H r h} _.
Arguments clean_vacancies {T H r h} _.
Arguments clean_vacancies_with_defects {T H r h} _.
Arguments clean_field {T H r h} _.
Arguments same_NHoppings {T H r h} _.
Arguments same_t {T H r h} _.
Arguments same_d {T H r h} _.

(** * The ghost faces and the faces sent to the neighbours *)

Section ExchangeSpec.
Context {T : Type} `{Scalar T}.
Local Open Scope Z_scope.

(** The cell the unpacking loop writes ([il + ig*stride_ghosts[d]] for
    [b = 0], [ir + ...] for [b = 1], lines 570-571), and the cell the
    packing loop reads (lines 543-544). *)
Definition ghost_cell (r : LatticeStructure T) (d b io i ig : Z) : Z :=
  MemIndEnd r d b io + i * stride r d + ig * stride_ghosts r d.

Definition face_cell (r : LatticeStructure T) (d b io i ig : Z) : Z :=
  MemIndBeg r d b io + i * stride r d + ig * stride_ghosts r d.

(** The index of a face cell in one half of the staging array. *)
Definition face_offset (r : LatticeStructure T) (d io i ig : Z) : Z :=
  i + (ig + NGHOSTS * io) * max_ r d.

(** The half of the staging array of a face: [ghosts_left] at 0,
    [ghosts_right] at [BSize]. *)
Definition half (b : Z) (size : Z) : Z := if b =? 0 then 0 else size.

(** The geometry the exchange needs: orbitals that the index tables
    [MemIndBeg] and [MemIndEnd] hold, and a bulk at least as wide as the
    ghost layer along both axes. *)
Record exchange_ok (r : LatticeStructure T) : Prop := {
  ex_Orb : 0 <= Orb r;
  ex_tables : index_tables_fit r;
  ex_ld1 : ld1 r = Ld1 r - 2 * NGHOSTS;
  ex_Ld0 : 3 * NGHOSTS <= Ld0 r;
  ex_Ld1 : 3 * NGHOSTS <= Ld1 r
}.

(** Two thread domains of the same extents.  The extents are all the
    exchange reads of a [LatticeStructure]; the domains of a decomposition
    differ in their place in the lattice, which [convertCoordinates]
    carries, and may differ in anything else. *)
Record same_extents (r r' : LatticeStructure T) : Prop := {
  same_Ld0 : Ld0 r = Ld0 r';
  same_Ld1 : Ld1 r = Ld1 r';
  same_ld1 : ld1 r = ld1 r';
  same_Orb : Orb r = Orb r';
  same_Sized : Sized r = Sized r'
}.

(** The thread domains of a system have the extents of [r0], and the
    entries of the neighbour maps [block[2][2]] name threads of the
    system. *)
Definition uniform_system (r0 : LatticeStructure T) (sys : System T) : Prop :=
  forall j, (j < length (fst sys))%nat ->
    same_extents (r (thread sys j)) r0
    /\ forall d b, 0 <= d < 2 -> 0 <= b < 2 ->
                   0 <= block (thread sys j) d b < Z.of_nat (length (fst sys)).

(** A thread after the exchange along one axis: the vector as the
    unpacking loops leave it, everything else but the staging array as it
    was. *)
Definition exchanged (d : Z) (g : mem T) (th : Thread T) : Thread T :=
  unpack_faces d (with_ghosts th g).

End ExchangeSpec.

Arguments ex_Orb {T r} _.
Arguments ex_tables {T r} _.
Arguments same_Ld0 {T r r'} _.
Arguments same_Ld1 {T r r'} _.
Arguments same_ld1 {T r r'} _.
Arguments same_Orb {T r r'} _.
Arguments same_Sized {T r r'} _.
Arguments ex_ld1 {T r} _.
Arguments ex_Ld0 {T r} _.
Arguments ex_Ld1 {T r} _.

(** * A small domain: one orbital, one 2 x 2 tile, integer amplitudes *)

Module Small.
Local Open Scope Z_scope.

(** The tile side of the example. *)
Definition STRIDE : Z := 2.

(** A 2 x 2 bulk with its two ghost layers: [Ld = (6, 6)]. *)
Definition lattice : LatticeStructure Z :=
  {| Ld0 := 6; Ld1 := 6; ld1 := 2; Orb := 1; lStr0 := 1; Nd := 36;
     Sized := 36; vect_pot := fun _ _ => 0;
     convertCoordinates := fun i => (Z.rem i 6, Z.rem (Z.quot i 6) 6) |}.

(** Two hoppings per site: amplitude 3 to the right neighbour, amplitude 5
    to the lower neighbour. *)
Definition hopping_distance (ib : Z) : Z := if ib =? 0 then 1 else -6.
Definition hopping_amplitude (ib : Z) : Z := if ib =? 0 then 3 else 5.

Definition clean : Hamiltonian Z :=
  {| cross_mozaic_indexes := []; cross_mozaic := fun _ => true;
     Anderson_orb_address := fun _ => -2; U_Anderson := fun _ => 0;
     U_Orbital := fun _ => 0; hr_NHoppings := fun _ => 2;
     hr_distance := fun ib _ => hopping_distance ib;
     hr_hopping := fun ib _ => hopping_amplitude ib;
     hr_dist := fun _ _ => 4; hd := []; hV_position := fun _ => [];
     vacancies_with_defects := []; NHoppings := fun _ => 2;
     t := fun ib _ => hopping_amplitude ib;
     d := fun ib _ => hopping_distance ib |}.

(** The same with a vacancy at the site 14 of the tile and a vacancy at the
    site 15 in [vacancies_with_defects]. *)
Definition with_vacancies (patterns : list (Defect Z)) : Hamiltonian Z :=
  {| cross_mozaic_indexes := []; cross_mozaic := fun _ => true;
     Anderson_orb_address := fun _ => -2; U_Anderson := fun _ => 0;
     U_Orbital := fun _ => 0; hr_NHoppings := fun _ => 2;
     hr_distance := fun ib _ => hopping_distance ib;
     hr_hopping := fun ib _ => hopping_amplitude ib;
     hr_dist := fun _ _ => 4; hd := patterns;
     hV_position := fun istr => if istr =? 0 then [14] else [];
     vacancies_with_defects := [15]; NHoppings := fun _ => 2;
     t := fun ib _ => hopping_amplitude ib;
     d := fun ib _ => hopping_distance ib |}.

(** A pattern broken by the border of the domain, whose only element in
    the domain is an on-site term 7 at the site 15. *)
Definition broken_pattern : Defect Z :=
  {| position := fun _ => []; node_position := []; element1 := [];
     element2 := []; hopping := []; element := []; U := [];
     border_element1 := []; border_element2 := []; border_hopping := [];
     border_element := [15]; border_U := [7] |}.

(** One thread that is its own neighbour on every side; the cell [a] of
    its vector holds [a + 1]. *)
Definition thread_of (h : Hamiltonian Z) (memory : Z) : Thread Z :=
  {| r := lattice; h := h; block := fun _ _ => 0; memory := memory;
     index := 0; v := fun a => a + 1; ghosts := fun _ => 0 |}.

Definition system_of (h : Hamiltonian Z) (memory : Z) : System Z :=
  ([thread_of h memory], fun _ => 0).

(** Two threads side by side, each the neighbour of the other; the cell
    [a] of the vector of the thread [j] holds [100 * j + a]. *)
Definition thread_number (j : Z) : Thread Z :=
  {| r := lattice; h := clean; block := fun _ _ => 1 - j; memory := 2;
     index := 0; v := fun a => 100 * j + a; ghosts := fun _ => 0 |}.

Definition pair : System Z :=
  ([thread_number 0; thread_number 1], fun _ => 0).

End Small.

(** * [custom_find] (Simulation.hpp, lines 6-17) *)

Section CustomFind.
Local Open Scope Z_scope.

(** The loop
<<
    for(int i = 0; i < arr_size; i++){
      if( *(arr+i) == value_to_search)
        return i;
    }
    return -1;
>>
    over the values [todo] that [i] still has to take. *)
Fixpoint custom_find_loop (arr : list Z) (value_to_search : Z) (todo : list Z)
  : Z :=
  match todo with
  | [] => -1
  | i :: rest =>
      if at_ 0 arr i =? value_to_search then i
      else custom_find_loop arr value_to_search rest
  end.

Definition custom_find (arr : list Z) (arr_size : Z) (value_to_search : Z) : Z :=
  custom_find_loop arr value_to_search (Zrange 0 arr_size).

End CustomFind.

(** * Direction strings written out *)

Module DirectionWords.
Import Direction.
Local Open Scope string_scope.
Local Open Scope Z_scope.

(** The letter of an axis index, and the string of a list of factors:
    the factors written with ['x'] for 0 and ['y'] for anything else, and
    separated by commas. *)
Definition letter (a : Z) : ascii := if a =? 0 then "x"%char else "y"%char.

Fixpoint word (f : list Z) : string :=
  match f with
  | [] => EmptyString
  | a :: rest => String (letter a) (word rest)
  end.

Fixpoint words (fs : list (list Z)) : string :=
  match fs with
  | [] => EmptyString
  | [f] => word f
  | f :: rest => word f ++ String ","%char (words rest)
  end.

(** The number of commas of a string. *)
Fixpoint commas (s : string) : nat :=
  match s with
  | EmptyString => 0
  | String c rest => (if Ascii.eqb c ","%char then 1 else 0) + commas rest
  end.

End DirectionWords.

(** * The accumulator of Gamma3D (lines 139-290) *)

Section Gamma3D.
Context {T : Type} `{ScalarField T}.
Local Open Scope Z_scope.

(** Lines 270-275, run by the master thread on the block summed over the
    threads:
<<
    for(int i = 0; i < MEMORY; i++)
      for(int j = 0; j < MEMORY; j++){
        index = p*N_moments.at(1)*N_moments.at(0) + (m+j)*N_moments.at(0) + n+i;
        Global.general_gamma(index) +=
          (Global.smaller_gamma(i, j) - Global.general_gamma(index))
          /value_type(average + 1);
      }
>> *)
Definition Gamma3D_block (N0 N1 : Z) (average : nat) (n m p : Z)
           (smaller_gamma : Z -> Z -> T) (general_gamma : mem T) : mem T :=
  for_each (Zrange 0 MEMORY) (fun i =>
    for_each (Zrange 0 MEMORY) (fun j g =>
      let index := p * N1 * N0 + (m + j) * N0 + n + i in
      upd g index (welford_update average (g index) (smaller_gamma i j))))
    general_gamma.

(** One random vector (lines 231-280): the loops over [n] (by MEMORY),
    [p] and [m] (by MEMORY); [dots a b c] stands for the product, summed
    over the threads, of the [a]-th left vector with the [b]-th middle vector
    built on the [c]-th right vector. *)
Definition Gamma3D_sample (N0 N1 N2 : Z) (average : nat)
           (dots : Z -> Z -> Z -> T) (general_gamma : mem T) : mem T :=
  for_each (Zrange_step 0 N0 MEMORY) (fun n =>
    for_each (Zrange 0 N2) (fun p =>
      for_each (Zrange_step 0 N1 MEMORY) (fun m =>
        Gamma3D_block N0 N1 average n m p
                      (fun i j => dots (n + i) (m + j) p))))
    general_gamma.

(** The disorder and random-vector loops; [average] is incremented after
    each sample (line 281). *)
Fixpoint Gamma3D_samples (N0 N1 N2 : Z) (average : nat)
         (samples : list (Z -> Z -> Z -> T)) (general_gamma : mem T) : mem T :=
  match samples with
  | [] => general_gamma
  | dots :: rest =>
      Gamma3D_samples N0 N1 N2 (S average) rest
                      (Gamma3D_sample N0 N1 N2 average dots general_gamma)
  end.

End Gamma3D.

(** * The ghost frame in coordinates *)

Section Halo.
Context {T : Type} `{Scalar T}.
Local Open Scope Z_scope.

(** Along an axis of extent [L] (ghosts included), the first coordinate of
    the ghost layer of the side [b] ([MemIndEnd], lines 35, 37, 44, 46) and
    of the bulk layer of the side [b] that is sent away ([MemIndBeg],
    lines 34, 36, 43, 45). *)
Definition ghost_origin (b L : Z) : Z := if b =? 0 then 0 else L - NGHOSTS.
Definition face_origin (b L : Z) : Z :=
  if b =? 0 then NGHOSTS else L - 2 * NGHOSTS.

(** The coordinates of the cells of the domain, and of those of its ghost
    frame: the cells within NGHOSTS of a border. *)
Definition in_domain (r : LatticeStructure T) (x y : Z) : Prop :=
  0 <= x < Ld0 r /\ 0 <= y < Ld1 r.

Definition in_frame (r : LatticeStructure T) (x y : Z) : Prop :=
  in_domain r x y
  /\ (x < NGHOSTS \/ Ld0 r - NGHOSTS <= x
      \/ y < NGHOSTS \/ Ld1 r - NGHOSTS <= y).

(** The cells of the ghost frame of the column at offset [c], for the
    orbitals below [orbitals]. *)
Definition frame_cell (r : LatticeStructure T) (orbitals c a : Z) : Prop :=
  exists x y io,
    in_frame r x y /\ 0 <= io < orbitals /\ a = c + set_index r x y io.

End Halo.

(** * [empty_ghosts] (KPM_Vector2D.hpp, lines 675-708) *)

Section EmptyGhosts.
Context {T : Type} `{Scalar T}.
Local Open Scope Z_scope.

(** [v(x.set({i0, i1, io}).index, mem_index) *= 0]. *)
Definition times_zero (r : LatticeStructure T) (mem_index i0 i1 io : Z)
           (v : mem T) : mem T :=
  let a := col r mem_index + set_index r i0 i1 io in
  upd v a (v a [*] s0).

(** The four loop nests, one per side; [Ld2] is [r.Ld[2]]. *)
Definition empty_ghosts (r : LatticeStructure T) (Ld2 mem_index : Z)
           (v : mem T) : mem T :=
  let v :=
    for_each (Zrange 0 Ld2) (fun io =>
      for_each (Zrange 0 (Ld0 r)) (fun i0 =>
        for_each (Zrange 0 NGHOSTS) (fun d =>
          times_zero r mem_index i0 d io))) v in
  let v :=
    for_each (Zrange 0 Ld2) (fun io =>
      for_each (Zrange 0 (Ld0 r)) (fun i0 =>
        for_each (Zrange 0 NGHOSTS) (fun d =>
          times_zero r mem_index i0 (Ld1 r - 1 - d) io))) v in
  let v :=
    for_each (Zrange 0 Ld2) (fun io =>
      for_each (Zrange 0 (Ld1 r)) (fun i1 =>
        for_each (Zrange 0 NGHOSTS) (fun d =>
          times_zero r mem_index d i1 io))) v in
  for_each (Zrange 0 Ld2) (fun io =>
    for_each (Zrange 0 (Ld1 r)) (fun i1 =>
      for_each (Zrange 0 NGHOSTS) (fun d =>
        times_zero r mem_index (Ld0 r - 1 - d) i1 io))) v.

(** [empty_ghosts(mem_index)] called by a thread on its vector. *)
Definition empty_ghosts_of (Ld2 mem_index : Z) (th : Thread T) : Thread T :=
  with_vector th (index th) (empty_ghosts (r th) Ld2 mem_index (v th)).

End EmptyGhosts.

(** * [initiate_vector] (KPM_Vector2D.hpp, lines 59-78) *)

Section InitiateVector.
Context {T : Type} `{ScalarField T}.
Local Open Scope Z_scope.

(** Lines 60-62: the number of vacancies listed for the tiles;
    [NStr] is [r.NStr]. *)
Definition vacancy_count (NStr : Z) (h : Hamiltonian T) : Z :=
  for_each (Zrange 0 NStr)
           (fun i count => count + Z.of_nat (length (hV_position h i))) 0.

(** Lines 64-76.  The generator [simul.rnd] belongs to a class outside the
    sources at hand: the values its successive calls of [init()] return are
    the sequence [draws], and its state is the number [rnd] of values already
    drawn.  [Sizet] is [r.Sizet], and [root z] stands for
    [value_type(sqrt(z))]. *)
Definition initiate_vector (NStr Sizet : Z) (root : Z -> T) (draws : nat -> T)
           (rnd : nat) (th : Thread T) : Thread T * nat :=
  let r_ := r th in
  let count := vacancy_count NStr (h th) in
  let index := 0 in
  let filled :=
    for_each (Zrange 0 (Orb r_)) (fun io =>
      for_each (Zrange NGHOSTS (Ld1 r_ - NGHOSTS)) (fun i1 =>
        for_each (Zrange NGHOSTS (Ld0 r_ - NGHOSTS)) (fun i0 s =>
          (upd (fst s) (col r_ index + set_index r_ i0 i1 io)
               (draws (snd s) [/] root (Sizet - count)),
           S (snd s)))))
      (v th, rnd) in
  let v :=
    for_each (Zrange 0 NStr) (fun i =>
      for_each (hV_position (h th) i) (fun k v =>
        upd v (col r_ index + k) s0))
      (fst filled) in
  (with_vector th index v, snd filled).

(** The bulk sites in the order of the loops of lines 66-68, and the place
    of a site in that order. *)
Definition bulk_sites (r : LatticeStructure T) : list Z :=
  flat_map (fun io =>
    flat_map (fun i1 =>
      map (fun i0 => set_index r i0 i1 io)
          (Zrange NGHOSTS (Ld0 r - NGHOSTS)))
      (Zrange NGHOSTS (Ld1 r - NGHOSTS)))
    (Zrange 0 (Orb r)).

Definition bulk_rank (r : LatticeStructure T) (x y io : Z) : nat :=
  Z.to_nat ((io * (Ld1 r - 2 * NGHOSTS) + (y - NGHOSTS))
            * (Ld0 r - 2 * NGHOSTS) + (x - NGHOSTS)).

(** The vacancies of the tiles below [NStr]. *)
Definition listed_vacancy (NStr : Z) (h : Hamiltonian T) (k : Z) : Prop :=
  exists i, 0 <= i < NStr /\ In k (hV_position h i).

End InitiateVector.

(** * The small domain with real amplitudes *)

Module SmallReal.
Local Open Scope Z_scope.

(** The 2 x 2 bulk of [Small.lattice], for vectors of real numbers. *)
Definition lattice : LatticeStructure R :=
  {| Ld0 := 6; Ld1 := 6; ld1 := 2; Orb := 1; lStr0 := 1; Nd := 36;
     Sized := 36; vect_pot := fun _ _ => 0%R;
     convertCoordinates := fun i => (Z.rem i 6, Z.rem (Z.quot i 6) 6) |}.

(** No hopping, and a vacancy at the site 14 of the only tile. *)
Definition vacancy : Hamiltonian R :=
  {| cross_mozaic_indexes := []; cross_mozaic := fun _ => true;
     Anderson_orb_address := fun _ => -2; U_Anderson := fun _ => 0%R;
     U_Orbital := fun _ => 0%R; hr_NHoppings := fun _ => 0;
     hr_distance := fun _ _ => 0; hr_hopping := fun _ _ => 0%R;
     hr_dist := fun _ _ => 4; hd := [];
     hV_position := fun istr => if istr =? 0 then [14] else [];
     vacancies_with_defects := []; NHoppings := fun _ => 0;
     t := fun _ _ => 0%R; d := fun _ _ => 0 |}.

(** A vector of one slot that holds 7 everywhere. *)
Definition thread_of_sevens : Thread R :=
  {| r := lattice; h := vacancy; block := fun _ _ => 0; memory := 1;
     index := 0; v := fun _ => 7%R; ghosts := fun _ => 0%R |}.

End SmallReal.

(** * [Velocity], [Velocity2], [VelocityInternalProduct]
      (KPM_Vector2D.hpp, lines 264-490) *)

Section Velocity.
Context {T : Type} `{Scalar T}.
Local Open Scope Z_scope.

(** The tables one call reads, which [h.build_velocity] fills: for the
    regular hoppings [h.hr.V[axis](ib, io)] (in [Velocity2],
    [h.hr.V2[axis1][axis2](ib, io)]); for the pattern number [n] of [h.hd]
    its arrays [V[axis]] and [border_V[axis]] (in [Velocity2], [V2[axis1][axis2]]
    and [border_V2[axis1][axis2]]). *)
Record VelocityTables : Type := {
  hr_V : Z -> Z -> T;
  hd_V : Z -> list T;
  hd_border_V : Z -> list T
}.

(** [phi0[i] += a * phiM1[k]]. *)
Definition add_cell1 (phi0 phiM1 i : Z) (a : T) (k : Z) (v : mem T) : mem T :=
  upd v (phi0 + i) (v (phi0 + i) [+] a [*] v (phiM1 + k)).

(** The patterns of [h.hd] with their numbers. *)
Definition numbered_patterns (hd : list (Defect T)) : list (Z * Defect T) :=
  combine (Zrange 0 (Z.of_nat (length hd))) hd.

Variable STRIDE : Z.

Section VelocityBody.
Variable r_ : LatticeStructure T.
Variable h_ : Hamiltonian T.
Variable tab : VelocityTables.
Variables phi0 phiM1 : Z.

(** Lines 276-291 (and 375-390): the tiles listed in
    [cross_mozaic_indexes] are set to zero. *)
Definition velocity_cross_tiles (v : mem T) : mem T :=
  for_each (cross_mozaic_indexes h_) (fun istr =>
    let i0 := Z.rem istr (lStr0 r_) * STRIDE + NGHOSTS in
    let i1 := Z.quot istr (lStr0 r_) * STRIDE + NGHOSTS in
    for_each (Zrange 0 (Orb r_)) (fun io =>
      let ip := io * basis2 r_ in
      let std := basis1 r_ in
      let j0 := ip + i0 + i1 * std in
      for_tile STRIDE r_ j0 (fun j i => zero_cell phi0 i)))
    v.

(** Lines 299-323 (and 398-421): one orbital of one tile. *)
Definition velocity_orbital (i0 i1 istr io : Z) (v : mem T) : mem T :=
  let ip := io * basis2 r_ in
  let std := basis1 r_ in
  let j0 := ip + i0 + i1 * std in
  let v :=
    if cross_mozaic h_ istr
    then for_tile STRIDE r_ j0 (fun j i => zero_cell phi0 i) v
    else v in
  for_each (Zrange 0 (hr_NHoppings h_ io)) (fun ib =>
    let d1 := hr_distance h_ ib io in
    let t1 := hr_V tab ib io in
    for_tile STRIDE r_ j0 (fun j i => add_cell1 phi0 phiM1 i t1 (i + d1)))
    v.

(** Lines 327-337 (and 425-435): the patterns anchored in the tile. *)
Definition velocity_defects (istr : Z) (v : mem T) : mem T :=
  for_each (numbered_patterns (hd h_)) (fun nid =>
    let id := snd nid in
    for_each (position id istr) (fun ip =>
      for_each (Zrange 0 (Z.of_nat (length (hopping id)))) (fun k =>
        let k1 := ip + at_ 0 (node_position id) (at_ 0 (element1 id) k) in
        let k2 := ip + at_ 0 (node_position id) (at_ 0 (element2 id) k) in
        add_cell1 phi0 phiM1 k1 (at_ s0 (hd_V tab (fst nid)) k) k2)))
    v.

(** Lines 293-343 (and 392-441): the sweep over the tiles; the vacancies
    of the tile are emptied last (lines 340-342). *)
Definition velocity_tile_sweep (v : mem T) : mem T :=
  for_each (Zrange_step NGHOSTS (Ld1 r_ - NGHOSTS) STRIDE) (fun i1 =>
    for_each (Zrange_step NGHOSTS (Ld0 r_ - NGHOSTS) STRIDE) (fun i0 v =>
      let istr :=
        Z.quot (i1 - NGHOSTS) STRIDE * lStr0 r_ + Z.quot (i0 - NGHOSTS) STRIDE in
      let v := for_each (Zrange 0 (Orb r_)) (velocity_orbital i0 i1 istr) v in
      let v := velocity_defects istr v in
      tile_vacancies h_ phi0 istr v))
    v.

(** Lines 350-356 (and 447-453): the bonds broken by the domain border. *)
Definition velocity_border (v : mem T) : mem T :=
  for_each (numbered_patterns (hd h_)) (fun nid =>
    let id := snd nid in
    for_each (Zrange 0 (Z.of_nat (length (border_element1 id)))) (fun i =>
      let i1 := at_ 0 (border_element1 id) i in
      let i2 := at_ 0 (border_element2 id) i in
      add_cell1 phi0 phiM1 i1 (at_ s0 (hd_border_V tab (fst nid)) i) i2))
    v.

(** Lines 271-356 (and 370-453) in order; lines 345-346 empty
    [vacancies_with_defects]. *)
Definition velocity_sweep (v : mem T) : mem T :=
  let v := velocity_cross_tiles v in
  let v := velocity_tile_sweep v in
  let v := zero_vacancies_with_defects h_ phi0 v in
  velocity_border v.

End VelocityBody.

(** The pointers [phi0] and [phiM1] of a call are offsets in the memory
    of the thread, in which the matrix [v] of the vector that runs the call
    starts at 0: a column of another vector of the thread is an offset past
    the last column of [v].  Every thread passes pointers of its own. *)
Definition velocity_local (tab : VelocityTables) (phi0 phiM1 : Thread T -> Z)
           (th : Thread T) : Thread T :=
  with_vector th (index th)
              (velocity_sweep (r th) (h th) tab (phi0 th) (phiM1 th) (v th)).

(** [Velocity(phi0, phiM1, axis)], called by every thread of the parallel
    region: the sweep with the tables [V[axis]], then [Exchange_Boundaries()]
    on the current column of the vector that runs the call (line 358). *)
Definition Velocity (V : Z -> VelocityTables) (phi0 phiM1 : Thread T -> Z)
           (axis : Z) (sys : System T) : System T :=
  Exchange_Boundaries
    (map (velocity_local (V axis) phi0 phiM1) (fst sys), snd sys).

(** [Velocity2(phi0, phiM1, axis1, axis2)]: the same statements on the
    tables [V2[axis1][axis2]] (line 455 for the exchange). *)
Definition Velocity2 (V2 : Z -> Z -> VelocityTables)
           (phi0 phiM1 : Thread T -> Z) (axis1 axis2 : Z) (sys : System T)
  : System T :=
  Exchange_Boundaries
    (map (velocity_local (V2 axis1 axis2) phi0 phiM1) (fst sys), snd sys).

End Velocity.

Arguments VelocityTables T : clear implicits.

Section VelocityInternalProduct.
Context {T : Type} `{Scalar T}.
Local Open Scope Z_scope.

(** Lines 462-463: [const std::size_t STRIDE0 = 4], [STRIDE1 = 4], whatever
    the tile side of the sweeps. *)
Definition STRIDE0 : Z := 4.

(** [VelocityInternalProduct(bra, ket, axis)] (lines 459-490); [sum]
    starts at zero ([sum *= value_type(0.)], line 466), and [bra] and [ket]
    are offsets in the memory [v]. *)
Definition VelocityInternalProduct (r_ : LatticeStructure T)
           (h_ : Hamiltonian T) (tab : VelocityTables T) (bra ket : Z)
           (v : mem T) : T :=
  for_each (Zrange 0 (Orb r_)) (fun io =>
    let ip := io * basis2 r_ in
    for_each (Zrange_step NGHOSTS (Ld1 r_ - NGHOSTS) STRIDE0) (fun i1 =>
      for_each (Zrange_step NGHOSTS (Ld0 r_ - NGHOSTS) STRIDE0) (fun i0 =>
        let std := basis1 r_ in
        let j0 := ip + i0 + i1 * std in
        for_each (Zrange 0 (hr_NHoppings h_ io)) (fun ib =>
          let d1 := hr_distance h_ ib io in
          let t1 := hr_V tab ib io in
          for_tile STRIDE0 r_ j0 (fun j i sum =>
            sum [+] myconj (v (bra + i)) [*] t1 [*] v (ket + (i + d1)))))))
    s0.

End VelocityInternalProduct.

(** * The velocity operator as a sparse matrix *)

Section VelocitySpec.
Context {T : Type} `{Scalar T}.
Local Open Scope Z_scope.

Variable STRIDE : Z.

(** The regular part of row [i]: the hoppings of the orbital with the
    amplitudes of the velocity table. *)
Definition velocity_regular_terms (r : LatticeStructure T) (h : Hamiltonian T)
           (tab : VelocityTables T) (i : Z) : list term :=
  let io := coord_orb r i in
  map (fun ib => (i, i + hr_distance h ib io, hr_V tab ib io))
      (Zrange 0 (hr_NHoppings h io)).

(** The bonds of the pattern number [n] placed at the anchor [ip]. *)
Definition velocity_defect_terms (tab : VelocityTables T) (n : Z)
           (id : Defect T) (ip : Z) : list term :=
  map (fun k =>
         let k1 := ip + at_ 0 (node_position id) (at_ 0 (element1 id) k) in
         let k2 := ip + at_ 0 (node_position id) (at_ 0 (element2 id) k) in
         (k1, k2, at_ s0 (hd_V tab n) k))
      (Zrange 0 (Z.of_nat (length (hopping id)))).

(** The patterns anchored in one tile, and in all the tiles. *)
Definition velocity_tile_terms (h : Hamiltonian T) (tab : VelocityTables T)
           (istr : Z) : list term :=
  flat_map (fun nid =>
              flat_map (velocity_defect_terms tab (fst nid) (snd nid))
                       (position (snd nid) istr))
           (numbered_patterns (hd h)).

Definition velocity_structural_terms (r : LatticeStructure T)
           (h : Hamiltonian T) (tab : VelocityTables T) : list term :=
  flat_map (velocity_tile_terms h tab) (sweep_tiles STRIDE r).

(** The bonds broken by the domain border. *)
Definition velocity_border_terms (h : Hamiltonian T) (tab : VelocityTables T)
  : list term :=
  flat_map (fun nid =>
    map (fun i =>
           (at_ 0 (border_element1 (snd nid)) i,
            at_ 0 (border_element2 (snd nid)) i,
            at_ s0 (hd_border_V tab (fst nid)) i))
        (Zrange 0 (Z.of_nat (length (border_element1 (snd nid))))))
    (numbered_patterns (hd h)).

(** What [Velocity] leaves at the bulk site [i] of [phi0]: zero at a
    vacancy and the regular and structural parts applied to [psi]
    elsewhere, plus the terms of the broken patterns, which are added
    last. *)
Definition Velocity_value (r : LatticeStructure T) (h : Hamiltonian T)
           (tab : VelocityTables T) (psi : Z -> T) (i : Z) : T :=
  (if is_vacancy STRIDE r h i then s0
   else matvec (velocity_regular_terms r h tab i) psi i
        [+] matvec (velocity_structural_terms r h tab) psi i)
  [+] matvec (velocity_border_terms h tab) psi i.

(** The two pointers of a call of [Velocity] by the thread [th]: slots
    that do not overlap, the target being the current column of the vector or
    a slot apart from it. *)
Definition velocity_pointers_ok (th : Thread T) (phi0 phiM1 : Z) : Prop :=
  (phi0 + Sized (r th) <= phiM1 \/ phiM1 + Sized (r th) <= phi0)
  /\ (phi0 = col (r th) (index th)
      \/ phi0 + Sized (r th) <= col (r th) (index th)
      \/ col (r th) (index th) + Sized (r th) <= phi0).

End VelocitySpec.

(** * Velocity tables on the small domain *)

Module SmallVelocity.
Import Small.
Local Open Scope Z_scope.

(** Along axis 0 the hopping to the right neighbour carries the amplitude
    3 and the hopping to the lower neighbour none; along axis 1 the hopping
    to the lower neighbour carries -5. *)
Definition tables (axis : Z) : VelocityTables Z :=
  {| hr_V := fun ib _ =>
       if axis =? 0 then (if ib =? 0 then 3 else 0)
       else (if ib =? 0 then 0 else -5);
     hd_V := fun _ => []; hd_border_V := fun _ => [] |}.

(** The tables of the second order: 3 on the hopping to the right
    neighbour for the axes (0, 0), 25 on the hopping to the lower neighbour
    for the axes (1, 1), nothing for mixed axes. *)
Definition tables2 (axis1 axis2 : Z) : VelocityTables Z :=
  {| hr_V := fun ib _ =>
       if (axis1 =? 0) && (axis2 =? 0) then (if ib =? 0 then 3 else 0)
       else if (axis1 =? 1) && (axis2 =? 1) then (if ib =? 0 then 0 else 25)
       else 0;
     hd_V := fun _ => []; hd_border_V := fun _ => [] |}.

(** The target is the current column of the vector, the source its column
    1. *)
Definition target (th : Thread Z) : Z := col (r th) (index th).
Definition source (th : Thread Z) : Z := col (r th) 1.

(** A 4 x 4 bulk with its two ghost layers: [Ld = (8, 8)], one orbital,
    the hoppings to the right neighbour and to the lower neighbour. *)
Definition lattice8 : LatticeStructure Z :=
  {| Ld0 := 8; Ld1 := 8; ld1 := 4; Orb := 1; lStr0 := 1; Nd := 64;
     Sized := 64; vect_pot := fun _ _ => 0;
     convertCoordinates := fun i => (Z.rem i 8, Z.rem (Z.quot i 8) 8) |}.

Definition clean8 : Hamiltonian Z :=
  {| cross_mozaic_indexes := []; cross_mozaic := fun _ => true;
     Anderson_orb_address := fun _ => -2; U_Anderson := fun _ => 0;
     U_Orbital := fun _ => 0; hr_NHoppings := fun _ => 2;
     hr_distance := fun ib _ => if ib =? 0 then 1 else -8;
     hr_hopping := fun ib _ => hopping_amplitude ib;
     hr_dist := fun _ _ => 4; hd := []; hV_position := fun _ => [];
     vacancies_with_defects := []; NHoppings := fun _ => 2;
     t := fun ib _ => hopping_amplitude ib;
     d := fun ib _ => if ib =? 0 then 1 else -8 |}.

(** A memory whose first slot holds ones and whose second slot holds the
    number of the cell. *)
Definition ones_then_sites : mem Z := fun a => if a <? 64 then 1 else a - 64.

End SmallVelocity.

(** * The velocity matrix element as a sum over the bulk sites *)

Section VelocityProductSpec.
Context {T : Type} `{Scalar T}.
Local Open Scope Z_scope.

(** The share of the site [i]: the conjugate of [bra] at the site times
    the regular part of the velocity operator applied to [ket] there. *)
Definition velocity_product_term (r : LatticeStructure T) (h : Hamiltonian T)
           (tab : VelocityTables T) (bra ket : Z) (v : mem T) (i : Z) : T :=
  myconj (v (bra + i))
  [*] matvec (velocity_regular_terms r h tab i) (fun k => v (ket + k)) i.

End VelocityProductSpec.

(** * Proof devices: traces of cell updates *)

(** The loops below update one cell per statement.  Such a statement is a
    pair of the cell's address and the function applied to its content; a
    loop nest whose control flow does not depend on the data is the list of
    its statements in execution order. *)
Definition cell_op (T : Type) : Type := (Z * (T -> T))%type.

Definition exec_op {T} (o : cell_op T) (s : mem T) : mem T :=
  upd s (fst o) (snd o (s (fst o))).

Definition exec_ops {T} (l : list (cell_op T)) (s : mem T) : mem T :=
  for_each l exec_op s.

(** What a trace does to the content [x] of the cell [a]. *)
Definition local_effect {T} (a : Z) (l : list (cell_op T)) (x : T) : T :=
  for_each l (fun o x => if Z.eqb (fst o) a then snd o x else x) x.

(** * Proof devices: the effect of a sweep on one cell *)

Section ActsDefs.
Context {T : Type} `{Scalar T}.
Local Open Scope Z_scope.

(** The offsets of the new slot and of its two predecessors, the number
    of cells of a slot, and the store before the sweep. *)
Variables phi0 phiM1 phiM2 size : Z.
Variable v0 : mem T.

(** The predecessor slots still hold what they held before the sweep (the
    second one unless it is the new slot itself). *)
Definition preserved (w : mem T) : Prop :=
  (forall k, 0 <= k < size -> w (phiM1 + k) = v0 (phiM1 + k))
  /\ (phiM2 <> phi0 ->
      forall k, 0 <= k < size -> w (phiM2 + k) = v0 (phiM2 + k)).

(** The cells of the new slot are cells of no other slot read. *)
Definition slots_apart : Prop :=
  (forall i k, 0 <= i < size -> 0 <= k < size -> phi0 + i <> phiM1 + k)
  /\ (phiM2 <> phi0 ->
      forall i k, 0 <= i < size -> 0 <= k < size -> phi0 + i <> phiM2 + k).

(** On a store whose predecessor slots are intact, [f] turns the content
    [x] of the cell [a] into [g x] and leaves those slots intact. *)
Definition acts (a : Z) (f : mem T -> mem T) (g : T -> T) : Prop :=
  forall w, preserved w -> f w a = g (w a) /\ preserved (f w).

(** [f] adds [c] to the cell. *)
Definition adds (a : Z) (f : mem T -> mem T) (c : T) : Prop :=
  acts a f (fun x => x [+] c).

(** What the initialisation [phi0[i] = - MULT * phiM2[i]] makes of the
    content [x] of the cell [i] of the new slot. *)
Definition init_value (MULT i : Z) (x : T) : T :=
  [-] of_Z MULT [*] (if phiM2 =? phi0 then x else v0 (phiM2 + i)).

(** [f] keeps every cell outside the new slot. *)
Definition frames (f : mem T -> mem T) : Prop :=
  forall w a, (forall i, 0 <= i < size -> a <> phi0 + i) -> f w a = w a.

End ActsDefs.

(** * Proof devices: the trace of [store_gamma3D] *)

Section GammaTrace.
Context {T : Type} `{ScalarField T}.
Local Open Scope Z_scope.

(** The statements of one iteration of the loop for three equal axes
    (lines 567-573). *)
Definition equal_axes_trace (gamma : mem T) (N0 N1 : Z) (factor : Z)
           (n m p : Z) : list (cell_op T) :=
  let k := entry (N0 * N1) (n + N0 * m) p in
  let G := fun r c => gamma (entry (N0 * N1) r c) in
  [ (k, fun x => x [+] G (n + N0*m) p [/] six);
    (k, fun x => x [+] G (m + N0*p) n [/] six);
    (k, fun x => x [+] G (p + N0*n) m [/] six);
    (k, fun x => x [+] of_Z factor [/] six [*] myconj (G (p + N0*m) n));
    (k, fun x => x [+] of_Z factor [/] six [*] myconj (G (n + N0*p) m));
    (k, fun x => x [+] of_Z factor [/] six [*] myconj (G (m + N0*n) p)) ].

End GammaTrace.

(** * Proof devices: the trace of [empty_ghosts] *)

Section GhostTrace.
Context {T : Type} `{Scalar T}.
Local Open Scope Z_scope.

(** The statement [v(a) *= 0]. *)
Definition zero_op (a : Z) : cell_op T := (a, fun x => x [*] s0).

(** The statements of one loop nest of [empty_ghosts]: [orbitals] orbitals,
    [L] positions along the side, NGHOSTS layers. *)
Definition side_trace (orbitals L : Z) (addr : Z -> Z -> Z -> Z)
  : list (cell_op T) :=
  flat_map (fun io =>
    flat_map (fun i =>
      flat_map (fun d => [zero_op (addr io i d)]) (Zrange 0 NGHOSTS))
      (Zrange 0 L))
    (Zrange 0 orbitals).

End GhostTrace.

(** * Proof devices: [Velocity] as a sweep of [Multiply] *)

Section VelocityDevices.
Context {T : Type} `{Scalar T}.
Local Open Scope Z_scope.

(** Two stores with the same content. *)
Definition same_store (m m' : mem T) : Prop := forall a, m a = m' a.

(** The lattice without vector potential. *)
Definition flat_lattice (r : LatticeStructure T) : LatticeStructure T :=
  {| Ld0 := Ld0 r; Ld1 := Ld1 r; ld1 := ld1 r; Orb := Orb r;
     lStr0 := lStr0 r; Nd := Nd r; Sized := Sized r;
     vect_pot := fun _ _ => s0;
     convertCoordinates := convertCoordinates r |}.

(** The pattern whose bonds carry the amplitudes [V] and [border_V], and
    which has no on-site term. *)
Definition velocity_pattern (V border_V : list T) (id : Defect T) : Defect T :=
  {| position := position id; node_position := node_position id;
     element1 := element1 id; element2 := element2 id;
     hopping := map (at_ s0 V) (Zrange 0 (Z.of_nat (length (hopping id))));
     element := []; U := [];
     border_element1 := border_element1 id;
     border_element2 := border_element2 id;
     border_hopping := border_V;
     border_element := []; border_U := [] |}.

(** The Hamiltonian whose hoppings are the amplitudes of the velocity
    tables, without on-site energies. *)
Definition velocity_hamiltonian (h : Hamiltonian T) (tab : VelocityTables T)
  : Hamiltonian T :=
  {| cross_mozaic_indexes := cross_mozaic_indexes h;
     cross_mozaic := cross_mozaic h;
     Anderson_orb_address := fun _ => -2;
     U_Anderson := fun _ => s0; U_Orbital := fun _ => s0;
     hr_NHoppings := hr_NHoppings h; hr_distance := hr_distance h;
     hr_hopping := hr_V tab; hr_dist := hr_dist h;
     hd := map (fun nid => velocity_pattern (hd_V tab (fst nid))
                                            (hd_border_V tab (fst nid))
                                            (snd nid))
               (numbered_patterns (hd h));
     hV_position := hV_position h;
     vacancies_with_defects := vacancies_with_defects h;
     NHoppings := NHoppings h; t := t h; d := d h |}.

End VelocityDevices.

(** * Proof devices: the sites in the order of [VelocityInternalProduct] *)

Section ProductDevices.
Context {T : Type} `{Scalar T}.
Local Open Scope Z_scope.

(** The cells of the 4 x 4 tile that starts at [j0]. *)
Definition tile_cells (r : LatticeStructure T) (j0 : Z) : list Z :=
  flat_map (fun j => Zrange j (j + STRIDE0))
           (Zrange_step j0 (j0 + STRIDE0 * basis1 r) (basis1 r)).

(** The cells the loops visit, in their order. *)
Definition product_sites (r : LatticeStructure T) : list Z :=
  flat_map (fun io =>
    flat_map (fun i1 =>
      flat_map (fun i0 => tile_cells r (io * basis2 r + i0 + i1 * basis1 r))
               (Zrange_step NGHOSTS (Ld0 r - NGHOSTS) STRIDE0))
      (Zrange_step NGHOSTS (Ld1 r - NGHOSTS) STRIDE0))
    (Zrange 0 (Orb r)).

End ProductDevices.

(** * Facts about loops, ranges and traces *)

Section LoopFacts.
Local Open Scope Z_scope.

Lemma for_each_nil {A S} (body : A -> S -> S) (s : S) :
  for_each [] body s = s.
Proof. reflexivity. Qed.

Lemma for_each_cons {A S} (x : A) (l : list A) (body : A -> S -> S) (s : S) :
  for_each (x :: l) body s = for_each l body (body x s).
Proof. reflexivity. Qed.

Lemma for_each_app {A S} (l1 l2 : list A) (body : A -> S -> S) (s : S) :
  for_each (l1 ++ l2) body s = for_each l2 body (for_each l1 body s).
Proof. unfold for_each. apply fold_left_app. Qed.

Lemma for_each_ext {A S} (l : list A) (f g : A -> S -> S) :
  (forall x s, In x l -> f x s = g x s) ->
  forall s, for_each l f s = for_each l g s.
Proof.
  induction l as [|x l IH]; intros E s; [reflexivity|].
  rewrite !for_each_cons, E by (left; reflexivity).
  apply IH. intros y t Hy. apply E. right. exact Hy.
Qed.

(** A loop that preserves an invariant. *)
Lemma for_each_invariant {A S} (P : S -> Prop) (l : list A) (body : A -> S -> S) :
  (forall x s, In x l -> P s -> P (body x s)) ->
  forall s, P s -> P (for_each l body s).
Proof.
  induction l as [|x l IH]; intros Hb s Hs; [exact Hs|].
  rewrite for_each_cons. apply IH.
  - intros y t Hy. apply Hb. right. exact Hy.
  - apply Hb; [left; reflexivity|exact Hs].
Qed.

Lemma In_Zrange (lo hi i : Z) : In i (Zrange lo hi) <-> lo <= i < hi.
Proof.
  unfold Zrange. rewrite in_map_iff. split.
  - intros [k [E Hk]]. apply in_seq in Hk. lia.
  - intros Hi. exists (Z.to_nat (i - lo)). split; [lia|].
    apply in_seq. lia.
Qed.

Lemma NoDup_Zrange (lo hi : Z) : NoDup (Zrange lo hi).
Proof.
  unfold Zrange. apply NoDup_map_NoDup_ForallPairs.
  - intros a b _ _ E. lia.
  - apply seq_NoDup.
Qed.

Lemma In_Zrange_step (lo hi step i : Z) :
  0 < step ->
  (In i (Zrange_step lo hi step)
   <-> exists k, 0 <= k /\ i = lo + k * step /\ i < hi).
Proof.
  intros Hstep. unfold Zrange_step. rewrite in_map_iff. split.
  - intros [k [E Hk]]. apply in_seq in Hk. exists (Z.of_nat k).
    split; [lia|]. split; [lia|].
    destruct (Z_le_gt_dec (hi - lo + step - 1) 0) as [L|G].
    + assert (Q : (hi - lo + step - 1) / step <= 0).
      { apply Z.div_le_upper_bound; lia. }
      lia.
    + assert (Q : Z.of_nat k < (hi - lo + step - 1) / step) by lia.
      assert (Q2 : step * ((hi - lo + step - 1) / step) <= hi - lo + step - 1).
      { apply Z.mul_div_le. lia. }
      nia.
  - intros [k [Hk [E Hi]]]. exists (Z.to_nat k). split; [lia|].
    apply in_seq. split; [lia|].
    assert (Q : k + 1 <= (hi - lo + step - 1) / step).
    { apply Z.div_le_lower_bound; [lia|]. nia. }
    lia.
Qed.

Lemma NoDup_Zrange_step (lo hi step : Z) :
  0 < step -> NoDup (Zrange_step lo hi step).
Proof.
  intros Hstep. unfold Zrange_step. apply NoDup_map_NoDup_ForallPairs.
  - intros a b _ _ E. nia.
  - apply seq_NoDup.
Qed.

Lemma upd_same {T} (m : mem T) (a : Z) (x : T) : upd m a x a = x.
Proof. unfold upd. now rewrite Z.eqb_refl. Qed.

Lemma upd_other {T} (m : mem T) (a b : Z) (x : T) :
  b <> a -> upd m a x b = m b.
Proof. intros N. unfold upd. apply Z.eqb_neq in N. now rewrite N. Qed.

(** ** Traces *)

Lemma exec_ops_app {T} (l1 l2 : list (cell_op T)) (s : mem T) :
  exec_ops (l1 ++ l2) s = exec_ops l2 (exec_ops l1 s).
Proof. apply for_each_app. Qed.

(** A loop whose body is a trace is the trace of its iterations. *)
Lemma for_each_trace {A T} (l : list A) (body : A -> mem T -> mem T)
      (tr : A -> list (cell_op T)) :
  (forall x s, In x l -> body x s = exec_ops (tr x) s) ->
  forall s, for_each l body s = exec_ops (flat_map tr l) s.
Proof.
  induction l as [|x l IH]; intros E s; [reflexivity|].
  rewrite for_each_cons. simpl flat_map. rewrite exec_ops_app.
  rewrite E by (left; reflexivity).
  apply IH. intros y t Hy. apply E. right. exact Hy.
Qed.

(** The content of a cell after a trace depends on its statements for
    that cell only. *)
Lemma exec_ops_at {T} (l : list (cell_op T)) :
  forall (s : mem T) (a : Z), exec_ops l s a = local_effect a l (s a).
Proof.
  induction l as [|o l IH]; intros s a; [reflexivity|].
  unfold exec_ops, local_effect in *. rewrite !for_each_cons, IH.
  f_equal. unfold exec_op, upd.
  rewrite Z.eqb_sym. destruct (fst o =? a) eqn:E.
  - apply Z.eqb_eq in E. now subst a.
  - reflexivity.
Qed.

Lemma local_effect_app {T} (a : Z) (l1 l2 : list (cell_op T)) (x : T) :
  local_effect a (l1 ++ l2) x = local_effect a l2 (local_effect a l1 x).
Proof. apply for_each_app. Qed.

Lemma local_effect_nil {T} (a : Z) (x : T) :
  local_effect a (@nil (cell_op T)) x = x.
Proof. reflexivity. Qed.

Lemma local_effect_cons {T} (a : Z) (o : cell_op T) (l : list (cell_op T)) (x : T) :
  local_effect a (o :: l) x
  = local_effect a l (if fst o =? a then snd o x else x).
Proof. reflexivity. Qed.

(** A trace that never names the cell leaves it alone. *)
Lemma local_effect_untouched {T} (a : Z) (l : list (cell_op T)) :
  (forall o, In o l -> fst o <> a) ->
  forall x, local_effect a l x = x.
Proof.
  induction l as [|o l IH]; intros N x; [reflexivity|].
  rewrite local_effect_cons.
  assert (E : (fst o =? a) = false)
    by (apply Z.eqb_neq, N; left; reflexivity).
  rewrite E. apply IH. intros o' Ho'. apply N. right. exact Ho'.
Qed.

Lemma local_effect_flat_map_untouched {A T} (a : Z) (l : list A)
      (tr : A -> list (cell_op T)) :
  (forall y, In y l -> forall x, local_effect a (tr y) x = x) ->
  forall x, local_effect a (flat_map tr l) x = x.
Proof.
  induction l as [|y l IH]; intros N x; [reflexivity|].
  simpl flat_map. rewrite local_effect_app, N by (left; reflexivity).
  apply IH. intros z Hz. apply N. right. exact Hz.
Qed.

(** In a loop over distinct values of which only [y0] names the cell, the
    effect on the cell is that of the iteration [y0]. *)
Lemma local_effect_flat_map_single {A T} (a : Z) (l : list A)
      (tr : A -> list (cell_op T)) (y0 : A) :
  NoDup l -> In y0 l ->
  (forall y, In y l -> y <> y0 -> forall x, local_effect a (tr y) x = x) ->
  forall x, local_effect a (flat_map tr l) x = local_effect a (tr y0) x.
Proof.
  induction l as [|y l IH]; intros ND Hin N x; [contradiction|].
  simpl flat_map. rewrite local_effect_app.
  inversion ND as [|y' l' Hni ND']; subst.
  destruct Hin as [E|Hin].
  - subst y0. apply local_effect_flat_map_untouched.
    intros z Hz. apply N; [right; exact Hz|].
    intros E. subst z. contradiction.
  - rewrite N.
    + apply IH; [exact ND'|exact Hin|].
      intros z Hz. apply N. right. exact Hz.
    + left; reflexivity.
    + intros E. subst y0. contradiction.
Qed.

(** A loop none of whose iterations changes the cell [a]. *)
Lemma for_each_keep {A T} (l : list A) (body : A -> mem T -> mem T) (a : Z) :
  (forall y m, In y l -> body y m a = m a) ->
  forall m, for_each l body m a = m a.
Proof.
  induction l as [|y l IH]; intros K m; [reflexivity|].
  rewrite for_each_cons, IH.
  - apply K. left. reflexivity.
  - intros y' m' Hy'. apply K. right. exact Hy'.
Qed.

(** A loop one iteration of which sets the cell [a]. *)
Lemma for_each_hit {A T} (l : list A) (body : A -> mem T -> mem T) (a : Z)
      (y0 : A) (x : T) :
  NoDup l -> In y0 l ->
  (forall y m, In y l -> y <> y0 -> body y m a = m a) ->
  (forall m, body y0 m a = x) ->
  forall m, for_each l body m a = x.
Proof.
  intros ND Hin K Hit m.
  destruct (in_split _ _ Hin) as (l1 & l2 & E). subst l.
  apply NoDup_remove_2 in ND.
  rewrite for_each_app, for_each_cons, for_each_keep.
  - apply Hit.
  - intros y m' Hy. apply K.
    + apply in_or_app. right. right. exact Hy.
    + intros Ey. subst y. apply ND. apply in_or_app. right. exact Hy.
Qed.

End LoopFacts.

(** * Facts about site indices and tiles *)

Section Geometry.
Context {T : Type} `{Scalar T}.
Local Open Scope Z_scope.

Variable STRIDE : Z.
Variable r : LatticeStructure T.
Hypothesis OK : lattice_ok STRIDE r.

Lemma Ld0_pos : 0 < Ld0 r.
Proof.
  pose proof (ok_Ld0 OK). pose proof (ok_lStr0 OK). pose proof (ok_stride OK).
  unfold NGHOSTS in *. nia.
Qed.

Lemma Ld1_pos : 0 < Ld1 r.
Proof.
  pose proof (ok_Ld1 OK). pose proof (ok_lStr1 OK). pose proof (ok_stride OK).
  unfold NGHOSTS in *. nia.
Qed.

Lemma quot_rem_of_sum (q b x : Z) :
  0 <= x < b -> 0 <= q -> Z.quot (x + q * b) b = q /\ Z.rem (x + q * b) b = x.
Proof.
  intros Hx Hq. split.
  - symmetry. apply (Z.quot_unique _ _ _ x); [nia|lia|lia].
  - symmetry. apply (Z.rem_unique _ _ q); [nia|lia|lia].
Qed.

(** The coordinates of a packed index. *)
Lemma coords_of_set_index (x y io : Z) :
  0 <= x < Ld0 r -> 0 <= y < Ld1 r -> 0 <= io ->
  coord0 r (set_index r x y io) = x
  /\ coord1 r (set_index r x y io) = y
  /\ coord_orb r (set_index r x y io) = io.
Proof.
  intros Hx Hy Hio. unfold coord0, coord1, coord_orb, set_index, basis1, basis2.
  replace (x + y * Ld0 r + io * (Ld0 r * Ld1 r))
    with (x + (y + io * Ld1 r) * Ld0 r) by ring.
  destruct (quot_rem_of_sum (y + io * Ld1 r) (Ld0 r) x) as [Q R];
    [lia|nia|].
  rewrite Q, R.
  destruct (quot_rem_of_sum io (Ld1 r) y) as [Q1 R1]; [lia|lia|].
  rewrite R1. split; [reflexivity|]. split; [reflexivity|].
  replace (x + (y + io * Ld1 r) * Ld0 r)
    with ((x + y * Ld0 r) + io * (Ld0 r * Ld1 r)) by ring.
  apply quot_rem_of_sum; [nia|lia].
Qed.

Lemma set_index_of_coords (i : Z) :
  0 <= i ->
  i = set_index r (coord0 r i) (coord1 r i) (coord_orb r i)
  /\ 0 <= coord0 r i < Ld0 r
  /\ 0 <= coord1 r i < Ld1 r
  /\ 0 <= coord_orb r i.
Proof.
  intros Hi. pose proof Ld0_pos as P0. pose proof Ld1_pos as P1.
  unfold coord0, coord1, coord_orb, set_index, basis1, basis2.
  pose proof (Z.quot_rem' i (Ld0 r)) as E0.
  pose proof (Z.rem_bound_pos i (Ld0 r) Hi P0) as B0.
  assert (Q0 : 0 <= Z.quot i (Ld0 r)) by (apply Z.quot_pos; lia).
  pose proof (Z.quot_rem' (Z.quot i (Ld0 r)) (Ld1 r)) as E1.
  pose proof (Z.rem_bound_pos _ (Ld1 r) Q0 P1) as B1.
  assert (Q1 : 0 <= Z.quot (Z.quot i (Ld0 r)) (Ld1 r))
    by (apply Z.quot_pos; lia).
  rewrite <- Z.quot_quot by lia.
  split; [nia|]. split; [lia|]. split; [lia|lia].
Qed.

Lemma set_index_inj (x y io x' y' io' : Z) :
  0 <= x < Ld0 r -> 0 <= y < Ld1 r -> 0 <= io ->
  0 <= x' < Ld0 r -> 0 <= y' < Ld1 r -> 0 <= io' ->
  set_index r x y io = set_index r x' y' io' ->
  x = x' /\ y = y' /\ io = io'.
Proof.
  intros Hx Hy Hio Hx' Hy' Hio' E.
  destruct (coords_of_set_index x y io) as [A [B C]]; try assumption.
  destruct (coords_of_set_index x' y' io') as [A' [B' C']]; try assumption.
  rewrite E in A, B, C. lia.
Qed.

Lemma set_index_in_slot (x y io : Z) :
  0 <= x < Ld0 r -> 0 <= y < Ld1 r -> 0 <= io < Orb r ->
  in_slot r (set_index r x y io).
Proof.
  intros Hx Hy Hio. unfold in_slot, set_index, basis1, basis2.
  rewrite (ok_Sized OK).
  assert (P : 0 <= Ld0 r * Ld1 r) by nia.
  assert (A : 0 <= y * Ld0 r <= (Ld1 r - 1) * Ld0 r) by nia.
  assert (B : 0 <= io * (Ld0 r * Ld1 r) <= (Orb r - 1) * (Ld0 r * Ld1 r)).
  { split; [nia|]. apply Z.mul_le_mono_nonneg_r; lia. }
  nia.
Qed.

Lemma in_slot_orbital (i : Z) : in_slot r i -> 0 <= coord_orb r i < Orb r.
Proof.
  intros [L U]. destruct (set_index_of_coords i L) as [E [B0 [B1 Bo]]].
  split; [exact Bo|].
  unfold set_index, basis1, basis2 in E. rewrite (ok_Sized OK) in U.
  pose proof Ld0_pos as P0. pose proof Ld1_pos as P1.
  destruct (Z_lt_le_dec (coord_orb r i) (Orb r)) as [L'|G]; [exact L'|].
  exfalso.
  assert (P : 0 <= Ld0 r * Ld1 r) by nia.
  assert (A : Orb r * (Ld0 r * Ld1 r) <= coord_orb r i * (Ld0 r * Ld1 r))
    by (apply Z.mul_le_mono_nonneg_r; lia).
  assert (B : 0 <= coord1 r i * Ld0 r) by nia.
  lia.
Qed.

(** ** Tiles *)

(** The cells that the two loops of [for_tile] visit. *)
Lemma In_tile_rows (j0 j : Z) :
  In j (Zrange_step j0 (j0 + STRIDE * basis1 r) (basis1 r))
  <-> exists m, 0 <= m < STRIDE /\ j = j0 + m * Ld0 r.
Proof.
  pose proof Ld0_pos as P0. unfold basis1.
  rewrite (In_Zrange_step _ _ _ _ P0). split.
  - intros [k [Hk [E L]]]. exists k. split; [nia|exact E].
  - intros [m [Hm E]]. exists m. split; [lia|]. split; [exact E|nia].
Qed.

Lemma tile_cell (i0 i1 io j i : Z) :
  In j (Zrange_step (io * basis2 r + i0 + i1 * basis1 r)
                    (io * basis2 r + i0 + i1 * basis1 r + STRIDE * basis1 r)
                    (basis1 r)) ->
  In i (Zrange j (j + STRIDE)) ->
  exists m k, 0 <= m < STRIDE /\ 0 <= k < STRIDE
              /\ j = set_index r i0 (i1 + m) io
              /\ i = set_index r (i0 + k) (i1 + m) io.
Proof.
  intros Hj Hi. apply In_tile_rows in Hj. destruct Hj as [m [Hm E]].
  apply In_Zrange in Hi. exists m, (i - j). split; [exact Hm|].
  split; [lia|]. unfold set_index, basis1, basis2 in *. split; nia.
Qed.

Lemma cell_in_tile (i0 i1 io m k : Z) :
  0 <= m < STRIDE -> 0 <= k < STRIDE ->
  In (set_index r i0 (i1 + m) io)
     (Zrange_step (io * basis2 r + i0 + i1 * basis1 r)
                  (io * basis2 r + i0 + i1 * basis1 r + STRIDE * basis1 r)
                  (basis1 r))
  /\ In (set_index r (i0 + k) (i1 + m) io)
        (Zrange (set_index r i0 (i1 + m) io)
                (set_index r i0 (i1 + m) io + STRIDE)).
Proof.
  intros Hm Hk. split.
  - apply In_tile_rows. exists m. split; [exact Hm|].
    unfold set_index, basis1, basis2. ring.
  - apply In_Zrange. unfold set_index. lia.
Qed.

(** The origins visited by the sweep along an axis of [n] tiles. *)
Lemma In_sweep_axis (L n i0 : Z) :
  0 <= n -> L = 2 * NGHOSTS + n * STRIDE ->
  (In i0 (Zrange_step NGHOSTS (L - NGHOSTS) STRIDE)
   <-> exists c, 0 <= c < n /\ i0 = NGHOSTS + c * STRIDE).
Proof.
  intros Hn EL. pose proof (ok_stride OK) as PS.
  rewrite (In_Zrange_step _ _ _ _ PS). split.
  - intros [k [Hk [E L']]]. exists k. split; [|exact E].
    unfold NGHOSTS in *. nia.
  - intros [c [Hc E]]. exists c. split; [lia|]. split; [exact E|].
    unfold NGHOSTS in *. nia.
Qed.

Lemma quot_tile (c k : Z) :
  0 <= c -> 0 <= k < STRIDE ->
  Z.quot (NGHOSTS + c * STRIDE + k - NGHOSTS) STRIDE = c.
Proof.
  intros Hc Hk.
  replace (NGHOSTS + c * STRIDE + k - NGHOSTS) with (k + c * STRIDE) by ring.
  apply quot_rem_of_sum; lia.
Qed.

(** The tile of a site given by its coordinates. *)
Lemma tile_of_cell (c m k l io : Z) :
  0 <= c < lStr0 r -> 0 <= m < lStr1 STRIDE r ->
  0 <= k < STRIDE -> 0 <= l < STRIDE -> 0 <= io ->
  tile_of STRIDE r
          (set_index r (NGHOSTS + c * STRIDE + k) (NGHOSTS + m * STRIDE + l) io)
  = m * lStr0 r + c.
Proof.
  intros Hc Hm Hk Hl Hio. unfold tile_of.
  pose proof (ok_Ld0 OK) as E0. pose proof (ok_Ld1 OK) as E1.
  destruct (coords_of_set_index (NGHOSTS + c * STRIDE + k)
                                (NGHOSTS + m * STRIDE + l) io) as [A [B _]];
    [unfold NGHOSTS in *; nia|unfold NGHOSTS in *; nia|exact Hio|].
  rewrite A, B, !quot_tile by lia. reflexivity.
Qed.

(** A bulk site lies in exactly one tile. *)
Lemma bulk_tile (i : Z) :
  bulk r i ->
  exists c m k l io,
    0 <= c < lStr0 r /\ 0 <= m < lStr1 STRIDE r
    /\ 0 <= k < STRIDE /\ 0 <= l < STRIDE /\ 0 <= io < Orb r
    /\ i = set_index r (NGHOSTS + c * STRIDE + k) (NGHOSTS + m * STRIDE + l) io
    /\ coord_orb r i = io
    /\ tile_of STRIDE r i = m * lStr0 r + c.
Proof.
  intros [Hs [B0 B1]]. pose proof (ok_stride OK) as PS.
  destruct (set_index_of_coords i (proj1 Hs)) as [E [_ [_ _]]].
  pose proof (in_slot_orbital i Hs) as Ho.
  set (x := coord0 r i) in *. set (y := coord1 r i) in *.
  pose proof (Z.quot_rem' (x - NGHOSTS) STRIDE) as Ex.
  pose proof (Z.rem_bound_pos (x - NGHOSTS) STRIDE) as Bx.
  pose proof (Z.quot_rem' (y - NGHOSTS) STRIDE) as Ey.
  pose proof (Z.rem_bound_pos (y - NGHOSTS) STRIDE) as By.
  assert (Qx : 0 <= Z.quot (x - NGHOSTS) STRIDE) by (apply Z.quot_pos; lia).
  assert (Qy : 0 <= Z.quot (y - NGHOSTS) STRIDE) by (apply Z.quot_pos; lia).
  pose proof (ok_Ld0 OK) as E0. pose proof (ok_Ld1 OK) as E1.
  exists (Z.quot (x - NGHOSTS) STRIDE), (Z.quot (y - NGHOSTS) STRIDE),
    (Z.rem (x - NGHOSTS) STRIDE), (Z.rem (y - NGHOSTS) STRIDE),
    (coord_orb r i).
  assert (Cx : Z.quot (x - NGHOSTS) STRIDE < lStr0 r)
    by (unfold NGHOSTS in *; nia).
  assert (Cy : Z.quot (y - NGHOSTS) STRIDE < lStr1 STRIDE r)
    by (unfold NGHOSTS in *; nia).
  split; [lia|]. split; [lia|]. split; [lia|]. split; [lia|].
  split; [exact Ho|].
  assert (Xe : NGHOSTS + Z.quot (x - NGHOSTS) STRIDE * STRIDE
               + Z.rem (x - NGHOSTS) STRIDE = x) by lia.
  assert (Ye : NGHOSTS + Z.quot (y - NGHOSTS) STRIDE * STRIDE
               + Z.rem (y - NGHOSTS) STRIDE = y) by lia.
  rewrite Xe, Ye. split; [exact E|]. split; [reflexivity|].
  unfold tile_of. fold x y. reflexivity.
Qed.

(** The origin that lines 118-119 compute for a tile number. *)
Lemma tile_origin (istr : Z) :
  valid_tile STRIDE r istr ->
  exists c m,
    0 <= c < lStr0 r /\ 0 <= m < lStr1 STRIDE r /\ istr = m * lStr0 r + c
    /\ Z.rem istr (lStr0 r) * STRIDE + NGHOSTS = NGHOSTS + c * STRIDE
    /\ Z.quot istr (lStr0 r) * STRIDE + NGHOSTS = NGHOSTS + m * STRIDE.
Proof.
  intros [L U]. pose proof (ok_lStr0 OK) as P0. pose proof (ok_lStr1 OK) as P1.
  assert (Q : 0 < lStr0 r) by nia.
  pose proof (Z.quot_rem' istr (lStr0 r)) as E.
  pose proof (Z.rem_bound_pos istr (lStr0 r) L Q) as B.
  assert (Qm : 0 <= Z.quot istr (lStr0 r)) by (apply Z.quot_pos; lia).
  exists (Z.rem istr (lStr0 r)), (Z.quot istr (lStr0 r)).
  split; [lia|]. split; [nia|]. split; [lia|]. split; ring.
Qed.

Lemma tile_number_inj (c m c' m' : Z) :
  0 <= c < lStr0 r -> 0 <= c' < lStr0 r -> 0 <= m -> 0 <= m' ->
  m * lStr0 r + c = m' * lStr0 r + c' -> c = c' /\ m = m'.
Proof. intros Hc Hc' Hm Hm' E. assert (m = m') by nia. subst. lia. Qed.

Lemma valid_tile_number (c m : Z) :
  0 <= c < lStr0 r -> 0 <= m < lStr1 STRIDE r ->
  valid_tile STRIDE r (m * lStr0 r + c).
Proof. intros Hc Hm. unfold valid_tile. nia. Qed.

(** The cells of a tile are bulk sites of that tile. *)
Lemma tile_cell_bulk (c m k l io : Z) :
  0 <= c < lStr0 r -> 0 <= m < lStr1 STRIDE r ->
  0 <= k < STRIDE -> 0 <= l < STRIDE -> 0 <= io < Orb r ->
  bulk r (set_index r (NGHOSTS + c * STRIDE + k) (NGHOSTS + m * STRIDE + l) io).
Proof.
  intros Hc Hm Hk Hl Hio.
  pose proof (ok_Ld0 OK) as E0. pose proof (ok_Ld1 OK) as E1.
  assert (X : 0 <= NGHOSTS + c * STRIDE + k < Ld0 r)
    by (unfold NGHOSTS in *; nia).
  assert (Y : 0 <= NGHOSTS + m * STRIDE + l < Ld1 r)
    by (unfold NGHOSTS in *; nia).
  destruct (coords_of_set_index _ _ io X Y (proj1 Hio)) as [A [B _]].
  split; [apply set_index_in_slot; assumption|].
  rewrite A, B. unfold NGHOSTS in *. split; nia.
Qed.

End Geometry.

(** * Composing the effects of statements and loops *)

Section Acts.
Context {T : Type} `{Scalar T}.
Local Open Scope Z_scope.

Add Ring scalar_ring_acts : scalar_ring.

Variables phi0 phiM1 phiM2 size : Z.
Variable v0 : mem T.
Hypothesis Apart : slots_apart phi0 phiM1 phiM2 size.

Abbreviation preserved := (preserved phi0 phiM1 phiM2 size v0).
Abbreviation acts := (acts phi0 phiM1 phiM2 size v0).
Abbreviation adds := (adds phi0 phiM1 phiM2 size v0).
Abbreviation frames := (frames phi0 size).
Abbreviation init_value := (init_value phi0 phiM2 v0).

Lemma ssum_app_ring (xs ys : list T) : ssum (xs ++ ys) = ssum xs [+] ssum ys.
Proof.
  induction xs as [|x xs IH]; simpl.
  - ring.
  - rewrite IH. ring.
Qed.

Lemma preserved_upd (w : mem T) (i : Z) (x : T) :
  0 <= i < size -> preserved w -> preserved (upd w (phi0 + i) x).
Proof.
  intros Hi [P1 P2]. destruct Apart as [A1 A2]. split.
  - intros k Hk. rewrite upd_other; [apply P1; exact Hk|].
    intros E. apply (A1 i k Hi Hk). congruence.
  - intros N k Hk. rewrite upd_other; [apply P2; assumption|].
    intros E. apply (A2 N i k Hi Hk). congruence.
Qed.

(** ** Statements *)

(** A write to another cell. *)
Lemma acts_write_miss (a i : Z) (F : mem T -> T) :
  0 <= i < size -> a <> phi0 + i ->
  acts a (fun w => upd w (phi0 + i) (F w)) (fun x => x).
Proof.
  intros Hi N w P. split.
  - apply upd_other. exact N.
  - apply preserved_upd; assumption.
Qed.

(** A write to the cell. *)
Lemma acts_write_hit (i : Z) (F : mem T -> T) (g : T -> T) :
  0 <= i < size ->
  (forall w, preserved w -> F w = g (w (phi0 + i))) ->
  acts (phi0 + i) (fun w => upd w (phi0 + i) (F w)) g.
Proof.
  intros Hi E w P. split.
  - rewrite upd_same. apply E. exact P.
  - apply preserved_upd; assumption.
Qed.

Lemma acts_init_cell (MULT a i : Z) :
  0 <= i < size ->
  acts a (init_cell MULT phi0 phiM2 i)
       (fun x => if a =? phi0 + i then init_value MULT i x else x).
Proof.
  intros Hi. destruct (a =? phi0 + i) eqn:E.
  - apply Z.eqb_eq in E. subst a. apply (acts_write_hit i); [exact Hi|].
    intros w [_ P2]. unfold init_value. destruct (phiM2 =? phi0) eqn:A.
    + apply Z.eqb_eq in A. now rewrite A.
    + apply Z.eqb_neq in A. now rewrite (P2 A i Hi).
  - apply Z.eqb_neq in E. apply (acts_write_miss a i); assumption.
Qed.

Lemma acts_zero_cell (a i : Z) :
  0 <= i < size ->
  acts a (zero_cell phi0 i) (fun x => if a =? phi0 + i then s0 else x).
Proof.
  intros Hi. destruct (a =? phi0 + i) eqn:E.
  - apply Z.eqb_eq in E. subst a. apply (acts_write_hit i); [exact Hi|].
    reflexivity.
  - apply Z.eqb_neq in E. apply (acts_write_miss a i); assumption.
Qed.

Lemma adds_write (a i : Z) (F : mem T -> T) (c : T) :
  0 <= i < size ->
  (forall w, preserved w -> F w = w (phi0 + i) [+] c) ->
  adds a (fun w => upd w (phi0 + i) (F w)) (if a =? phi0 + i then c else s0).
Proof.
  intros Hi E w P. split.
  - destruct (a =? phi0 + i) eqn:A.
    + apply Z.eqb_eq in A. subst a. rewrite upd_same. apply E. exact P.
    + apply Z.eqb_neq in A. rewrite upd_other by exact A. ring.
  - apply preserved_upd; assumption.
Qed.

Lemma adds_add_cell (a i k : Z) (x y : T) :
  0 <= i < size -> 0 <= k < size ->
  adds a (add_cell phi0 phiM1 i x k y)
       (if a =? phi0 + i then x [*] v0 (phiM1 + k) [*] y else s0).
Proof.
  intros Hi Hk. apply (adds_write a i); [exact Hi|].
  intros w [P1 _]. now rewrite (P1 k Hk).
Qed.

Lemma adds_add_cell2 (a i k : Z) (x y : T) :
  0 <= i < size -> 0 <= k < size ->
  adds a (add_cell2 phi0 phiM1 i x y k)
       (if a =? phi0 + i then x [*] y [*] v0 (phiM1 + k) else s0).
Proof.
  intros Hi Hk. apply (adds_write a i); [exact Hi|].
  intros w [P1 _]. now rewrite (P1 k Hk).
Qed.

Lemma adds_add_cell3 (a i k : Z) (x y z : T) :
  0 <= i < size -> 0 <= k < size ->
  adds a (add_cell3 phi0 phiM1 i x y k z)
       (if a =? phi0 + i then x [*] y [*] v0 (phiM1 + k) [*] z else s0).
Proof.
  intros Hi Hk. apply (adds_write a i); [exact Hi|].
  intros w [P1 _]. now rewrite (P1 k Hk).
Qed.

(** ** Composition *)

Lemma acts_id (a : Z) : acts a (fun w => w) (fun x => x).
Proof. intros w P. split; [reflexivity|exact P]. Qed.

Lemma acts_ext (a : Z) (f f' : mem T -> mem T) (g g' : T -> T) :
  (forall w, f w = f' w) -> (forall x, g x = g' x) ->
  acts a f' g' -> acts a f g.
Proof.
  intros Ef Eg A w P. rewrite Ef, Eg. apply A. exact P.
Qed.

Lemma acts_comp (a : Z) (f f' : mem T -> mem T) (g g' : T -> T) :
  acts a f g -> acts a f' g' -> acts a (fun w => f' (f w)) (fun x => g' (g x)).
Proof.
  intros A A' w P. destruct (A w P) as [E Q]. destruct (A' (f w) Q) as [E' Q'].
  split; [now rewrite E', E|exact Q'].
Qed.

Lemma adds_ext (a : Z) (f f' : mem T -> mem T) (c c' : T) :
  (forall w, f w = f' w) -> c = c' -> adds a f' c' -> adds a f c.
Proof.
  intros Ef Ec A. subst c'. apply (acts_ext a f f' _ _ Ef (fun x => eq_refl) A).
Qed.

Lemma adds_zero_id (a : Z) (f : mem T -> mem T) :
  adds a f s0 -> acts a f (fun x => x).
Proof.
  intros A. apply (acts_ext a f f (fun x => x) (fun x => x [+] s0));
    [reflexivity| |exact A].
  intros x. ring.
Qed.

Lemma acts_id_adds (a : Z) (f : mem T -> mem T) :
  acts a f (fun x => x) -> adds a f s0.
Proof.
  intros A. apply (acts_ext a f f (fun x => x [+] s0) (fun x => x));
    [reflexivity| |exact A].
  intros x. ring.
Qed.

Lemma adds_comp (a : Z) (f f' : mem T -> mem T) (c c' : T) :
  adds a f c -> adds a f' c' -> adds a (fun w => f' (f w)) (c [+] c').
Proof.
  intros A A'.
  apply (acts_ext a _ (fun w => f' (f w)) _ (fun x => (x [+] c) [+] c'));
    [reflexivity| |apply (acts_comp a f f' _ _ A A')].
  intros x. ring.
Qed.

(** ** Loops *)

Lemma acts_for_each_id {A : Type} (a : Z) (l : list A)
      (body : A -> mem T -> mem T) :
  (forall y, In y l -> acts a (body y) (fun x => x)) ->
  acts a (for_each l body) (fun x => x).
Proof.
  induction l as [|y l IH]; intros Hb.
  - apply acts_id.
  - apply (acts_ext a _ (fun w => for_each l body (body y w)) _
                    (fun x => (fun z => z) ((fun z => z) x)));
      [reflexivity|reflexivity|].
    apply (acts_comp a (body y) (for_each l body) (fun z => z) (fun z => z)).
    + apply Hb. left. reflexivity.
    + apply IH. intros z Hz. apply Hb. right. exact Hz.
Qed.

Lemma adds_for_each {A : Type} (a : Z) (l : list A)
      (body : A -> mem T -> mem T) (c : A -> T) :
  (forall y, In y l -> adds a (body y) (c y)) ->
  adds a (for_each l body) (ssum (map c l)).
Proof.
  induction l as [|y l IH]; intros Hb.
  - apply acts_id_adds, acts_id.
  - apply (adds_ext a _ (fun w => for_each l body (body y w)) _
                    (c y [+] ssum (map c l)));
      [reflexivity|reflexivity|].
    apply (adds_comp a (body y) (for_each l body)).
    + apply Hb. left. reflexivity.
    + apply IH. intros z Hz. apply Hb. right. exact Hz.
Qed.

(** A loop over [l1 ++ y0 :: l2]. *)
Lemma acts_for_each_split {A : Type} (a : Z) (l1 l2 : list A) (y0 : A)
      (body : A -> mem T -> mem T) (g1 g g2 : T -> T) :
  acts a (for_each l1 body) g1 ->
  acts a (body y0) g ->
  acts a (for_each l2 body) g2 ->
  acts a (for_each (l1 ++ y0 :: l2) body) (fun x => g2 (g (g1 x))).
Proof.
  intros A1 A0 A2.
  apply (acts_ext a _ (fun w => for_each l2 body (body y0 (for_each l1 body w)))
                  _ (fun x => g2 (g (g1 x)))).
  - intros w. rewrite for_each_app. reflexivity.
  - reflexivity.
  - apply (acts_comp a (fun w => body y0 (for_each l1 body w))
                     (for_each l2 body) (fun x => g (g1 x)) g2); [|exact A2].
    apply (acts_comp a (for_each l1 body) (body y0) g1 g A1 A0).
Qed.

(** A loop over distinct values of which only [y0] touches the cell. *)
Lemma acts_for_each_single {A : Type} (a : Z) (l : list A) (y0 : A)
      (body : A -> mem T -> mem T) (g : T -> T) :
  NoDup l -> In y0 l ->
  (forall y, In y l -> y <> y0 -> acts a (body y) (fun x => x)) ->
  acts a (body y0) g ->
  acts a (for_each l body) g.
Proof.
  intros ND Hin Hoff Hon.
  destruct (in_split _ _ Hin) as [l1 [l2 E]]. subst l.
  apply NoDup_remove_2 in ND.
  apply (acts_ext a _ (for_each (l1 ++ y0 :: l2) body) _
                  (fun x => (fun z => z) (g ((fun z => z) x))));
    [reflexivity|reflexivity|].
  apply (acts_for_each_split a l1 l2 y0 body (fun z => z) g (fun z => z));
    [|exact Hon|].
  - apply acts_for_each_id. intros y Hy. apply Hoff.
    + apply in_or_app. left. exact Hy.
    + intros E. subst y. apply ND. apply in_or_app. left. exact Hy.
  - apply acts_for_each_id. intros y Hy. apply Hoff.
    + apply in_or_app. right. right. exact Hy.
    + intros E. subst y. apply ND. apply in_or_app. right. exact Hy.
Qed.

(** ** Cells outside the new slot *)

Lemma frames_id : frames (fun w : mem T => w).
Proof. intros w a _. reflexivity. Qed.

Lemma frames_write (i : Z) (F : mem T -> T) :
  0 <= i < size -> frames (fun w => upd w (phi0 + i) (F w)).
Proof. intros Hi w a N. apply upd_other. apply N. exact Hi. Qed.

Lemma frames_comp (f f' : mem T -> mem T) :
  frames f -> frames f' -> frames (fun w => f' (f w)).
Proof. intros A A' w a N. rewrite (A' (f w) a N). apply A. exact N. Qed.

Lemma frames_ext (f f' : mem T -> mem T) :
  (forall w, f w = f' w) -> frames f' -> frames f.
Proof. intros E A w a N. rewrite E. apply A. exact N. Qed.

Lemma frames_for_each {A : Type} (l : list A) (body : A -> mem T -> mem T) :
  (forall y, In y l -> frames (body y)) -> frames (for_each l body).
Proof.
  induction l as [|y l IH]; intros Hb.
  - apply frames_id.
  - apply (frames_ext _ (fun w => for_each l body (body y w)));
      [reflexivity|].
    apply (frames_comp (body y) (for_each l body)).
    + apply Hb. left. reflexivity.
    + apply IH. intros z Hz. apply Hb. right. exact Hz.
Qed.

End Acts.

(** * Facts about sums and sparse products *)

Section Matvec.
Context {T : Type} `{Scalar T}.
Local Open Scope Z_scope.

Add Ring scalar_ring_matvec : scalar_ring.

Lemma ssum_map_ext {A : Type} (f g : A -> T) (l : list A) :
  (forall x, In x l -> f x = g x) -> ssum (map f l) = ssum (map g l).
Proof.
  induction l as [|x l IH]; intros E; simpl; [reflexivity|].
  rewrite E by (left; reflexivity). f_equal.
  apply IH. intros y Hy. apply E. right. exact Hy.
Qed.

Lemma ssum_map_zero {A : Type} (f : A -> T) (l : list A) :
  (forall x, In x l -> f x = s0) -> ssum (map f l) = s0.
Proof.
  induction l as [|x l IH]; intros E; simpl; [reflexivity|].
  rewrite E by (left; reflexivity). rewrite IH.
  - ring.
  - intros y Hy. apply E. right. exact Hy.
Qed.

Lemma ssum_map_scale {A : Type} (c : T) (f : A -> T) (l : list A) :
  ssum (map (fun x => c [*] f x) l) = c [*] ssum (map f l).
Proof.
  induction l as [|x l IH]; simpl.
  - ring.
  - rewrite IH. ring.
Qed.

Lemma ssum_map_add {A : Type} (f g : A -> T) (l : list A) :
  ssum (map (fun x => f x [+] g x) l) = ssum (map f l) [+] ssum (map g l).
Proof.
  induction l as [|x l IH]; simpl.
  - ring.
  - rewrite IH. ring.
Qed.

Lemma ssum_app' (xs ys : list T) : ssum (xs ++ ys) = ssum xs [+] ssum ys.
Proof.
  induction xs as [|x xs IH]; simpl.
  - ring.
  - rewrite IH. ring.
Qed.

Lemma matvec_nil (psi : Z -> T) (i : Z) : matvec [] psi i = s0.
Proof. reflexivity. Qed.

Lemma matvec_cons (e : term) (A : list term) (psi : Z -> T) (i : Z) :
  matvec (e :: A) psi i
  = (if row e =? i then coefficient e [*] psi (column e) else s0)
    [+] matvec A psi i.
Proof.
  unfold matvec. simpl. destruct (row e =? i); simpl; [reflexivity|ring].
Qed.

Lemma matvec_app (A B : list term) (psi : Z -> T) (i : Z) :
  matvec (A ++ B) psi i = matvec A psi i [+] matvec B psi i.
Proof.
  unfold matvec. rewrite filter_app, map_app. apply ssum_app'.
Qed.

Lemma matvec_flat_map {A : Type} (F : A -> list term) (l : list A)
      (psi : Z -> T) (i : Z) :
  matvec (flat_map F l) psi i = ssum (map (fun x => matvec (F x) psi i) l).
Proof.
  induction l as [|x l IH]; simpl; [reflexivity|].
  now rewrite matvec_app, IH.
Qed.

Lemma matvec_map {A : Type} (F : A -> term) (l : list A)
      (psi : Z -> T) (i : Z) :
  matvec (map F l) psi i
  = ssum (map (fun x => if row (F x) =? i
                        then coefficient (F x) [*] psi (column (F x))
                        else s0) l).
Proof.
  induction l as [|x l IH]; simpl; [reflexivity|].
  now rewrite matvec_cons, IH.
Qed.

(** A matrix without element in row [i]. *)
Lemma matvec_no_row (A : list term) (psi : Z -> T) (i : Z) :
  (forall e, In e A -> row e <> i) -> matvec A psi i = s0.
Proof.
  induction A as [|e A IH]; intros N; [reflexivity|].
  rewrite matvec_cons, IH.
  - assert (E : (row e =? i) = false)
      by (apply Z.eqb_neq, N; left; reflexivity).
    rewrite E. ring.
  - intros e' He'. apply N. right. exact He'.
Qed.

(** A matrix whose elements are all in row [i]. *)
Lemma matvec_map_row {A : Type} (F : A -> term) (l : list A)
      (psi : Z -> T) (i : Z) :
  (forall x, In x l -> row (F x) = i) ->
  matvec (map F l) psi i
  = ssum (map (fun x => coefficient (F x) [*] psi (column (F x))) l).
Proof.
  intros R. rewrite matvec_map. apply ssum_map_ext.
  intros x Hx. rewrite (R x Hx), Z.eqb_refl. reflexivity.
Qed.

(** A row given by its diagonal element and a list of other elements. *)
Lemma matvec_row_terms {A : Type} (i : Z) (E : T) (col : A -> Z)
      (coef : A -> T) (l : list A) (psi : Z -> T) :
  matvec ((i, i, E) :: map (fun x => (i, col x, coef x)) l) psi i
  = E [*] psi i [+] ssum (map (fun x => coef x [*] psi (col x)) l).
Proof.
  rewrite matvec_cons. unfold row at 1. simpl fst. rewrite Z.eqb_refl.
  f_equal. rewrite matvec_map_row by reflexivity. reflexivity.
Qed.

Lemma ssum_flat_map {A B : Type} (f : B -> T) (F : A -> list B) (l : list A) :
  ssum (map f (flat_map F l)) = ssum (map (fun x => ssum (map f (F x))) l).
Proof.
  induction l as [|x l IH]; simpl; [reflexivity|].
  now rewrite map_app, ssum_app', IH.
Qed.

Lemma ssum_flat_map_map {A B C : Type} (f : C -> T) (g : A -> B -> C)
      (l : list A) (l' : list B) :
  ssum (map f (flat_map (fun x => map (g x) l') l))
  = ssum (map (fun x => ssum (map (fun y => f (g x y)) l')) l).
Proof.
  rewrite ssum_flat_map. apply ssum_map_ext. intros x _. now rewrite map_map.
Qed.

Lemma ssum_cons (x : T) (l : list T) : ssum (x :: l) = x [+] ssum l.
Proof. reflexivity. Qed.

Lemma flat_map_split {A B : Type} (F : A -> list B) (R1 R2 : list A) (x : A)
      (L1 L2 : list B) (y : B) :
  F x = L1 ++ y :: L2 ->
  flat_map F (R1 ++ x :: R2)
  = (flat_map F R1 ++ L1) ++ y :: (L2 ++ flat_map F R2).
Proof.
  intros E. rewrite flat_map_app. simpl. rewrite E.
  rewrite <- !app_assoc. reflexivity.
Qed.

Lemma eqb_shift (p a b : Z) : (p + a =? p + b) = (b =? a).
Proof.
  destruct (b =? a) eqn:E.
  - apply Z.eqb_eq in E. subst. apply Z.eqb_refl.
  - apply Z.eqb_neq in E. apply Z.eqb_neq. lia.
Qed.

Lemma existsb_eqb (i : Z) (l : list Z) :
  existsb (Z.eqb i) l = true <-> In i l.
Proof.
  rewrite existsb_exists. split.
  - intros [x [Hx E]]. apply Z.eqb_eq in E. now subst.
  - intros Hi. exists i. split; [exact Hi|apply Z.eqb_refl].
Qed.

Lemma existsb_eqb_false (i : Z) (l : list Z) :
  existsb (Z.eqb i) l = false <-> ~ In i l.
Proof.
  rewrite <- existsb_eqb. destruct (existsb (Z.eqb i) l); split; intros;
    congruence.
Qed.

End Matvec.

(** * The sweep of [Multiply], cell by cell *)

Section MultiplyFacts.
Context {T : Type} `{Scalar T}.
Local Open Scope Z_scope.

Add Ring scalar_ring_multiply : scalar_ring.

Variables STRIDE MULT : Z.
Variable r : LatticeStructure T.
Variable h : Hamiltonian T.
Variables phi0 phiM1 phiM2 : Z.
Variable v0 : mem T.

Hypothesis OK : lattice_ok STRIDE r.
Hypothesis TS : tables_in_slot STRIDE r h.
Hypothesis Apart : slots_apart phi0 phiM1 phiM2 (Sized r).

Abbreviation preserved := (preserved phi0 phiM1 phiM2 (Sized r) v0).
Abbreviation acts := (acts phi0 phiM1 phiM2 (Sized r) v0).
Abbreviation adds := (adds phi0 phiM1 phiM2 (Sized r) v0).
Abbreviation frames := (frames phi0 (Sized r)).
Abbreviation init_value := (init_value phi0 phiM2 v0).
Abbreviation psi1 := (fun k => v0 (phiM1 + k)).

Lemma bulk_in_slot (i : Z) : bulk r i -> 0 <= i < Sized r.
Proof. intros [S _]. exact S. Qed.

(** ** Only the new slot is written *)

Lemma tile_cells_bulk (c m io j i : Z) :
  0 <= c < lStr0 r -> 0 <= m < lStr1 STRIDE r -> 0 <= io < Orb r ->
  In j (Zrange_step
          (io * basis2 r + (NGHOSTS + c * STRIDE)
           + (NGHOSTS + m * STRIDE) * basis1 r)
          (io * basis2 r + (NGHOSTS + c * STRIDE)
           + (NGHOSTS + m * STRIDE) * basis1 r + STRIDE * basis1 r)
          (basis1 r)) ->
  In i (Zrange j (j + STRIDE)) ->
  bulk r i.
Proof.
  intros Hc Hm Hio Hj Hi.
  destruct (tile_cell STRIDE r OK _ _ _ _ _ Hj Hi)
    as (m' & k & Hm' & Hk & _ & Ei).
  subst i.
  replace (NGHOSTS + m * STRIDE + m') with (NGHOSTS + m * STRIDE + m') by lia.
  apply (tile_cell_bulk STRIDE r OK c m k m' io); assumption.
Qed.

Lemma frames_for_tile (c m io : Z) (body : Z -> Z -> mem T -> mem T) :
  0 <= c < lStr0 r -> 0 <= m < lStr1 STRIDE r -> 0 <= io < Orb r ->
  (forall j i, bulk r i -> frames (body j i)) ->
  frames (for_tile STRIDE r
            (io * basis2 r + (NGHOSTS + c * STRIDE)
             + (NGHOSTS + m * STRIDE) * basis1 r) body).
Proof.
  intros Hc Hm Hio B. unfold for_tile.
  apply frames_for_each. intros j Hj.
  apply frames_for_each. intros i Hi.
  apply B. eapply tile_cells_bulk; eassumption.
Qed.

Lemma frames_init_cell (i : Z) :
  0 <= i < Sized r -> frames (init_cell MULT phi0 phiM2 i).
Proof.
  intros Hi.
  exact (frames_write phi0 (Sized r) i
           (fun w => [-] of_Z MULT [*] w (phiM2 + i)) Hi).
Qed.

Lemma frames_zero_cell (i : Z) :
  0 <= i < Sized r -> frames (zero_cell phi0 i).
Proof.
  intros Hi. exact (frames_write phi0 (Sized r) i (fun _ => s0) Hi).
Qed.

Lemma frames_add_cell (i k : Z) (x y : T) :
  0 <= i < Sized r -> frames (add_cell phi0 phiM1 i x k y).
Proof.
  intros Hi.
  exact (frames_write phi0 (Sized r) i
           (fun w => w (phi0 + i) [+] x [*] w (phiM1 + k) [*] y) Hi).
Qed.

Lemma frames_add_cell2 (i k : Z) (x y : T) :
  0 <= i < Sized r -> frames (add_cell2 phi0 phiM1 i x y k).
Proof.
  intros Hi.
  exact (frames_write phi0 (Sized r) i
           (fun w => w (phi0 + i) [+] x [*] y [*] w (phiM1 + k)) Hi).
Qed.

Lemma frames_add_cell3 (i k : Z) (x y z : T) :
  0 <= i < Sized r -> frames (add_cell3 phi0 phiM1 i x y k z).
Proof.
  intros Hi.
  exact (frames_write phi0 (Sized r) i
           (fun w => w (phi0 + i) [+] x [*] y [*] w (phiM1 + k) [*] z) Hi).
Qed.

Lemma frames_initialize_cross_tiles :
  frames (initialize_cross_tiles STRIDE MULT r h phi0 phiM2).
Proof.
  unfold initialize_cross_tiles.
  apply frames_for_each. intros istr Histr.
  destruct (tile_origin STRIDE r OK istr (slot_cross TS istr Histr))
    as (c & m & Hc & Hm & _ & E0 & E1).
  cbv zeta. rewrite E0, E1.
  apply frames_for_each. intros io Hio. apply In_Zrange in Hio.
  apply frames_for_tile; try assumption.
  intros j i Bi. apply frames_init_cell, bulk_in_slot, Bi.
Qed.

Lemma frames_tile_orbital (c m istr io : Z) :
  0 <= c < lStr0 r -> 0 <= m < lStr1 STRIDE r -> 0 <= io < Orb r ->
  frames (tile_orbital STRIDE MULT r h phi0 phiM1 phiM2
            (NGHOSTS + c * STRIDE) (NGHOSTS + m * STRIDE) istr io).
Proof.
  intros Hc Hm Hio. unfold tile_orbital. cbv zeta.
  apply (frames_comp phi0 (Sized r)
           (fun w => orbital_onsite STRIDE MULT r h phi0 phiM1 _ io
                       (orbital_init STRIDE MULT r h phi0 phiM2 _ istr w))
           (orbital_hoppings STRIDE MULT r h phi0 phiM1 _ io)).
  - apply (frames_comp phi0 (Sized r)
             (orbital_init STRIDE MULT r h phi0 phiM2 _ istr)
             (orbital_onsite STRIDE MULT r h phi0 phiM1 _ io)).
    + unfold orbital_init. destruct (cross_mozaic h istr).
      * apply frames_for_tile; try assumption.
        intros j i Bi. apply frames_init_cell, bulk_in_slot, Bi.
      * apply frames_id.
    + unfold orbital_onsite. cbv zeta.
      destruct (Anderson_orb_address h io >=? 0);
        [|destruct (Anderson_orb_address h io =? -1)].
      * apply frames_for_tile; try assumption.
        intros j i Bi. apply frames_add_cell, bulk_in_slot, Bi.
      * apply frames_for_tile; try assumption.
        intros j i Bi. apply frames_add_cell, bulk_in_slot, Bi.
      * apply frames_id.
  - unfold orbital_hoppings. apply frames_for_each. intros ib _. cbv zeta.
    apply frames_for_tile; try assumption.
    intros j i Bi. apply frames_add_cell, bulk_in_slot, Bi.
Qed.

(** The elements of the patterns anchored in a tile. *)
Lemma In_tile_terms_hopping (istr : Z) (id : Defect T) (ip k : Z) :
  In id (hd h) -> In ip (position id istr) ->
  In k (Zrange 0 (Z.of_nat (length (hopping id)))) ->
  In (ip + at_ 0 (node_position id) (at_ 0 (element1 id) k),
      ip + at_ 0 (node_position id) (at_ 0 (element2 id) k),
      at_ s0 (hopping id) k
      [*] peierls2
            (bond_phase r
               (ip + at_ 0 (node_position id) (at_ 0 (element1 id) k))
               (ip + at_ 0 (node_position id) (at_ 0 (element2 id) k))))
     (tile_terms r h istr).
Proof.
  intros Hid Hip Hk. unfold tile_terms.
  apply in_flat_map. exists id. split; [exact Hid|].
  apply in_flat_map. exists ip. split; [exact Hip|].
  unfold defect_terms. apply in_or_app. left.
  apply in_map_iff. exists k. split; [reflexivity|exact Hk].
Qed.

Lemma In_tile_terms_onsite (istr : Z) (id : Defect T) (ip k : Z) :
  In id (hd h) -> In ip (position id istr) ->
  In k (Zrange 0 (Z.of_nat (length (U id)))) ->
  In (ip + at_ 0 (node_position id) (at_ 0 (element id) k),
      ip + at_ 0 (node_position id) (at_ 0 (element id) k),
      at_ s0 (U id) k)
     (tile_terms r h istr).
Proof.
  intros Hid Hip Hk. unfold tile_terms.
  apply in_flat_map. exists id. split; [exact Hid|].
  apply in_flat_map. exists ip. split; [exact Hip|].
  unfold defect_terms. apply in_or_app. right.
  apply in_map_iff. exists k. split; [reflexivity|exact Hk].
Qed.

Lemma In_border_terms_hopping (id : Defect T) (i : Z) :
  In id (hd h) ->
  In i (Zrange 0 (Z.of_nat (length (border_element1 id)))) ->
  In (at_ 0 (border_element1 id) i, at_ 0 (border_element2 id) i,
      at_ s0 (border_hopping id) i
      [*] peierls2 (bond_phase r (at_ 0 (border_element1 id) i)
                               (at_ 0 (border_element2 id) i)))
     (border_terms r h).
Proof.
  intros Hid Hi. unfold border_terms. apply in_or_app. left.
  apply in_flat_map. exists id. split; [exact Hid|].
  apply in_map_iff. exists i. split; [reflexivity|exact Hi].
Qed.

Lemma In_border_terms_onsite (id : Defect T) (i : Z) :
  In id (hd h) ->
  In i (Zrange 0 (Z.of_nat (length (border_element id)))) ->
  In (at_ 0 (border_element id) i, at_ 0 (border_element id) i,
      at_ s0 (border_U id) i)
     (border_terms r h).
Proof.
  intros Hid Hi. unfold border_terms. apply in_or_app. right.
  apply in_flat_map. exists id. split; [exact Hid|].
  apply in_map_iff. exists i. split; [reflexivity|exact Hi].
Qed.

Lemma frames_tile_defects (istr : Z) :
  valid_tile STRIDE r istr -> frames (tile_defects MULT r h phi0 phiM1 istr).
Proof.
  intros V. unfold tile_defects.
  apply frames_for_each. intros id Hid.
  apply frames_for_each. intros ip Hip. cbv zeta.
  apply (frames_comp phi0 (Sized r)
           (for_each (Zrange 0 (Z.of_nat (length (hopping id)))) _)
           (for_each (Zrange 0 (Z.of_nat (length (U id)))) _)).
  - apply frames_for_each. intros k Hk.
    apply frames_add_cell3.
    apply (slot_defects TS istr V _ (In_tile_terms_hopping istr id ip k Hid Hip Hk)).
  - apply frames_for_each. intros k Hk.
    apply frames_add_cell2.
    apply (slot_defects TS istr V _ (In_tile_terms_onsite istr id ip k Hid Hip Hk)).
Qed.

Lemma frames_tile_vacancies (istr : Z) :
  valid_tile STRIDE r istr -> frames (tile_vacancies h phi0 istr).
Proof.
  intros V. unfold tile_vacancies.
  apply frames_for_each. intros k Hk.
  apply frames_zero_cell, bulk_in_slot.
  apply (slot_vacancies TS istr k V Hk).
Qed.

Lemma sweep_tile_number (c m : Z) :
  0 <= c -> 0 <= m ->
  Z.quot (NGHOSTS + m * STRIDE - NGHOSTS) STRIDE * lStr0 r
  + Z.quot (NGHOSTS + c * STRIDE - NGHOSTS) STRIDE
  = m * lStr0 r + c.
Proof.
  intros Hc Hm. pose proof (ok_stride OK) as S.
  replace (NGHOSTS + m * STRIDE - NGHOSTS) with (m * STRIDE) by lia.
  replace (NGHOSTS + c * STRIDE - NGHOSTS) with (c * STRIDE) by lia.
  rewrite !Z.quot_mul by lia. reflexivity.
Qed.

Lemma frames_tile_sweep :
  frames (tile_sweep STRIDE MULT r h phi0 phiM1 phiM2).
Proof.
  unfold tile_sweep.
  apply frames_for_each. intros i1 H1.
  apply frames_for_each. intros i0 H0. cbv zeta.
  apply (In_sweep_axis STRIDE r OK (Ld1 r) (lStr1 STRIDE r) i1
           (ok_lStr1 OK) (ok_Ld1 OK)) in H1.
  apply (In_sweep_axis STRIDE r OK (Ld0 r) (lStr0 r) i0
           (ok_lStr0 OK) (ok_Ld0 OK)) in H0.
  destruct H1 as (m & Hm & E1), H0 as (c & Hc & E0). subst i0 i1.
  rewrite sweep_tile_number by lia.
  pose proof (valid_tile_number STRIDE r c m Hc Hm) as V.
  apply (frames_comp phi0 (Sized r)
           (fun w => tile_defects MULT r h phi0 phiM1 (m * lStr0 r + c)
                       (for_each (Zrange 0 (Orb r))
                          (tile_orbital STRIDE MULT r h phi0 phiM1 phiM2
                             (NGHOSTS + c * STRIDE) (NGHOSTS + m * STRIDE)
                             (m * lStr0 r + c)) w))
           (tile_vacancies h phi0 (m * lStr0 r + c))).
  - apply (frames_comp phi0 (Sized r)
             (for_each (Zrange 0 (Orb r)) _)
             (tile_defects MULT r h phi0 phiM1 (m * lStr0 r + c))).
    + apply frames_for_each. intros io Hio. apply In_Zrange in Hio.
      apply frames_tile_orbital; assumption.
    + apply frames_tile_defects. exact V.
  - apply frames_tile_vacancies. exact V.
Qed.

Lemma frames_border :
  frames (fun w => border_onsite MULT h phi0 phiM1
                     (border_bonds MULT r h phi0 phiM1 w)).
Proof.
  apply (frames_comp phi0 (Sized r)
           (border_bonds MULT r h phi0 phiM1)
           (border_onsite MULT h phi0 phiM1)).
  - unfold border_bonds. apply frames_for_each. intros id Hid.
    apply frames_for_each. intros i Hi. cbv zeta.
    apply frames_add_cell3.
    apply (slot_border TS _ (In_border_terms_hopping id i Hid Hi)).
  - unfold border_onsite. apply frames_for_each. intros id Hid.
    apply frames_for_each. intros i Hi. cbv zeta.
    apply frames_add_cell2.
    apply (slot_border TS _ (In_border_terms_onsite id i Hid Hi)).
Qed.

Lemma frames_zero_vacancies_with_defects :
  frames (zero_vacancies_with_defects h phi0).
Proof.
  unfold zero_vacancies_with_defects.
  apply frames_for_each. intros k Hk.
  apply frames_zero_cell. apply (slot_vacancies_with_defects TS k Hk).
Qed.

(** The sweep of [Multiply] writes cells of the new slot only. *)
Lemma frames_Multiply_sweep :
  frames (Multiply_sweep STRIDE MULT r h phi0 phiM1 phiM2).
Proof.
  unfold Multiply_sweep. cbv zeta.
  apply (frames_comp phi0 (Sized r)
           (fun w => zero_vacancies_with_defects h phi0
                       (tile_sweep STRIDE MULT r h phi0 phiM1 phiM2
                          (initialize_cross_tiles STRIDE MULT r h phi0 phiM2 w)))
           (fun w => border_onsite MULT h phi0 phiM1
                       (border_bonds MULT r h phi0 phiM1 w))).
  - apply (frames_comp phi0 (Sized r)
             (fun w => tile_sweep STRIDE MULT r h phi0 phiM1 phiM2
                         (initialize_cross_tiles STRIDE MULT r h phi0 phiM2 w))
             (zero_vacancies_with_defects h phi0)).
    + apply (frames_comp phi0 (Sized r)
               (initialize_cross_tiles STRIDE MULT r h phi0 phiM2)
               (tile_sweep STRIDE MULT r h phi0 phiM1 phiM2)).
      * apply frames_initialize_cross_tiles.
      * apply frames_tile_sweep.
    + apply frames_zero_vacancies_with_defects.
  - apply frames_border.
Qed.

End MultiplyFacts.

(** * The sweep of [Multiply] seen from one bulk site *)

Section MultiplySite.
Context {T : Type} `{Scalar T}.
Local Open Scope Z_scope.

Add Ring scalar_ring_site : scalar_ring.

Variables STRIDE MULT : Z.
Variable r : LatticeStructure T.
Variable h : Hamiltonian T.
Variables phi0 phiM1 phiM2 : Z.
Variable v0 : mem T.

Hypothesis OK : lattice_ok STRIDE r.
Hypothesis TS : tables_in_slot STRIDE r h.
Hypothesis Apart : slots_apart phi0 phiM1 phiM2 (Sized r).

(** The site: cell [(k_, l_)] of the tile [(c_, m_)], orbital [io_]. *)
Variables c_ m_ k_ l_ io_ : Z.
Hypothesis Hc_ : 0 <= c_ < lStr0 r.
Hypothesis Hm_ : 0 <= m_ < lStr1 STRIDE r.
Hypothesis Hk_ : 0 <= k_ < STRIDE.
Hypothesis Hl_ : 0 <= l_ < STRIDE.
Hypothesis Hio_ : 0 <= io_ < Orb r.

Abbreviation preserved := (preserved phi0 phiM1 phiM2 (Sized r) v0).
Abbreviation acts := (acts phi0 phiM1 phiM2 (Sized r) v0).
Abbreviation adds := (adds phi0 phiM1 phiM2 (Sized r) v0).
Abbreviation initv := (init_value phi0 phiM2 v0).
Abbreviation psi1 := (fun k => v0 (phiM1 + k)).
Abbreviation i_ :=
  (set_index r (NGHOSTS + c_ * STRIDE + k_) (NGHOSTS + m_ * STRIDE + l_) io_).
Abbreviation j_ :=
  (set_index r (NGHOSTS + c_ * STRIDE) (NGHOSTS + m_ * STRIDE + l_) io_).
Abbreviation a_ := (phi0 + i_).
Abbreviation t_ := (m_ * lStr0 r + c_).
Abbreviation origin c m io :=
  (io * basis2 r + (NGHOSTS + c * STRIDE) + (NGHOSTS + m * STRIDE) * basis1 r).

Abbreviation Fsingle := (acts_for_each_single phi0 phiM1 phiM2 (Sized r) v0).
Abbreviation Fid := (acts_for_each_id phi0 phiM1 phiM2 (Sized r) v0).
Abbreviation Fsplit := (acts_for_each_split phi0 phiM1 phiM2 (Sized r) v0).
Abbreviation Fadds := (adds_for_each phi0 phiM1 phiM2 (Sized r) v0).
Abbreviation Fcomp := (acts_comp phi0 phiM1 phiM2 (Sized r) v0).
Abbreviation Fcompadds := (adds_comp phi0 phiM1 phiM2 (Sized r) v0).
Abbreviation Fext := (acts_ext phi0 phiM1 phiM2 (Sized r) v0).
Abbreviation Fextadds := (adds_ext phi0 phiM1 phiM2 (Sized r) v0).
Abbreviation Fidentity := (acts_id phi0 phiM1 phiM2 (Sized r) v0).

Lemma tile_coord_range (c k n : Z) :
  0 <= c < n -> 0 <= k < STRIDE ->
  0 <= NGHOSTS + c * STRIDE + k < 2 * NGHOSTS + n * STRIDE.
Proof. unfold NGHOSTS. intros Hc Hk. nia. Qed.

Lemma site_bulk : bulk r i_.
Proof. apply (tile_cell_bulk STRIDE r OK); assumption. Qed.

Lemma site_in_slot : 0 <= i_ < Sized r.
Proof. apply site_bulk. Qed.

Lemma site_orbital : coord_orb r i_ = io_.
Proof.
  apply coords_of_set_index.
  - rewrite (ok_Ld0 OK). apply tile_coord_range; assumption.
  - rewrite (ok_Ld1 OK). apply tile_coord_range; assumption.
  - lia.
Qed.

Lemma site_tile : tile_of STRIDE r i_ = t_.
Proof. apply (tile_of_cell STRIDE r OK); try assumption. lia. Qed.

Lemma site_row_start : i_ = j_ + k_.
Proof. unfold set_index. lia. Qed.

Lemma row_start_coord : coord0 r j_ = NGHOSTS + c_ * STRIDE /\ 0 <= j_.
Proof.
  assert (R0 : 0 <= NGHOSTS + c_ * STRIDE < Ld0 r).
  { rewrite (ok_Ld0 OK).
    pose proof (tile_coord_range c_ 0 (lStr0 r) Hc_) as P.
    pose proof (ok_stride OK). lia. }
  assert (R1 : 0 <= NGHOSTS + m_ * STRIDE + l_ < Ld1 r).
  { rewrite (ok_Ld1 OK). apply tile_coord_range; assumption. }
  split.
  - apply coords_of_set_index; [exact R0|exact R1|lia].
  - pose proof (set_index_in_slot STRIDE r OK _ _ io_ R0 R1 Hio_) as S.
    apply S.
Qed.

(** A cell of some tile other than the site. *)
Lemma other_cell (c m k l io : Z) :
  0 <= c < lStr0 r -> 0 <= m < lStr1 STRIDE r ->
  0 <= k < STRIDE -> 0 <= l < STRIDE -> 0 <= io < Orb r ->
  set_index r (NGHOSTS + c * STRIDE + k) (NGHOSTS + m * STRIDE + l) io = i_ ->
  c = c_ /\ m = m_ /\ k = k_ /\ l = l_ /\ io = io_.
Proof.
  intros Hc Hm Hk Hl Hio E.
  apply set_index_inj in E.
  - destruct E as (E0 & E1 & E2).
    assert (c = c_) by nia. assert (m = m_) by nia.
    subst. repeat split; lia.
  - rewrite (ok_Ld0 OK). apply tile_coord_range; assumption.
  - rewrite (ok_Ld1 OK). apply tile_coord_range; assumption.
  - lia.
  - rewrite (ok_Ld0 OK). apply tile_coord_range; assumption.
  - rewrite (ok_Ld1 OK). apply tile_coord_range; assumption.
  - lia.
Qed.

(** ** Statements *)

Lemma write_miss (i : Z) (F : mem T -> T) :
  bulk r i -> i <> i_ ->
  acts a_ (fun w => upd w (phi0 + i) (F w)) (fun x => x).
Proof.
  intros B N.
  apply (acts_write_miss phi0 phiM1 phiM2 (Sized r) v0 Apart a_ i F).
  - apply B.
  - lia.
Qed.

Lemma write_hit (F : mem T -> T) (g : T -> T) :
  (forall w, preserved w -> F w = g (w a_)) ->
  acts a_ (fun w => upd w a_ (F w)) g.
Proof.
  intros E.
  exact (acts_write_hit phi0 phiM1 phiM2 (Sized r) v0 Apart i_ F g
           site_in_slot E).
Qed.

Lemma init_hit : acts a_ (init_cell MULT phi0 phiM2 i_) (initv MULT i_).
Proof.
  apply (write_hit (fun w => [-] of_Z MULT [*] w (phiM2 + i_))).
  intros w [_ P2]. unfold init_value.
  destruct (phiM2 =? phi0) eqn:A.
  - apply Z.eqb_eq in A. now rewrite A.
  - apply Z.eqb_neq in A. now rewrite (P2 A i_ site_in_slot).
Qed.

Lemma add_hit (x y : T) (k : Z) :
  0 <= k < Sized r ->
  adds a_ (add_cell phi0 phiM1 i_ x k y) (x [*] psi1 k [*] y).
Proof.
  intros Hk.
  apply (write_hit (fun w => w a_ [+] x [*] w (phiM1 + k) [*] y)).
  intros w [P1 _]. now rewrite (P1 k Hk).
Qed.

(** ** One tile *)

Lemma for_tile_own (body : Z -> Z -> mem T -> mem T) (g : T -> T) :
  (forall j i, bulk r i -> i <> i_ -> acts a_ (body j i) (fun x => x)) ->
  acts a_ (body j_ i_) g ->
  acts a_ (for_tile STRIDE r (origin c_ m_ io_) body) g.
Proof.
  intros Miss Hit. unfold for_tile. cbv zeta.
  destruct (cell_in_tile STRIDE r OK (NGHOSTS + c_ * STRIDE)
              (NGHOSTS + m_ * STRIDE) io_ l_ k_ Hl_ Hk_) as [Inj Ini].
  apply (Fsingle a_ _ j_ _ g).
  - apply NoDup_Zrange_step. apply (Ld0_pos STRIDE r OK).
  - exact Inj.
  - intros j Hj Nj. apply (Fid a_). intros i Hi.
    destruct (tile_cell STRIDE r OK _ _ _ _ _ Hj Hi)
      as (l & k & Hl & Hk & Ej & Ei).
    apply Miss.
    + subst i. apply (tile_cell_bulk STRIDE r OK); assumption.
    + intros E. apply Nj. rewrite Ej. rewrite Ei in E.
      apply other_cell in E; try assumption.
      destruct E as (_ & _ & _ & El & _). now rewrite El.
  - apply (Fsingle a_ _ i_ _ g).
    + apply NoDup_Zrange.
    + exact Ini.
    + intros i Hi Ni. apply Miss; [|exact Ni].
      apply (tile_cells_bulk STRIDE r OK c_ m_ io_ j_ i); assumption.
    + exact Hit.
Qed.

Lemma for_tile_other (c m io : Z) (body : Z -> Z -> mem T -> mem T) :
  0 <= c < lStr0 r -> 0 <= m < lStr1 STRIDE r -> 0 <= io < Orb r ->
  c <> c_ \/ m <> m_ \/ io <> io_ ->
  (forall j i, bulk r i -> i <> i_ -> acts a_ (body j i) (fun x => x)) ->
  acts a_ (for_tile STRIDE r (origin c m io) body) (fun x => x).
Proof.
  intros Hc Hm Hio N Miss. unfold for_tile. cbv zeta.
  apply (Fid a_). intros j Hj. apply (Fid a_). intros i Hi.
  destruct (tile_cell STRIDE r OK _ _ _ _ _ Hj Hi)
    as (l & k & Hl & Hk & Ej & Ei).
  apply Miss.
  - subst i. apply (tile_cell_bulk STRIDE r OK); assumption.
  - intros E. rewrite Ei in E. apply other_cell in E; try assumption. lia.
Qed.

Lemma init_miss (i : Z) :
  bulk r i -> i <> i_ ->
  acts a_ (init_cell MULT phi0 phiM2 i) (fun x => x).
Proof.
  intros B N.
  exact (write_miss i (fun w => [-] of_Z MULT [*] w (phiM2 + i)) B N).
Qed.

Lemma add_miss (i k : Z) (x y : T) :
  bulk r i -> i <> i_ ->
  acts a_ (add_cell phi0 phiM1 i x k y) (fun x => x).
Proof.
  intros B N.
  exact (write_miss i (fun w => w (phi0 + i) [+] x [*] w (phiM1 + k) [*] y)
                    B N).
Qed.

(** ** One orbital of one tile *)

Abbreviation onsite_ :=
  (of_Z (MULT + 1) [*] psi1 i_ [*] onsite_energy r h io_ i_).
Abbreviation hops_ :=
  (ssum (map (fun ib =>
                (of_Z (MULT + 1) [*] hr_hopping h ib io_)
                [*] psi1 (i_ + hr_distance h ib io_)
                [*] peierls2 (hopping_phase r (hr_dist h ib io_) j_))
             (Zrange 0 (hr_NHoppings h io_)))).

Lemma orbital_init_own (istr : Z) :
  acts a_ (orbital_init STRIDE MULT r h phi0 phiM2 (origin c_ m_ io_) istr)
       (fun x => if cross_mozaic h istr then initv MULT i_ x else x).
Proof.
  unfold orbital_init. destruct (cross_mozaic h istr).
  - apply (for_tile_own (fun j i => init_cell MULT phi0 phiM2 i)
                        (initv MULT i_)).
    + intros j i. apply init_miss.
    + apply init_hit.
  - apply Fidentity.
Qed.

Lemma orbital_onsite_own :
  adds a_ (orbital_onsite STRIDE MULT r h phi0 phiM1 (origin c_ m_ io_) io_)
       onsite_.
Proof.
  unfold orbital_onsite, onsite_energy. cbv zeta.
  destruct (Anderson_orb_address h io_ >=? 0);
    [|destruct (Anderson_orb_address h io_ =? -1)].
  - apply (for_tile_own
             (fun j i => add_cell phi0 phiM1 i (of_Z (MULT + 1)) i
                           (U_Anderson h
                              (i - (Anderson_orb_address h io_ - io_) * Nd r)))
             (fun x => x [+] _)).
    + intros j i. apply add_miss.
    + apply (add_hit (of_Z (MULT + 1)) _ i_). apply site_in_slot.
  - apply (for_tile_own
             (fun j i => add_cell phi0 phiM1 i (of_Z (MULT + 1)) i
                           (U_Orbital h io_))
             (fun x => x [+] _)).
    + intros j i. apply add_miss.
    + apply (add_hit (of_Z (MULT + 1)) _ i_). apply site_in_slot.
  - apply (Fextadds a_ _ (fun w => w) _ s0).
    + reflexivity.
    + ring.
    + apply acts_id_adds. apply Fidentity.
Qed.

Lemma orbital_hoppings_own :
  adds a_ (orbital_hoppings STRIDE MULT r h phi0 phiM1 (origin c_ m_ io_) io_)
       hops_.
Proof.
  unfold orbital_hoppings.
  apply (Fadds a_ (Zrange 0 (hr_NHoppings h io_)) _
           (fun ib =>
              (of_Z (MULT + 1) [*] hr_hopping h ib io_)
              [*] psi1 (i_ + hr_distance h ib io_)
              [*] peierls2 (hopping_phase r (hr_dist h ib io_) j_))).
  intros ib Hib. apply In_Zrange in Hib. cbv zeta.
  apply (for_tile_own
           (fun j i => add_cell phi0 phiM1 i
                         (of_Z (MULT + 1) [*] hr_hopping h ib io_)
                         (i + hr_distance h ib io_)
                         (peierls2 (hopping_phase r (hr_dist h ib io_) j)))
           (fun x => x [+] _)).
  - intros j i. apply add_miss.
  - apply (add_hit _ _ (i_ + hr_distance h ib io_)).
    pose proof (slot_hoppings TS i_ ib site_bulk) as S.
    rewrite site_orbital in S. apply S. exact Hib.
Qed.

Lemma tile_orbital_own (istr : Z) :
  acts a_ (tile_orbital STRIDE MULT r h phi0 phiM1 phiM2
             (NGHOSTS + c_ * STRIDE) (NGHOSTS + m_ * STRIDE) istr io_)
       (fun x => (if cross_mozaic h istr then initv MULT i_ x else x)
                 [+] onsite_ [+] hops_).
Proof.
  unfold tile_orbital. cbv zeta.
  apply (Fcomp a_
           (fun w => orbital_onsite STRIDE MULT r h phi0 phiM1
                       (origin c_ m_ io_) io_
                       (orbital_init STRIDE MULT r h phi0 phiM2
                          (origin c_ m_ io_) istr w))
           (orbital_hoppings STRIDE MULT r h phi0 phiM1 (origin c_ m_ io_) io_)
           (fun x => (if cross_mozaic h istr then initv MULT i_ x else x)
                     [+] onsite_)
           (fun x => x [+] hops_)).
  - apply (Fcomp a_
             (orbital_init STRIDE MULT r h phi0 phiM2 (origin c_ m_ io_) istr)
             (orbital_onsite STRIDE MULT r h phi0 phiM1 (origin c_ m_ io_) io_)
             (fun x => if cross_mozaic h istr then initv MULT i_ x else x)
             (fun x => x [+] onsite_)).
    + apply orbital_init_own.
    + apply orbital_onsite_own.
  - apply orbital_hoppings_own.
Qed.

Lemma tile_orbital_other (c m istr io : Z) :
  0 <= c < lStr0 r -> 0 <= m < lStr1 STRIDE r -> 0 <= io < Orb r ->
  c <> c_ \/ m <> m_ \/ io <> io_ ->
  acts a_ (tile_orbital STRIDE MULT r h phi0 phiM1 phiM2
             (NGHOSTS + c * STRIDE) (NGHOSTS + m * STRIDE) istr io)
       (fun x => x).
Proof.
  intros Hc Hm Hio N. unfold tile_orbital. cbv zeta.
  apply (Fcomp a_
           (fun w => orbital_onsite STRIDE MULT r h phi0 phiM1
                       (origin c m io) io
                       (orbital_init STRIDE MULT r h phi0 phiM2
                          (origin c m io) istr w))
           (orbital_hoppings STRIDE MULT r h phi0 phiM1 (origin c m io) io)
           (fun x => x) (fun x => x)).
  - apply (Fcomp a_
             (orbital_init STRIDE MULT r h phi0 phiM2 (origin c m io) istr)
             (orbital_onsite STRIDE MULT r h phi0 phiM1 (origin c m io) io)
             (fun x => x) (fun x => x)).
    + unfold orbital_init. destruct (cross_mozaic h istr).
      * apply for_tile_other; try assumption. intros j i. apply init_miss.
      * apply Fidentity.
    + unfold orbital_onsite. cbv zeta.
      destruct (Anderson_orb_address h io >=? 0);
        [|destruct (Anderson_orb_address h io =? -1)].
      * apply for_tile_other; try assumption. intros j i. apply add_miss.
      * apply for_tile_other; try assumption. intros j i. apply add_miss.
      * apply Fidentity.
  - unfold orbital_hoppings. apply (Fid a_). intros ib _. cbv zeta.
    apply for_tile_other; try assumption. intros j i. apply add_miss.
Qed.

(** The on-site and hopping terms are the regular part of the row. *)
Lemma regular_value :
  onsite_ [+] hops_
  = of_Z (MULT + 1) [*] matvec (regular_terms r h i_) psi1 i_.
Proof.
  assert (P : forall dist,
             hopping_phase r dist i_ = hopping_phase r dist j_).
  { intros dist. unfold hopping_phase. rewrite site_row_start.
    destruct row_start_coord as [C0 Pj].
    rewrite (ok_row OK j_ k_); [reflexivity| | | |exact Pj].
    - rewrite C0. pose proof (ok_stride OK). unfold NGHOSTS. nia.
    - lia.
    - rewrite C0, (ok_Ld0 OK).
      pose proof (tile_coord_range c_ k_ (lStr0 r) Hc_ Hk_). lia. }
  unfold regular_terms. cbv zeta. rewrite site_orbital.
  rewrite (matvec_row_terms i_ (onsite_energy r h io_ i_)
             (fun ib => i_ + hr_distance h ib io_)
             (fun ib => hr_hopping h ib io_
                        [*] peierls2 (hopping_phase r (hr_dist h ib io_) i_))
             (Zrange 0 (hr_NHoppings h io_)) psi1).
  transitivity
    (onsite_
     [+] of_Z (MULT + 1)
         [*] ssum (map (fun ib =>
                          (hr_hopping h ib io_
                           [*] peierls2
                                 (hopping_phase r (hr_dist h ib io_) i_))
                          [*] psi1 (i_ + hr_distance h ib io_))
                       (Zrange 0 (hr_NHoppings h io_)))).
  - f_equal. rewrite <- ssum_map_scale. apply ssum_map_ext.
    intros ib _. rewrite P. ring.
  - ring.
Qed.

(** ** Lists of matrix elements *)

Abbreviation M1 := (of_Z (MULT + 1)).

Lemma add3_site (k1 k2 : Z) (x y z : T) :
  0 <= k1 < Sized r -> 0 <= k2 < Sized r ->
  adds a_ (add_cell3 phi0 phiM1 k1 x y k2 z)
       (if k1 =? i_ then x [*] y [*] psi1 k2 [*] z else s0).
Proof.
  intros H1 H2. rewrite <- (eqb_shift phi0 i_ k1).
  apply (adds_add_cell3 phi0 phiM1 phiM2 (Sized r) v0 Apart a_ k1 k2 x y z);
    assumption.
Qed.

Lemma add2_site (k1 k2 : Z) (x y : T) :
  0 <= k1 < Sized r -> 0 <= k2 < Sized r ->
  adds a_ (add_cell2 phi0 phiM1 k1 x y k2)
       (if k1 =? i_ then x [*] y [*] psi1 k2 else s0).
Proof.
  intros H1 H2. rewrite <- (eqb_shift phi0 i_ k1).
  apply (adds_add_cell2 phi0 phiM1 phiM2 (Sized r) v0 Apart a_ k1 k2 x y);
    assumption.
Qed.

Lemma adds_terms {A : Type} (l : list A) (body : A -> mem T -> mem T)
      (F : A -> term) :
  (forall k, In k l ->
     adds a_ (body k)
          (if row (F k) =? i_
           then M1 [*] (coefficient (F k) [*] psi1 (column (F k)))
           else s0)) ->
  adds a_ (for_each l body) (M1 [*] matvec (map F l) psi1 i_).
Proof.
  intros L.
  apply (Fextadds a_ _ (for_each l body) _
           (ssum (map (fun k => if row (F k) =? i_
                                then M1 [*] (coefficient (F k)
                                             [*] psi1 (column (F k)))
                                else s0) l))).
  - reflexivity.
  - rewrite matvec_map, <- ssum_map_scale. apply ssum_map_ext.
    intros k _. destruct (row (F k) =? i_); [reflexivity|ring].
  - apply (Fadds a_ l body). exact L.
Qed.

Lemma adds_flat {A : Type} (l : list A) (body : A -> mem T -> mem T)
      (F : A -> list term) :
  (forall y, In y l -> adds a_ (body y) (M1 [*] matvec (F y) psi1 i_)) ->
  adds a_ (for_each l body) (M1 [*] matvec (flat_map F l) psi1 i_).
Proof.
  intros L.
  apply (Fextadds a_ _ (for_each l body) _
           (ssum (map (fun y => M1 [*] matvec (F y) psi1 i_) l))).
  - reflexivity.
  - rewrite matvec_flat_map. symmetry.
    apply (ssum_map_scale M1 (fun y => matvec (F y) psi1 i_)).
  - apply (Fadds a_ l body). exact L.
Qed.

Lemma adds_app (f f' : mem T -> mem T) (A B : list term) :
  adds a_ f (M1 [*] matvec A psi1 i_) ->
  adds a_ f' (M1 [*] matvec B psi1 i_) ->
  adds a_ (fun w => f' (f w)) (M1 [*] matvec (A ++ B) psi1 i_).
Proof.
  intros HA HB.
  apply (Fextadds a_ _ (fun w => f' (f w)) _
           (M1 [*] matvec A psi1 i_ [+] M1 [*] matvec B psi1 i_)).
  - reflexivity.
  - rewrite matvec_app. ring.
  - apply (Fcompadds a_ f f'); assumption.
Qed.

(** ** The patterns of a tile, and the broken patterns *)

Lemma tile_defects_adds (istr : Z) :
  valid_tile STRIDE r istr ->
  adds a_ (tile_defects MULT r h phi0 phiM1 istr)
       (M1 [*] matvec (tile_terms r h istr) psi1 i_).
Proof.
  intros V. unfold tile_defects, tile_terms.
  apply (adds_flat (hd h) _
           (fun id => flat_map (defect_terms r id) (position id istr))).
  intros id Hid.
  apply (adds_flat (position id istr) _ (defect_terms r id)).
  intros ip Hip. cbv zeta. unfold defect_terms.
  apply (adds_app
           (for_each (Zrange 0 (Z.of_nat (length (hopping id)))) _)
           (for_each (Zrange 0 (Z.of_nat (length (U id)))) _)).
  - apply adds_terms. intros k Hk.
    pose proof (slot_defects TS istr V _
                  (In_tile_terms_hopping r h istr id ip k Hid Hip Hk)) as [S1 S2].
    cbv beta zeta in *. unfold row, column, coefficient in *.
    simpl fst in *. simpl snd in *.
    set (k1 := ip + at_ 0 (node_position id) (at_ 0 (element1 id) k)) in *.
    set (k2 := ip + at_ 0 (node_position id) (at_ 0 (element2 id) k)) in *.
    apply (Fextadds a_ _
             (add_cell3 phi0 phiM1 k1 M1 (at_ s0 (hopping id) k) k2
                        (peierls2 (bond_phase r k1 k2))) _
             (if k1 =? i_
              then M1 [*] at_ s0 (hopping id) k [*] psi1 k2
                   [*] peierls2 (bond_phase r k1 k2)
              else s0)).
    + reflexivity.
    + destruct (k1 =? i_); [ring|reflexivity].
    + apply add3_site; assumption.
  - apply adds_terms. intros k Hk.
    pose proof (slot_defects TS istr V _
                  (In_tile_terms_onsite r h istr id ip k Hid Hip Hk)) as [S1 _].
    cbv beta zeta in *. unfold row, column, coefficient in *.
    simpl fst in *. simpl snd in *.
    set (k1 := ip + at_ 0 (node_position id) (at_ 0 (element id) k)) in *.
    apply (Fextadds a_ _
             (add_cell2 phi0 phiM1 k1 M1 (at_ s0 (U id) k) k1) _
             (if k1 =? i_
              then M1 [*] at_ s0 (U id) k [*] psi1 k1
              else s0)).
    + reflexivity.
    + destruct (k1 =? i_); [ring|reflexivity].
    + apply add2_site; assumption.
Qed.

Lemma border_adds :
  adds a_ (fun w => border_onsite MULT h phi0 phiM1
                      (border_bonds MULT r h phi0 phiM1 w))
       (M1 [*] matvec (border_terms r h) psi1 i_).
Proof.
  unfold border_terms.
  apply (adds_app (border_bonds MULT r h phi0 phiM1)
                  (border_onsite MULT h phi0 phiM1)).
  - unfold border_bonds.
    apply (adds_flat (hd h) _
             (fun id =>
                map (fun i =>
                       (at_ 0 (border_element1 id) i,
                        at_ 0 (border_element2 id) i,
                        at_ s0 (border_hopping id) i
                        [*] peierls2
                              (bond_phase r (at_ 0 (border_element1 id) i)
                                          (at_ 0 (border_element2 id) i))))
                    (Zrange 0 (Z.of_nat (length (border_element1 id)))))).
    intros id Hid. apply adds_terms. intros i Hi.
    pose proof (slot_border TS _ (In_border_terms_hopping r h id i Hid Hi))
      as [S1 S2].
    cbv beta zeta in *. unfold row, column, coefficient in *.
    simpl fst in *. simpl snd in *.
    set (k1 := at_ 0 (border_element1 id) i) in *.
    set (k2 := at_ 0 (border_element2 id) i) in *.
    apply (Fextadds a_ _
             (add_cell3 phi0 phiM1 k1 M1 (at_ s0 (border_hopping id) i) k2
                        (peierls2 (bond_phase r k1 k2))) _
             (if k1 =? i_
              then M1 [*] at_ s0 (border_hopping id) i [*] psi1 k2
                   [*] peierls2 (bond_phase r k1 k2)
              else s0)).
    + reflexivity.
    + destruct (k1 =? i_); [ring|reflexivity].
    + apply add3_site; assumption.
  - unfold border_onsite.
    apply (adds_flat (hd h) _
             (fun id =>
                map (fun i =>
                       (at_ 0 (border_element id) i,
                        at_ 0 (border_element id) i,
                        at_ s0 (border_U id) i))
                    (Zrange 0 (Z.of_nat (length (border_element id)))))).
    intros id Hid. apply adds_terms. intros i Hi.
    pose proof (slot_border TS _ (In_border_terms_onsite r h id i Hid Hi))
      as [S1 _].
    cbv beta zeta in *. unfold row, column, coefficient in *.
    simpl fst in *. simpl snd in *.
    set (k1 := at_ 0 (border_element id) i) in *.
    apply (Fextadds a_ _
             (add_cell2 phi0 phiM1 k1 M1 (at_ s0 (border_U id) i) k1) _
             (if k1 =? i_
              then M1 [*] at_ s0 (border_U id) i [*] psi1 k1
              else s0)).
    + reflexivity.
    + destruct (k1 =? i_); [ring|reflexivity].
    + apply add2_site; assumption.
Qed.

(** ** Zeroed cells *)

Lemma zero_list (l : list Z) :
  (forall k, In k l -> 0 <= k < Sized r) ->
  acts a_ (for_each l (fun k => zero_cell phi0 k))
       (fun x => if existsb (Z.eqb i_) l then s0 else x).
Proof.
  induction l as [|k l IH]; intros R.
  - exact (Fidentity a_).
  - apply (Fext a_ _
             (fun w => for_each l (fun k => zero_cell phi0 k)
                                (zero_cell phi0 k w)) _
             (fun x => (fun y => if existsb (Z.eqb i_) l then s0 else y)
                         ((fun y => if a_ =? phi0 + k then s0 else y) x))).
    + reflexivity.
    + intros x. cbv beta.
      change (existsb (Z.eqb i_) (k :: l))
        with ((i_ =? k) || existsb (Z.eqb i_) l)%bool.
      rewrite (eqb_shift phi0 i_ k), (Z.eqb_sym i_ k).
      destruct (k =? i_), (existsb (Z.eqb i_) l); reflexivity.
    + apply (Fcomp a_ (zero_cell phi0 k)
               (for_each l (fun k => zero_cell phi0 k))
               (fun y => if a_ =? phi0 + k then s0 else y)
               (fun y => if existsb (Z.eqb i_) l then s0 else y)).
      * apply (acts_zero_cell phi0 phiM1 phiM2 (Sized r) v0 Apart a_ k).
        apply R. left. reflexivity.
      * apply IH. intros k' Hk'. apply R. right. exact Hk'.
Qed.

(** ** The tiles initialised before the sweep *)

Lemma other_tile (c m : Z) :
  0 <= c < lStr0 r -> 0 <= m < lStr1 STRIDE r ->
  m * lStr0 r + c <> t_ -> c <> c_ \/ m <> m_.
Proof.
  intros Hc Hm N.
  destruct (Z.eq_dec c c_) as [Ec|Nc]; [|left; exact Nc].
  destruct (Z.eq_dec m m_) as [Em|Nm]; [|right; exact Nm].
  subst. exfalso. apply N. reflexivity.
Qed.

Lemma init_tile_other (istr : Z) :
  valid_tile STRIDE r istr -> istr <> t_ ->
  acts a_
       (for_each (Zrange 0 (Orb r)) (fun io =>
          for_tile STRIDE r
            (io * basis2 r + (Z.rem istr (lStr0 r) * STRIDE + NGHOSTS)
             + (Z.quot istr (lStr0 r) * STRIDE + NGHOSTS) * basis1 r)
            (fun j i => init_cell MULT phi0 phiM2 i)))
       (fun x => x).
Proof.
  intros V N.
  destruct (tile_origin STRIDE r OK istr V) as (c & m & Hc & Hm & E & E0 & E1).
  rewrite E0, E1. apply (Fid a_). intros io Hio. apply In_Zrange in Hio.
  apply for_tile_other; try assumption.
  - subst istr. destruct (other_tile c m Hc Hm N) as [N'|N']; tauto.
  - intros j i. apply init_miss.
Qed.

Lemma init_tile_own :
  acts a_
       (for_each (Zrange 0 (Orb r)) (fun io =>
          for_tile STRIDE r
            (io * basis2 r + (Z.rem t_ (lStr0 r) * STRIDE + NGHOSTS)
             + (Z.quot t_ (lStr0 r) * STRIDE + NGHOSTS) * basis1 r)
            (fun j i => init_cell MULT phi0 phiM2 i)))
       (initv MULT i_).
Proof.
  destruct (tile_origin STRIDE r OK t_ (valid_tile_number STRIDE r c_ m_ Hc_ Hm_))
    as (c & m & Hc & Hm & E & E0 & E1).
  rewrite E0, E1.
  destruct (tile_number_inj r c_ m_ c m) as [Ec Em]; try lia.
  subst c m.
  apply (Fsingle a_ _ io_ _ (initv MULT i_)).
  - apply NoDup_Zrange.
  - apply In_Zrange. exact Hio_.
  - intros io Hio Nio. apply In_Zrange in Hio.
    apply for_tile_other; try assumption.
    + right. right. exact Nio.
    + intros j i. apply init_miss.
  - apply (for_tile_own (fun j i => init_cell MULT phi0 phiM2 i)
                        (initv MULT i_)).
    + intros j i. apply init_miss.
    + apply init_hit.
Qed.

Lemma initialize_cross_tiles_site :
  NoDup (cross_mozaic_indexes h) ->
  acts a_ (initialize_cross_tiles STRIDE MULT r h phi0 phiM2)
       (fun x => if existsb (Z.eqb t_) (cross_mozaic_indexes h)
                 then initv MULT i_ x else x).
Proof.
  intros ND. unfold initialize_cross_tiles. cbv zeta.
  destruct (existsb (Z.eqb t_) (cross_mozaic_indexes h)) eqn:E.
  - apply existsb_eqb in E.
    apply (Fsingle a_ _ t_ _ (initv MULT i_)).
    + exact ND.
    + exact E.
    + intros istr Histr N. apply init_tile_other; [|exact N].
      apply (slot_cross TS istr Histr).
    + apply init_tile_own.
  - apply existsb_eqb_false in E.
    apply (Fid a_). intros istr Histr. apply init_tile_other.
    + apply (slot_cross TS istr Histr).
    + intros N. apply E. rewrite <- N. exact Histr.
Qed.

(** ** The body of the sweep for one tile *)

Abbreviation S_ t := (M1 [*] matvec (tile_terms r h t) psi1 i_).
Abbreviation tnum i1 i0 :=
  (Z.quot (i1 - NGHOSTS) STRIDE * lStr0 r + Z.quot (i0 - NGHOSTS) STRIDE).
Abbreviation tile_body i1 i0 istr :=
  (fun w : mem T =>
     tile_vacancies h phi0 istr
       (tile_defects MULT r h phi0 phiM1 istr
          (for_each (Zrange 0 (Orb r))
             (tile_orbital STRIDE MULT r h phi0 phiM1 phiM2 i0 i1 istr) w))).
Abbreviation own_g :=
  (fun x => if existsb (Z.eqb i_) (hV_position h t_) then s0
            else (if cross_mozaic h t_ then initv MULT i_ x else x)
                 [+] onsite_ [+] hops_ [+] S_ t_).

Lemma vacancies_of_tile (istr : Z) :
  valid_tile STRIDE r istr ->
  forall k, In k (hV_position h istr) -> 0 <= k < Sized r.
Proof.
  intros V k Hk. apply bulk_in_slot. apply (slot_vacancies TS istr k V Hk).
Qed.

Lemma tile_body_other (c m : Z) :
  0 <= c < lStr0 r -> 0 <= m < lStr1 STRIDE r ->
  c <> c_ \/ m <> m_ ->
  adds a_ (tile_body (NGHOSTS + m * STRIDE) (NGHOSTS + c * STRIDE)
                     (m * lStr0 r + c))
       (S_ (m * lStr0 r + c)).
Proof.
  intros Hc Hm N.
  pose proof (valid_tile_number STRIDE r c m Hc Hm) as V.
  apply (Fcomp a_
           (fun w => tile_defects MULT r h phi0 phiM1 (m * lStr0 r + c)
                       (for_each (Zrange 0 (Orb r))
                          (tile_orbital STRIDE MULT r h phi0 phiM1 phiM2
                             (NGHOSTS + c * STRIDE) (NGHOSTS + m * STRIDE)
                             (m * lStr0 r + c)) w))
           (tile_vacancies h phi0 (m * lStr0 r + c))
           (fun x => x [+] S_ (m * lStr0 r + c))
           (fun x => x)).
  - apply (Fcomp a_
             (for_each (Zrange 0 (Orb r))
                (tile_orbital STRIDE MULT r h phi0 phiM1 phiM2
                   (NGHOSTS + c * STRIDE) (NGHOSTS + m * STRIDE)
                   (m * lStr0 r + c)))
             (tile_defects MULT r h phi0 phiM1 (m * lStr0 r + c))
             (fun x => x)
             (fun x => x [+] S_ (m * lStr0 r + c))).
    + apply (Fid a_). intros io Hio. apply In_Zrange in Hio.
      apply tile_orbital_other; try assumption. tauto.
    + apply tile_defects_adds. exact V.
  - unfold tile_vacancies.
    apply (Fext a_ _ (for_each (hV_position h (m * lStr0 r + c))
                               (fun k => zero_cell phi0 k)) _
             (fun x => if existsb (Z.eqb i_) (hV_position h (m * lStr0 r + c))
                       then s0 else x)).
    + reflexivity.
    + intros x.
      assert (E : existsb (Z.eqb i_) (hV_position h (m * lStr0 r + c)) = false).
      { apply existsb_eqb_false. intros Hin.
        destruct (slot_vacancies TS _ _ V Hin) as [_ Et].
        rewrite site_tile in Et.
        destruct (tile_number_inj r c_ m_ c m) as [Ec Em]; try lia. }
      now rewrite E.
    + apply zero_list. apply vacancies_of_tile. exact V.
Qed.

Lemma tile_body_own :
  acts a_ (tile_body (NGHOSTS + m_ * STRIDE) (NGHOSTS + c_ * STRIDE) t_) own_g.
Proof.
  pose proof (valid_tile_number STRIDE r c_ m_ Hc_ Hm_) as V.
  apply (Fcomp a_
           (fun w => tile_defects MULT r h phi0 phiM1 t_
                       (for_each (Zrange 0 (Orb r))
                          (tile_orbital STRIDE MULT r h phi0 phiM1 phiM2
                             (NGHOSTS + c_ * STRIDE) (NGHOSTS + m_ * STRIDE)
                             t_) w))
           (tile_vacancies h phi0 t_)
           (fun x => (if cross_mozaic h t_ then initv MULT i_ x else x)
                     [+] onsite_ [+] hops_ [+] S_ t_)
           (fun x => if existsb (Z.eqb i_) (hV_position h t_)
                     then s0 else x)).
  - apply (Fcomp a_
             (for_each (Zrange 0 (Orb r))
                (tile_orbital STRIDE MULT r h phi0 phiM1 phiM2
                   (NGHOSTS + c_ * STRIDE) (NGHOSTS + m_ * STRIDE) t_))
             (tile_defects MULT r h phi0 phiM1 t_)
             (fun x => (if cross_mozaic h t_ then initv MULT i_ x else x)
                       [+] onsite_ [+] hops_)
             (fun x => x [+] S_ t_)).
    + apply (Fsingle a_ _ io_ _
               (fun x => (if cross_mozaic h t_ then initv MULT i_ x else x)
                         [+] onsite_ [+] hops_)).
      * apply NoDup_Zrange.
      * apply In_Zrange. exact Hio_.
      * intros io Hio Nio. apply In_Zrange in Hio.
        apply tile_orbital_other; try assumption. tauto.
      * apply tile_orbital_own.
    + apply tile_defects_adds. exact V.
  - unfold tile_vacancies. apply zero_list. apply vacancies_of_tile. exact V.
Qed.

(** ** The sweep over the tiles *)

Abbreviation rows := (Zrange_step NGHOSTS (Ld1 r - NGHOSTS) STRIDE).
Abbreviation cols := (Zrange_step NGHOSTS (Ld0 r - NGHOSTS) STRIDE).
Abbreviation i1_ := (NGHOSTS + m_ * STRIDE).
Abbreviation i0_ := (NGHOSTS + c_ * STRIDE).
Abbreviation sweep_body i1 i0 := (tile_body i1 i0 (tnum i1 i0)).

Lemma sweep_cell_tile (i1 i0 : Z) :
  In i1 rows -> In i0 cols ->
  exists c m,
    0 <= c < lStr0 r /\ 0 <= m < lStr1 STRIDE r
    /\ i1 = NGHOSTS + m * STRIDE /\ i0 = NGHOSTS + c * STRIDE
    /\ tnum i1 i0 = m * lStr0 r + c.
Proof.
  intros H1 H0.
  apply (In_sweep_axis STRIDE r OK (Ld1 r) (lStr1 STRIDE r) i1
           (ok_lStr1 OK) (ok_Ld1 OK)) in H1.
  apply (In_sweep_axis STRIDE r OK (Ld0 r) (lStr0 r) i0
           (ok_lStr0 OK) (ok_Ld0 OK)) in H0.
  destruct H1 as (m & Hm & E1), H0 as (c & Hc & E0).
  exists c, m. subst i0 i1. repeat split; try lia.
  apply (sweep_tile_number STRIDE r OK); lia.
Qed.

Lemma sweep_cell_other (i1 i0 : Z) :
  In i1 rows -> In i0 cols -> i1 <> i1_ \/ i0 <> i0_ ->
  adds a_ (sweep_body i1 i0) (S_ (tnum i1 i0)).
Proof.
  intros H1 H0 N.
  destruct (sweep_cell_tile i1 i0 H1 H0) as (c & m & Hc & Hm & E1 & E0 & Et).
  rewrite Et. subst i1 i0.
  apply tile_body_other; try assumption.
  destruct (Z.eq_dec c c_) as [Ec|Nc]; [|left; exact Nc].
  destruct (Z.eq_dec m m_) as [Em|Nm]; [|right; exact Nm].
  subst. exfalso. destruct N as [N|N]; apply N; reflexivity.
Qed.

Lemma sweep_cell_own : acts a_ (sweep_body i1_ i0_) own_g.
Proof.
  rewrite (sweep_tile_number STRIDE r OK c_ m_) by lia.
  apply tile_body_own.
Qed.

Lemma regroup (g : T -> T) (x a b c d : T) :
  g (x [+] (a [+] b)) [+] (c [+] d) = ((g ((x [+] a) [+] b)) [+] c) [+] d.
Proof.
  replace (x [+] (a [+] b)) with ((x [+] a) [+] b) by ring. ring.
Qed.

Lemma sweep_split (Rw Cl R1 R2 C1 C2 : list Z) :
  Rw = R1 ++ i1_ :: R2 -> Cl = C1 ++ i0_ :: C2 ->
  (forall i1, In i1 Rw -> In i1 rows) ->
  (forall i0, In i0 Cl -> In i0 cols) ->
  ~ In i1_ R1 -> ~ In i1_ R2 -> ~ In i0_ C1 -> ~ In i0_ C2 ->
  acts a_ (for_each Rw (fun i1 => for_each Cl (fun i0 => sweep_body i1 i0)))
       (fun x =>
          own_g (x [+] (ssum (map (fun i1 =>
                                     ssum (map (fun i0 => S_ (tnum i1 i0)) Cl))
                                  R1)
                        [+] ssum (map (fun i0 => S_ (tnum i1_ i0)) C1)))
          [+] (ssum (map (fun i0 => S_ (tnum i1_ i0)) C2)
               [+] ssum (map (fun i1 =>
                                ssum (map (fun i0 => S_ (tnum i1 i0)) Cl))
                             R2))).
Proof.
  intros ER EC HR HC N1 N2 N3 N4.
  assert (Other : forall i1, In i1 Rw -> i1 <> i1_ ->
            adds a_ (for_each Cl (fun i0 => sweep_body i1 i0))
                 (ssum (map (fun i0 => S_ (tnum i1 i0)) Cl))).
  { intros i1 Hi1 Ni1.
    apply (Fadds a_ Cl _ (fun i0 => S_ (tnum i1 i0))).
    intros i0 Hi0. apply sweep_cell_other.
    - apply HR. exact Hi1.
    - apply HC. exact Hi0.
    - left. exact Ni1. }
  pose (rowsum := fun i1 => ssum (map (fun i0 => S_ (tnum i1 i0)) Cl)).
  pose (sR := fun R : list Z => ssum (map rowsum R)).
  pose (sC := fun C : list Z => ssum (map (fun i0 => S_ (tnum i1_ i0)) C)).
  apply (Fext a_ _
           (for_each Rw (fun i1 => for_each Cl (fun i0 => sweep_body i1 i0))) _
           (fun x =>
              (fun y => y [+] sR R2)
                ((fun y => (fun z => z [+] sC C2)
                             (own_g ((fun z => z [+] sC C1) y)))
                   ((fun y => y [+] sR R1) x)))).
  - reflexivity.
  - intros x. exact (regroup own_g x _ _ _ _).
  - rewrite ER.
    apply (Fsplit a_ R1 R2 i1_
             (fun i1 => for_each Cl (fun i0 => sweep_body i1 i0))
             (fun y => y [+] sR R1)
             (fun y => (fun z => z [+] sC C2)
                         (own_g ((fun z => z [+] sC C1) y)))
             (fun y => y [+] sR R2)).
    + apply (Fadds a_ R1 _ rowsum).
      intros i1 Hi1. apply Other.
      * rewrite ER. apply in_or_app. left. exact Hi1.
      * intros E. apply N1. rewrite <- E. exact Hi1.
    + rewrite EC.
      apply (Fsplit a_ C1 C2 i0_ (fun i0 => sweep_body i1_ i0)
               (fun z => z [+] sC C1) own_g (fun z => z [+] sC C2)).
      * apply (Fadds a_ C1 _ (fun i0 => S_ (tnum i1_ i0))).
        intros i0 Hi0. apply sweep_cell_other.
        -- apply HR. rewrite ER. apply in_or_app. right. left. reflexivity.
        -- apply HC. rewrite EC. apply in_or_app. left. exact Hi0.
        -- right. intros E. apply N3. rewrite <- E. exact Hi0.
      * apply sweep_cell_own.
      * apply (Fadds a_ C2 _ (fun i0 => S_ (tnum i1_ i0))).
        intros i0 Hi0. apply sweep_cell_other.
        -- apply HR. rewrite ER. apply in_or_app. right. left. reflexivity.
        -- apply HC. rewrite EC. apply in_or_app. right. right. exact Hi0.
        -- right. intros E. apply N4. rewrite <- E. exact Hi0.
    + apply (Fadds a_ R2 _ rowsum).
      intros i1 Hi1. apply Other.
      * rewrite ER. apply in_or_app. right. right. exact Hi1.
      * intros E. apply N2. rewrite <- E. exact Hi1.
Qed.

Lemma tile_sweep_site :
  exists L1 L2,
    sweep_tiles STRIDE r = L1 ++ t_ :: L2
    /\ (forall t, In t (L1 ++ L2) -> valid_tile STRIDE r t /\ t <> t_)
    /\ acts a_ (tile_sweep STRIDE MULT r h phi0 phiM1 phiM2)
            (fun x => own_g (x [+] ssum (map (fun t => S_ t) L1))
                      [+] ssum (map (fun t => S_ t) L2)).
Proof.
  assert (In1 : In i1_ rows).
  { apply (In_sweep_axis STRIDE r OK (Ld1 r) (lStr1 STRIDE r) i1_
             (ok_lStr1 OK) (ok_Ld1 OK)).
    exists m_. split; [exact Hm_|reflexivity]. }
  assert (In0 : In i0_ cols).
  { apply (In_sweep_axis STRIDE r OK (Ld0 r) (lStr0 r) i0_
             (ok_lStr0 OK) (ok_Ld0 OK)).
    exists c_. split; [exact Hc_|reflexivity]. }
  assert (ND1 : NoDup rows) by apply NoDup_Zrange_step, (ok_stride OK).
  assert (ND0 : NoDup cols) by apply NoDup_Zrange_step, (ok_stride OK).
  destruct (in_split _ _ In1) as (R1 & R2 & ER).
  destruct (in_split _ _ In0) as (C1 & C2 & EC).
  rewrite ER in ND1. apply NoDup_remove_2 in ND1.
  rewrite EC in ND0. apply NoDup_remove_2 in ND0.
  assert (N1 : ~ In i1_ R1) by (intros X; apply ND1, in_or_app; left; exact X).
  assert (N2 : ~ In i1_ R2) by (intros X; apply ND1, in_or_app; right; exact X).
  assert (N3 : ~ In i0_ C1) by (intros X; apply ND0, in_or_app; left; exact X).
  assert (N4 : ~ In i0_ C2) by (intros X; apply ND0, in_or_app; right; exact X).
  assert (IR1 : forall i1, In i1 R1 -> In i1 rows)
    by (intros i1 X; rewrite ER; apply in_or_app; left; exact X).
  assert (IR2 : forall i1, In i1 R2 -> In i1 rows)
    by (intros i1 X; rewrite ER; apply in_or_app; right; right; exact X).
  assert (IC1 : forall i0, In i0 C1 -> In i0 cols)
    by (intros i0 X; rewrite EC; apply in_or_app; left; exact X).
  assert (IC2 : forall i0, In i0 C2 -> In i0 cols)
    by (intros i0 X; rewrite EC; apply in_or_app; right; right; exact X).
  pose (F := fun i1 => map (fun i0 => tnum i1 i0) cols).
  exists (flat_map F R1 ++ map (fun i0 => tnum i1_ i0) C1),
         (map (fun i0 => tnum i1_ i0) C2 ++ flat_map F R2).
  split; [|split].
  - unfold sweep_tiles. rewrite ER. apply (flat_map_split F).
    unfold F. rewrite EC at 1. rewrite map_app, map_cons.
    rewrite (sweep_tile_number STRIDE r OK c_ m_) by lia. reflexivity.
  - intros t Ht.
    assert (X : exists i1 i0, In i1 rows /\ In i0 cols
                              /\ (i1 <> i1_ \/ i0 <> i0_) /\ t = tnum i1 i0).
    { apply in_app_or in Ht. destruct Ht as [Ht|Ht];
        apply in_app_or in Ht; destruct Ht as [Ht|Ht].
      - apply in_flat_map in Ht. destruct Ht as (i1 & Hi1 & Ht).
        apply in_map_iff in Ht. destruct Ht as (i0 & Et & Hi0).
        exists i1, i0. repeat split; auto.
        left. intros E. apply N1. rewrite <- E. exact Hi1.
      - apply in_map_iff in Ht. destruct Ht as (i0 & Et & Hi0).
        exists i1_, i0. repeat split; auto.
        right. intros E. apply N3. rewrite <- E. exact Hi0.
      - apply in_map_iff in Ht. destruct Ht as (i0 & Et & Hi0).
        exists i1_, i0. repeat split; auto.
        right. intros E. apply N4. rewrite <- E. exact Hi0.
      - apply in_flat_map in Ht. destruct Ht as (i1 & Hi1 & Ht).
        apply in_map_iff in Ht. destruct Ht as (i0 & Et & Hi0).
        exists i1, i0. repeat split; auto.
        left. intros E. apply N2. rewrite <- E. exact Hi1. }
    destruct X as (i1 & i0 & H1 & H0 & N & Et).
    destruct (sweep_cell_tile i1 i0 H1 H0) as (c & m & Hc & Hm & E1 & E0 & Et').
    rewrite Et, Et'. split; [apply valid_tile_number; assumption|].
    intros E.
    assert (X : c = c_ /\ m = m_) by (apply (tile_number_inj r); lia).
    destruct X as [Ec Em]. subst. destruct N as [N|N]; apply N; reflexivity.
  - pose proof (sweep_split rows cols R1 R2 C1 C2 ER EC (fun _ X => X)
                  (fun _ X => X) N1 N2 N3 N4) as P.
    refine (Fext a_ _ _ _ _ _ _ P).
    + intros w. reflexivity.
    + intros x. rewrite !map_app, !ssum_app'.
      unfold F.
      rewrite (ssum_flat_map_map (fun t => S_ t) (fun i1 i0 => tnum i1 i0)
                                 R1 cols).
      rewrite (ssum_flat_map_map (fun t => S_ t) (fun i1 i0 => tnum i1 i0)
                                 R2 cols).
      rewrite !map_map. reflexivity.
Qed.

(** ** The value left at the site *)

Lemma sum_tiles_zero (L : list Z) :
  (forall t e, In t L -> In e (tile_terms r h t) -> row e <> i_) ->
  ssum (map (fun t => S_ t) L) = s0.
Proof.
  intros N. apply ssum_map_zero. intros t Ht.
  rewrite matvec_no_row; [ring|].
  intros e He. exact (N t e Ht He).
Qed.

Lemma structural_value (L1 L2 : list Z) :
  sweep_tiles STRIDE r = L1 ++ t_ :: L2 ->
  M1 [*] matvec (structural_terms STRIDE r h) psi1 i_
  = ssum (map (fun t => S_ t) L1) [+] S_ t_ [+] ssum (map (fun t => S_ t) L2).
Proof.
  intros E. unfold structural_terms.
  rewrite E, matvec_flat_map, map_app, ssum_app', map_cons, ssum_cons.
  rewrite !(ssum_map_scale M1 (fun t => matvec (tile_terms r h t) psi1 i_)).
  ring.
Qed.

Lemma preserved_initial : preserved v0.
Proof. split; intros; reflexivity. Qed.

(** What the sweep of [Multiply] leaves at a bulk site. *)
Lemma Multiply_sweep_site :
  tiles_consistent STRIDE r h ->
  Multiply_sweep STRIDE MULT r h phi0 phiM1 phiM2 v0 a_
  = Multiply_value STRIDE MULT r h psi1 (fun k => v0 (phiM2 + k)) i_.
Proof.
  intros TC.
  destruct tile_sweep_site as (L1 & L2 & EL & HL & As).
  pose proof (initialize_cross_tiles_site (cross_nodup TC)) as A0.
  pose proof (zero_list (vacancies_with_defects h)
                        (slot_vacancies_with_defects TS)) as Az.
  pose proof border_adds as Ab.
  pose proof (Fcomp a_ _ _ _ _ A0 As) as A1.
  pose proof (Fcomp a_ _ _ _ _ A1 Az) as A2.
  pose proof (Fcomp a_ _ _ _ _ A2 Ab) as A3.
  destruct (A3 v0 preserved_initial) as [E _].
  refine (eq_trans E _). clear E A0 A1 A2 A3 As Az Ab.
  cbv beta. unfold Multiply_value, is_vacancy, H_bulk. rewrite site_tile.
  f_equal.
  destruct (existsb (Z.eqb i_) (vacancies_with_defects h)) eqn:Evwd;
    [reflexivity|].
  apply existsb_eqb_false in Evwd.
  destruct (existsb (Z.eqb i_) (hV_position h t_)) eqn:Ehv.
  - cbv beta iota. simpl orb. cbv iota.
    rewrite (sum_tiles_zero L2); [ring|].
    intros t e Ht He Er. apply Evwd.
    destruct (HL t (in_or_app _ _ _ (or_intror Ht))) as [Vt Nt].
    pose proof (cross_vacancies TC t e Vt He) as CV.
    rewrite Er, site_tile in CV. apply CV.
    + apply existsb_eqb. exact Ehv.
    + intros X. apply Nt. symmetry. exact X.
    + apply site_bulk.
  - simpl orb. cbv iota.
    match goal with
    | |- _ = _ [+] M1 [*] (?A [+] ?B) =>
        replace (M1 [*] (A [+] B)) with (M1 [*] A [+] M1 [*] B) by ring
    end.
    rewrite <- regular_value, (structural_value L1 L2 EL).
    pose proof (cross_flag TC t_ (valid_tile_number STRIDE r c_ m_ Hc_ Hm_))
      as CF.
    destruct (existsb (Z.eqb t_) (cross_mozaic_indexes h)) eqn:Eidx.
    + apply existsb_eqb in Eidx.
      assert (Ecm : cross_mozaic h t_ = false).
      { destruct (cross_mozaic h t_); [|reflexivity].
        exfalso. apply (proj1 CF); [reflexivity|exact Eidx]. }
      rewrite Ecm. unfold init_value.
      destruct (phiM2 =? phi0) eqn:Al.
      * apply Z.eqb_eq in Al. rewrite Al. ring.
      * ring.
    + apply existsb_eqb_false in Eidx.
      assert (Ecm : cross_mozaic h t_ = true) by (apply CF; exact Eidx).
      assert (Z : forall L, (forall t, In t L -> In t (L1 ++ L2)) ->
                  ssum (map (fun t => S_ t) L) = s0).
      { intros L HLL. apply sum_tiles_zero. intros t e Ht He Er.
        destruct (HL t (HLL t Ht)) as [Vt Nt].
        pose proof (cross_targets TC t e Vt He) as CT.
        rewrite Er, site_tile in CT. destruct CT as [X|X].
        - apply site_bulk.
        - apply Nt. symmetry. exact X.
        - apply Eidx. exact X. }
      rewrite (Z L1) by (intros t X; apply in_or_app; left; exact X).
      rewrite (Z L2) by (intros t X; apply in_or_app; right; exact X).
      rewrite Ecm. unfold init_value.
      destruct (phiM2 =? phi0) eqn:Al.
      * apply Z.eqb_eq in Al. rewrite Al. ring.
      * ring.
Qed.

(** ** The simple path [Multiply2] *)

Abbreviation x_ := (NGHOSTS + c_ * STRIDE + k_).
Abbreviation y_ := (NGHOSTS + m_ * STRIDE + l_).

Lemma site_coords :
  NGHOSTS <= x_ < Ld0 r - NGHOSTS /\ NGHOSTS <= y_ < Ld1 r - NGHOSTS.
Proof.
  rewrite (ok_Ld0 OK), (ok_Ld1 OK).
  pose proof (ok_stride OK). unfold NGHOSTS. split; nia.
Qed.

Lemma simple_cell (ix iy io : Z) :
  NGHOSTS <= ix < Ld0 r - NGHOSTS -> NGHOSTS <= iy < Ld1 r - NGHOSTS ->
  0 <= io < Orb r ->
  ix + iy * Ld0 r + io * Nd r = set_index r ix iy io
  /\ bulk r (set_index r ix iy io)
  /\ (set_index r ix iy io = i_ -> ix = x_ /\ iy = y_ /\ io = io_).
Proof.
  intros Hx Hy Hio. destruct site_coords as [Sx Sy].
  assert (Rx : 0 <= ix < Ld0 r) by (unfold NGHOSTS in *; lia).
  assert (Ry : 0 <= iy < Ld1 r) by (unfold NGHOSTS in *; lia).
  split; [|split].
  - rewrite (ok_Nd OK). reflexivity.
  - destruct (coords_of_set_index r ix iy io Rx Ry) as (C0 & C1 & _); [lia|].
    split; [apply (set_index_in_slot STRIDE r OK); assumption|].
    rewrite C0, C1. split; assumption.
  - intros E. apply set_index_inj in E; try assumption;
      unfold NGHOSTS in *; lia.
Qed.

Lemma add2_hit (x y : T) (k : Z) :
  0 <= k < Sized r ->
  adds a_ (add_cell2 phi0 phiM1 i_ x y k) (x [*] y [*] psi1 k).
Proof.
  intros Hk.
  apply (write_hit (fun w => w a_ [+] x [*] y [*] w (phiM1 + k))).
  intros w [P1 _]. now rewrite (P1 k Hk).
Qed.

Lemma add2_miss (i k : Z) (x y : T) :
  bulk r i -> i <> i_ ->
  acts a_ (add_cell2 phi0 phiM1 i x y k) (fun x => x).
Proof.
  intros B N.
  exact (write_miss i (fun w => w (phi0 + i) [+] x [*] y [*] w (phiM1 + k))
                    B N).
Qed.

Abbreviation simple_body io iy ix :=
  (fun w : mem T =>
     for_each (Zrange 0 (NHoppings h io))
       (fun ib => add_cell2 phi0 phiM1 (ix + iy * Ld0 r + io * Nd r)
                            M1 (t h ib io)
                            (ix + iy * Ld0 r + io * Nd r + d h ib io))
       (init_cell MULT phi0 phiM2 (ix + iy * Ld0 r + io * Nd r) w)).

Lemma simple_body_other (ix iy io : Z) :
  NGHOSTS <= ix < Ld0 r - NGHOSTS -> NGHOSTS <= iy < Ld1 r - NGHOSTS ->
  0 <= io < Orb r ->
  ~ (ix = x_ /\ iy = y_ /\ io = io_) ->
  acts a_ (simple_body io iy ix) (fun x => x).
Proof.
  intros Hx Hy Hio N.
  destruct (simple_cell ix iy io Hx Hy Hio) as (E & B & Inj).
  rewrite E.
  assert (Ni : set_index r ix iy io <> i_) by (intros X; apply N, Inj, X).
  apply (Fcomp a_ (init_cell MULT phi0 phiM2 (set_index r ix iy io))
           (for_each (Zrange 0 (NHoppings h io))
              (fun ib => add_cell2 phi0 phiM1 (set_index r ix iy io)
                                   M1 (t h ib io)
                                   (set_index r ix iy io + d h ib io)))
           (fun x => x) (fun x => x)).
  - apply init_miss; assumption.
  - apply (Fid a_). intros ib _. apply add2_miss; assumption.
Qed.

Lemma simple_body_own :
  (forall ib, 0 <= ib < NHoppings h io_ ->
              0 <= i_ + d h ib io_ < Sized r) ->
  acts a_ (simple_body io_ y_ x_)
       (fun x => initv MULT i_ x
                 [+] ssum (map (fun ib =>
                                  M1 [*] t h ib io_ [*] psi1 (i_ + d h ib io_))
                               (Zrange 0 (NHoppings h io_)))).
Proof.
  intros R. destruct site_coords as [Sx Sy].
  destruct (simple_cell x_ y_ io_ Sx Sy Hio_) as (E & _ & _).
  rewrite E.
  apply (Fcomp a_ (init_cell MULT phi0 phiM2 i_)
           (for_each (Zrange 0 (NHoppings h io_))
              (fun ib => add_cell2 phi0 phiM1 i_ M1 (t h ib io_)
                                   (i_ + d h ib io_)))
           (initv MULT i_)
           (fun x => x [+] ssum (map (fun ib =>
                                  M1 [*] t h ib io_ [*] psi1 (i_ + d h ib io_))
                               (Zrange 0 (NHoppings h io_))))).
  - apply init_hit.
  - apply (Fadds a_ (Zrange 0 (NHoppings h io_)) _
             (fun ib => M1 [*] t h ib io_ [*] psi1 (i_ + d h ib io_))).
    intros ib Hib. apply In_Zrange in Hib. apply add2_hit. apply R. exact Hib.
Qed.

(** What the sweep of [Multiply2] leaves at a bulk site. *)
Lemma Multiply2_sweep_site :
  (forall ib, 0 <= ib < NHoppings h io_ ->
              0 <= i_ + d h ib io_ < Sized r) ->
  Multiply2_sweep MULT r h phi0 phiM1 phiM2 v0 a_
  = [-] of_Z MULT [*] v0 (phiM2 + i_)
    [+] ssum (map (fun ib => M1 [*] t h ib io_ [*] psi1 (i_ + d h ib io_))
                  (Zrange 0 (NHoppings h io_))).
Proof.
  intros R. destruct site_coords as [Sx Sy].
  assert (A : acts a_ (Multiply2_sweep MULT r h phi0 phiM1 phiM2)
                (fun x => initv MULT i_ x
                   [+] ssum (map (fun ib =>
                                  M1 [*] t h ib io_ [*] psi1 (i_ + d h ib io_))
                               (Zrange 0 (NHoppings h io_))))).
  { unfold Multiply2_sweep.
    apply (Fsingle a_ _ io_).
    - apply NoDup_Zrange.
    - apply In_Zrange. exact Hio_.
    - intros io Hio Nio. apply In_Zrange in Hio.
      apply (Fid a_). intros iy Hy. apply In_Zrange in Hy.
      apply (Fid a_). intros ix Hx. apply In_Zrange in Hx.
      apply simple_body_other; try assumption. tauto.
    - apply (Fsingle a_ _ y_).
      + apply NoDup_Zrange.
      + apply In_Zrange. exact Sy.
      + intros iy Hy Ny. apply In_Zrange in Hy.
        apply (Fid a_). intros ix Hx. apply In_Zrange in Hx.
        apply simple_body_other; try assumption. tauto.
      + apply (Fsingle a_ _ x_).
        * apply NoDup_Zrange.
        * apply In_Zrange. exact Sx.
        * intros ix Hx Nx. apply In_Zrange in Hx.
          apply simple_body_other; try assumption. tauto.
        * apply simple_body_own. exact R. }
  destruct (A v0 preserved_initial) as [E _]. rewrite E.
  f_equal. unfold init_value.
  destruct (phiM2 =? phi0) eqn:Al; [|reflexivity].
  apply Z.eqb_eq in Al. now rewrite Al.
Qed.

(** On a clean Hamiltonian the tiled sweep leaves the same value. *)
Lemma Multiply_sweep_site_clean :
  tiles_consistent STRIDE r h -> clean_hamiltonian r h ->
  Multiply_sweep STRIDE MULT r h phi0 phiM1 phiM2 v0 a_
  = [-] of_Z MULT [*] v0 (phiM2 + i_)
    [+] ssum (map (fun ib => M1 [*] t h ib io_ [*] psi1 (i_ + d h ib io_))
                  (Zrange 0 (NHoppings h io_))).
Proof.
  intros TC CH. rewrite (Multiply_sweep_site TC).
  unfold Multiply_value, is_vacancy, H_bulk.
  rewrite (clean_vacancies_with_defects CH), (clean_vacancies CH).
  simpl existsb. simpl orb. cbv iota.
  assert (Eb : matvec (border_terms r h) psi1 i_ = s0).
  { unfold border_terms. rewrite (clean_defects CH). reflexivity. }
  assert (Es : matvec (structural_terms STRIDE r h) psi1 i_ = s0).
  { unfold structural_terms. rewrite matvec_flat_map.
    apply ssum_map_zero. intros istr _. unfold tile_terms.
    rewrite (clean_defects CH). reflexivity. }
  rewrite Eb, Es.
  transitivity ([-] of_Z MULT [*] v0 (phiM2 + i_)
                [+] M1 [*] matvec (regular_terms r h i_) psi1 i_); [ring|].
  rewrite <- regular_value.
  assert (Eo : onsite_energy r h io_ i_ = s0).
  { unfold onsite_energy. pose proof (clean_anderson CH io_) as A.
    destruct (Anderson_orb_address h io_ >=? 0) eqn:C1.
    - apply Z.geb_le in C1. lia.
    - destruct (Anderson_orb_address h io_ =? -1) eqn:C2; [|reflexivity].
      apply Z.eqb_eq in C2. lia. }
  rewrite Eo, (same_NHoppings CH).
  transitivity
    ([-] of_Z MULT [*] v0 (phiM2 + i_)
     [+] ssum (map (fun ib =>
                      M1 [*] hr_hopping h ib io_
                      [*] psi1 (i_ + hr_distance h ib io_)
                      [*] peierls2 (hopping_phase r (hr_dist h ib io_) j_))
                   (Zrange 0 (hr_NHoppings h io_)))).
  - ring.
  - f_equal. apply ssum_map_ext. intros ib _.
    rewrite (same_t CH), (same_d CH). unfold hopping_phase.
    rewrite (clean_field CH).
    replace (of_Z (vee0 (hr_dist h ib io_) * snd (convertCoordinates r j_))
             [*] s0) with s0 by ring.
    rewrite peierls2_0. ring.
Qed.

End MultiplySite.

(** * The ring buffer and the exchange of the ghost faces *)

Section RingFacts.
Context {T : Type} `{Scalar T}.
Local Open Scope Z_scope.

Lemma rem_small (M x : Z) : 0 <= x < M -> Z.rem x M = x.
Proof. intros Hx. apply Z.rem_small. exact Hx. Qed.

Lemma rem_shift (M x : Z) : 0 <= x < M -> Z.rem (M + x) M = x.
Proof.
  intros Hx. rewrite Z.rem_mod_nonneg by lia.
  replace (M + x) with (x + 1 * M) by lia.
  rewrite Z.mod_add by lia. apply Z.mod_small. exact Hx.
Qed.

Lemma inc_index_range (M idx : Z) :
  1 <= M -> 0 <= idx < M -> 0 <= inc_index M idx < M.
Proof.
  intros HM Hi. unfold inc_index.
  destruct (Z.eq_dec (idx + 1) M) as [E|N].
  - rewrite E, Z.rem_same by lia. lia.
  - rewrite rem_small by lia. lia.
Qed.

(** The slot read as [phiM1] is the one the index pointed to. *)
Lemma previous_index (M idx : Z) :
  2 <= M -> 0 <= idx < M -> Z.rem (M + inc_index M idx - 1) M = idx.
Proof.
  intros HM Hi. unfold inc_index.
  destruct (Z.eq_dec (idx + 1) M) as [E|N].
  - rewrite E, Z.rem_same by lia.
    replace (M + 0 - 1) with (M - 1) by lia. rewrite rem_small by lia. lia.
  - rewrite (rem_small M (idx + 1)) by lia.
    replace (M + (idx + 1) - 1) with (M + idx) by lia.
    apply rem_shift. exact Hi.
Qed.

(** The slot read as [phiM2]: the new slot itself when there are two
    slots, another one otherwise. *)
Lemma second_previous_index (M idx : Z) :
  2 <= M -> 0 <= idx < M ->
  0 <= Z.rem (M + inc_index M idx - 2) M < M
  /\ (Z.rem (M + inc_index M idx - 2) M = inc_index M idx <-> M = 2)
  /\ (Z.rem (M + inc_index M idx - 2) M <> idx).
Proof.
  intros HM Hi.
  pose proof (inc_index_range M idx ltac:(lia) Hi) as Hn.
  assert (En : inc_index M idx = idx + 1 /\ idx + 1 < M
               \/ inc_index M idx = 0 /\ idx + 1 = M).
  { unfold inc_index. destruct (Z.eq_dec (idx + 1) M) as [E|N].
    - right. rewrite E, Z.rem_same by lia. lia.
    - left. rewrite rem_small by lia. lia. }
  destruct (Z_lt_le_dec (inc_index M idx) 2) as [L|G].
  - replace (M + inc_index M idx - 2) with (M + inc_index M idx - 2) by lia.
    rewrite (rem_small M (M + inc_index M idx - 2)) by lia. lia.
  - replace (M + inc_index M idx - 2) with (M + (inc_index M idx - 2)) by lia.
    rewrite rem_shift by lia. lia.
Qed.

Lemma columns_apart (r : LatticeStructure T) (n p i k : Z) :
  n <> p -> 0 <= i < Sized r -> 0 <= k < Sized r ->
  col r n + i <> col r p + k.
Proof. unfold col. intros N Hi Hk. nia. Qed.

(** With two slots or more, the new slot is apart from the slots read. *)
Lemma ring_slots_apart (th : Thread T) :
  ring_ok th ->
  slots_apart (phi0_of th) (phiM1_of th) (phiM2_of th) (Sized (r th)).
Proof.
  intros [HM Hi]. unfold phi0_of, phiM1_of, phiM2_of.
  rewrite (previous_index _ _ HM Hi).
  assert (Hn : inc_index (memory th) (index th) <> index th).
  { unfold inc_index.
    destruct (Z.eq_dec (index th + 1) (memory th)) as [E|N].
    - rewrite E, Z.rem_same by lia. lia.
    - rewrite rem_small by lia. lia. }
  split.
  - intros i k Hi' Hk. apply columns_apart; assumption.
  - intros N i k Hi' Hk. apply columns_apart; try assumption.
    intros E. apply N. f_equal. symmetry. exact E.
Qed.

(** The slot read as [phiM2] is the one before the slot the index pointed
    to. *)
Lemma before_previous_index (M idx : Z) :
  2 <= M -> 0 <= idx < M ->
  Z.rem (M + inc_index M idx - 2) M = (idx + M - 1) mod M.
Proof.
  intros HM Hi. unfold inc_index.
  destruct (Z.eq_dec (idx + 1) M) as [E|N].
  - rewrite E, Z.rem_same by lia.
    replace (M + 0 - 2) with (M - 2) by lia. rewrite rem_small by lia.
    replace (idx + M - 1) with (M - 2 + 1 * M) by lia.
    rewrite Z.mod_add by lia. symmetry. apply Z.mod_small. lia.
  - rewrite (rem_small M (idx + 1)) by lia.
    destruct (Z.eq_dec idx 0) as [Z0|NZ].
    + subst idx. replace (M + (0 + 1) - 2) with (M - 1) by lia.
      rewrite rem_small by lia. symmetry. apply Z.mod_small. lia.
    + replace (M + (idx + 1) - 2) with (M + (idx - 1)) by lia.
      rewrite rem_shift by lia.
      replace (idx + M - 1) with (idx - 1 + 1 * M) by lia.
      rewrite Z.mod_add by lia. symmetry. apply Z.mod_small. lia.
Qed.

Lemma phiM2_of_index (th : Thread T) :
  ring_ok th ->
  phiM2_of th
  = col (r th) ((index th + memory th - 1) mod memory th).
Proof.
  intros [HM Hi]. unfold phiM2_of.
  now rewrite (before_previous_index _ _ HM Hi).
Qed.

Lemma phiM1_of_index (th : Thread T) :
  ring_ok th -> phiM1_of th = col (r th) (index th).
Proof.
  intros [HM Hi]. unfold phiM1_of. now rewrite (previous_index _ _ HM Hi).
Qed.

End RingFacts.

Section ExchangeFacts.
Context {T : Type} `{Scalar T}.
Local Open Scope Z_scope.

(** ** The threads of a system *)

Lemma nth_map_thread (f : Thread T -> Thread T) (l : list (Thread T)) (k : nat) :
  (k < length l)%nat ->
  nth k (map f l) no_thread = f (nth k l no_thread).
Proof.
  intros Hk.
  rewrite (nth_indep _ no_thread (f no_thread))
    by (rewrite length_map; exact Hk).
  apply map_nth.
Qed.

(** The array [simul.Global.ghosts] once every thread has published. *)
Lemma exchange_axis_unfold (d : Z) (ths : list (Thread T)) (G : mem T) :
  exchange_axis d (ths, G)
  = (map (fun th =>
            unpack_faces d
              (fetch_faces d
                 (for_each (numbered (map (pack_faces d) ths))
                    (fun it G => publish_faces d (fst it) (snd it) G) G)
                 (pack_faces d th)))
         ths,
     for_each (numbered (map (pack_faces d) ths))
       (fun it G => publish_faces d (fst it) (snd it) G) G).
Proof.
  unfold exchange_axis. cbv zeta. rewrite !map_map. reflexivity.
Qed.

Lemma exchange_axis_length (d : Z) (sys : System T) :
  length (fst (exchange_axis d sys)) = length (fst sys).
Proof.
  destruct sys as [ths G]. rewrite exchange_axis_unfold. simpl.
  apply length_map.
Qed.

Lemma exchange_axis_thread (d : Z) (sys : System T) (k : nat) :
  (k < length (fst sys))%nat ->
  thread (exchange_axis d sys) k
  = unpack_faces d
      (fetch_faces d (snd (exchange_axis d sys))
                   (pack_faces d (thread sys k))).
Proof.
  intros Hk. destruct sys as [ths G]. rewrite exchange_axis_unfold.
  unfold thread. simpl fst. simpl snd.
  apply (nth_map_thread
           (fun th => unpack_faces d (fetch_faces d _ (pack_faces d th)))).
  exact Hk.
Qed.

Lemma Exchange_Boundaries_unfold (sys : System T) :
  Exchange_Boundaries sys = exchange_axis 1 (exchange_axis 0 sys).
Proof. reflexivity. Qed.

(** ** What the exchange keeps *)

Lemma exchange_axis_exchanged (d : Z) (sys : System T) (k : nat) :
  (k < length (fst sys))%nat ->
  exists g, thread (exchange_axis d sys) k = exchanged d g (thread sys k).
Proof.
  intros Hk. rewrite (exchange_axis_thread d sys k Hk).
  eexists. unfold exchanged, fetch_faces, pack_faces. cbv zeta. reflexivity.
Qed.

Lemma exchanged_fields (d : Z) (g : mem T) (th : Thread T) :
  r (exchanged d g th) = r th /\ h (exchanged d g th) = h th
  /\ memory (exchanged d g th) = memory th
  /\ index (exchanged d g th) = index th
  /\ block (exchanged d g th) = block th.
Proof. repeat split. Qed.

End ExchangeFacts.

(** * Domains of the same extents *)

Section SameExtents.
Context {T : Type} `{Scalar T}.
Local Open Scope Z_scope.

Variables r r' : LatticeStructure T.
Hypothesis E : same_extents r r'.

Lemma same_extents_sym : same_extents r' r.
Proof. destruct E. constructor; congruence. Qed.

Lemma same_set_index (x y io : Z) : set_index r x y io = set_index r' x y io.
Proof.
  unfold set_index, basis1, basis2.
  now rewrite (same_Ld0 E), (same_Ld1 E).
Qed.

Lemma same_col (k : Z) : col r k = col r' k.
Proof. unfold col. now rewrite (same_Sized E). Qed.

Lemma same_max (d : Z) : max_ r d = max_ r' d.
Proof. unfold max_. now rewrite (same_Ld0 E), (same_ld1 E). Qed.

Lemma same_stride (d : Z) : stride r d = stride r' d.
Proof. unfold stride. now rewrite (same_Ld0 E). Qed.

Lemma same_stride_ghosts (d : Z) : stride_ghosts r d = stride_ghosts r' d.
Proof. unfold stride_ghosts. now rewrite (same_Ld0 E). Qed.

Lemma same_BSize (d : Z) : BSize r d = BSize r' d.
Proof. unfold BSize. now rewrite same_max, (same_Orb E). Qed.

Lemma same_MemIndBeg (d b io : Z) : MemIndBeg r d b io = MemIndBeg r' d b io.
Proof.
  unfold MemIndBeg. now rewrite !same_set_index, (same_Ld0 E), (same_Ld1 E).
Qed.

Lemma same_MemIndEnd (d b io : Z) : MemIndEnd r d b io = MemIndEnd r' d b io.
Proof.
  unfold MemIndEnd. now rewrite !same_set_index, (same_Ld0 E), (same_Ld1 E).
Qed.

Lemma same_ghost_cell (d b io i ig : Z) :
  ghost_cell r d b io i ig = ghost_cell r' d b io i ig.
Proof.
  unfold ghost_cell.
  now rewrite same_MemIndEnd, same_stride, same_stride_ghosts.
Qed.

Lemma same_face_cell (d b io i ig : Z) :
  face_cell r d b io i ig = face_cell r' d b io i ig.
Proof.
  unfold face_cell.
  now rewrite same_MemIndBeg, same_stride, same_stride_ghosts.
Qed.

Lemma same_face_offset (d io i ig : Z) :
  face_offset r d io i ig = face_offset r' d io i ig.
Proof. unfold face_offset. now rewrite same_max. Qed.

Lemma same_exchange_ok : exchange_ok r' -> exchange_ok r.
Proof.
  intros [A B C D F]. unfold index_tables_fit in *. destruct E.
  constructor; unfold index_tables_fit; congruence.
Qed.

End SameExtents.

(** Rewriting the geometry of a domain into the one of a domain of the
    same extents. *)
Ltac reshape E :=
  rewrite ?(same_col _ _ E), ?(same_ghost_cell _ _ E),
    ?(same_face_cell _ _ E), ?(same_face_offset _ _ E),
    ?(same_BSize _ _ E), ?(same_max _ _ E), ?(same_set_index _ _ E),
    ?(same_Orb E), ?(same_Ld0 E), ?(same_Ld1 E).

Ltac reshape_in E Q :=
  rewrite ?(same_col _ _ E), ?(same_ghost_cell _ _ E),
    ?(same_face_cell _ _ E), ?(same_face_offset _ _ E),
    ?(same_BSize _ _ E), ?(same_max _ _ E), ?(same_set_index _ _ E),
    ?(same_Orb E), ?(same_Ld0 E), ?(same_Ld1 E) in Q.

(** * One axis of the exchange *)

Section FaceGeometry.
Context {T : Type} `{Scalar T}.
Local Open Scope Z_scope.

Variable r : LatticeStructure T.
Hypothesis EX : exchange_ok r.

Lemma ghost_cell_index (d b io i ig : Z) :
  ghost_cell r d b io i ig
  = if d =? 0
    then set_index r ((if b =? 0 then 0 else Ld0 r - NGHOSTS) + ig)
                   (NGHOSTS + i) io
    else set_index r i ((if b =? 0 then 0 else Ld1 r - NGHOSTS) + ig) io.
Proof.
  unfold ghost_cell, MemIndEnd, stride, stride_ghosts, set_index, basis1.
  destruct (d =? 0), (b =? 0); ring.
Qed.

Lemma face_cell_index (d b io i ig : Z) :
  face_cell r d b io i ig
  = if d =? 0
    then set_index r ((if b =? 0 then NGHOSTS else Ld0 r - 2 * NGHOSTS) + ig)
                   (NGHOSTS + i) io
    else set_index r i
                   ((if b =? 0 then NGHOSTS else Ld1 r - 2 * NGHOSTS) + ig) io.
Proof.
  unfold face_cell, MemIndBeg, stride, stride_ghosts, set_index, basis1.
  destruct (d =? 0), (b =? 0); ring.
Qed.

(** The coordinates of a ghost cell: in the ghost layer of the axis. *)
Lemma ghost_cell_coords (d b io i ig : Z) :
  0 <= io -> 0 <= i < max_ r d -> 0 <= ig < NGHOSTS ->
  exists x y,
    ghost_cell r d b io i ig = set_index r x y io
    /\ 0 <= x < Ld0 r /\ 0 <= y < Ld1 r
    /\ (if d =? 0
        then (if b =? 0 then x < NGHOSTS else Ld0 r - NGHOSTS <= x)
             /\ NGHOSTS <= y < Ld1 r - NGHOSTS
        else (if b =? 0 then y < NGHOSTS else Ld1 r - NGHOSTS <= y))
    /\ (if d =? 0 then x = (if b =? 0 then 0 else Ld0 r - NGHOSTS) + ig
                       /\ y = NGHOSTS + i
        else x = i /\ y = (if b =? 0 then 0 else Ld1 r - NGHOSTS) + ig).
Proof.
  intros Hio Hi Hig. rewrite ghost_cell_index.
  pose proof (ex_Ld0 EX) as L0. pose proof (ex_Ld1 EX) as L1.
  pose proof (ex_ld1 EX) as l1.
  unfold max_ in Hi. unfold NGHOSTS in *.
  destruct (d =? 0), (b =? 0); eexists; eexists;
    (split; [reflexivity|]); repeat split; lia.
Qed.

(** The coordinates of a face cell: bulk along the axis. *)
Lemma face_cell_coords (d b io i ig : Z) :
  0 <= io -> 0 <= i < max_ r d -> 0 <= ig < NGHOSTS ->
  exists x y,
    face_cell r d b io i ig = set_index r x y io
    /\ 0 <= x < Ld0 r /\ 0 <= y < Ld1 r
    /\ (if d =? 0
        then NGHOSTS <= x < Ld0 r - NGHOSTS /\ NGHOSTS <= y < Ld1 r - NGHOSTS
        else NGHOSTS <= y < Ld1 r - NGHOSTS).
Proof.
  intros Hio Hi Hig. rewrite face_cell_index.
  pose proof (ex_Ld0 EX) as L0. pose proof (ex_Ld1 EX) as L1.
  pose proof (ex_ld1 EX) as l1.
  unfold max_ in Hi. unfold NGHOSTS in *.
  destruct (d =? 0), (b =? 0); eexists; eexists;
    (split; [reflexivity|]); repeat split; lia.
Qed.

Lemma ghost_cell_inj (d b io i ig b' io' i' ig' : Z) :
  0 <= io -> 0 <= i < max_ r d -> 0 <= ig < NGHOSTS ->
  0 <= io' -> 0 <= i' < max_ r d -> 0 <= ig' < NGHOSTS ->
  ghost_cell r d b io i ig = ghost_cell r d b' io' i' ig' ->
  (b =? 0) = (b' =? 0) /\ io = io' /\ i = i' /\ ig = ig'.
Proof.
  intros Hio Hi Hig Hio' Hi' Hig' E.
  destruct (ghost_cell_coords d b io i ig Hio Hi Hig)
    as (x & y & E1 & Hx & Hy & G & C).
  destruct (ghost_cell_coords d b' io' i' ig' Hio' Hi' Hig')
    as (x' & y' & E1' & Hx' & Hy' & G' & C').
  rewrite E1, E1' in E.
  apply set_index_inj in E; try assumption.
  destruct E as (Ex & Ey & Eio).
  pose proof (ex_Ld0 EX) as L0. pose proof (ex_Ld1 EX) as L1.
  unfold NGHOSTS in *.
  destruct (d =? 0), (b =? 0), (b' =? 0); repeat split; lia.
Qed.

Lemma max_nonneg (d : Z) : 0 <= max_ r d.
Proof.
  unfold max_. pose proof (ex_Ld0 EX). pose proof (ex_Ld1 EX).
  pose proof (ex_ld1 EX). unfold NGHOSTS in *. destruct (d =? 0); lia.
Qed.

Lemma face_offset_range (d io i ig : Z) :
  0 <= io < Orb r -> 0 <= i < max_ r d -> 0 <= ig < NGHOSTS ->
  0 <= face_offset r d io i ig < BSize r d.
Proof.
  unfold face_offset, BSize, NGHOSTS. intros Hio Hi Hig.
  assert (0 <= (ig + 2 * io) * max_ r d) by nia.
  assert ((ig + 2 * io + 1) * max_ r d <= Orb r * max_ r d * 2) by nia.
  lia.
Qed.

Lemma face_offset_inj (d io i ig io' i' ig' : Z) :
  0 <= io -> 0 <= i < max_ r d -> 0 <= ig < NGHOSTS ->
  0 <= io' -> 0 <= i' < max_ r d -> 0 <= ig' < NGHOSTS ->
  face_offset r d io i ig = face_offset r d io' i' ig' ->
  io = io' /\ i = i' /\ ig = ig'.
Proof.
  unfold face_offset, NGHOSTS. intros Hio Hi Hig Hio' Hi' Hig' E.
  assert (K : ig + 2 * io = ig' + 2 * io') by nia.
  assert (i = i') by nia.
  repeat split; lia.
Qed.

End FaceGeometry.

Section FaceLoops.
Context {T : Type} `{Scalar T}.
Local Open Scope Z_scope.

Lemma for_faces_keep (r : LatticeStructure T) (d : Z)
      (body : Z -> Z -> Z -> mem T -> mem T) (a : Z) :
  (forall io i ig m,
     0 <= io < Orb r -> 0 <= i < max_ r d -> 0 <= ig < NGHOSTS ->
     body io i ig m a = m a) ->
  forall m, for_faces r d body m a = m a.
Proof.
  intros K m. unfold for_faces.
  apply for_each_keep. intros io m1 Hio. apply In_Zrange in Hio.
  apply for_each_keep. intros i m2 Hi. apply In_Zrange in Hi.
  apply for_each_keep. intros ig m3 Hig. apply In_Zrange in Hig.
  apply K; assumption.
Qed.

Lemma for_faces_hit (r : LatticeStructure T) (d : Z)
      (body : Z -> Z -> Z -> mem T -> mem T) (a io0 i0 ig0 : Z) (x : T) :
  0 <= io0 < Orb r -> 0 <= i0 < max_ r d -> 0 <= ig0 < NGHOSTS ->
  (forall io i ig m,
     0 <= io < Orb r -> 0 <= i < max_ r d -> 0 <= ig < NGHOSTS ->
     ~ (io = io0 /\ i = i0 /\ ig = ig0) ->
     body io i ig m a = m a) ->
  (forall m, body io0 i0 ig0 m a = x) ->
  forall m, for_faces r d body m a = x.
Proof.
  intros Hio0 Hi0 Hig0 K Hit m. unfold for_faces.
  apply (for_each_hit _ _ a io0 x).
  - apply NoDup_Zrange.
  - apply In_Zrange. exact Hio0.
  - intros io m1 Hio Nio. apply In_Zrange in Hio.
    apply for_each_keep. intros i m2 Hi. apply In_Zrange in Hi.
    apply for_each_keep. intros ig m3 Hig. apply In_Zrange in Hig.
    apply K; try assumption. tauto.
  - intros m1. apply (for_each_hit _ _ a i0 x).
    + apply NoDup_Zrange.
    + apply In_Zrange. exact Hi0.
    + intros i m2 Hi Ni. apply In_Zrange in Hi.
      apply for_each_keep. intros ig m3 Hig. apply In_Zrange in Hig.
      apply K; try assumption. tauto.
    + intros m2. apply (for_each_hit _ _ a ig0 x).
      * apply NoDup_Zrange.
      * apply In_Zrange. exact Hig0.
      * intros ig m3 Hig Nig. apply In_Zrange in Hig.
        apply K; try assumption. tauto.
      * exact Hit.
Qed.

(** [std::copy] cell by cell. *)
Lemma copy_block_at (src dst : mem T) (first n result a : Z) :
  copy_block src first n dst result a
  = if (result <=? a) && (a <? result + n)
    then src (first + (a - result))
    else dst a.
Proof.
  unfold copy_block.
  destruct ((result <=? a) && (a <? result + n)) eqn:E.
  - apply andb_prop in E. destruct E as [E1 E2].
    apply Z.leb_le in E1. apply Z.ltb_lt in E2.
    apply (for_each_hit _ _ a (a - result)).
    + apply NoDup_Zrange.
    + apply In_Zrange. lia.
    + intros k m Hk Nk. apply upd_other. lia.
    + intros m. replace (result + (a - result)) with a by lia.
      apply upd_same.
  - apply for_each_keep. intros k m Hk. apply In_Zrange in Hk.
    apply upd_other. intros Ea. subst a.
    assert (X : (result <=? result + k) && (result + k <? result + n) = true).
    { apply andb_true_intro. split; [apply Z.leb_le|apply Z.ltb_lt]; lia. }
    congruence.
Qed.

End FaceLoops.

Section AxisFacts.
Context {T : Type} `{Scalar T}.
Local Open Scope Z_scope.

(** ** The numbered threads *)

Lemma NoDup_combine_left {A B : Type} (l : list A) (l' : list B) :
  NoDup l -> NoDup (combine l l').
Proof.
  intros ND. revert l'.
  induction ND as [|x l Nin ND IH]; intros [|y l']; simpl; try constructor.
  - intros Hin. apply in_combine_l in Hin. contradiction.
  - apply IH.
Qed.

Lemma length_Zrange (n : nat) : length (Zrange 0 (Z.of_nat n)) = n.
Proof.
  unfold Zrange. rewrite length_map, length_seq.
  rewrite Z.sub_0_r. apply Nat2Z.id.
Qed.

Lemma nth_Zrange (n j : nat) :
  (j < n)%nat -> nth j (Zrange 0 (Z.of_nat n)) 0 = Z.of_nat j.
Proof.
  intros Hj. unfold Zrange. rewrite Z.sub_0_r, Nat2Z.id.
  change 0 with ((fun k => 0 + Z.of_nat k) 0%nat) at 2.
  rewrite map_nth, seq_nth by exact Hj. simpl. reflexivity.
Qed.

Lemma nth_numbered (ths : list (Thread T)) (j : nat) :
  (j < length ths)%nat ->
  nth j (numbered ths) (0, no_thread) = (Z.of_nat j, nth j ths no_thread).
Proof.
  intros Hj. unfold numbered.
  rewrite combine_nth by apply length_Zrange.
  now rewrite nth_Zrange.
Qed.

Lemma length_numbered (ths : list (Thread T)) :
  length (numbered ths) = length ths.
Proof.
  unfold numbered. rewrite length_combine, length_Zrange. apply Nat.min_id.
Qed.

Lemma In_numbered (ths : list (Thread T)) (it : Z * Thread T) :
  In it (numbered ths) ->
  exists j, (j < length ths)%nat /\ it = (Z.of_nat j, nth j ths no_thread).
Proof.
  intros Hin.
  destruct (In_nth _ _ (0, no_thread) Hin) as (j & Hj & E).
  rewrite length_numbered in Hj. exists j. split; [exact Hj|].
  rewrite <- E. apply nth_numbered. exact Hj.
Qed.

Lemma numbered_In (ths : list (Thread T)) (j : nat) :
  (j < length ths)%nat ->
  In (Z.of_nat j, nth j ths no_thread) (numbered ths).
Proof.
  intros Hj. rewrite <- (nth_numbered ths j Hj).
  apply nth_In. rewrite length_numbered. exact Hj.
Qed.

Lemma NoDup_numbered (ths : list (Thread T)) : NoDup (numbered ths).
Proof. apply NoDup_combine_left, NoDup_Zrange. Qed.

(** ** Publishing *)

(** Once every thread has published, the slice of thread [j] holds its
    staging array. *)
Lemma published_at (d : Z) (r0 : LatticeStructure T) (ths : list (Thread T))
      (G : mem T) (j : nat) (k : Z) :
  (forall j', (j' < length ths)%nat ->
               same_extents (r (nth j' ths no_thread)) r0) ->
  (j < length ths)%nat -> 0 <= k < 2 * BSize r0 d ->
  for_each (numbered ths) (fun it G => publish_faces d (fst it) (snd it) G) G
           (2 * BSize r0 d * Z.of_nat j + k)
  = ghosts (nth j ths no_thread) k.
Proof.
  intros U Hj Hk.
  apply (for_each_hit _ _ _ (Z.of_nat j, nth j ths no_thread)).
  - apply NoDup_numbered.
  - apply numbered_In. exact Hj.
  - intros it m Hit Nit.
    destruct (In_numbered ths it Hit) as (j' & Hj' & E). subst it.
    simpl fst. simpl snd. unfold publish_faces.
    rewrite (same_BSize _ _ (U j' Hj')), copy_block_at.
    assert (N : j' <> j) by (intros X; subst j'; apply Nit; reflexivity).
    destruct ((2 * BSize r0 d * Z.of_nat j' <=? 2 * BSize r0 d * Z.of_nat j + k)
              && (2 * BSize r0 d * Z.of_nat j + k
                  <? 2 * BSize r0 d * Z.of_nat j' + 2 * BSize r0 d)) eqn:C;
      [|reflexivity].
    exfalso. apply andb_prop in C. destruct C as [C1 C2].
    apply Z.leb_le in C1. apply Z.ltb_lt in C2. nia.
  - intros m. simpl fst. simpl snd. unfold publish_faces.
    rewrite (same_BSize _ _ (U j Hj)), copy_block_at.
    assert (C : (2 * BSize r0 d * Z.of_nat j <=? 2 * BSize r0 d * Z.of_nat j + k)
                && (2 * BSize r0 d * Z.of_nat j + k
                    <? 2 * BSize r0 d * Z.of_nat j + 2 * BSize r0 d) = true).
    { apply andb_true_intro. split; [apply Z.leb_le|apply Z.ltb_lt]; lia. }
    rewrite C. f_equal. lia.
Qed.

End AxisFacts.

(** * What one axis of the exchange does to a thread *)

Section ThreadFields.
Context {T : Type}.

Lemma ghosts_with_ghosts (th : Thread T) (g : mem T) :
  ghosts (with_ghosts th g) = g.
Proof. reflexivity. Qed.

Lemma v_with_vector (th : Thread T) (i : Z) (w : mem T) :
  v (with_vector th i w) = w.
Proof. reflexivity. Qed.

End ThreadFields.

Section PackUnpack.
Context {T : Type} `{Scalar T}.
Local Open Scope Z_scope.

Variable d : Z.
Variable th : Thread T.
Hypothesis EX : exchange_ok (r th).

Abbreviation B := (BSize (r th) d).
Abbreviation phi := (col (r th) (index th)).

Ltac pick_half :=
  unfold half;
  try change (0 =? 0) with true;
  try change (1 =? 0) with false;
  try change (1 - 0 =? 0) with false;
  try change (1 - 1 =? 0) with true;
  cbv iota.

(** Packing: the staging array holds the two bulk faces. *)
Lemma pack_faces_ghosts (b io i ig : Z) :
  b = 0 \/ b = 1 ->
  0 <= io < Orb (r th) -> 0 <= i < max_ (r th) d -> 0 <= ig < NGHOSTS ->
  ghosts (pack_faces d th) (half b B + face_offset (r th) d io i ig)
  = v th (phi + face_cell (r th) d b io i ig).
Proof.
  intros Hb Hio Hi Hig. unfold pack_faces. cbv zeta. rewrite ghosts_with_ghosts.
  pose proof (face_offset_range (r th) d io i ig Hio Hi Hig) as R0.
  apply (for_faces_hit (r th) d _ _ io i ig); try assumption.
  - intros io' i' ig' m Hio' Hi' Hig' N.
    pose proof (face_offset_range (r th) d io' i' ig' Hio' Hi' Hig') as R1.
    assert (N' : face_offset (r th) d io' i' ig' <> face_offset (r th) d io i ig).
    { intros E. apply N.
      apply (face_offset_inj (r th) d io' i' ig' io i ig); lia. }
    unfold half, face_offset in *.
    destruct Hb as [Hb|Hb]; subst b; pick_half;
      rewrite !upd_other; try reflexivity; lia.
  - intros m. unfold half, face_cell, face_offset in *.
    destruct Hb as [Hb|Hb]; subst b; pick_half.
    + rewrite upd_other by lia. apply upd_same.
    + apply upd_same.
Qed.

(** Fetching: the staging array holds the faces of the neighbours. *)
Lemma fetch_faces_ghosts (G : mem T) (b off : Z) :
  b = 0 \/ b = 1 -> 0 <= off < B ->
  ghosts (fetch_faces d G th) (half b B + off)
  = G (2 * block th d b * B + half (1 - b) B + off).
Proof.
  intros Hb Hoff. unfold fetch_faces. cbv zeta. rewrite ghosts_with_ghosts.
  rewrite !copy_block_at. unfold half.
  destruct Hb as [Hb|Hb]; subst b; pick_half.
  - assert (C : (0 <=? 0 + off) && (0 + off <? 0 + B) = true).
    { apply andb_true_intro. split; [apply Z.leb_le|apply Z.ltb_lt]; lia. }
    rewrite C. f_equal. lia.
  - assert (C : (0 <=? B + off) && (B + off <? 0 + B) = false).
    { apply andb_false_intro2. apply Z.ltb_ge. lia. }
    rewrite C.
    assert (C' : (B <=? B + off) && (B + off <? B + B) = true).
    { apply andb_true_intro. split; [apply Z.leb_le|apply Z.ltb_lt]; lia. }
    rewrite C'. f_equal. lia.
Qed.

(** Unpacking: the ghost faces hold the staging array. *)
Lemma unpack_faces_ghost (b io i ig : Z) :
  b = 0 \/ b = 1 ->
  0 <= io < Orb (r th) -> 0 <= i < max_ (r th) d -> 0 <= ig < NGHOSTS ->
  v (unpack_faces d th) (phi + ghost_cell (r th) d b io i ig)
  = ghosts th (half b B + face_offset (r th) d io i ig).
Proof.
  intros Hb Hio Hi Hig. unfold unpack_faces. cbv zeta. rewrite v_with_vector.
  apply (for_faces_hit (r th) d _ _ io i ig); try assumption.
  - intros io' i' ig' m Hio' Hi' Hig' N.
    fold (ghost_cell (r th) d 0 io' i' ig').
    fold (ghost_cell (r th) d 1 io' i' ig').
    rewrite !upd_other; [reflexivity| |].
    + intros E. apply N.
      destruct (ghost_cell_inj (r th) EX d b io i ig 0 io' i' ig')
        as (_ & A1 & A2 & A3); lia.
    + intros E. apply N.
      destruct (ghost_cell_inj (r th) EX d b io i ig 1 io' i' ig')
        as (_ & A1 & A2 & A3); lia.
  - intros m.
    fold (ghost_cell (r th) d 0 io i ig).
    fold (ghost_cell (r th) d 1 io i ig).
    fold (face_offset (r th) d io i ig).
    unfold half. destruct Hb as [Hb|Hb]; subst b; pick_half.
    + rewrite upd_other.
      * apply upd_same.
      * intros E.
        assert (E' : ghost_cell (r th) d 0 io i ig
                     = ghost_cell (r th) d 1 io i ig) by lia.
        apply (ghost_cell_inj (r th) EX) in E'; lia.
    + apply upd_same.
Qed.

(** Unpacking writes ghost cells only. *)
Lemma unpack_faces_keep (a : Z) :
  (forall b io i ig,
     b = 0 \/ b = 1 ->
     0 <= io < Orb (r th) -> 0 <= i < max_ (r th) d -> 0 <= ig < NGHOSTS ->
     a <> phi + ghost_cell (r th) d b io i ig) ->
  v (unpack_faces d th) a = v th a.
Proof.
  intros N. unfold unpack_faces. cbv zeta. rewrite v_with_vector.
  apply for_faces_keep. intros io i ig m Hio Hi Hig.
  fold (ghost_cell (r th) d 0 io i ig).
  fold (ghost_cell (r th) d 1 io i ig).
  rewrite !upd_other; [reflexivity| |].
  - apply N; try assumption. left. reflexivity.
  - apply N; try assumption. right. reflexivity.
Qed.

End PackUnpack.

(** * The exchange in a system of threads *)

Section SystemExchange.
Context {T : Type} `{Scalar T}.
Local Open Scope Z_scope.

Lemma exchange_axis_fields (d : Z) (sys : System T) (k : nat) :
  (k < length (fst sys))%nat ->
  r (thread (exchange_axis d sys) k) = r (thread sys k)
  /\ h (thread (exchange_axis d sys) k) = h (thread sys k)
  /\ memory (thread (exchange_axis d sys) k) = memory (thread sys k)
  /\ index (thread (exchange_axis d sys) k) = index (thread sys k)
  /\ block (thread (exchange_axis d sys) k) = block (thread sys k).
Proof.
  intros Hk. rewrite (exchange_axis_thread d sys k Hk). repeat split.
Qed.

Lemma uniform_exchange_axis (d : Z) (r0 : LatticeStructure T) (sys : System T) :
  uniform_system r0 sys -> uniform_system r0 (exchange_axis d sys).
Proof.
  intros U j Hj. rewrite exchange_axis_length in *.
  destruct (exchange_axis_fields d sys j Hj) as (Er & _ & _ & _ & Eb).
  rewrite Er, Eb. apply U. exact Hj.
Qed.

(** Along the axis [d], the ghost face [b] of a thread receives the
    opposite bulk face of its neighbour [block[d][b]]. *)
Lemma exchange_axis_ghost (d : Z) (r0 : LatticeStructure T) (sys : System T)
      (k : nat) (b io i ig : Z) (Hd : 0 <= d < 2) :
  uniform_system r0 sys -> exchange_ok r0 ->
  (k < length (fst sys))%nat -> b = 0 \/ b = 1 ->
  0 <= io < Orb r0 -> 0 <= i < max_ r0 d -> 0 <= ig < NGHOSTS ->
  v (thread (exchange_axis d sys) k)
    (col r0 (index (thread sys k)) + ghost_cell r0 d b io i ig)
  = v (thread sys (Z.to_nat (block (thread sys k) d b)))
      (col r0 (index (thread sys (Z.to_nat (block (thread sys k) d b))))
       + face_cell r0 d (1 - b) io i ig).
Proof.
  intros U EX Hk Hb Hio Hi Hig.
  destruct (U k Hk) as [Er Bk].
  assert (HL : (Z.to_nat (block (thread sys k) d b) < length (fst sys))%nat).
  { specialize (Bk d b Hd). lia. }
  destruct (U _ HL) as [ErL _].
  assert (Hb' : 1 - b = 0 \/ 1 - b = 1) by lia.
  pose proof (pack_faces_ghosts d
                (thread sys (Z.to_nat (block (thread sys k) d b))) (1 - b)
                io i ig Hb') as P.
  reshape_in ErL P. specialize (P Hio Hi Hig).
  rewrite <- P. clear P.
  rewrite (exchange_axis_thread d sys k Hk).
  destruct sys as [ths G]. rewrite exchange_axis_unfold.
  unfold thread in *. simpl fst in *. simpl snd.
  set (th := nth k ths no_thread) in *.
  set (L := Z.to_nat (block th d b)) in *.
  set (Gp := for_each (numbered (map (pack_faces d) ths))
               (fun it G0 => publish_faces d (fst it) (snd it) G0) G).
  pose proof (face_offset_range r0 d io i ig Hio Hi Hig) as Roff.
  assert (EXth : exchange_ok (r th))
    by (apply (same_exchange_ok _ r0); assumption).
  transitivity (ghosts (fetch_faces d Gp (pack_faces d th))
                  (half b (BSize r0 d) + face_offset r0 d io i ig)).
  { pose proof (unpack_faces_ghost d (fetch_faces d Gp (pack_faces d th))
                  EXth b io i ig Hb) as Q.
    change (r (fetch_faces d Gp (pack_faces d th))) with (r th) in Q.
    change (index (fetch_faces d Gp (pack_faces d th))) with (index th) in Q.
    reshape_in Er Q. apply Q; assumption. }
  transitivity (Gp (2 * BSize r0 d * Z.of_nat L
                    + (half (1 - b) (BSize r0 d) + face_offset r0 d io i ig))).
  { pose proof (fetch_faces_ghosts d (pack_faces d th) Gp b
                  (face_offset r0 d io i ig) Hb) as Q.
    change (r (pack_faces d th)) with (r th) in Q.
    change (block (pack_faces d th)) with (block th) in Q.
    reshape_in Er Q. rewrite (Q Roff). f_equal.
    unfold L. rewrite Z2Nat.id by (specialize (Bk d b); lia). ring. }
  unfold Gp.
  rewrite (published_at d r0 (map (pack_faces d) ths) G L).
  - rewrite nth_map_thread by exact HL. reflexivity.
  - intros j' Hj'. rewrite length_map in Hj'.
    rewrite nth_map_thread by exact Hj'.
    change (r (pack_faces d (nth j' ths no_thread)))
      with (r (nth j' ths no_thread)).
    apply (U j' Hj').
  - rewrite length_map. exact HL.
  - unfold half. destruct (1 - b =? 0); lia.
Qed.

(** The exchange along one axis writes ghost cells of that axis only. *)
Lemma exchange_axis_keep (d : Z) (sys : System T) (k : nat) (a : Z) :
  (k < length (fst sys))%nat ->
  (forall b io i ig,
     b = 0 \/ b = 1 ->
     0 <= io < Orb (r (thread sys k)) ->
     0 <= i < max_ (r (thread sys k)) d -> 0 <= ig < NGHOSTS ->
     a <> col (r (thread sys k)) (index (thread sys k))
          + ghost_cell (r (thread sys k)) d b io i ig) ->
  v (thread (exchange_axis d sys) k) a = v (thread sys k) a.
Proof.
  intros Hk N.
  rewrite (exchange_axis_thread d sys k Hk).
  exact (unpack_faces_keep d
           (fetch_faces d (snd (exchange_axis d sys))
                        (pack_faces d (thread sys k))) a N).
Qed.

(** The exchange writes ghost cells only. *)
Lemma Exchange_Boundaries_keep (sys : System T) (k : nat) (a : Z) :
  (k < length (fst sys))%nat ->
  (forall d b io i ig,
     b = 0 \/ b = 1 ->
     0 <= io < Orb (r (thread sys k)) ->
     0 <= i < max_ (r (thread sys k)) d -> 0 <= ig < NGHOSTS ->
     a <> col (r (thread sys k)) (index (thread sys k))
          + ghost_cell (r (thread sys k)) d b io i ig) ->
  v (thread (Exchange_Boundaries sys) k) a = v (thread sys k) a.
Proof.
  intros Hk N. rewrite Exchange_Boundaries_unfold.
  destruct (exchange_axis_fields 0 sys k Hk) as (Er & _ & _ & Ei & _).
  rewrite exchange_axis_keep.
  - apply exchange_axis_keep; [exact Hk|]. apply N.
  - rewrite exchange_axis_length. exact Hk.
  - rewrite Er, Ei. apply N.
Qed.

Lemma Exchange_Boundaries_fields (sys : System T) (k : nat) :
  (k < length (fst sys))%nat ->
  r (thread (Exchange_Boundaries sys) k) = r (thread sys k)
  /\ h (thread (Exchange_Boundaries sys) k) = h (thread sys k)
  /\ memory (thread (Exchange_Boundaries sys) k) = memory (thread sys k)
  /\ index (thread (Exchange_Boundaries sys) k) = index (thread sys k)
  /\ block (thread (Exchange_Boundaries sys) k) = block (thread sys k).
Proof.
  intros Hk. rewrite Exchange_Boundaries_unfold.
  assert (Hk' : (k < length (fst (exchange_axis 0 sys)))%nat)
    by (rewrite exchange_axis_length; exact Hk).
  destruct (exchange_axis_fields 1 _ k Hk') as (E1 & E2 & E3 & E4 & E5).
  destruct (exchange_axis_fields 0 sys k Hk) as (F1 & F2 & F3 & F4 & F5).
  rewrite E1, E2, E3, E4, E5. repeat split; assumption.
Qed.

(** A cell that is bulk along the axis [d] is no ghost cell of it. *)
Lemma not_ghost_cell (r : LatticeStructure T) (d b x y io io' i' ig' : Z) :
  exchange_ok r ->
  0 <= x < Ld0 r -> 0 <= y < Ld1 r -> 0 <= io ->
  0 <= io' -> 0 <= i' < max_ r d -> 0 <= ig' < NGHOSTS ->
  (if d =? 0 then NGHOSTS <= x < Ld0 r - NGHOSTS
   else NGHOSTS <= y < Ld1 r - NGHOSTS) ->
  set_index r x y io <> ghost_cell r d b io' i' ig'.
Proof.
  intros EX Hx Hy Hio Hio' Hi' Hig' Bk E.
  destruct (ghost_cell_coords r EX d b io' i' ig' Hio' Hi' Hig')
    as (x' & y' & E' & Hx' & Hy' & G & _).
  rewrite E' in E. apply set_index_inj in E; try assumption.
  destruct E as (Ex & Ey & _).
  destruct (d =? 0), (b =? 0); lia.
Qed.

End SystemExchange.

(** * [Multiply] in a system of threads *)

Section MultiplyThread.
Context {T : Type} `{Scalar T}.
Local Open Scope Z_scope.

Variable STRIDE : Z.

(** ** Ghost cells of a tiled lattice *)

Lemma lattice_extents (r : LatticeStructure T) :
  lattice_ok STRIDE r ->
  2 * NGHOSTS <= Ld0 r /\ 2 * NGHOSTS <= Ld1 r
  /\ ld1 r = Ld1 r - 2 * NGHOSTS.
Proof.
  intros OK. pose proof (ok_stride OK). pose proof (ok_lStr0 OK).
  pose proof (ok_lStr1 OK).
  pose proof (ok_Ld0 OK) as E0. pose proof (ok_Ld1 OK) as E1.
  pose proof (ok_ld1 OK) as e1. unfold NGHOSTS in *.
  repeat split; nia.
Qed.

Lemma ghost_cell_slot (r : LatticeStructure T) (d b io i ig : Z) :
  lattice_ok STRIDE r ->
  0 <= io -> 0 <= i < max_ r d -> 0 <= ig < NGHOSTS ->
  exists x y,
    ghost_cell r d b io i ig = set_index r x y io
    /\ 0 <= x < Ld0 r /\ 0 <= y < Ld1 r
    /\ (x < NGHOSTS \/ Ld0 r - NGHOSTS <= x
        \/ y < NGHOSTS \/ Ld1 r - NGHOSTS <= y).
Proof.
  intros OK Hio Hi Hig. rewrite ghost_cell_index.
  destruct (lattice_extents r OK) as (L0 & L1 & l1).
  unfold max_ in Hi. unfold NGHOSTS in *.
  destruct (d =? 0), (b =? 0); eexists; eexists;
    (split; [reflexivity|]); repeat split; lia.
Qed.

Lemma ghost_cell_in_slot (r : LatticeStructure T) (d b io i ig : Z) :
  lattice_ok STRIDE r ->
  0 <= io < Orb r -> 0 <= i < max_ r d -> 0 <= ig < NGHOSTS ->
  in_slot r (ghost_cell r d b io i ig).
Proof.
  intros OK Hio Hi Hig.
  destruct (ghost_cell_slot r d b io i ig OK) as (x & y & E & Hx & Hy & _);
    try lia.
  rewrite E. apply (set_index_in_slot STRIDE r OK); assumption.
Qed.

Lemma bulk_not_ghost_cell (r : LatticeStructure T) (k d b io i ig : Z) :
  lattice_ok STRIDE r -> bulk r k ->
  0 <= io < Orb r -> 0 <= i < max_ r d -> 0 <= ig < NGHOSTS ->
  k <> ghost_cell r d b io i ig.
Proof.
  intros OK (S & B0 & B1) Hio Hi Hig E.
  destruct (ghost_cell_slot r d b io i ig OK) as (x & y & E' & Hx & Hy & G);
    try lia.
  destruct (set_index_of_coords STRIDE r OK k) as (Ek & C0 & C1 & Co);
    [apply S|].
  assert (X : set_index r (coord0 r k) (coord1 r k) (coord_orb r k)
              = set_index r x y io) by congruence.
  apply set_index_inj in X; try assumption; try lia.
Qed.

(** ** A local sweep followed by the exchange *)

Lemma exchange_after_local (f : Thread T -> Thread T) (sys : System T)
      (k : nat) :
  (k < length (fst sys))%nat ->
  thread (map f (fst sys), snd sys) k = f (thread sys k)
  /\ (length (fst (map f (fst sys), snd sys)) = length (fst sys)).
Proof.
  intros Hk. unfold thread. simpl fst. split.
  - apply nth_map_thread. exact Hk.
  - apply length_map.
Qed.

Lemma Multiply_fields (MULT : Z) (sys : System T) (k : nat) :
  (k < length (fst sys))%nat ->
  r (thread (Multiply STRIDE MULT sys) k) = r (thread sys k)
  /\ h (thread (Multiply STRIDE MULT sys) k) = h (thread sys k)
  /\ memory (thread (Multiply STRIDE MULT sys) k) = memory (thread sys k)
  /\ index (thread (Multiply STRIDE MULT sys) k)
     = inc_index (memory (thread sys k)) (index (thread sys k)).
Proof.
  intros Hk. unfold Multiply.
  destruct (exchange_after_local (Multiply_local STRIDE MULT) sys k Hk)
    as [E L].
  destruct (Exchange_Boundaries_fields
              (map (Multiply_local STRIDE MULT) (fst sys), snd sys) k)
    as (E1 & E2 & E3 & E4 & _); [rewrite L; exact Hk|].
  rewrite E1, E2, E3, E4, E. repeat split.
Qed.

Lemma Multiply2_fields (MULT : Z) (sys : System T) (k : nat) :
  (k < length (fst sys))%nat ->
  r (thread (Multiply2 MULT sys) k) = r (thread sys k)
  /\ h (thread (Multiply2 MULT sys) k) = h (thread sys k)
  /\ memory (thread (Multiply2 MULT sys) k) = memory (thread sys k)
  /\ index (thread (Multiply2 MULT sys) k)
     = inc_index (memory (thread sys k)) (index (thread sys k)).
Proof.
  intros Hk. unfold Multiply2.
  destruct (exchange_after_local (Multiply2_local MULT) sys k Hk) as [E L].
  destruct (Exchange_Boundaries_fields
              (map (Multiply2_local MULT) (fst sys), snd sys) k)
    as (E1 & E2 & E3 & E4 & _); [rewrite L; exact Hk|].
  rewrite E1, E2, E3, E4, E. repeat split.
Qed.

(** The exchange keeps the cells that are no ghost cells of the new
    slot. *)
Lemma Multiply_keep (MULT : Z) (sys : System T) (k : nat) (a : Z) :
  (k < length (fst sys))%nat ->
  (forall d b io i ig,
     b = 0 \/ b = 1 ->
     0 <= io < Orb (r (thread sys k)) ->
     0 <= i < max_ (r (thread sys k)) d -> 0 <= ig < NGHOSTS ->
     a <> phi0_of (thread sys k)
          + ghost_cell (r (thread sys k)) d b io i ig) ->
  v (thread (Multiply STRIDE MULT sys) k) a
  = Multiply_sweep STRIDE MULT (r (thread sys k)) (h (thread sys k))
      (phi0_of (thread sys k)) (phiM1_of (thread sys k))
      (phiM2_of (thread sys k)) (v (thread sys k)) a.
Proof.
  intros Hk N. unfold Multiply.
  destruct (exchange_after_local (Multiply_local STRIDE MULT) sys k Hk)
    as [E L].
  rewrite Exchange_Boundaries_keep.
  - rewrite E. reflexivity.
  - rewrite L. exact Hk.
  - rewrite E. exact N.
Qed.

Lemma Multiply2_keep (MULT : Z) (sys : System T) (k : nat) (a : Z) :
  (k < length (fst sys))%nat ->
  (forall d b io i ig,
     b = 0 \/ b = 1 ->
     0 <= io < Orb (r (thread sys k)) ->
     0 <= i < max_ (r (thread sys k)) d -> 0 <= ig < NGHOSTS ->
     a <> phi0_of (thread sys k)
          + ghost_cell (r (thread sys k)) d b io i ig) ->
  v (thread (Multiply2 MULT sys) k) a
  = Multiply2_sweep MULT (r (thread sys k)) (h (thread sys k))
      (phi0_of (thread sys k)) (phiM1_of (thread sys k))
      (phiM2_of (thread sys k)) (v (thread sys k)) a.
Proof.
  intros Hk N. unfold Multiply2.
  destruct (exchange_after_local (Multiply2_local MULT) sys k Hk) as [E L].
  rewrite Exchange_Boundaries_keep.
  - rewrite E. reflexivity.
  - rewrite L. exact Hk.
  - rewrite E. exact N.
Qed.

(** At a bulk site the exchange keeps what the sweep wrote. *)
Lemma Multiply_bulk (MULT : Z) (sys : System T) (k : nat) (i : Z) :
  (k < length (fst sys))%nat ->
  lattice_ok STRIDE (r (thread sys k)) -> bulk (r (thread sys k)) i ->
  v (thread (Multiply STRIDE MULT sys) k) (phi0_of (thread sys k) + i)
  = Multiply_sweep STRIDE MULT (r (thread sys k)) (h (thread sys k))
      (phi0_of (thread sys k)) (phiM1_of (thread sys k))
      (phiM2_of (thread sys k)) (v (thread sys k))
      (phi0_of (thread sys k) + i).
Proof.
  intros Hk OK Bi. apply Multiply_keep; [exact Hk|].
  intros d b io i' ig Hb Hio Hi Hig E.
  apply (bulk_not_ghost_cell (r (thread sys k)) i d b io i' ig);
    try assumption. lia.
Qed.

Lemma Multiply2_bulk (MULT : Z) (sys : System T) (k : nat) (i : Z) :
  (k < length (fst sys))%nat ->
  lattice_ok STRIDE (r (thread sys k)) -> bulk (r (thread sys k)) i ->
  v (thread (Multiply2 MULT sys) k) (phi0_of (thread sys k) + i)
  = Multiply2_sweep MULT (r (thread sys k)) (h (thread sys k))
      (phi0_of (thread sys k)) (phiM1_of (thread sys k))
      (phiM2_of (thread sys k)) (v (thread sys k))
      (phi0_of (thread sys k) + i).
Proof.
  intros Hk OK Bi. apply Multiply2_keep; [exact Hk|].
  intros d b io i' ig Hb Hio Hi Hig E.
  apply (bulk_not_ghost_cell (r (thread sys k)) i d b io i' ig);
    try assumption. lia.
Qed.

(** Outside the new slot the exchange and the sweep keep everything. *)
Lemma Multiply_outside (MULT : Z) (sys : System T) (k : nat) (a : Z) :
  (k < length (fst sys))%nat ->
  lattice_ok STRIDE (r (thread sys k)) ->
  tables_in_slot STRIDE (r (thread sys k)) (h (thread sys k)) ->
  (forall i, 0 <= i < Sized (r (thread sys k)) ->
             a <> phi0_of (thread sys k) + i) ->
  v (thread (Multiply STRIDE MULT sys) k) a = v (thread sys k) a.
Proof.
  intros Hk OK TS N. rewrite Multiply_keep.
  - apply (frames_Multiply_sweep STRIDE MULT _ _ _ _ _ OK TS). exact N.
  - exact Hk.
  - intros d b io i ig Hb Hio Hi Hig. apply N.
    apply (ghost_cell_in_slot (r (thread sys k)) d b io i ig); assumption.
Qed.

End MultiplyThread.

(** * The value [Multiply] leaves at a bulk site of a thread *)

Section MultiplyValue.
Context {T : Type} `{Scalar T}.
Local Open Scope Z_scope.

Add Ring scalar_ring_value : scalar_ring.

Variable STRIDE : Z.

Lemma Multiply_bulk_value (MULT : Z) (sys : System T) (k : nat) (i : Z) :
  (k < length (fst sys))%nat ->
  lattice_ok STRIDE (r (thread sys k)) ->
  tables_in_slot STRIDE (r (thread sys k)) (h (thread sys k)) ->
  tiles_consistent STRIDE (r (thread sys k)) (h (thread sys k)) ->
  ring_ok (thread sys k) ->
  bulk (r (thread sys k)) i ->
  v (thread (Multiply STRIDE MULT sys) k) (phi0_of (thread sys k) + i)
  = Multiply_value STRIDE MULT (r (thread sys k)) (h (thread sys k))
                   (psi_M1 (thread sys k)) (psi_M2 (thread sys k)) i.
Proof.
  intros Hk OK TS TC R Bi.
  rewrite (Multiply_bulk STRIDE MULT sys k i Hk OK Bi).
  destruct (bulk_tile STRIDE _ OK i Bi)
    as (c & m & k' & l & io & Hc & Hm & Hk' & Hl & Hio & Ei & _).
  subst i.
  apply (Multiply_sweep_site STRIDE MULT _ _ _ _ _ (v (thread sys k)) OK TS
           (ring_slots_apart _ R) c m k' l io Hc Hm Hk' Hl Hio TC).
Qed.

(** The value the code leaves at a site is the value of the recursion
    unless the site is a vacancy that the list of a broken pattern names. *)
Lemma Multiply_value_spec_at (MULT : Z) (r : LatticeStructure T)
      (h : Hamiltonian T) (psi1 psi2 : Z -> T) (i : Z) :
  (is_vacancy STRIDE r h i = true ->
   forall e, In e (border_terms r h) -> row e <> i) ->
  Multiply_value STRIDE MULT r h psi1 psi2 i
  = spec_Multiply_value STRIDE MULT r h psi1 psi2 i.
Proof.
  intros BV. unfold Multiply_value, spec_Multiply_value.
  destruct (is_vacancy STRIDE r h i) eqn:V.
  - rewrite matvec_no_row; [ring|]. exact (BV eq_refl).
  - ring.
Qed.

(** At a vacancy only the terms of the broken patterns remain. *)
Lemma Multiply_value_vacancy (MULT : Z) (r : LatticeStructure T)
      (h : Hamiltonian T) (psi1 psi2 : Z -> T) (i : Z) :
  is_vacancy STRIDE r h i = true ->
  Multiply_value STRIDE MULT r h psi1 psi2 i
  = of_Z (MULT + 1) [*] matvec (border_terms r h) psi1 i.
Proof.
  intros V. unfold Multiply_value. rewrite V. ring.
Qed.

Lemma Multiply2_bulk_value (MULT : Z) (sys : System T) (k : nat) (i : Z) :
  (k < length (fst sys))%nat ->
  lattice_ok STRIDE (r (thread sys k)) ->
  ring_ok (thread sys k) ->
  bulk (r (thread sys k)) i ->
  (forall ib,
     0 <= ib < NHoppings (h (thread sys k)) (coord_orb (r (thread sys k)) i) ->
     in_slot (r (thread sys k))
             (i + d (h (thread sys k)) ib (coord_orb (r (thread sys k)) i))) ->
  v (thread (Multiply2 MULT sys) k) (phi0_of (thread sys k) + i)
  = [-] of_Z MULT [*] psi_M2 (thread sys k) i
    [+] ssum (map (fun ib =>
                     of_Z (MULT + 1)
                     [*] t (h (thread sys k)) ib (coord_orb (r (thread sys k)) i)
                     [*] psi_M1 (thread sys k)
                           (i + d (h (thread sys k)) ib
                                  (coord_orb (r (thread sys k)) i)))
                  (Zrange 0 (NHoppings (h (thread sys k))
                                       (coord_orb (r (thread sys k)) i)))).
Proof.
  intros Hk OK R Bi S.
  rewrite (Multiply2_bulk STRIDE MULT sys k i Hk OK Bi).
  destruct (bulk_tile STRIDE _ OK i Bi)
    as (c & m & k' & l & io & Hc & Hm & Hk' & Hl & Hio & Ei & Eo & _).
  rewrite Eo in *. subst i.
  apply (Multiply2_sweep_site STRIDE MULT _ _ _ _ _ (v (thread sys k)) OK
           (ring_slots_apart _ R) c m k' l io Hc Hm Hk' Hl Hio).
  exact S.
Qed.

Lemma Multiply_bulk_value_clean (MULT : Z) (sys : System T) (k : nat) (i : Z) :
  (k < length (fst sys))%nat ->
  lattice_ok STRIDE (r (thread sys k)) ->
  tables_in_slot STRIDE (r (thread sys k)) (h (thread sys k)) ->
  tiles_consistent STRIDE (r (thread sys k)) (h (thread sys k)) ->
  clean_hamiltonian (r (thread sys k)) (h (thread sys k)) ->
  ring_ok (thread sys k) ->
  bulk (r (thread sys k)) i ->
  v (thread (Multiply STRIDE MULT sys) k) (phi0_of (thread sys k) + i)
  = [-] of_Z MULT [*] psi_M2 (thread sys k) i
    [+] ssum (map (fun ib =>
                     of_Z (MULT + 1)
                     [*] t (h (thread sys k)) ib (coord_orb (r (thread sys k)) i)
                     [*] psi_M1 (thread sys k)
                           (i + d (h (thread sys k)) ib
                                  (coord_orb (r (thread sys k)) i)))
                  (Zrange 0 (NHoppings (h (thread sys k))
                                       (coord_orb (r (thread sys k)) i)))).
Proof.
  intros Hk OK TS TC CH R Bi.
  rewrite (Multiply_bulk STRIDE MULT sys k i Hk OK Bi).
  destruct (bulk_tile STRIDE _ OK i Bi)
    as (c & m & k' & l & io & Hc & Hm & Hk' & Hl & Hio & Ei & Eo & _).
  rewrite Eo in *. subst i.
  apply (Multiply_sweep_site_clean STRIDE MULT _ _ _ _ _ (v (thread sys k))
           OK TS (ring_slots_apart _ R) c m k' l io Hc Hm Hk' Hl Hio TC CH).
Qed.

End MultiplyValue.

(** * More on loops over memory *)

Section LoopFactsMore.
Local Open Scope Z_scope.

(** A loop one of whose iterations applies [f] to the cell [a], the others
    leaving it alone. *)
Lemma for_each_apply {A T} (l : list A) (body : A -> mem T -> mem T) (a : Z)
      (y0 : A) (f : T -> T) :
  NoDup l -> In y0 l ->
  (forall y m, In y l -> y <> y0 -> body y m a = m a) ->
  (forall m, body y0 m a = f (m a)) ->
  forall m, for_each l body m a = f (m a).
Proof.
  induction l as [|y l IH]; intros ND Hin Hother Hown m; [destruct Hin|].
  rewrite for_each_cons. inversion ND as [|? ? Hy ND']; subst.
  destruct Hin as [->|Hin].
  - rewrite for_each_keep.
    + apply Hown.
    + intros y m' Hy'. apply Hother; [now right|].
      intros ->. contradiction.
  - rewrite IH; try assumption.
    + f_equal. apply Hother; [now left|]. intros ->. contradiction.
    + intros y' m' Hy' Ny'. apply Hother; [now right|exact Ny'].
Qed.

Lemma In_Zrange_step_0 (hi step i : Z) :
  0 < step ->
  (In i (Zrange_step 0 hi step) <-> exists k, 0 <= k /\ i = k * step /\ i < hi).
Proof.
  intros Hs. rewrite In_Zrange_step by exact Hs.
  split; intros (k & Hk & E & L); exists k; repeat split; lia.
Qed.

End LoopFactsMore.

(** * Lists of cells *)

Section ListFacts.
Local Open Scope Z_scope.

Lemma for_each_flat_map {A B S} (g : A -> list B) (l : list A)
      (body : B -> S -> S) (s : S) :
  for_each (flat_map g l) body s
  = for_each l (fun x => for_each (g x) body) s.
Proof.
  revert s. induction l as [|x l IH]; intros s; [reflexivity|].
  cbn [flat_map]. rewrite for_each_app, for_each_cons. apply IH.
Qed.

Lemma for_each_map {A B S} (f : A -> B) (l : list A) (body : B -> S -> S)
      (s : S) :
  for_each (map f l) body s = for_each l (fun x => body (f x)) s.
Proof.
  revert s. induction l as [|x l IH]; intros s; [reflexivity|].
  cbn [map]. rewrite !for_each_cons. apply IH.
Qed.

Lemma length_Zrange_gen (lo hi : Z) :
  length (Zrange lo hi) = Z.to_nat (hi - lo).
Proof. unfold Zrange. now rewrite length_map, length_seq. Qed.

Lemma nth_Zrange_gen (lo hi : Z) (j : nat) :
  (j < Z.to_nat (hi - lo))%nat -> nth j (Zrange lo hi) 0 = lo + Z.of_nat j.
Proof.
  intros Hj. unfold Zrange.
  rewrite (nth_indep _ 0 (lo + Z.of_nat 0))
    by (now rewrite length_map, length_seq).
  rewrite (map_nth (fun k => lo + Z.of_nat k)), seq_nth by exact Hj.
  reflexivity.
Qed.

Lemma NoDup_map_on {A B} (f : A -> B) (l : list A) :
  (forall x y, In x l -> In y l -> f x = f y -> x = y) ->
  NoDup l -> NoDup (map f l).
Proof.
  intros Inj ND. induction ND as [|x l Hx ND IH]; [constructor|].
  cbn [map]. constructor.
  - intros Hin. apply in_map_iff in Hin. destruct Hin as (y & E & Hy).
    apply Hx. rewrite <- (Inj y x); [exact Hy|now right|now left|exact E].
  - apply IH. intros a b Ha Hb. apply Inj; now right.
Qed.

Lemma NoDup_flat_map {A B} (g : A -> list B) (l : list A) :
  NoDup l ->
  (forall x, In x l -> NoDup (g x)) ->
  (forall x x' y, In x l -> In x' l -> In y (g x) -> In y (g x') -> x = x') ->
  NoDup (flat_map g l).
Proof.
  intros ND Hg Hd. induction ND as [|x l Hx ND IH]; [constructor|].
  cbn [flat_map]. apply NoDup_app.
  - apply Hg. now left.
  - apply IH.
    + intros x' Hx'. apply Hg. now right.
    + intros a a' y Ha Ha'. apply Hd; now right.
  - intros y Hy Hy'. apply in_flat_map in Hy'.
    destruct Hy' as (x' & Hx' & Hy'). apply Hx.
    rewrite (Hd x x' y); [exact Hx'|now left|now right|exact Hy|exact Hy'].
Qed.

(** Rows of equal length laid end to end. *)
Lemma flat_map_uniform {A B} (g : A -> list B) (w : nat) (l : list A)
      (dA : A) (d : B) :
  (forall x, In x l -> length (g x) = w) ->
  length (flat_map g l) = (length l * w)%nat
  /\ forall q j, (q < length l)%nat -> (j < w)%nat ->
       nth (q * w + j) (flat_map g l) d = nth j (g (nth q l dA)) d.
Proof.
  induction l as [|x l IH]; intros Hw.
  - split; [reflexivity|]. intros q j Hq. inversion Hq.
  - destruct IH as [IL IN]; [intros y Hy; apply Hw; now right|].
    assert (Lx : length (g x) = w) by (apply Hw; now left).
    split.
    + cbn [flat_map length]. rewrite length_app, IL, Lx. lia.
    + intros q j Hq Hj. cbn [flat_map].
      destruct q as [|q].
      * cbn [nth Nat.mul Nat.add]. apply app_nth1. lia.
      * rewrite app_nth2 by (rewrite Lx; cbn; lia).
        rewrite Lx.
        replace (S q * w + j - w)%nat with (q * w + j)%nat by (cbn; lia).
        cbn [nth]. apply IN; [cbn in Hq; lia|exact Hj].
Qed.

(** A loop that stores the successive values of a sequence in the cells of
    a list, one value per cell. *)
Lemma fill_loop {T} (c : Z) (val : nat -> T) (l : list Z) :
  NoDup l ->
  forall (v : mem T) (n : nat),
    snd (for_each l (fun i s => (upd (fst s) (c + i) (val (snd s)),
                                  S (snd s))) (v, n))
    = (n + length l)%nat
    /\ (forall j, (j < length l)%nat ->
          fst (for_each l (fun i s => (upd (fst s) (c + i) (val (snd s)),
                                       S (snd s))) (v, n))
              (c + nth j l 0)
          = val (n + j)%nat)
    /\ (forall a, (forall i, In i l -> a <> c + i) ->
          fst (for_each l (fun i s => (upd (fst s) (c + i) (val (snd s)),
                                       S (snd s))) (v, n)) a
          = v a).
Proof.
  induction l as [|i l IH]; intros ND v n.
  - cbn. split; [lia|]. split; [intros j Hj; inversion Hj|reflexivity].
  - inversion ND as [|? ? Hi ND']; subst.
    rewrite for_each_cons. cbn [fst snd].
    destruct (IH ND' (upd v (c + i) (val n)) (S n)) as (I1 & I2 & I3).
    split; [rewrite I1; cbn [length]; lia|]. split.
    + intros [|j] Hj.
      * cbn [nth]. rewrite I3.
        -- rewrite upd_same. f_equal. lia.
        -- intros i' Hi' E. apply Hi. replace i with i' by lia. exact Hi'.
      * cbn [nth]. rewrite I2 by (cbn [length] in Hj; lia). f_equal. lia.
    + intros a Ha. rewrite I3 by (intros i' Hi'; apply Ha; now right).
      apply upd_other. apply Ha. now left.
Qed.

End ListFacts.

(** * [Velocity] as a sweep of [Multiply<0>] *)

Section VelocityFacts.
Context {T : Type} `{Scalar T}.
Local Open Scope Z_scope.

Add Ring scalar_ring_velocity : scalar_ring.

(** ** Loops on stores with the same content *)

Lemma for_each_same {A : Type} (l : list A) (f g : A -> mem T -> mem T) :
  (forall x m m', In x l -> same_store m m' -> same_store (f x m) (g x m')) ->
  forall m m', same_store m m' -> same_store (for_each l f m) (for_each l g m').
Proof.
  induction l as [|x l IH]; intros Hb m m' S; [exact S|].
  rewrite !for_each_cons. apply IH.
  - intros y n n' Hy. apply Hb. now right.
  - apply Hb; [now left|exact S].
Qed.

Lemma upd_same_store (m m' : mem T) (a : Z) (x x' : T) :
  same_store m m' -> x = x' -> same_store (upd m a x) (upd m' a x').
Proof.
  intros S -> b. unfold upd. destruct (b =? a); [reflexivity|apply S].
Qed.

Lemma for_tile_same (STRIDE : Z) (r r' : LatticeStructure T) (j0 : Z)
      (body body' : Z -> Z -> mem T -> mem T) :
  basis1 r = basis1 r' ->
  (forall j i m m', same_store m m' -> same_store (body j i m) (body' j i m')) ->
  forall m m', same_store m m' ->
    same_store (for_tile STRIDE r j0 body m) (for_tile STRIDE r' j0 body' m').
Proof.
  intros E Hb m m' S. unfold for_tile. cbv zeta. rewrite <- E.
  apply for_each_same; [|exact S].
  intros j n n' _ S'. apply for_each_same; [|exact S'].
  intros i p p' _ S''. apply Hb. exact S''.
Qed.

Lemma for_each_nothing {A S : Type} (l : list A) (f : A -> S -> S) :
  (forall x s, In x l -> f x s = s) -> forall s, for_each l f s = s.
Proof.
  induction l as [|x l IH]; intros Hf s; [reflexivity|].
  rewrite for_each_cons, Hf by now left.
  apply IH. intros y s' Hy. apply Hf. now right.
Qed.

(** ** Without vector potential every Peierls factor is one *)

Lemma peierls_flat_hopping (r : LatticeStructure T) (dist j : Z) :
  peierls2 (hopping_phase (flat_lattice r) dist j) = s1.
Proof.
  unfold hopping_phase. cbn [vect_pot flat_lattice].
  replace (of_Z (vee0 dist * snd (convertCoordinates r j)) [*] s0)
    with s0 by ring.
  apply peierls2_0.
Qed.

Lemma peierls_flat_bond (r : LatticeStructure T) (k1 k2 : Z) :
  peierls2 (bond_phase (flat_lattice r) k1 k2) = s1.
Proof.
  unfold bond_phase. cbv zeta. cbn [vect_pot flat_lattice].
  match goal with |- peierls2 ?x = _ => replace x with s0 by ring end.
  apply peierls2_0.
Qed.

Lemma of_Z_one : of_Z (0 + 1) = s1.
Proof. change (of_Z (0 + 1)) with (s0 [+] s1). ring. Qed.

Lemma of_Z_zero : of_Z 0 = s0.
Proof. reflexivity. Qed.

(** ** The tables of the velocity Hamiltonian *)

Lemma at_map_Zrange (V : list T) (n : nat) (k : Z) :
  0 <= k < Z.of_nat n ->
  at_ s0 (map (at_ s0 V) (Zrange 0 (Z.of_nat n))) k = at_ s0 V k.
Proof.
  intros Hk. unfold at_ at 1.
  destruct (k <? 0) eqn:E; [apply Z.ltb_lt in E; lia|].
  rewrite (nth_indep _ s0 (at_ s0 V 0))
    by (rewrite length_map, length_Zrange; lia).
  rewrite (map_nth (at_ s0 V)), nth_Zrange by lia.
  f_equal. lia.
Qed.

Lemma length_velocity_hopping (V bV : list T) (id : Defect T) :
  Z.of_nat (length (hopping (velocity_pattern V bV id)))
  = Z.of_nat (length (hopping id)).
Proof.
  cbn [hopping velocity_pattern]. now rewrite length_map, length_Zrange.
Qed.

Lemma In_numbered_patterns (hd : list (Defect T)) (nid : Z * Defect T) :
  In nid (numbered_patterns hd) -> In (snd nid) hd.
Proof.
  intros Hin. destruct nid as [n id]. apply in_combine_r in Hin. exact Hin.
Qed.

End VelocityFacts.

(** * The sweep of [Velocity] is the sweep of [Multiply<0>] on the
      velocity tables *)

Section VelocitySweep.
Context {T : Type} `{Scalar T}.
Local Open Scope Z_scope.

Add Ring scalar_ring_velocity_sweep : scalar_ring.

Variable STRIDE : Z.
Variable r : LatticeStructure T.
Variable h : Hamiltonian T.
Variable tab : VelocityTables T.
Variables phi0 phiM1 : Z.

Abbreviation r' := (flat_lattice r).
Abbreviation h' := (velocity_hamiltonian h tab).

Lemma zero_as_init (i : Z) (m m' : mem T) :
  same_store m m' ->
  same_store (zero_cell phi0 i m) (init_cell 0 phi0 phi0 i m').
Proof.
  intros S. unfold zero_cell, init_cell. apply upd_same_store; [exact S|].
  rewrite of_Z_zero. ring.
Qed.

Lemma add1_as_add (i k : Z) (a b : T) (m m' : mem T) :
  same_store m m' -> b = s1 ->
  same_store (add_cell1 phi0 phiM1 i a k m)
             (add_cell phi0 phiM1 i (of_Z (0 + 1) [*] a) k b m').
Proof.
  intros S ->. unfold add_cell1, add_cell. apply upd_same_store; [exact S|].
  rewrite of_Z_one, !S. ring.
Qed.

Lemma add1_as_add3 (i k : Z) (a a' b : T) (m m' : mem T) :
  same_store m m' -> b = s1 -> a = a' ->
  same_store (add_cell1 phi0 phiM1 i a k m)
             (add_cell3 phi0 phiM1 i (of_Z (0 + 1)) a' k b m').
Proof.
  intros S -> ->. unfold add_cell1, add_cell3.
  apply upd_same_store; [exact S|].
  rewrite of_Z_one, !S. ring.
Qed.

Lemma zero_same (i : Z) (m m' : mem T) :
  same_store m m' -> same_store (zero_cell phi0 i m) (zero_cell phi0 i m').
Proof. intros S. apply upd_same_store; [exact S|reflexivity]. Qed.

Lemma velocity_cross_tiles_as_Multiply (m m' : mem T) :
  same_store m m' ->
  same_store (velocity_cross_tiles STRIDE r h phi0 m)
             (initialize_cross_tiles STRIDE 0 r' h' phi0 phi0 m').
Proof.
  unfold velocity_cross_tiles, initialize_cross_tiles.
  cbn [cross_mozaic_indexes velocity_hamiltonian lStr0 Orb flat_lattice].
  apply for_each_same. intros istr n n' _ S. cbv zeta.
  apply for_each_same; [|exact S]. intros io p p' _ S'.
  apply for_tile_same; [reflexivity| |exact S'].
  intros j i q q'. apply zero_as_init.
Qed.

Lemma velocity_orbital_as_Multiply (i0 i1 istr io : Z) (m m' : mem T) :
  same_store m m' ->
  same_store (velocity_orbital STRIDE r h tab phi0 phiM1 i0 i1 istr io m)
             (tile_orbital STRIDE 0 r' h' phi0 phiM1 phi0 i0 i1 istr io m').
Proof.
  intros S. unfold velocity_orbital, tile_orbital. cbv zeta.
  unfold orbital_hoppings, orbital_onsite, orbital_init.
  cbn [Anderson_orb_address velocity_hamiltonian hr_NHoppings hr_distance
       hr_hopping hr_dist cross_mozaic].
  change (-2 >=? 0) with false. change (-2 =? -1) with false. cbv iota.
  apply for_each_same.
  - intros ib n n' _ S'. cbv zeta.
    apply for_tile_same; [reflexivity| |exact S'].
    intros j i q q' S''. apply add1_as_add; [exact S''|].
    apply peierls_flat_hopping.
  - destruct (cross_mozaic h istr); [|exact S].
    apply for_tile_same; [reflexivity| |exact S].
    intros j i q q'. apply zero_as_init.
Qed.

Lemma velocity_defects_as_Multiply (istr : Z) (m m' : mem T) :
  same_store m m' ->
  same_store (velocity_defects h tab phi0 phiM1 istr m)
             (tile_defects 0 r' h' phi0 phiM1 istr m').
Proof.
  unfold velocity_defects, tile_defects.
  cbn [hd velocity_hamiltonian]. rewrite for_each_map.
  apply for_each_same. intros [n id] q q' _ S. cbv zeta. cbn [fst snd].
  cbn [position velocity_pattern].
  apply for_each_same; [|exact S]. intros ip p p' _ S'.
  rewrite length_velocity_hopping.
  cbn [U velocity_pattern length Z.of_nat]. 
  change (Zrange 0 0) with (@nil Z). unfold for_each at 2. cbn [fold_left].
  apply for_each_same; [|exact S']. intros k w w' Hk S''.
  cbn [node_position element1 element2 hopping velocity_pattern].
  apply add1_as_add3; [exact S''|apply peierls_flat_bond|].
  symmetry. apply at_map_Zrange. apply In_Zrange in Hk. exact Hk.
Qed.

Lemma velocity_tile_sweep_as_Multiply (m m' : mem T) :
  same_store m m' ->
  same_store (velocity_tile_sweep STRIDE r h tab phi0 phiM1 m)
             (tile_sweep STRIDE 0 r' h' phi0 phiM1 phi0 m').
Proof.
  unfold velocity_tile_sweep, tile_sweep.
  cbn [Ld0 Ld1 lStr0 Orb flat_lattice].
  apply for_each_same. intros i1 n n' _ S.
  apply for_each_same; [|exact S]. intros i0 p p' _ S'. cbv zeta.
  unfold tile_vacancies. cbn [hV_position velocity_hamiltonian].
  apply for_each_same.
  - intros k q q' _. apply zero_same.
  - apply velocity_defects_as_Multiply.
    apply for_each_same; [|exact S'].
    intros io w w' _. apply velocity_orbital_as_Multiply.
Qed.

Lemma velocity_border_as_Multiply (m m' : mem T) :
  same_store m m' ->
  same_store (velocity_border h tab phi0 phiM1 m)
             (border_onsite 0 h' phi0 phiM1 (border_bonds 0 r' h' phi0 phiM1 m')).
Proof.
  intros S. unfold border_onsite.
  rewrite (for_each_nothing (hd h')).
  - unfold velocity_border, border_bonds.
    cbn [hd velocity_hamiltonian]. rewrite for_each_map.
    apply for_each_same; [|exact S]. intros [n id] q q' _ S'.
    cbv zeta. cbn [fst snd border_element1 border_element2 border_hopping
                   velocity_pattern].
    apply for_each_same; [|exact S']. intros i w w' _ S''.
    apply add1_as_add3; [exact S''|apply peierls_flat_bond|reflexivity].
  - intros id s Hid. cbn [hd velocity_hamiltonian] in Hid.
    apply in_map_iff in Hid. destruct Hid as (nid & <- & _).
    reflexivity.
Qed.

(** The statements of [Velocity] before the exchange are those of
    [Multiply<0>] on the lattice without vector potential and the Hamiltonian
    of the velocity tables, the slot read as [phiM2] being [phi0] itself. *)
Lemma velocity_sweep_as_Multiply (m : mem T) (a : Z) :
  velocity_sweep STRIDE r h tab phi0 phiM1 m a
  = Multiply_sweep STRIDE 0 r' h' phi0 phiM1 phi0 m a.
Proof.
  unfold velocity_sweep, Multiply_sweep. cbv zeta.
  apply velocity_border_as_Multiply.
  unfold zero_vacancies_with_defects.
  cbn [vacancies_with_defects velocity_hamiltonian].
  apply for_each_same.
  - intros k q q' _. apply zero_same.
  - apply velocity_tile_sweep_as_Multiply.
    apply velocity_cross_tiles_as_Multiply.
    intros b. reflexivity.
Qed.

End VelocitySweep.

(** * The velocity tables as a Hamiltonian: terms and well-formedness *)

Section VelocityTerms.
Context {T : Type} `{Scalar T}.
Local Open Scope Z_scope.

Add Ring scalar_ring_velocity_terms : scalar_ring.

Variable STRIDE : Z.
Variable r : LatticeStructure T.
Variable h : Hamiltonian T.
Variable tab : VelocityTables T.

Abbreviation r' := (flat_lattice r).
Abbreviation h' := (velocity_hamiltonian h tab).

Lemma flat_map_nothing {A B : Type} (F : A -> list B) (l : list A) :
  (forall x, In x l -> F x = []) -> flat_map F l = [].
Proof.
  induction l as [|x l IH]; intros E; [reflexivity|].
  cbn [flat_map]. rewrite E by now left. apply IH.
  intros y Hy. apply E. now right.
Qed.

Lemma defect_terms_velocity (n : Z) (id : Defect T) (ip : Z) :
  defect_terms r' (velocity_pattern (hd_V tab n) (hd_border_V tab n) id) ip
  = velocity_defect_terms tab n id ip.
Proof.
  unfold defect_terms, velocity_defect_terms.
  rewrite length_velocity_hopping.
  cbn [U velocity_pattern length Z.of_nat].
  change (Zrange 0 0) with (@nil Z). cbn [map]. rewrite app_nil_r.
  apply map_ext_in. intros k Hk. apply In_Zrange in Hk. cbv zeta.
  cbn [node_position element1 element2 hopping velocity_pattern].
  rewrite peierls_flat_bond, at_map_Zrange by exact Hk.
  f_equal. ring.
Qed.

Lemma tile_terms_velocity (istr : Z) :
  tile_terms r' h' istr = velocity_tile_terms h tab istr.
Proof.
  unfold tile_terms, velocity_tile_terms.
  cbn [hd velocity_hamiltonian]. rewrite flat_map_concat_map, map_map.
  rewrite <- flat_map_concat_map. apply flat_map_ext. intros [n id].
  cbn [fst snd position velocity_pattern].
  apply flat_map_ext. intros ip. apply defect_terms_velocity.
Qed.

Lemma structural_terms_velocity :
  structural_terms STRIDE r' h' = velocity_structural_terms STRIDE r h tab.
Proof.
  unfold structural_terms, velocity_structural_terms.
  apply flat_map_ext. intros istr. apply tile_terms_velocity.
Qed.

Lemma border_terms_velocity :
  border_terms r' h' = velocity_border_terms h tab.
Proof.
  unfold border_terms, velocity_border_terms.
  cbn [hd velocity_hamiltonian].
  rewrite (flat_map_nothing
             (fun id => map _ (Zrange 0 (Z.of_nat (length (border_element id)))))).
  - rewrite app_nil_r, flat_map_concat_map, map_map.
    rewrite <- flat_map_concat_map. apply flat_map_ext. intros [n id].
    cbn [fst snd border_element1 border_element2 border_hopping
         velocity_pattern].
    apply map_ext. intros i. cbv zeta.
    rewrite peierls_flat_bond. f_equal. ring.
  - intros id Hid. apply in_map_iff in Hid. destruct Hid as (nid & <- & _).
    reflexivity.
Qed.

Lemma regular_terms_velocity (i : Z) :
  regular_terms r' h' i = (i, i, s0) :: velocity_regular_terms r h tab i.
Proof.
  unfold regular_terms, velocity_regular_terms. cbv zeta.
  change (coord_orb r' i) with (coord_orb r i).
  unfold onsite_energy.
  cbn [Anderson_orb_address velocity_hamiltonian hr_NHoppings hr_distance
       hr_hopping hr_dist].
  change (-2 >=? 0) with false. change (-2 =? -1) with false. cbv iota.
  f_equal. apply map_ext. intros ib.
  rewrite peierls_flat_hopping. f_equal. ring.
Qed.

(** What [Multiply<0>] computes on the velocity tables is the velocity
    operator applied to [psi]. *)
Lemma Multiply_value_velocity (psi psi2 : Z -> T) (i : Z) :
  Multiply_value STRIDE 0 r' h' psi psi2 i = Velocity_value STRIDE r h tab psi i.
Proof.
  unfold Multiply_value, Velocity_value, H_bulk.
  rewrite border_terms_velocity, structural_terms_velocity,
    regular_terms_velocity, matvec_cons.
  change (is_vacancy STRIDE r' h' i) with (is_vacancy STRIDE r h i).
  rewrite of_Z_one, of_Z_zero.
  destruct (is_vacancy STRIDE r h i); [ring|].
  destruct (row (i, i, s0) =? i); cbn [coefficient snd]; ring.
Qed.

(** ** Rows and columns of the velocity terms *)

Lemma velocity_defect_terms_rows (n : Z) (id : Defect T) (ip : Z) (e : term) :
  In e (velocity_defect_terms tab n id ip) ->
  exists e', In e' (defect_terms r id ip)
             /\ row e' = row e /\ column e' = column e.
Proof.
  unfold velocity_defect_terms, defect_terms. intros Hin.
  apply in_map_iff in Hin. destruct Hin as (k & <- & Hk).
  eexists. split.
  - apply in_or_app. left. apply in_map_iff. exists k.
    split; [reflexivity|exact Hk].
  - split; reflexivity.
Qed.

Lemma velocity_tile_terms_rows (istr : Z) (e : term) :
  In e (velocity_tile_terms h tab istr) ->
  exists e', In e' (tile_terms r h istr)
             /\ row e' = row e /\ column e' = column e.
Proof.
  unfold velocity_tile_terms, tile_terms. intros Hin.
  apply in_flat_map in Hin. destruct Hin as ([n id] & Hnid & Hin).
  cbn [fst snd] in Hin.
  apply in_flat_map in Hin. destruct Hin as (ip & Hip & Hin).
  destruct (velocity_defect_terms_rows n id ip e Hin) as (e' & He' & R & C).
  exists e'. split; [|split; assumption].
  apply in_flat_map. exists id. split.
  - apply (In_numbered_patterns _ _ Hnid).
  - apply in_flat_map. exists ip. split; assumption.
Qed.

Lemma velocity_border_terms_rows (e : term) :
  In e (velocity_border_terms h tab) ->
  exists e', In e' (border_terms r h)
             /\ row e' = row e /\ column e' = column e.
Proof.
  unfold velocity_border_terms, border_terms. intros Hin.
  apply in_flat_map in Hin. destruct Hin as ([n id] & Hnid & Hin).
  cbn [fst snd] in Hin.
  apply in_map_iff in Hin. destruct Hin as (i & <- & Hi).
  eexists. split.
  - apply in_or_app. left. apply in_flat_map. exists id. split.
    + apply (In_numbered_patterns _ _ Hnid).
    + apply in_map_iff. exists i. split; [reflexivity|exact Hi].
  - split; reflexivity.
Qed.

(** ** Well-formed inputs stay well-formed *)

Lemma lattice_ok_flat : lattice_ok STRIDE r -> lattice_ok STRIDE r'.
Proof.
  intros OK. constructor.
  - exact (ok_stride OK).
  - exact (ok_lStr0 OK).
  - exact (ok_Ld0 OK).
  - exact (ok_lStr1 OK).
  - exact (ok_Ld1 OK).
  - exact (ok_ld1 OK).
  - exact (ok_Orb OK).
  - exact (ok_Nd OK).
  - exact (ok_Sized OK).
  - exact (ok_row OK).
Qed.

Lemma tables_in_slot_velocity :
  tables_in_slot STRIDE r h -> tables_in_slot STRIDE r' h'.
Proof.
  intros TS. constructor.
  - exact (slot_hoppings TS).
  - intros istr Hv e He. rewrite tile_terms_velocity in He.
    destruct (velocity_tile_terms_rows istr e He) as (e' & He' & <- & <-).
    exact (slot_defects TS istr Hv e' He').
  - intros e He. rewrite border_terms_velocity in He.
    destruct (velocity_border_terms_rows e He) as (e' & He' & <- & <-).
    exact (slot_border TS e' He').
  - exact (slot_vacancies TS).
  - exact (slot_vacancies_with_defects TS).
  - exact (slot_cross TS).
Qed.

Lemma tiles_consistent_velocity :
  tiles_consistent STRIDE r h -> tiles_consistent STRIDE r' h'.
Proof.
  intros TC. constructor.
  - exact (cross_nodup TC).
  - exact (cross_flag TC).
  - intros istr e Hv He. rewrite tile_terms_velocity in He.
    destruct (velocity_tile_terms_rows istr e He) as (e' & He' & <- & _).
    exact (cross_targets TC istr e' Hv He').
  - intros istr e Hv He. rewrite tile_terms_velocity in He.
    destruct (velocity_tile_terms_rows istr e He) as (e' & He' & <- & _).
    exact (cross_vacancies TC istr e' Hv He').
Qed.

End VelocityTerms.

(** * [Exchange_Boundaries]: the faces and the whole ghost frame *)

Ltac pick_side :=
  unfold ghost_origin, face_origin;
  try change (1 - 0 =? 0)%Z with false;
  try change (1 - 1 =? 0)%Z with true;
  try change (0 =? 0)%Z with true;
  try change (1 =? 0)%Z with false;
  cbv iota.

Ltac pick_side_in Q :=
  unfold ghost_origin, face_origin in Q;
  try change (1 - 0 =? 0)%Z with false in Q;
  try change (1 - 1 =? 0)%Z with true in Q;
  try change (0 =? 0)%Z with true in Q;
  try change (1 =? 0)%Z with false in Q;
  cbv iota in Q.

Section HaloFacts.
Context {T : Type} `{Scalar T}.
Local Open Scope Z_scope.

Lemma origins_range (b L : Z) (ig : Z) :
  b = 0 \/ b = 1 -> 3 * NGHOSTS <= L -> 0 <= ig < NGHOSTS ->
  0 <= ghost_origin b L + ig < L
  /\ (ghost_origin b L + ig < NGHOSTS \/ L - NGHOSTS <= ghost_origin b L + ig)
  /\ NGHOSTS <= face_origin b L + ig < L - NGHOSTS.
Proof.
  intros [-> | ->] HL Hig; pick_side; unfold NGHOSTS in *; lia.
Qed.

(** A cell keeps its content through one axis of the exchange when it is
    bulk along that axis. *)
Lemma exchange_axis_keep_bulk (d : Z) (r0 : LatticeStructure T) (sys : System T)
      (k : nat) (x y io : Z) :
  uniform_system r0 sys -> exchange_ok r0 -> (k < length (fst sys))%nat ->
  0 <= x < Ld0 r0 -> 0 <= y < Ld1 r0 -> 0 <= io ->
  (if d =? 0 then NGHOSTS <= x < Ld0 r0 - NGHOSTS
   else NGHOSTS <= y < Ld1 r0 - NGHOSTS) ->
  v (thread (exchange_axis d sys) k)
    (col r0 (index (thread sys k)) + set_index r0 x y io)
  = v (thread sys k) (col r0 (index (thread sys k)) + set_index r0 x y io).
Proof.
  intros U EX Hk Hx Hy Hio Bk.
  destruct (U k Hk) as [Er _].
  apply exchange_axis_keep; [exact Hk|].
  intros b io' i' ig' Hb Hio' Hi' Hig' E.
  reshape_in Er Hio'. reshape_in Er Hi'. reshape_in Er E.
  apply (not_ghost_cell r0 d b x y io io' i' ig'); try assumption; lia.
Qed.

Lemma max_axis_0 (r : LatticeStructure T) : max_ r 0 = ld1 r.
Proof. reflexivity. Qed.

Lemma max_axis_1 (r : LatticeStructure T) : max_ r 1 = Ld0 r.
Proof. reflexivity. Qed.

(** A ghost column cell after the exchange: the bulk cell of the neighbour
    along axis 0, as it was before the exchange. *)
Lemma Exchange_Boundaries_side (r0 : LatticeStructure T) (sys : System T)
      (k : nat) (b io ig y : Z) :
  uniform_system r0 sys -> exchange_ok r0 -> (k < length (fst sys))%nat ->
  b = 0 \/ b = 1 -> 0 <= io < Orb r0 -> 0 <= ig < NGHOSTS ->
  NGHOSTS <= y < Ld1 r0 - NGHOSTS ->
  v (thread (Exchange_Boundaries sys) k)
    (col r0 (index (thread sys k))
     + set_index r0 (ghost_origin b (Ld0 r0) + ig) y io)
  = v (thread sys (Z.to_nat (block (thread sys k) 0 b)))
      (col r0 (index (thread sys (Z.to_nat (block (thread sys k) 0 b))))
       + set_index r0 (face_origin (1 - b) (Ld0 r0) + ig) y io).
Proof.
  intros U EX Hk Hb Hio Hig Hy.
  pose proof (uniform_exchange_axis 0 r0 sys U) as U1.
  assert (Hk1 : (k < length (fst (exchange_axis 0 sys)))%nat)
    by (rewrite exchange_axis_length; exact Hk).
  destruct (exchange_axis_fields 0 sys k Hk) as (_ & _ & _ & Ei0 & _).
  destruct (origins_range b (Ld0 r0) ig Hb (ex_Ld0 EX) Hig) as (R1 & _ & _).
  rewrite Exchange_Boundaries_unfold, <- Ei0.
  rewrite (exchange_axis_keep_bulk 1 r0 _ k _ y io U1 EX Hk1)
    by (try assumption; try lia; change (1 =? 0) with false; cbv iota; lia).
  rewrite Ei0.
  assert (Hi : 0 <= y - NGHOSTS < max_ r0 0)
    by (rewrite max_axis_0, (ex_ld1 EX); lia).
  pose proof (exchange_axis_ghost 0 r0 sys k b io (y - NGHOSTS) ig ltac:(lia) U EX Hk Hb
                Hio Hi Hig) as Q.
  rewrite ghost_cell_index, face_cell_index in Q.
  replace (NGHOSTS + (y - NGHOSTS)) with y in Q by lia.
  destruct Hb as [-> | ->]; pick_side; pick_side_in Q; exact Q.
Qed.

(** A cell of a ghost row after the exchange along axis 1: the cell of
    the neighbour along axis 1, as the exchange along axis 0 left it. *)
Lemma Exchange_Boundaries_row (r0 : LatticeStructure T) (sys : System T)
      (k : nat) (b io ig x : Z) :
  uniform_system r0 sys -> exchange_ok r0 -> (k < length (fst sys))%nat ->
  b = 0 \/ b = 1 -> 0 <= io < Orb r0 -> 0 <= ig < NGHOSTS ->
  0 <= x < Ld0 r0 ->
  v (thread (Exchange_Boundaries sys) k)
    (col r0 (index (thread sys k))
     + set_index r0 x (ghost_origin b (Ld1 r0) + ig) io)
  = v (thread (exchange_axis 0 sys) (Z.to_nat (block (thread sys k) 1 b)))
      (col r0 (index (thread sys (Z.to_nat (block (thread sys k) 1 b))))
       + set_index r0 x (face_origin (1 - b) (Ld1 r0) + ig) io).
Proof.
  intros U EX Hk Hb Hio Hig Hx.
  pose proof (uniform_exchange_axis 0 r0 sys U) as U1.
  assert (Hk1 : (k < length (fst (exchange_axis 0 sys)))%nat)
    by (rewrite exchange_axis_length; exact Hk).
  destruct (exchange_axis_fields 0 sys k Hk) as (_ & _ & _ & Ei0 & Eb0).
  destruct (U k Hk) as [_ Bk].
  assert (HL : (Z.to_nat (block (thread sys k) 1 b) < length (fst sys))%nat)
    by (specialize (Bk 1 b); lia).
  destruct (exchange_axis_fields 0 sys _ HL) as (_ & _ & _ & EiL & _).
  rewrite Exchange_Boundaries_unfold.
  assert (Hi : 0 <= x < max_ r0 1) by (rewrite max_axis_1; exact Hx).
  pose proof (exchange_axis_ghost 1 r0 (exchange_axis 0 sys) k b io x ig
                ltac:(lia) U1 EX
                Hk1 Hb Hio Hi Hig) as Q.
  rewrite ghost_cell_index, face_cell_index in Q.
  rewrite Ei0, Eb0, EiL in Q.
  destruct Hb as [-> | ->]; pick_side; pick_side_in Q; exact Q.
Qed.

(** Every cell of the ghost frame holds a bulk value from before the
    exchange: a cell of a ghost column the value across the border in the
    neighbour along axis 0, a cell of a ghost row the value across the border
    in the neighbour along axis 1, and a corner cell the value of the
    diagonal neighbour, reached as the neighbour along axis 0 of the
    neighbour along axis 1. *)
Lemma Exchange_Boundaries_halo (r0 : LatticeStructure T) (sys : System T)
        (k : nat) (io : Z) :
  uniform_system r0 sys -> exchange_ok r0 -> (k < length (fst sys))%nat ->
  0 <= io < Orb r0 ->
  (forall b ig y,
      b = 0 \/ b = 1 -> 0 <= ig < NGHOSTS -> NGHOSTS <= y < Ld1 r0 - NGHOSTS ->
      v (thread (Exchange_Boundaries sys) k)
        (col r0 (index (thread sys k))
         + set_index r0 (ghost_origin b (Ld0 r0) + ig) y io)
      = v (thread sys (Z.to_nat (block (thread sys k) 0 b)))
          (col r0 (index (thread sys (Z.to_nat (block (thread sys k) 0 b))))
           + set_index r0 (face_origin (1 - b) (Ld0 r0) + ig) y io))
  /\ (forall b ig x,
         b = 0 \/ b = 1 -> 0 <= ig < NGHOSTS ->
         NGHOSTS <= x < Ld0 r0 - NGHOSTS ->
         v (thread (Exchange_Boundaries sys) k)
           (col r0 (index (thread sys k))
            + set_index r0 x (ghost_origin b (Ld1 r0) + ig) io)
         = v (thread sys (Z.to_nat (block (thread sys k) 1 b)))
             (col r0 (index (thread sys (Z.to_nat (block (thread sys k) 1 b))))
              + set_index r0 x (face_origin (1 - b) (Ld1 r0) + ig) io))
  /\ (forall b0 b1 ig0 ig1,
         b0 = 0 \/ b0 = 1 -> b1 = 0 \/ b1 = 1 ->
         0 <= ig0 < NGHOSTS -> 0 <= ig1 < NGHOSTS ->
         v (thread (Exchange_Boundaries sys) k)
           (col r0 (index (thread sys k))
            + set_index r0 (ghost_origin b0 (Ld0 r0) + ig0)
                        (ghost_origin b1 (Ld1 r0) + ig1) io)
         = v (thread sys
                (Z.to_nat
                   (block (thread sys (Z.to_nat (block (thread sys k) 1 b1)))
                          0 b0)))
             (col r0
                  (index
                     (thread sys
                        (Z.to_nat
                           (block
                              (thread sys
                                 (Z.to_nat (block (thread sys k) 1 b1)))
                              0 b0))))
              + set_index r0 (face_origin (1 - b0) (Ld0 r0) + ig0)
                          (face_origin (1 - b1) (Ld1 r0) + ig1) io)).
Proof.
  intros U EX Hk Hio.
  destruct (U k Hk) as [_ Bk].
  split; [|split].
  - intros b ig y Hb Hig Hy. now apply Exchange_Boundaries_side.
  - intros b ig x Hb Hig Hx.
    rewrite Exchange_Boundaries_row by (try assumption; lia).
    assert (HL : (Z.to_nat (block (thread sys k) 1 b) < length (fst sys))%nat)
      by (specialize (Bk 1 b); lia).
    assert (Hb' : 1 - b = 0 \/ 1 - b = 1) by lia.
    destruct (origins_range (1 - b) (Ld1 r0) ig Hb' (ex_Ld1 EX) Hig)
      as (_ & _ & R).
    apply (exchange_axis_keep_bulk 0 r0 sys _ x _ io U EX HL);
      try lia. change (0 =? 0) with true. cbv iota. exact Hx.
  - intros b0 b1 ig0 ig1 Hb0 Hb1 Hig0 Hig1.
    destruct (origins_range b0 (Ld0 r0) ig0 Hb0 (ex_Ld0 EX) Hig0)
      as (R0 & _ & _).
    rewrite Exchange_Boundaries_row by assumption.
    set (L1 := Z.to_nat (block (thread sys k) 1 b1)).
    assert (HL : (L1 < length (fst sys))%nat)
      by (unfold L1; specialize (Bk 1 b1); lia).
    assert (Hb' : 1 - b1 = 0 \/ 1 - b1 = 1) by lia.
    destruct (origins_range (1 - b1) (Ld1 r0) ig1 Hb' (ex_Ld1 EX) Hig1)
      as (_ & _ & R).
    assert (Hi : 0 <= face_origin (1 - b1) (Ld1 r0) + ig1 - NGHOSTS
                 < max_ r0 0)
      by (rewrite max_axis_0, (ex_ld1 EX); lia).
    pose proof (exchange_axis_ghost 0 r0 sys L1 b0 io
                  (face_origin (1 - b1) (Ld1 r0) + ig1 - NGHOSTS) ig0
                  ltac:(lia) U EX HL Hb0 Hio Hi Hig0) as Q.
    rewrite ghost_cell_index, face_cell_index in Q.
    replace (NGHOSTS + (face_origin (1 - b1) (Ld1 r0) + ig1 - NGHOSTS))
      with (face_origin (1 - b1) (Ld1 r0) + ig1) in Q by lia.
    clear R0 R Hi.
    destruct Hb0 as [-> | ->].
    + change (0 =? 0) with true in Q. cbv iota in Q.
      unfold ghost_origin at 1. unfold face_origin at 1.
      change (0 =? 0) with true. change (1 - 0 =? 0) with false. cbv iota.
      exact Q.
    + change (0 =? 0) with true in Q. change (1 =? 0) with false in Q.
      change (1 - 1 =? 0) with true in Q. cbv iota in Q.
      unfold ghost_origin at 1. unfold face_origin at 1.
      change (1 =? 0) with false. change (1 - 1 =? 0) with true. cbv iota.
      exact Q.
Qed.

(** The faces in the state the exchange leaves: every cell of the ghost
    face [b] of the axis [d] holds what the corresponding cell of the
    opposite bulk face of the neighbour [block[d][b]] holds. *)
Lemma Exchange_Boundaries_faces
        (r0 : LatticeStructure T) (sys : System T) (k : nat)
        (d b io i ig : Z) :
  uniform_system r0 sys -> exchange_ok r0 ->
  (k < length (fst sys))%nat ->
  d = 0 \/ d = 1 -> b = 0 \/ b = 1 ->
  0 <= io < Orb r0 -> 0 <= i < max_ r0 d -> 0 <= ig < NGHOSTS ->
  v (thread (Exchange_Boundaries sys) k)
    (col r0 (index (thread (Exchange_Boundaries sys) k))
     + ghost_cell r0 d b io i ig)
  = v (thread (Exchange_Boundaries sys)
              (Z.to_nat (block (thread (Exchange_Boundaries sys) k) d b)))
      (col r0 (index (thread (Exchange_Boundaries sys)
                 (Z.to_nat (block (thread (Exchange_Boundaries sys) k) d b))))
       + face_cell r0 d (1 - b) io i ig).
Proof.
  intros U EX Hk Hd Hb Hio Hi Hig.
  destruct (Exchange_Boundaries_fields sys k Hk) as (_ & _ & _ & Ei & Eb).
  rewrite Eb, Ei.
  destruct (U k Hk) as [Er Bk].
  set (L := Z.to_nat (block (thread sys k) d b)).
  assert (HL : (L < length (fst sys))%nat)
    by (unfold L; specialize (Bk d b); lia).
  destruct (Exchange_Boundaries_fields sys L HL) as (_ & _ & _ & EiL & _).
  rewrite EiL. rewrite Exchange_Boundaries_unfold.
  pose proof (uniform_exchange_axis 0 r0 sys U) as U1.
  assert (Hk1 : (k < length (fst (exchange_axis 0 sys)))%nat)
    by (rewrite exchange_axis_length; exact Hk).
  assert (HL1 : (L < length (fst (exchange_axis 0 sys)))%nat)
    by (rewrite exchange_axis_length; exact HL).
  destruct (exchange_axis_fields 0 sys k Hk) as (_ & _ & _ & Ei0 & Eb0).
  destruct (exchange_axis_fields 0 sys L HL) as (_ & _ & _ & EiL0 & _).
  assert (Hb' : 1 - b = 0 \/ 1 - b = 1) by lia.
  destruct (face_cell_coords r0 EX d (1 - b) io i ig)
    as (xf & yf & Ef & Hxf & Hyf & Bf); try lia.
  destruct (ghost_cell_coords r0 EX d b io i ig)
    as (xg & yg & Eg & Hxg & Hyg & Gg & _); try lia.
  destruct Hd as [Hd|Hd]; subst d.
  - (* axis 0: the ghost columns are filled first and kept by axis 1 *)
    change (0 =? 0) with true in *. cbv iota in *.
    transitivity (v (thread sys L)
                    (col r0 (index (thread sys L))
                     + face_cell r0 0 (1 - b) io i ig)).
    + rewrite Eg, <- Ei0.
      rewrite (exchange_axis_keep_bulk 1 r0 _ k xg yg io U1 EX Hk1)
        by (try assumption; try lia; apply Gg).
      rewrite Ei0, <- Eg.
      apply (exchange_axis_ghost 0 r0 sys k b io i ig ltac:(lia));
        assumption.
    + symmetry. rewrite Ef, <- EiL0.
      rewrite (exchange_axis_keep_bulk 1 r0 _ L xf yf io U1 EX HL1)
        by (try assumption; try lia; apply Bf).
      rewrite EiL0.
      apply (exchange_axis_keep_bulk 0 r0 sys L xf yf io U EX HL);
        try assumption; try lia. apply Bf.
  - (* axis 1: the ghost rows receive rows of the neighbour as axis 0
       left them, and axis 1 keeps these rows *)
    change (1 =? 0) with false in *. cbv iota in *.
    transitivity (v (thread (exchange_axis 0 sys) L)
                    (col r0 (index (thread (exchange_axis 0 sys) L))
                     + face_cell r0 1 (1 - b) io i ig)).
    + rewrite <- Ei0.
      pose proof (exchange_axis_ghost 1 r0 (exchange_axis 0 sys) k b io i ig
                    ltac:(lia) U1 EX Hk1 Hb Hio Hi Hig) as Q.
      rewrite Eb0 in Q. exact Q.
    + symmetry. rewrite EiL0, Ef, <- EiL0.
      apply (exchange_axis_keep_bulk 1 r0 _ L xf yf io U1 EX HL1);
        try assumption; try lia.
Qed.


(** The bulk cells of the current column keep what they held. *)
Lemma Exchange_Boundaries_keep_bulk (r0 : LatticeStructure T) (sys : System T)
      (k : nat) (x y io : Z) :
  uniform_system r0 sys -> exchange_ok r0 -> (k < length (fst sys))%nat ->
  NGHOSTS <= x < Ld0 r0 - NGHOSTS -> NGHOSTS <= y < Ld1 r0 - NGHOSTS ->
  0 <= io ->
  v (thread (Exchange_Boundaries sys) k)
    (col r0 (index (thread sys k)) + set_index r0 x y io)
  = v (thread sys k) (col r0 (index (thread sys k)) + set_index r0 x y io).
Proof.
  intros U EX Hk Hx Hy Hio.
  pose proof (uniform_exchange_axis 0 r0 sys U) as U1.
  assert (Hk1 : (k < length (fst (exchange_axis 0 sys)))%nat)
    by (rewrite exchange_axis_length; exact Hk).
  destruct (exchange_axis_fields 0 sys k Hk) as (_ & _ & _ & Ei0 & _).
  rewrite Exchange_Boundaries_unfold, <- Ei0.
  rewrite (exchange_axis_keep_bulk 1 r0 _ k x y io U1 EX Hk1)
    by (try (change (1 =? 0) with false; cbv iota);
        unfold NGHOSTS in *; lia).
  rewrite Ei0.
  apply (exchange_axis_keep_bulk 0 r0 sys k x y io U EX Hk);
    try (change (0 =? 0) with true; cbv iota); unfold NGHOSTS in *; lia.
Qed.

End HaloFacts.

(** * Properties of the running mean *)

Section RunningMeanFacts.
Context {T : Type} `{ScalarField T}.
Local Open Scope scalar_scope.

Add Field scalar_field_mean : scalar_field.

Lemma of_nat_succ_r (n : nat) : of_nat (n + 1) = of_nat n + s1.
Proof. rewrite Nat.add_1_r. reflexivity. Qed.

Lemma of_nat_add (n m : nat) : of_nat (n + m) = of_nat n + of_nat m.
Proof.
  induction m as [|m IH].
  - rewrite Nat.add_0_r. simpl. ring.
  - rewrite Nat.add_succ_r. simpl. rewrite IH. ring.
Qed.

Lemma ssum_app (xs ys : list T) : ssum (xs ++ ys) = ssum xs + ssum ys.
Proof.
  induction xs as [|x xs IH]; simpl.
  - ring.
  - rewrite IH. ring.
Qed.

(** One update keeps "count times mean equals sum". *)
Lemma welford_update_sum (average : nat) (mu x : T) :
  of_nat (S average) * welford_update average mu x = of_nat average * mu + x.
Proof.
  unfold welford_update. rewrite of_nat_succ_r.
  assert (N : of_nat average + s1 <> s0) by exact (char0 average).
  simpl. field. exact N.
Qed.

Lemma accumulate_count (xs : list T) :
  forall average mu, fst (accumulate average mu xs) = (average + length xs)%nat.
Proof.
  induction xs as [|x xs IH]; intros average mu; simpl.
  - lia.
  - rewrite IH. lia.
Qed.

Lemma accumulate_sum (xs : list T) :
  forall average mu,
    of_nat (average + length xs) * snd (accumulate average mu xs)
    = of_nat average * mu + ssum xs.
Proof.
  induction xs as [|x xs IH]; intros average mu; simpl.
  - rewrite Nat.add_0_r. ring.
  - rewrite Nat.add_succ_r, <- Nat.add_succ_l, IH, welford_update_sum. ring.
Qed.

Lemma running_mean_sum (xs : list T) :
  of_nat (length xs) * running_mean xs = ssum xs.
Proof.
  unfold running_mean.
  pose proof (accumulate_sum xs 0 s0) as E. simpl in E.
  rewrite E. ring.
Qed.

Lemma sdiv_of_mul (n : nat) (a b : T) :
  of_nat (S n) * a = b -> a = b / of_nat (S n).
Proof.
  intros E. rewrite <- E.
  pose proof (char0 n) as N. field. exact N.
Qed.

(** C7.  The update [mu <- mu + (x - mu)/(A+1)], with [A] counting the
    samples already folded in, computes the arithmetic mean of the samples;
    hence the mean over a run of [R + R'] samples is the combination, with
    weights [R] and [R'], of the means of the two runs taken separately. *)
Theorem running_mean_is_arithmetic_mean (x y : T) (xs ys : list T) :
  running_mean (x :: xs) = ssum (x :: xs) / of_nat (length (x :: xs))
  /\ running_mean ((x :: xs) ++ (y :: ys))
     = (of_nat (length (x :: xs)) * running_mean (x :: xs)
        + of_nat (length (y :: ys)) * running_mean (y :: ys))
       / of_nat (length (x :: xs) + length (y :: ys)).
Proof.
  split.
  - apply sdiv_of_mul. apply (running_mean_sum (x :: xs)).
  - change (length (x :: xs) + length (y :: ys))%nat
      with (S (length xs + length (y :: ys))).
    apply sdiv_of_mul.
    change (S (length xs + length (y :: ys)))
      with (length (x :: xs) + length (y :: ys))%nat.
    rewrite <- length_app, !running_mean_sum. apply ssum_app.
Qed.

End RunningMeanFacts.

(** * Properties of [process_string] *)

Module DirectionFacts.
Import Direction.
Local Open Scope Z_scope.

Lemma find_from_range (c : ascii) (s : string) :
  forall pos, 0 <= pos ->
    find_from c s pos = -1
    \/ (pos <= find_from c s pos < pos + Z.of_nat (String.length s)).
Proof.
  induction s as [|a r IH]; intros pos Hpos; simpl.
  - left; reflexivity.
  - destruct (Ascii.eqb a c).
    + right. lia.
    + destruct (IH (pos + 1)) as [L|L]; [lia|left; exact L|right; lia].
Qed.

Lemma find_from_shift (c : ascii) (s : string) :
  forall pos,
    find_from c s pos
    = if find_from c s 0 =? -1 then -1 else pos + find_from c s 0.
Proof.
  induction s as [|a r IH]; intros pos; simpl.
  - reflexivity.
  - destruct (Ascii.eqb a c).
    + simpl. lia.
    + rewrite (IH (pos + 1)), (IH 1).
      destruct (find_from_range c r 0 (Z.le_refl 0)) as [L|L].
      * rewrite L. reflexivity.
      * replace (find_from c r 0 =? -1) with false
          by (symmetry; apply Z.eqb_neq; lia).
        replace (1 + find_from c r 0 =? -1) with false
          by (symmetry; apply Z.eqb_neq; lia).
        lia.
Qed.

Lemma find_cons_other (c a : ascii) (r : string) :
  Ascii.eqb a c = false ->
  find c (String a r) = if find c r =? -1 then -1 else 1 + find c r.
Proof.
  intros E. unfold find. simpl. rewrite E. apply find_from_shift.
Qed.

Lemma find_cons_same (c a : ascii) (r : string) :
  Ascii.eqb a c = true -> find c (String a r) = 0.
Proof. intros E. unfold find. simpl. rewrite E. reflexivity. Qed.

Lemma substring_whole (s : string) :
  substring 0 (String.length s) s = s.
Proof. induction s as [|a r IH]; simpl; [reflexivity|now rewrite IH]. Qed.

Lemma substring_zero_any (s : string) : substring 0 0 s = EmptyString.
Proof. destruct s; reflexivity. Qed.

Lemma split_commas_nonempty (s : string) : split_commas s <> [].
Proof.
  induction s as [|a r IH]; simpl; [discriminate|].
  destruct (Ascii.eqb a ","); [discriminate|].
  destruct (split_commas r); discriminate.
Qed.

Lemma size_cons (a : ascii) (r : string) : size (String a r) = size r + 1.
Proof. unfold size. simpl String.length. lia. Qed.

Lemma size_nonneg (s : string) : 0 <= size s.
Proof. unfold size. lia. Qed.

Lemma substr_all (s : string) : substr s 0 (size s) = s.
Proof.
  unfold substr, size.
  replace (Z.of_nat (String.length s) <? 0) with false
    by (symmetry; apply Z.ltb_ge; lia).
  rewrite Nat2Z.id. apply substring_whole.
Qed.

Lemma substr_npos (s : string) : substr s 0 (-1) = s.
Proof. unfold substr. simpl. apply substring_whole. Qed.

Lemma substr_0_0 (s : string) : substr s 0 0 = EmptyString.
Proof. unfold substr. simpl. apply substring_zero_any. Qed.

Lemma substr_head (a : ascii) (r : string) (k : Z) :
  0 <= k -> substr (String a r) 0 (k + 1) = String a (substr r 0 k).
Proof.
  intros Hk. unfold substr.
  replace (k + 1 <? 0) with false by (symmetry; apply Z.ltb_ge; lia).
  replace (k <? 0) with false by (symmetry; apply Z.ltb_ge; lia).
  replace (Z.to_nat (k + 1)) with (S (Z.to_nat k)) by lia.
  reflexivity.
Qed.

Lemma substr_tail (a : ascii) (r : string) (k n : Z) :
  0 <= k -> 0 <= n -> substr (String a r) (k + 1) n = substr r k n.
Proof.
  intros Hk Hn. unfold substr.
  replace (n <? 0) with false by (symmetry; apply Z.ltb_ge; lia).
  replace (Z.to_nat (k + 1)) with (S (Z.to_nat k)) by lia.
  destruct (Z.to_nat n); reflexivity.
Qed.

Lemma split_commas_cons_comma (a : ascii) (r : string) :
  Ascii.eqb a "," = true ->
  split_commas (String a r) = EmptyString :: split_commas r.
Proof. intros E. simpl. rewrite E. reflexivity. Qed.

Lemma split_commas_cons_other (a : ascii) (r h : string) (t : list string) :
  Ascii.eqb a "," = false ->
  split_commas r = h :: t ->
  split_commas (String a r) = String a h :: t.
Proof. intros E S1. simpl. rewrite E, S1. reflexivity. Qed.

(** One iteration of the loop, seen from the specification's splitting. *)
Lemma split_step (s : string) :
  (find "," s = -1 ->
     substr s 0 (-1) = s /\ split_commas s = [s])
  /\ (find "," s <> -1 ->
        0 <= find "," s < size s
        /\ split_commas s
           = substr s 0 (find "," s)
             :: split_commas (substr s (find "," s + 1)
                                     (size s - find "," s - 1))
        /\ (String.length (substr s (find "," s + 1)
                                  (size s - find "," s - 1))
            < String.length s)%nat).
Proof.
  induction s as [|a r [IHn IHf]].
  - split.
    + intros _. split; reflexivity.
    + intros N. exfalso. apply N. reflexivity.
  - pose proof (size_nonneg r) as SR.
    destruct (Ascii.eqb a ",") eqn:E.
    + split.
      * rewrite (find_cons_same _ _ r E). discriminate.
      * intros _. rewrite (find_cons_same _ _ r E), size_cons.
        replace (size r + 1 - 0 - 1) with (size r) by lia.
        rewrite (substr_tail a r 0 (size r)) by lia.
        rewrite substr_all, substr_0_0, (split_commas_cons_comma a r E).
        split; [lia|]. split; [reflexivity|]. simpl. lia.
    + rewrite (find_cons_other _ _ r E).
      destruct (find "," r =? -1) eqn:F.
      * apply Z.eqb_eq in F. destruct (IHn F) as [W S1].
        split.
        -- intros _. split.
           ++ apply substr_npos.
           ++ apply (split_commas_cons_other a r _ _ E S1).
        -- intros N. exfalso. apply N. reflexivity.
      * apply Z.eqb_neq in F. destruct (IHf F) as [B [S1 L]].
        split.
        -- intros N. exfalso. lia.
        -- intros _. rewrite size_cons.
           replace (1 + find "," r) with (find "," r + 1) by lia.
           replace (size r + 1 - (find "," r + 1) - 1)
             with (size r - find "," r - 1) by lia.
           rewrite (substr_head a r) by lia.
           rewrite (substr_tail a r) by lia.
           split; [lia|]. split.
           ++ apply (split_commas_cons_other a r _ _ E S1).
           ++ simpl String.length. lia.
Qed.

(** The loop ends, and yields the comma-separated factors. *)
Lemma split_loop_total (fuel : nat) :
  forall s strings,
    (String.length s < fuel)%nat ->
    split_loop fuel s strings = Some (strings ++ split_commas s).
Proof.
  induction fuel as [|fuel IH]; intros s strings Hlen; [lia|].
  simpl. destruct (split_step s) as [Hn Hf].
  destruct (find "," s =? -1) eqn:F.
  - apply Z.eqb_eq in F. destruct (Hn F) as [W S1].
    rewrite F, W, S1. reflexivity.
  - apply Z.eqb_neq in F. destruct (Hf F) as [B [S1 L]].
    rewrite IH by lia. rewrite S1, <- app_assoc. reflexivity.
Qed.

Lemma factor_digits_legal (s : string) :
  forall temp,
    factor_digits s temp
    = if forallb legal_factor (list_ascii_of_string s)
      then Returns (temp ++ map axis_xy (list_ascii_of_string s))
      else Exits 0.
Proof.
  induction s as [|a r IH]; intros temp; simpl.
  - now rewrite app_nil_r.
  - unfold legal_factor at 1, axis_xy at 1.
    destruct (Ascii.eqb a "x") eqn:X; simpl.
    + rewrite IH. destruct (forallb _ _); [|reflexivity].
      now rewrite <- app_assoc.
    + destruct (Ascii.eqb a "y") eqn:Y; simpl.
      * rewrite IH. destruct (forallb _ _); [|reflexivity].
        now rewrite <- app_assoc.
      * reflexivity.
Qed.

(** The string is legal exactly when all its factors consist of [x] and
    [y] only. *)
Lemma split_commas_legal (s : string) :
  forallb legal_xy (list_ascii_of_string s)
  = forallb (fun f => forallb legal_factor (list_ascii_of_string f))
            (split_commas s).
Proof.
  induction s as [|a r IH]; simpl.
  - reflexivity.
  - destruct (Ascii.eqb a ",") eqn:E.
    + simpl. unfold legal_xy at 1. rewrite E.
      rewrite !orb_true_r. simpl. exact IH.
    + pose proof (split_commas_nonempty r) as NE.
      destruct (split_commas r) as [|h t]; [contradiction|].
      simpl in *. rewrite IH.
      unfold legal_xy at 1, legal_factor at 2. rewrite E, orb_false_r.
      now rewrite andb_assoc.
Qed.

Lemma all_factors_legal (strings : list string) :
  forall indices,
    all_factors strings indices
    = if forallb (fun f => forallb legal_factor (list_ascii_of_string f))
                 strings
      then Returns
             (indices
              ++ map (fun f => map axis_xy (list_ascii_of_string f)) strings)
      else Exits 0.
Proof.
  induction strings as [|s rest IH]; intros indices; simpl.
  - now rewrite app_nil_r.
  - rewrite factor_digits_legal.
    destruct (forallb legal_factor (list_ascii_of_string s)); simpl.
    + rewrite IH. destruct (forallb _ rest); [|reflexivity].
      now rewrite <- app_assoc.
    + reflexivity.
Qed.

(** C8 (as amended).  [process_string] always finishes; it splits the
    string into its comma-separated factors and maps each factor to its
    axis indices with ['x' -> 0] and ['y' -> 1], the empty factor giving the
    empty list; the legal characters are [x], [y] and the comma, and on any
    string with another character, ['z'] included, it calls [exit(0)]. *)
Theorem process_string_xy (s : string) :
  process_string s
  = Some (if forallb legal_xy (list_ascii_of_string s)
          then Returns (map (fun f => map axis_xy (list_ascii_of_string f))
                            (split_commas s))
          else Exits 0).
Proof.
  unfold process_string.
  rewrite split_loop_total by lia. simpl.
  rewrite all_factors_legal, <- split_commas_legal. reflexivity.
Qed.

(** C8 as stated fails on the direction ["z"]: the specification maps it
    to the factor list [[2]], the code leaves through [exit(0)]. *)
Lemma process_string_z_exits :
  process_string "z" = Some (Exits 0)
  /\ spec_process_string "z" = Returns [[2]]
  /\ ~ (forall s, option_map result_of (process_string s)
                  = Some (result_of (spec_process_string s))).
Proof.
  split; [reflexivity|]. split; [reflexivity|].
  intros A. specialize (A "z"%string). discriminate A.
Qed.

End DirectionFacts.

(** * Properties of [main] *)

Module MainFacts.
Import Main.
Local Open Scope Z_scope.

(** C9.  The exit statuses of [main] at three inputs: a run that completes
    (complex double, two dimensions) ends with status 1; a dimension of 4
    ends with status 0; a magnetic field with real amplitudes ends with
    status 1.  The first two contradict the stated convention (0 on normal
    completion, non-zero on every configuration error). *)
Theorem main_exit_status :
  main {| is_complex := 1; precision := 1; dim := 2; MagneticField := 0 |}
       (fun _ => Returns tt) = 1
  /\ main {| is_complex := 1; precision := 1; dim := 4; MagneticField := 0 |}
          (fun _ => Returns tt) = 0
  /\ main {| is_complex := 0; precision := 1; dim := 2; MagneticField := 1 |}
          (fun _ => Returns tt) = 1.
Proof. repeat split. Qed.

(** Every unsupported dimension or precision without the magnetic-field
    error ends with status 0, and every completed run with status 1. *)
Lemma main_dim_precision_exit_0 (c : config) (simulation : Z -> outcome unit) :
  configuration_error c = true ->
  (MagneticField c =? 1) && (is_complex c =? 0) = false ->
  main c simulation = 0.
Proof.
  unfold configuration_error, main. intros E M. rewrite M in *.
  rewrite orb_false_r in E.
  destruct (dim c <? 1); [reflexivity|].
  destruct (dim c >? 3); [reflexivity|].
  simpl in *. rewrite E. reflexivity.
Qed.

Lemma main_completed_exit_1 (c : config) (simulation : Z -> outcome unit) :
  (forall i, simulation i = Returns tt) ->
  main c simulation = 0 \/ main c simulation = 1.
Proof.
  unfold main. intros R.
  repeat match goal with
         | |- context [if ?b then _ else _] => destruct b
         end; try rewrite R; auto.
Qed.

End MainFacts.

(** * Properties of the symmetrisations *)

Section GammaFacts.
Context {T : Type} `{ScalarField T}.
Local Open Scope Z_scope.

Add Field scalar_field_gamma : scalar_field.

Lemma myconj_zero : myconj s0 = s0.
Proof.
  assert (E : (myconj s0 [+] myconj s0 = myconj s0)).
  { rewrite <- myconj_add. f_equal. ring. }
  transitivity ((myconj s0 [+] myconj s0) [-] myconj s0); [ring|].
  rewrite E. ring.
Qed.

Lemma myconj_opp (a : T) : myconj ([-] a) = ([-] myconj a).
Proof.
  assert (E : (myconj ([-] a) [+] myconj a = s0)).
  { rewrite <- myconj_add, <- myconj_zero. f_equal. ring. }
  transitivity ((myconj ([-] a) [+] myconj a) [-] myconj a); [ring|].
  rewrite E. ring.
Qed.

Lemma myconj_of_nat (n : nat) : myconj (of_nat n) = of_nat n.
Proof.
  induction n as [|n IH]; simpl.
  - apply myconj_zero.
  - now rewrite myconj_add, IH, myconj_one.
Qed.

Lemma myconj_of_Z (z : Z) : myconj (of_Z z) = of_Z z.
Proof.
  destruct z; simpl.
  - apply myconj_zero.
  - apply myconj_of_nat.
  - now rewrite myconj_opp, myconj_of_nat.
Qed.

Lemma myconj_div_nat (a : T) (n : nat) :
  myconj (a [/] of_nat (S n)) = (myconj a [/] of_nat (S n)).
Proof.
  pose proof (char0 n) as N.
  assert (E : (myconj (a [/] of_nat (S n)) [*] of_nat (S n) = myconj a)).
  { rewrite <- (myconj_of_nat (S n)) at 2. rewrite <- myconj_mul. f_equal.
    field. exact N. }
  rewrite <- E. field. exact N.
Qed.

Lemma num_velocities_acc (indices : list (list Z)) :
  forall acc, 0 <= acc ->
    0 <= for_each indices (fun ind acc => acc + Z.of_nat (length ind)) acc.
Proof.
  induction indices as [|i l IH]; intros acc Hacc; [exact Hacc|].
  rewrite for_each_cons. apply IH. lia.
Qed.

Lemma factor_of_cases (indices : list (list Z)) :
  factor_of indices = 1 \/ factor_of indices = -1.
Proof.
  unfold factor_of, num_velocities.
  pose proof (num_velocities_acc indices 0 (Z.le_refl 0)) as P.
  pose proof (Z.rem_bound_pos _ 2 P) as B.
  lia.
Qed.

Lemma of_Z_factor_square (indices : list (list Z)) :
  (of_Z (factor_of indices) [*] of_Z (factor_of indices) = s1).
Proof.
  destruct (factor_of_cases indices) as [E|E]; rewrite E; simpl; ring.
Qed.

Lemma two_nonzero : two <> s0.
Proof. exact (char0 1). Qed.

Lemma six_nonzero : six <> s0.
Proof. exact (char0 5). Qed.

(** The algebra of the deposit, for a sign [f] (a self-conjugate square
    root of one). *)
Lemma deposit_algebra (f a b : T) :
  (f [*] f = s1) -> myconj f = f ->
  (s0 [+] (a [*] f [+] f [*] myconj (b [*] f)) [/] two
   = f [*] ((a [+] f [*] myconj b) [/] two))
  /\ (s0 [+] (a [*] f [+] f [*] myconj (b [*] f)) [/] two
      = (f [*] a [+] myconj b) [/] two)
  /\ (s0 [+] (a [*] f [+] f [*] myconj (b [*] f)) [/] two
      = f [*] myconj (s0 [+] (b [*] f [+] f [*] myconj (a [*] f)) [/] two)).
Proof.
  intros SQ Cf. pose proof two_nonzero as N2.
  assert (F3 : forall x, (f [*] (f [*] x) = x)).
  { intros x. transitivity ((f [*] f) [*] x); [ring|]. rewrite SQ. ring. }
  assert (E : (s0 [+] (a [*] f [+] f [*] myconj (b [*] f)) [/] two
               = (f [*] a [+] myconj b) [/] two)).
  { rewrite myconj_mul, Cf.
    transitivity ((a [*] f [+] f [*] (f [*] myconj b)) [/] two);
      [field; exact N2|].
    rewrite F3. field. exact N2. }
  split; [|split].
  - rewrite E.
    transitivity ((f [*] a [+] f [*] (f [*] myconj b)) [/] two);
      [rewrite F3; reflexivity|field; exact N2].
  - exact E.
  - rewrite E. unfold two.
    rewrite myconj_add, myconj_div_nat, !myconj_add, !myconj_mul,
      !myconj_invol, !Cf, myconj_zero.
    fold two.
    transitivity ((f [*] (f [*] (f [*] a)) [+] f [*] (f [*] myconj b)) [/] two);
      [rewrite !F3; reflexivity|field; exact N2].
Qed.

(** C5 (as amended).  For an accumulated running mean [mu] of a square
    2D moment matrix, what Gamma2D deposits into the global array is
    [factor * (mu + factor * mu^dagger)/2], that is
    [(factor * mu + mu^dagger)/2]: Gamma2D multiplies the array by [factor]
    before [store_gamma] symmetrises it.  The deposited matrix [M] satisfies
    [M_nm = factor * conj(M_mn)]. *)
Theorem Gamma2D_finish_deposit (mu : mem T) (N : Z) (i0 i1 : list Z) :
  exists M : Z -> Z -> T,
    Gamma2D_finish mu N N [i0; i1] = Returns M
    /\ (forall n m,
          M n m = (of_Z (factor_of [i0; i1])
                   [*] spec_symmetrize2D (factor_of [i0; i1])
                                       (fun r c => mu (entry N r c)) n m))
    /\ (forall n m,
          M n m = ((of_Z (factor_of [i0; i1]) [*] mu (entry N n m)
                    [+] myconj (mu (entry N m n))) [/] two))
    /\ (forall n m,
          M n m = (of_Z (factor_of [i0; i1]) [*] myconj (M m n))).
Proof.
  pose proof (of_Z_factor_square [i0; i1]) as SQ.
  pose proof (myconj_of_Z (factor_of [i0; i1])) as Cf.
  eexists. split; [reflexivity|].
  split; [|split]; intros n m;
    destruct (deposit_algebra _ (mu (entry N n m)) (mu (entry N m n)) SQ Cf)
      as [E1 [E2 E3]].
  - exact E1.
  - exact E2.
  - exact E3.
Qed.

(** ** store_gamma3D *)

Lemma vec_eqb_refl (a : list Z) : vec_eqb a a = true.
Proof. unfold vec_eqb. destruct (list_eq_dec Z.eq_dec a a); congruence. Qed.

Lemma vec_eqb_neq (a b : list Z) : a <> b -> vec_eqb a b = false.
Proof. unfold vec_eqb. destruct (list_eq_dec Z.eq_dec a b); congruence. Qed.

Lemma entry_inj (rows r c r' c' : Z) :
  0 <= r < rows -> 0 <= r' < rows ->
  entry rows r c = entry rows r' c' -> r = r' /\ c = c'.
Proof.
  unfold entry. intros Hr Hr' E.
  assert (C : c = c') by nia.
  subst c'. lia.
Qed.

Lemma key3_inj (N0 N1 n m p n' m' p' : Z) :
  0 <= n < N0 -> 0 <= n' < N0 -> 0 <= m < N1 -> 0 <= m' < N1 ->
  entry (N0 * N1) (n + N0 * m) p = entry (N0 * N1) (n' + N0 * m') p' ->
  n = n' /\ m = m' /\ p = p'.
Proof.
  intros Hn Hn' Hm Hm' E.
  apply entry_inj in E; [|nia|nia].
  destruct E as [E Ep]. fold (entry N0 n m) in E. fold (entry N0 n' m') in E.
  apply entry_inj in E; [|lia|lia]. tauto.
Qed.

(** The three nested loops, when every statement of iteration [(n, m, p)]
    is on the element [(n + N0*m, p)]. *)
Lemma for_nmp_at (N0 N1 N2 : Z) (body : Z -> Z -> Z -> mem T -> mem T)
      (tr : Z -> Z -> Z -> list (cell_op T)) (s : mem T) (n0 m0 p0 : Z) :
  (forall n m p t, body n m p t = exec_ops (tr n m p) t) ->
  (forall n m p o, In o (tr n m p) ->
                   fst o = entry (N0 * N1) (n + N0 * m) p) ->
  0 <= n0 < N0 -> 0 <= m0 < N1 -> 0 <= p0 < N2 ->
  for_nmp N0 N1 N2 body s (entry (N0 * N1) (n0 + N0 * m0) p0)
  = local_effect (entry (N0 * N1) (n0 + N0 * m0) p0) (tr n0 m0 p0)
                 (s (entry (N0 * N1) (n0 + N0 * m0) p0)).
Proof.
  intros Hbody Hkey Hn Hm Hp. unfold for_nmp.
  set (a := entry (N0 * N1) (n0 + N0 * m0) p0).
  rewrite (for_each_trace (Zrange 0 N0) _
             (fun n => flat_map (fun m => flat_map (fun p => tr n m p)
                                                   (Zrange 0 N2))
                                (Zrange 0 N1))).
  2:{ intros n t _.
      apply (for_each_trace (Zrange 0 N1) _
               (fun m => flat_map (fun p => tr n m p) (Zrange 0 N2))).
      intros m u _.
      apply (for_each_trace (Zrange 0 N2) _ (fun p => tr n m p)).
      intros p w _. apply Hbody. }
  rewrite exec_ops_at.
  assert (Off : forall n m p, In n (Zrange 0 N0) -> In m (Zrange 0 N1) ->
                  (n, m, p) <> (n0, m0, p0) ->
                  forall x, local_effect a (tr n m p) x = x).
  { intros n m p In_n In_m D x. apply local_effect_untouched.
    intros o Ho E. rewrite (Hkey _ _ _ _ Ho) in E.
    apply In_Zrange in In_n, In_m.
    apply key3_inj in E; [|lia|lia|lia|lia].
    apply D. destruct E as [-> [-> ->]]. reflexivity. }
  rewrite (local_effect_flat_map_single a (Zrange 0 N0) _ n0
             (NoDup_Zrange 0 N0)).
  - rewrite (local_effect_flat_map_single a (Zrange 0 N1) _ m0
               (NoDup_Zrange 0 N1)).
    + rewrite (local_effect_flat_map_single a (Zrange 0 N2) _ p0
                 (NoDup_Zrange 0 N2)).
      * reflexivity.
      * apply In_Zrange. lia.
      * intros p _ D x. apply Off; try (apply In_Zrange; lia). congruence.
    + apply In_Zrange. lia.
    + intros m In_m D x. apply local_effect_flat_map_untouched.
      intros p _ y. apply Off; [apply In_Zrange; lia|exact In_m|congruence].
  - apply In_Zrange. lia.
  - intros n In_n D x. apply local_effect_flat_map_untouched.
    intros m In_m y. apply local_effect_flat_map_untouched.
    intros p _ z. apply Off; [exact In_n|exact In_m|congruence].
Qed.

Lemma store_gamma3D_equal_axes (gamma : mem T) (N0 N1 N2 : Z) (ax : list Z) :
  exists storage : mem T,
    store_gamma3D gamma N0 N1 N2 [ax; ax; ax] = Returns storage
    /\ forall n m p,
         0 <= n < N0 -> 0 <= m < N1 -> 0 <= p < N2 ->
         storage (n + N0 * m + N0 * N1 * p)
         = ((G3 gamma N0 N1 n m p [+] G3 gamma N0 N1 m p n
             [+] G3 gamma N0 N1 p n m) [/] six
            [+] of_Z (factor_of [ax; ax; ax])
              [*] (myconj (G3 gamma N0 N1 p m n) [+] myconj (G3 gamma N0 N1 n p m)
                 [+] myconj (G3 gamma N0 N1 m n p)) [/] six).
Proof.
  pose proof six_nonzero as N6.
  eexists. split.
  - unfold store_gamma3D. cbn [length nth].
    rewrite !vec_eqb_refl. cbn [andb negb]. reflexivity.
  - intros n m p Hn Hm Hp.
    change (n + N0 * m + N0 * N1 * p) with (entry (N0 * N1) (n + N0 * m) p).
    rewrite (for_nmp_at N0 N1 N2 _
               (equal_axes_trace gamma N0 N1 (factor_of [ax; ax; ax]))
               (fun _ => s0) n m p); try assumption.
    + unfold equal_axes_trace, local_effect. cbn [for_each fold_left fst snd].
      rewrite !Z.eqb_refl. unfold G3, entry. field. exact N6.
    + intros; reflexivity.
    + intros n' m' p' o Ho. unfold equal_axes_trace in Ho.
      cbn [In] in Ho.
      repeat (destruct Ho as [<-|Ho]; [reflexivity|]). contradiction.
Qed.


End GammaFacts.

(** * The symmetrisations on concrete arrays *)

Section GammaExamples.
Local Open Scope Z_scope.

(** C5 as stated fails.  One velocity in all ([factor = -1]), a 2x2
    running mean with the single non-zero element [mu_01 = 1]: Gamma2D
    deposits [-1/2] at [(0,1)], the stated symmetrisation
    [(mu + factor * mu^dagger)/2] has [1/2] there. *)
Lemma Gamma2D_finish_not_spec_symmetrization :
  exists M : Z -> Z -> R,
    Gamma2D_finish (fun a => if a =? 2 then 1%R else 0%R) 2 2 [[0]; []]
    = Returns M
    /\ M 0 1 = (- 1 / 2)%R
    /\ spec_symmetrize2D (factor_of [[0]; []])
         (fun r c => if entry 2 r c =? 2 then 1%R else 0%R) 0 1 = (1 / 2)%R
    /\ M 0 1 <> spec_symmetrize2D (factor_of [[0]; []])
                  (fun r c => if entry 2 r c =? 2 then 1%R else 0%R) 0 1.
Proof.
  eexists. split; [reflexivity|].
  assert (A : forall x y : R, x = (- 1 / 2)%R -> y = (1 / 2)%R ->
                x = (- 1 / 2)%R /\ y = (1 / 2)%R /\ x <> y).
  { intros x y -> ->. split; [reflexivity|]. split; [reflexivity|lra]. }
  apply A.
  - cbv [scale_array adjoint two of_nat of_Z factor_of num_velocities
         for_each fold_left entry length Z.of_nat Pos.to_nat
         Pos.iter_op Init.Nat.add Pos.of_succ_nat Pos.succ
         sadd smul sdiv sopp s0 s1 myconj R_Scalar R_ScalarField].
    simpl. lra.
  - cbv [spec_symmetrize2D adjoint two of_nat of_Z factor_of num_velocities
         for_each fold_left entry length Z.of_nat Pos.to_nat
         Pos.iter_op Init.Nat.add Pos.of_succ_nat Pos.succ
         sadd smul sdiv sopp s0 s1 myconj R_Scalar R_ScalarField].
    simpl. lra.
Qed.


End GammaExamples.

(** * The contract of [Exchange_Boundaries] *)

Section ExchangeContract.
Context {T : Type} `{Scalar T}.
Local Open Scope Z_scope.


End ExchangeContract.

(** * [Multiply]: the recursion, the vacancies, the frame, the two paths *)

Section MultiplyTheorems.
Context {T : Type} `{Scalar T}.
Local Open Scope Z_scope.

Add Ring scalar_ring_theorems : scalar_ring.

Lemma new_slot_offset (STRIDE MULT : Z) (sys : System T) (k : nat) :
  (k < length (fst sys))%nat ->
  col (r (thread sys k)) (index (thread (Multiply STRIDE MULT sys) k))
  = phi0_of (thread sys k).
Proof.
  intros Hk.
  destruct (Multiply_fields STRIDE MULT sys k Hk) as (_ & _ & _ & Ei).
  rewrite Ei. reflexivity.
Qed.

Lemma new_slot_offset2 (MULT : Z) (sys : System T) (k : nat) :
  (k < length (fst sys))%nat ->
  col (r (thread sys k)) (index (thread (Multiply2 MULT sys) k))
  = phi0_of (thread sys k).
Proof.
  intros Hk.
  destruct (Multiply2_fields MULT sys k Hk) as (_ & _ & _ & Ei).
  rewrite Ei. reflexivity.
Qed.


(** C3 (as amended): the on-site terms, the regular hoppings and the
    patterns anchored in the tiles are applied before the vacancies are
    zeroed, the terms of the broken patterns after: on a domain of at most
    two orbitals whose tile flags and lists of vacancies are consistent with
    the patterns, a bulk vacancy that no list of a broken pattern names holds
    zero in the new slot, whatever the other terms add to it. *)
Theorem Multiply_vacancy_site (STRIDE MULT : Z) (sys : System T) (k : nat)
        (i : Z) :
  (k < length (fst sys))%nat ->
  lattice_ok STRIDE (r (thread sys k)) ->
  index_tables_fit (r (thread sys k)) ->
  tables_in_slot STRIDE (r (thread sys k)) (h (thread sys k)) ->
  tiles_consistent STRIDE (r (thread sys k)) (h (thread sys k)) ->
  ring_ok (thread sys k) ->
  bulk (r (thread sys k)) i ->
  is_vacancy STRIDE (r (thread sys k)) (h (thread sys k)) i = true ->
  (forall e, In e (border_terms (r (thread sys k)) (h (thread sys k))) ->
             row e <> i) ->
  v (thread (Multiply STRIDE MULT sys) k)
    (col (r (thread sys k)) (index (thread (Multiply STRIDE MULT sys) k)) + i)
  = s0.
Proof.
  intros Hk OK Fit TS TC R Bi V N.
  rewrite (new_slot_offset STRIDE MULT sys k Hk).
  rewrite (Multiply_bulk_value STRIDE MULT sys k i Hk OK TS TC R Bi).
  rewrite (Multiply_value_vacancy STRIDE MULT _ _ _ _ i V).
  rewrite matvec_no_row by exact N. ring.
Qed.

(** C10 (as amended): on a domain of at most two orbitals,
    [Multiply<MULT>] advances the index by one modulo the number of slots and
    changes no cell outside the new slot; the slot read as [psi1] is kept,
    and so is the slot read as [psi2] when there are three slots or more;
    with two slots the slot read as [psi2] is the new slot itself, which is
    overwritten. *)
Theorem Multiply_frame (STRIDE MULT : Z) (sys : System T) (k : nat) :
  (k < length (fst sys))%nat ->
  lattice_ok STRIDE (r (thread sys k)) ->
  index_tables_fit (r (thread sys k)) ->
  tables_in_slot STRIDE (r (thread sys k)) (h (thread sys k)) ->
  ring_ok (thread sys k) ->
  index (thread (Multiply STRIDE MULT sys) k)
  = (index (thread sys k) + 1) mod memory (thread sys k)
  /\ (forall a,
        (forall i, 0 <= i < Sized (r (thread sys k)) ->
           a <> col (r (thread sys k))
                    (index (thread (Multiply STRIDE MULT sys) k)) + i) ->
        v (thread (Multiply STRIDE MULT sys) k) a = v (thread sys k) a)
  /\ (forall i, 0 <= i < Sized (r (thread sys k)) ->
        v (thread (Multiply STRIDE MULT sys) k) (phiM1_of (thread sys k) + i)
        = v (thread sys k) (phiM1_of (thread sys k) + i))
  /\ (3 <= memory (thread sys k) ->
      forall i, 0 <= i < Sized (r (thread sys k)) ->
        v (thread (Multiply STRIDE MULT sys) k) (phiM2_of (thread sys k) + i)
        = v (thread sys k) (phiM2_of (thread sys k) + i))
  /\ (memory (thread sys k) = 2 ->
      phiM2_of (thread sys k)
      = col (r (thread sys k)) (index (thread (Multiply STRIDE MULT sys) k))).
Proof.
  intros Hk OK Fit TS R.
  pose proof (new_slot_offset STRIDE MULT sys k Hk) as E0.
  destruct (Multiply_fields STRIDE MULT sys k Hk) as (_ & _ & _ & Ei).
  destruct R as [HM Hi].
  destruct (second_previous_index _ _ HM Hi) as (R2 & E2 & N2).
  pose proof (previous_index _ _ HM Hi) as E1.
  assert (N1 : inc_index (memory (thread sys k)) (index (thread sys k))
               <> index (thread sys k)).
  { unfold inc_index.
    destruct (Z.eq_dec (index (thread sys k) + 1) (memory (thread sys k)))
      as [E|N].
    - rewrite E, Z.rem_same by lia. lia.
    - rewrite rem_small by lia. lia. }
  split; [|split; [|split; [|split]]].
  - rewrite Ei. unfold inc_index. apply Z.rem_mod_nonneg; lia.
  - intros a N. rewrite E0 in N.
    apply (Multiply_outside STRIDE MULT sys k a Hk OK TS N).
  - intros i Hi'.
    apply (Multiply_outside STRIDE MULT sys k _ Hk OK TS).
    intros i' Hi'' E. unfold phiM1_of, phi0_of in E. rewrite E1 in E.
    symmetry in E. revert E. apply columns_apart; assumption.
  - intros M3 i Hi'.
    apply (Multiply_outside STRIDE MULT sys k _ Hk OK TS).
    intros i' Hi'' E. unfold phiM2_of, phi0_of in E.
    symmetry in E. revert E. apply columns_apart; try assumption.
    intros X. symmetry in X. apply E2 in X. lia.
  - intros M2. rewrite E0. unfold phiM2_of, phi0_of. f_equal.
    apply E2. exact M2.
Qed.

(** C4: on a Hamiltonian without Anderson disorder, structural disorder,
    vacancies or magnetic field, the tiled path [Multiply<MULT>] and the
    simple path [Multiply2<MULT>] advance the index alike and leave the same
    value at every bulk site of the new slot: [- MULT psi2] plus the
    hoppings applied to [psi1]. *)
Theorem Multiply_Multiply2_agree (STRIDE MULT : Z) (sys : System T) (k : nat)
        (i : Z) :
  (k < length (fst sys))%nat ->
  lattice_ok STRIDE (r (thread sys k)) ->
  tables_in_slot STRIDE (r (thread sys k)) (h (thread sys k)) ->
  tiles_consistent STRIDE (r (thread sys k)) (h (thread sys k)) ->
  clean_hamiltonian (r (thread sys k)) (h (thread sys k)) ->
  ring_ok (thread sys k) ->
  bulk (r (thread sys k)) i ->
  index (thread (Multiply STRIDE MULT sys) k)
  = index (thread (Multiply2 MULT sys) k)
  /\ v (thread (Multiply STRIDE MULT sys) k)
       (col (r (thread sys k)) (index (thread (Multiply STRIDE MULT sys) k))
        + i)
     = v (thread (Multiply2 MULT sys) k)
         (col (r (thread sys k)) (index (thread (Multiply2 MULT sys) k)) + i).
Proof.
  intros Hk OK TS TC CH R Bi. split.
  - destruct (Multiply_fields STRIDE MULT sys k Hk) as (_ & _ & _ & Ei).
    destruct (Multiply2_fields MULT sys k Hk) as (_ & _ & _ & Ei2).
    now rewrite Ei, Ei2.
  - rewrite (new_slot_offset STRIDE MULT sys k Hk).
    rewrite (new_slot_offset2 MULT sys k Hk).
    rewrite (Multiply_bulk_value_clean STRIDE MULT sys k i Hk OK TS TC CH R Bi).
    rewrite (Multiply2_bulk_value STRIDE MULT sys k i Hk OK R Bi);
      [reflexivity|].
    intros ib Hib. rewrite (same_NHoppings CH) in Hib. rewrite (same_d CH).
    apply (slot_hoppings TS i ib Bi Hib).
Qed.

End MultiplyTheorems.

(** * [Multiply] and [Exchange_Boundaries] on the small domain *)

Module SmallFacts.
Import Small.
Local Open Scope Z_scope.

Lemma row_of_sum (i k : Z) :
  0 <= i -> 0 <= k -> Z.rem i 6 + k < 6 -> Z.quot (i + k) 6 = Z.quot i 6.
Proof.
  intros Hi Hk Hlt.
  pose proof (Z.quot_rem' i 6) as E.
  pose proof (Z.rem_bound_pos i 6 Hi ltac:(lia)) as B.
  assert (Q : 0 <= Z.quot i 6) by (apply Z.quot_pos; lia).
  replace (i + k) with ((Z.rem i 6 + k) + Z.quot i 6 * 6) by lia.
  rewrite Z.quot_add by lia.
  rewrite Z.quot_small by lia. lia.
Qed.

Lemma lattice_ok_small : lattice_ok STRIDE lattice.
Proof.
  constructor; try (vm_compute; congruence); try reflexivity.
  intros i k C0 Hk Hlt Hi. unfold coord0 in *. simpl in *.
  now rewrite row_of_sum.
Qed.

Lemma exchange_ok_small : exchange_ok lattice.
Proof. constructor; vm_compute; congruence. Qed.

Lemma bulk_small (i : Z) :
  bulk lattice i -> i = 14 \/ i = 15 \/ i = 20 \/ i = 21.
Proof.
  intros (S & B0 & B1).
  destruct (set_index_of_coords STRIDE lattice lattice_ok_small i)
    as (E & C0 & C1 & Co); [apply S|].
  pose proof (in_slot_orbital STRIDE lattice lattice_ok_small i S) as O.
  unfold set_index, basis1, basis2 in E. simpl in *. unfold NGHOSTS in *.
  lia.
Qed.

Lemma bulk_14 : bulk lattice 14.
Proof. repeat split; vm_compute; congruence. Qed.

Lemma bulk_15 : bulk lattice 15.
Proof. repeat split; vm_compute; congruence. Qed.

Lemma hoppings_in_slot (i ib : Z) :
  bulk lattice i -> 0 <= ib < 2 -> in_slot lattice (i + hopping_distance ib).
Proof.
  intros B Hib. apply bulk_small in B. unfold in_slot, hopping_distance.
  simpl. destruct (ib =? 0); lia.
Qed.

Lemma tables_clean : tables_in_slot STRIDE lattice clean.
Proof.
  constructor.
  - intros i ib B Hib. apply hoppings_in_slot; assumption.
  - intros istr V e He. destruct He.
  - intros e He. destruct He.
  - intros istr k V Hk. destruct Hk.
  - intros k Hk. destruct Hk.
  - intros istr Hi. destruct Hi.
Qed.

Lemma consistent_clean : tiles_consistent STRIDE lattice clean.
Proof.
  constructor.
  - constructor.
  - intros istr V. split; [intros _ X; destruct X|reflexivity].
  - intros istr e V He. destruct He.
  - intros istr e V He. destruct He.
Qed.

Lemma clean_is_clean : clean_hamiltonian lattice clean.
Proof. constructor; intros; reflexivity. Qed.

Lemma tables_fit_small : index_tables_fit lattice.
Proof. unfold index_tables_fit. simpl. lia. Qed.

Lemma valid_tile_small (istr : Z) : valid_tile STRIDE lattice istr -> istr = 0.
Proof.
  unfold valid_tile. intros [A B].
  change (lStr0 lattice * lStr1 STRIDE lattice) with 1 in B. lia.
Qed.

Lemma tables_vacancies (patterns : list (Defect Z)) :
  patterns = [] \/ patterns = [broken_pattern] ->
  tables_in_slot STRIDE lattice (with_vacancies patterns).
Proof.
  intros P. constructor.
  - intros i ib B Hib. apply hoppings_in_slot; assumption.
  - intros istr V e He. destruct P; subst patterns; destruct He.
  - intros e He. destruct P; subst patterns; [destruct He|].
    destruct He as [E|[]]. subst e. split; vm_compute; split; congruence.
  - intros istr k V Hk. apply valid_tile_small in V. subst istr.
    destruct Hk as [E|[]]. subst k. split; [exact bulk_14|reflexivity].
  - intros k Hk. destruct Hk as [E|[]]. subst k. apply bulk_15.
  - intros istr Hi. destruct Hi.
Qed.

Lemma consistent_vacancies (patterns : list (Defect Z)) :
  patterns = [] \/ patterns = [broken_pattern] ->
  tiles_consistent STRIDE lattice (with_vacancies patterns).
Proof.
  intros P. constructor.
  - constructor.
  - intros istr V. split; [intros _ X; destruct X|reflexivity].
  - intros istr e V He. destruct P; subst patterns; destruct He.
  - intros istr e V He. destruct P; subst patterns; destruct He.
Qed.

Lemma uniform_pair : uniform_system lattice pair.
Proof.
  intros j Hj. destruct j as [|[|j]]; [| |simpl in Hj; lia];
    (split; [constructor; reflexivity
            |intros d b; vm_compute; split; congruence]).
Qed.



(** The vacancy 14 of the small domain holds zero. *)
Lemma Multiply_vacancy_site_witness :
  v (thread (Multiply STRIDE 1 (system_of (with_vacancies []) 3)) 0)
    (col lattice
         (index (thread (Multiply STRIDE 1 (system_of (with_vacancies []) 3))
                        0)) + 14)
  = 0.
Proof.
  refine (Multiply_vacancy_site STRIDE 1
            (system_of (with_vacancies []) 3) 0%nat 14 _ _ _ _ _ _ _ _ _).
  - simpl. lia.
  - exact lattice_ok_small.
  - exact tables_fit_small.
  - apply tables_vacancies. left. reflexivity.
  - apply consistent_vacancies. left. reflexivity.
  - split; simpl; lia.
  - exact bulk_14.
  - reflexivity.
  - intros e He. destruct He.
Defined.

(** The site 15 of the small domain is listed in
    [vacancies_with_defects] and is the target of the on-site term of a
    broken pattern: [Multiply<1>] leaves [2 * 7 * psi1(15) = 224] there, not
    zero. *)
Lemma Multiply_border_term_on_vacancy :
  lattice_ok STRIDE lattice
  /\ index_tables_fit lattice
  /\ tables_in_slot STRIDE lattice (with_vacancies [broken_pattern])
  /\ tiles_consistent STRIDE lattice (with_vacancies [broken_pattern])
  /\ ring_ok (thread_of (with_vacancies [broken_pattern]) 3)
  /\ bulk lattice 15
  /\ In 15 (vacancies_with_defects (with_vacancies [broken_pattern]))
  /\ In (15, 15, 7) (border_terms lattice (with_vacancies [broken_pattern]))
  /\ v (thread (Multiply STRIDE 1
                         (system_of (with_vacancies [broken_pattern]) 3)) 0)
       (col lattice
            (index (thread (Multiply STRIDE 1
                              (system_of (with_vacancies [broken_pattern]) 3))
                           0)) + 15)
     = 224
  /\ v (thread (Multiply STRIDE 1
                         (system_of (with_vacancies [broken_pattern]) 3)) 0)
       (col lattice
            (index (thread (Multiply STRIDE 1
                              (system_of (with_vacancies [broken_pattern]) 3))
                           0)) + 15)
     <> 0.
Proof.
  split; [exact lattice_ok_small|].
  split; [exact tables_fit_small|].
  split; [apply tables_vacancies; right; reflexivity|].
  split; [apply consistent_vacancies; right; reflexivity|].
  split; [split; simpl; lia|].
  split; [exact bulk_15|].
  split; [left; reflexivity|].
  split; [left; reflexivity|].
  split; [vm_compute; reflexivity|].
  vm_compute. discriminate.
Qed.

(** The frame of [Multiply] on the small domain with two slots. *)
Lemma Multiply_frame_witness :
  index (thread (Multiply STRIDE 1 (system_of clean 2)) 0) = (0 + 1) mod 2
  /\ (forall i, 0 <= i < 36 ->
        v (thread (Multiply STRIDE 1 (system_of clean 2)) 0)
          (phiM1_of (thread_of clean 2) + i)
        = v (thread_of clean 2) (phiM1_of (thread_of clean 2) + i)).
Proof.
  destruct (Multiply_frame STRIDE 1 (system_of clean 2) 0)
    as (A & _ & B & _).
  - simpl. lia.
  - exact lattice_ok_small.
  - exact tables_fit_small.
  - exact tables_clean.
  - split; simpl; lia.
  - split; [exact A|exact B].
Defined.

(** With two slots the slot read as [psi2] is the new slot: the cell of
    the site 14, which held 51, holds 135 when [Multiply<1>] returns. *)
Lemma Multiply_overwrites_second_predecessor :
  lattice_ok STRIDE lattice
  /\ index_tables_fit lattice
  /\ tables_in_slot STRIDE lattice clean
  /\ ring_ok (thread_of clean 2)
  /\ v (thread_of clean 2) (phiM2_of (thread_of clean 2) + 14) = 51
  /\ v (thread (Multiply STRIDE 1 (system_of clean 2)) 0)
       (phiM2_of (thread_of clean 2) + 14) = 135
  /\ v (thread (Multiply STRIDE 1 (system_of clean 2)) 0)
       (phiM2_of (thread_of clean 2) + 14)
     <> v (thread_of clean 2) (phiM2_of (thread_of clean 2) + 14).
Proof.
  split; [exact lattice_ok_small|].
  split; [exact tables_fit_small|].
  split; [exact tables_clean|].
  split; [split; simpl; lia|].
  split; [vm_compute; reflexivity|].
  split; [vm_compute; reflexivity|].
  vm_compute. discriminate.
Qed.

(** The two paths on the small domain. *)
Lemma Multiply_Multiply2_agree_witness :
  index (thread (Multiply STRIDE 1 (system_of clean 2)) 0)
  = index (thread (Multiply2 1 (system_of clean 2)) 0)
  /\ v (thread (Multiply STRIDE 1 (system_of clean 2)) 0)
       (col lattice (index (thread (Multiply STRIDE 1 (system_of clean 2)) 0))
        + 14)
     = v (thread (Multiply2 1 (system_of clean 2)) 0)
         (col lattice (index (thread (Multiply2 1 (system_of clean 2)) 0))
          + 14).
Proof.
  apply (Multiply_Multiply2_agree STRIDE 1 (system_of clean 2) 0 14).
  - simpl. lia.
  - exact lattice_ok_small.
  - exact tables_clean.
  - exact consistent_clean.
  - exact clean_is_clean.
  - split; simpl; lia.
  - exact bulk_14.
Defined.


End SmallFacts.

(** * The ring index, [custom_find] and the direction strings *)

Section RingIndexFacts.
Local Open Scope Z_scope.

(** X1: in a ring buffer of [M] slots, [n] calls of [inc_index] take the
    index [idx] to [(idx + n) mod M]: the index never leaves the buffer and
    is back where it was after [M] calls. *)
Theorem inc_index_steps (M idx : Z) (n : nat) :
  1 <= M -> 0 <= idx < M ->
  Nat.iter n (inc_index M) idx = (idx + Z.of_nat n) mod M
  /\ 0 <= Nat.iter n (inc_index M) idx < M
  /\ Nat.iter (Z.to_nat M) (inc_index M) idx = idx.
Proof.
  intros HM Hi.
  assert (E : forall k : nat,
             Nat.iter k (inc_index M) idx = (idx + Z.of_nat k) mod M).
  { induction k as [|k IH].
    - simpl. rewrite Z.add_0_r. symmetry. apply Z.mod_small. exact Hi.
    - rewrite Nat.iter_succ, IH. unfold inc_index.
      pose proof (Z.mod_pos_bound (idx + Z.of_nat k) M ltac:(lia)) as B.
      rewrite Z.rem_mod_nonneg by lia.
      rewrite Zplus_mod_idemp_l. f_equal. lia. }
  split; [apply E|]. split.
  - rewrite E. apply Z.mod_pos_bound. lia.
  - rewrite E, Z2Nat.id by lia.
    replace (idx + M) with (idx + 1 * M) by lia.
    rewrite Z.mod_add by lia. apply Z.mod_small. exact Hi.
Qed.

Lemma inc_index_steps_witness :
  Nat.iter 7 (inc_index 3) 2 = (2 + Z.of_nat 7) mod 3
  /\ 0 <= Nat.iter 7 (inc_index 3) 2 < 3
  /\ Nat.iter (Z.to_nat 3) (inc_index 3) 2 = 2.
Proof. apply (inc_index_steps 3 2 7); lia. Defined.

End RingIndexFacts.

Section CustomFindFacts.
Local Open Scope Z_scope.

Lemma custom_find_loop_spec (arr : list Z) (x : Z) (todo : list Z) :
  (custom_find_loop arr x todo = -1
   /\ forall i, In i todo -> at_ 0 arr i <> x)
  \/ (exists l1 l2,
         todo = l1 ++ custom_find_loop arr x todo :: l2
         /\ at_ 0 arr (custom_find_loop arr x todo) = x
         /\ forall i, In i l1 -> at_ 0 arr i <> x).
Proof.
  induction todo as [|i rest IH]; simpl.
  - left. split; [reflexivity|]. intros i [].
  - destruct (at_ 0 arr i =? x) eqn:E.
    + right. exists [], rest. apply Z.eqb_eq in E.
      split; [reflexivity|]. split; [exact E|]. intros j [].
    + apply Z.eqb_neq in E. destruct IH as [[E1 N]|(l1 & l2 & E1 & E2 & N)].
      * left. split; [exact E1|]. intros j [<-|Hj]; [exact E|now apply N].
      * right. exists (i :: l1), l2. split; [simpl; now rewrite <- E1|].
        split; [exact E2|]. intros j [<-|Hj]; [exact E|now apply N].
Qed.

Lemma Zrange_split (lo hi : Z) (l1 l2 : list Z) (k : Z) :
  Zrange lo hi = l1 ++ k :: l2 ->
  lo <= k < hi /\ forall i, lo <= i < k -> In i l1.
Proof.
  intros E.
  assert (Hk : In k (Zrange lo hi)) by (rewrite E; apply in_elt).
  apply In_Zrange in Hk. split; [exact Hk|].
  intros i Hi.
  assert (Hin : In i (Zrange lo hi)) by (apply In_Zrange; lia).
  rewrite E in Hin. apply in_app_or in Hin.
  destruct Hin as [Hin|[Hin|Hin]]; [exact Hin|lia|].
  exfalso.
  (* [i] after [k] in an increasing list *)
  unfold Zrange in E.
  apply map_eq_app in E. destruct E as (s1 & s2 & Es & E1 & E2).
  destruct s2 as [|n s2]; [discriminate|]. simpl in E2.
  injection E2 as Ek E2. subst l2.
  apply in_map_iff in Hin. destruct Hin as (n' & En' & Hn').
  assert (S : forall a b (l l' : list nat),
             seq a b = l ++ n :: l' -> forall y, In y l' -> (n < y)%nat).
  { clear. intros a b l. revert a b. induction l as [|z l IH]; intros a b l' E y Hy.
    - destruct b as [|b]; [discriminate|]. simpl in E. injection E as <- <-.
      apply in_seq in Hy. lia.
    - destruct b as [|b]; [discriminate|]. simpl in E. injection E as _ E.
      apply (IH _ _ _ E y Hy). }
  pose proof (S _ _ _ _ Es n' Hn'). lia.
Qed.

(** X2: on an array of at least [arr_size] elements, [custom_find] returns
    -1 exactly when the value does not occur among the first [arr_size]
    elements (in particular for [arr_size <= 0]); otherwise it returns the
    index of the first occurrence. *)
Theorem custom_find_first (arr : list Z) (arr_size x : Z) :
  arr_size <= Z.of_nat (length arr) ->
  (custom_find arr arr_size x = -1
   /\ forall i, 0 <= i < arr_size -> at_ 0 arr i <> x)
  \/ (0 <= custom_find arr arr_size x < arr_size
      /\ at_ 0 arr (custom_find arr arr_size x) = x
      /\ forall i, 0 <= i < custom_find arr arr_size x -> at_ 0 arr i <> x).
Proof.
  intros _. unfold custom_find.
  destruct (custom_find_loop_spec arr x (Zrange 0 arr_size))
    as [[E N]|(l1 & l2 & E1 & E2 & N)].
  - left. split; [exact E|]. intros i Hi. apply N, In_Zrange. exact Hi.
  - right. destruct (Zrange_split _ _ _ _ _ E1) as [R B].
    split; [exact R|]. split; [exact E2|].
    intros i Hi. apply N, B. exact Hi.
Qed.

Lemma custom_find_first_witness :
  custom_find [5; 7; 7; 2] 4 7 = 1
  /\ at_ 0 [5; 7; 7; 2] 1 = 7
  /\ forall i, 0 <= i < 1 -> at_ 0 [5; 7; 7; 2] i <> 7.
Proof.
  destruct (custom_find_first [5; 7; 7; 2] 4 7) as [[E _]|(_ & E & N)].
  - simpl. lia.
  - discriminate E.
  - split; [reflexivity|]. split; [exact E|exact N].
Defined.

End CustomFindFacts.

Module DirectionWordsFacts.
Import Direction DirectionFacts DirectionWords.
Local Open Scope Z_scope.

Lemma split_commas_word (f : list Z) : split_commas (word f) = [word f].
Proof.
  induction f as [|a f IH]; [reflexivity|].
  simpl word. simpl split_commas.
  assert (E : Ascii.eqb (letter a) "," = false)
    by (unfold letter; destruct (a =? 0); reflexivity).
  rewrite E, IH. reflexivity.
Qed.

Lemma split_commas_app_comma (f : list Z) (s : string) :
  split_commas (word f ++ String "," s) = word f :: split_commas s.
Proof.
  induction f as [|a f IH]; [reflexivity|].
  simpl word. simpl append. simpl split_commas.
  assert (E : Ascii.eqb (letter a) "," = false)
    by (unfold letter; destruct (a =? 0); reflexivity).
  rewrite E. fold split_commas. rewrite IH. reflexivity.
Qed.

Lemma split_commas_words (fs : list (list Z)) :
  fs <> [] -> split_commas (words fs) = map word fs.
Proof.
  induction fs as [|f rest IH]; [congruence|]. intros _.
  destruct rest as [|g rest].
  - simpl. apply split_commas_word.
  - change (words (f :: g :: rest))
      with (word f ++ String "," (words (g :: rest)))%string.
    rewrite split_commas_app_comma, IH by discriminate. reflexivity.
Qed.

Lemma word_letters (f : list Z) :
  Forall (fun a => a = 0 \/ a = 1) f ->
  forallb legal_factor (list_ascii_of_string (word f)) = true
  /\ map axis_xy (list_ascii_of_string (word f)) = f.
Proof.
  induction 1 as [|a f Ha _ [IH1 IH2]]; [split; reflexivity|].
  simpl. rewrite IH1, IH2.
  destruct Ha as [-> | ->]; split; reflexivity.
Qed.

Lemma factors_of_words (fs : list (list Z)) :
  Forall (Forall (fun a => a = 0 \/ a = 1)) fs ->
  forallb (fun f => forallb legal_factor (list_ascii_of_string f))
          (map word fs) = true
  /\ map (fun f => map axis_xy (list_ascii_of_string f)) (map word fs) = fs.
Proof.
  induction 1 as [|f fs Hf _ [IH1 IH2]]; [split; reflexivity|].
  destruct (word_letters f Hf) as [E1 E2].
  simpl. rewrite E1, E2, IH1, IH2. split; reflexivity.
Qed.

(** X3: a non-empty list of factors over the axes 0 and 1, written out
    with ['x'], ['y'] and commas, is read back by [process_string] as the
    same list. *)
Theorem process_string_of_words (fs : list (list Z)) :
  fs <> [] ->
  Forall (Forall (fun a => a = 0 \/ a = 1)) fs ->
  process_string (words fs) = Some (Returns fs).
Proof.
  intros N L. unfold process_string.
  rewrite split_loop_total by lia. simpl app.
  rewrite all_factors_legal, (split_commas_words fs N).
  destruct (factors_of_words fs L) as [E1 E2].
  rewrite E1, E2. reflexivity.
Qed.

Lemma process_string_of_words_witness :
  process_string (words [[0; 1]; []; [1]]) = Some (Returns [[0; 1]; []; [1]]).
Proof.
  apply (process_string_of_words [[0; 1]; []; [1]]).
  - discriminate.
  - repeat (apply Forall_cons || apply Forall_nil); lia.
Defined.

Lemma length_split_commas (s : string) :
  length (split_commas s) = S (commas s).
Proof.
  induction s as [|c s IH]; [reflexivity|].
  simpl. destruct (Ascii.eqb c ","); simpl.
  - now rewrite IH.
  - destruct (split_commas s) as [|h t] eqn:E; simpl in *; lia.
Qed.

(** X4: whenever [process_string] returns, the number of factors it
    returns is the number of commas of the string plus one; it never
    returns an empty list, so that [indices.at(0)] is always in range. *)
Theorem process_string_dimension (s : string) (indices : list (list Z)) :
  process_string s = Some (Returns indices) ->
  length indices = S (commas s) /\ indices <> [].
Proof.
  unfold process_string. rewrite split_loop_total by lia. simpl app.
  rewrite all_factors_legal.
  destruct (forallb _ (split_commas s)); [|discriminate].
  intros E. injection E as <-. simpl app.
  rewrite length_map, length_split_commas. split; [reflexivity|].
  intros E. apply (f_equal (@length _)) in E.
  rewrite length_map, length_split_commas in E. discriminate.
Qed.

Lemma process_string_dimension_witness :
  length [[0]; [0; 1]] = S (commas "x,xy") /\ [[0]; [0; 1]] <> [].
Proof.
  apply (process_string_dimension "x,xy" [[0]; [0; 1]]). reflexivity.
Defined.

End DirectionWordsFacts.

(** * The accumulators of Gamma1D and Gamma2D *)

Section AccumulatorFacts.
Context {T : Type} `{ScalarField T}.
Local Open Scope Z_scope.

(** The columns of the blocks of one sample: 0, then 2, 4, ... below
    [N_moments]. *)
Lemma Gamma1D_columns (N : Z) :
  1 <= N -> 0 :: Zrange_step 2 N 2 = Zrange_step 0 N 2.
Proof.
  intros HN. unfold Zrange_step.
  replace (Z.to_nat ((N - 0 + 2 - 1) / 2))
    with (S (Z.to_nat ((N - 2 + 2 - 1) / 2))).
  - cbn [seq map]. f_equal. rewrite <- seq_shift, map_map.
    apply map_ext. intros k. lia.
  - replace (N - 0 + 2 - 1) with ((N - 2 + 2 - 1) + 1 * 2) by lia.
    rewrite Z.div_add by lia.
    assert (0 <= (N - 2 + 2 - 1) / 2) by (apply Z.div_pos; lia).
    lia.
Qed.

Lemma Gamma1D_sample_loop (N : Z) (average : nat) (dots : Z -> T)
      (gamma : mem T) :
  1 <= N ->
  Gamma1D_sample N average dots gamma
  = for_each (Zrange_step 0 N 2)
             (fun m => Gamma1D_block average m (fun k => dots (m + k)))
             gamma.
Proof.
  intros HN. rewrite <- (Gamma1D_columns N HN). reflexivity.
Qed.

(** One sample of Gamma1D: the blocks cover the cells [0 .. N_moments)
    for an even [N_moments] and one cell more for an odd one. *)
Lemma Gamma1D_sample_at (N : Z) (average : nat) (dots : Z -> T) (gamma : mem T)
      (n : Z) :
  1 <= N ->
  (0 <= n < N + Z.rem N 2 ->
   Gamma1D_sample N average dots gamma n
   = welford_update average (gamma n) (dots n))
  /\ (n < 0 \/ N + Z.rem N 2 <= n ->
      Gamma1D_sample N average dots gamma n = gamma n).
Proof.
  intros HN. rewrite (Gamma1D_sample_loop N average dots gamma HN). split.
  - intros Hn.
    assert (R2 : 0 <= Z.rem N 2 < 2) by (apply Z.rem_bound_pos; lia).
    pose proof (Z.quot_rem' N 2) as QN.
    pose proof (Z.div_mod n 2 ltac:(lia)) as Qn.
    pose proof (Z.mod_pos_bound n 2 ltac:(lia)) as Rn.
    apply (for_each_apply _ _ n (2 * (n / 2))
             (fun x => welford_update average x (dots n))).
    + apply NoDup_Zrange_step. lia.
    + apply In_Zrange_step_0; [lia|]. exists (n / 2). lia.
    + intros m g Hm Nm. apply In_Zrange_step_0 in Hm; [|lia].
      destruct Hm as (k & Hk & -> & Lk). unfold Gamma1D_block.
      rewrite !upd_other by lia. reflexivity.
    + intros g. unfold Gamma1D_block.
      destruct (Z.eq_dec n (2 * (n / 2))) as [E|E].
      * rewrite upd_other by lia. rewrite <- E, upd_same.
        now rewrite Z.add_0_r.
      * assert (E1 : n = 2 * (n / 2) + 1) by lia.
        rewrite <- E1, upd_same, upd_other by lia. reflexivity.
  - intros Hn. apply for_each_keep. intros m g Hm.
    apply In_Zrange_step_0 in Hm; [|lia].
    destruct Hm as (k & Hk & -> & Lk). unfold Gamma1D_block.
    assert (R2 : 0 <= Z.rem N 2 < 2) by (apply Z.rem_bound_pos; lia).
    pose proof (Z.quot_rem' N 2) as QN.
    rewrite !upd_other by lia. reflexivity.
Qed.

Lemma Gamma1D_samples_at (N : Z) (samples : list (Z -> T)) (n : Z) :
  1 <= N ->
  forall (average : nat) (gamma : mem T),
    (0 <= n < N + Z.rem N 2 ->
     Gamma1D_samples N average samples gamma n
     = snd (accumulate average (gamma n) (map (fun dots => dots n) samples)))
    /\ (n < 0 \/ N + Z.rem N 2 <= n ->
        Gamma1D_samples N average samples gamma n = gamma n).
Proof.
  intros HN.
  induction samples as [|dots rest IH]; intros average gamma.
  - split; reflexivity.
  - simpl. destruct (IH (S average) (Gamma1D_sample N average dots gamma))
      as [I1 I2].
    destruct (Gamma1D_sample_at N average dots gamma n HN) as [S1 S2].
    split; intros Hn.
    + rewrite I1, S1 by exact Hn. reflexivity.
    + rewrite I2, S2 by exact Hn. reflexivity.
Qed.

(** X5: for an even [N_moments >= 2] and any number of samples, Gamma1D
    leaves in the cell [n] of its array of [N_moments] cells the running mean
    of the products [<0|n>] of the samples, for every [n] below [N_moments],
    and writes no cell outside the array. *)
Theorem Gamma1D_samples_mean (N : Z) (samples : list (Z -> T)) (n : Z) :
  2 <= N -> Z.rem N 2 = 0 ->
  (0 <= n < N ->
   Gamma1D_samples N 0 samples (fun _ => s0) n
   = running_mean (map (fun dots => dots n) samples))
  /\ (n < 0 \/ N <= n ->
      Gamma1D_samples N 0 samples (fun _ => s0) n = s0).
Proof.
  intros HN EN.
  destruct (Gamma1D_samples_at N samples n ltac:(lia) 0%nat (fun _ => s0))
    as [A B].
  rewrite EN, Z.add_0_r in A, B.
  split; [exact A|exact B].
Qed.

(** ** Gamma2D *)

Lemma cell2_inj (N0 a b a' b' : Z) :
  0 <= a < N0 -> 0 <= a' < N0 -> b * N0 + a = b' * N0 + a' ->
  a = a' /\ b = b'.
Proof. intros Ha Ha' E. assert (b = b') by nia. subst. lia. Qed.

Lemma Gamma2D_block_at (N0 : Z) (average : nat) (n m : Z) (tmp : Z -> Z -> T)
      (gamma : mem T) (i j : Z) :
  0 <= n -> n + MEMORY <= N0 ->
  0 <= i < MEMORY -> 0 <= j < MEMORY ->
  Gamma2D_block N0 average n m tmp gamma ((m + j) * N0 + n + i)
  = welford_update average (gamma ((m + j) * N0 + n + i)) (tmp i j).
Proof.
  intros Hn HN Hi Hj. unfold Gamma2D_block.
  apply (for_each_apply _ _ _ j
           (fun x => welford_update average x (tmp i j))).
  - apply NoDup_Zrange.
  - apply In_Zrange. exact Hj.
  - intros j' g Hj' Nj. apply In_Zrange in Hj'.
    apply for_each_keep. intros i' g' Hi'. apply In_Zrange in Hi'.
    apply upd_other. intros E.
    assert (X : (m + j) * N0 + (n + i) = (m + j') * N0 + (n + i')) by lia.
    apply cell2_inj in X; unfold MEMORY in *; lia.
  - intros g. apply (for_each_apply _ _ _ i
                       (fun x => welford_update average x (tmp i j))).
    + apply NoDup_Zrange.
    + apply In_Zrange. exact Hi.
    + intros i' g' Hi' Ni. apply upd_other. lia.
    + intros g'. apply upd_same.
Qed.

Lemma Gamma2D_block_keep (N0 : Z) (average : nat) (n m : Z) (tmp : Z -> Z -> T)
      (gamma : mem T) (a : Z) :
  (forall i j, 0 <= i < MEMORY -> 0 <= j < MEMORY ->
               a <> (m + j) * N0 + n + i) ->
  Gamma2D_block N0 average n m tmp gamma a = gamma a.
Proof.
  intros Na. unfold Gamma2D_block.
  apply for_each_keep. intros j g Hj. apply In_Zrange in Hj.
  apply for_each_keep. intros i g' Hi. apply In_Zrange in Hi.
  apply upd_other. apply Na; assumption.
Qed.

(** One sample of Gamma2D, for numbers of moments that are multiples of
    MEMORY. *)
Lemma Gamma2D_sample_at (q0 q1 : Z) (average : nat) (dots : Z -> Z -> T)
      (gamma : mem T) (n m : Z) :
  0 <= n < MEMORY * q0 -> 0 <= m < MEMORY * q1 ->
  Gamma2D_sample (MEMORY * q0) (MEMORY * q1) average dots gamma
                 (m * (MEMORY * q0) + n)
  = welford_update average (gamma (m * (MEMORY * q0) + n)) (dots n m).
Proof.
  intros Hn Hm. unfold Gamma2D_sample.
  set (N0 := MEMORY * q0). set (N1 := MEMORY * q1).
  pose proof (Z.div_mod n MEMORY ltac:(unfold MEMORY; lia)) as Qn.
  pose proof (Z.mod_pos_bound n MEMORY ltac:(unfold MEMORY; lia)) as Rn.
  pose proof (Z.div_mod m MEMORY ltac:(unfold MEMORY; lia)) as Qm.
  pose proof (Z.mod_pos_bound m MEMORY ltac:(unfold MEMORY; lia)) as Rm.
  assert (Hq0 : n / MEMORY < q0)
    by (apply Z.div_lt_upper_bound; unfold MEMORY in *; lia).
  assert (Hq1 : m / MEMORY < q1)
    by (apply Z.div_lt_upper_bound; unfold MEMORY in *; lia).
  assert (Hd0 : 0 <= n / MEMORY) by (apply Z.div_pos; unfold MEMORY; lia).
  assert (Hd1 : 0 <= m / MEMORY) by (apply Z.div_pos; unfold MEMORY; lia).
  assert (Other : forall n' m' g,
             In n' (Zrange_step 0 N0 MEMORY) ->
             In m' (Zrange_step 0 N1 MEMORY) ->
             (n', m') <> (MEMORY * (n / MEMORY), MEMORY * (m / MEMORY)) ->
             Gamma2D_block N0 average n' m'
               (fun i j => dots (n' + i) (m' + j)) g (m * N0 + n)
             = g (m * N0 + n)).
  { intros n' m' g Hn' Hm' D.
    apply In_Zrange_step_0 in Hn'; [|unfold MEMORY; lia].
    apply In_Zrange_step_0 in Hm'; [|unfold MEMORY; lia].
    destruct Hn' as (kn & Hkn & -> & Ln). destruct Hm' as (km & Hkm & -> & Lm).
    apply Gamma2D_block_keep. intros i j Hi Hj E.
    assert (X : m * N0 + n = (km * MEMORY + j) * N0 + (kn * MEMORY + i))
      by lia.
    apply cell2_inj in X; unfold N0, N1, MEMORY in *; try lia.
    apply D. f_equal; lia. }
  apply (for_each_apply _ _ _ (MEMORY * (n / MEMORY))
           (fun x => welford_update average x (dots n m))).
  - apply NoDup_Zrange_step. unfold MEMORY. lia.
  - apply In_Zrange_step_0; [unfold MEMORY; lia|].
    exists (n / MEMORY). unfold N0, MEMORY in *. lia.
  - intros n' g Hn' Nn. apply for_each_keep. intros m' g' Hm'.
    apply Other; try assumption. congruence.
  - intros g. apply (for_each_apply _ _ _ (MEMORY * (m / MEMORY))
                       (fun x => welford_update average x (dots n m))).
    + apply NoDup_Zrange_step. unfold MEMORY. lia.
    + apply In_Zrange_step_0; [unfold MEMORY; lia|].
      exists (m / MEMORY). unfold N1, MEMORY in *. lia.
    + intros m' g' Hm' Nm. apply Other; try assumption.
      * apply In_Zrange_step_0; [unfold MEMORY; lia|].
        exists (n / MEMORY). unfold N0, MEMORY in *. lia.
      * congruence.
    + intros g'.
      replace (m * N0 + n)
        with ((MEMORY * (m / MEMORY) + m mod MEMORY) * N0
              + MEMORY * (n / MEMORY) + n mod MEMORY) by lia.
      rewrite Gamma2D_block_at; try assumption;
        try (unfold N0, MEMORY in *; lia).
      f_equal. f_equal; lia.
Qed.

Lemma Gamma2D_sample_keep (q0 q1 : Z) (average : nat) (dots : Z -> Z -> T)
      (gamma : mem T) (a : Z) :
  0 <= q0 -> 0 <= q1 ->
  a < 0 \/ MEMORY * q0 * (MEMORY * q1) <= a ->
  Gamma2D_sample (MEMORY * q0) (MEMORY * q1) average dots gamma a = gamma a.
Proof.
  intros Hq0 Hq1 Ha. unfold Gamma2D_sample.
  apply for_each_keep. intros n g Hn.
  apply for_each_keep. intros m g' Hm.
  apply In_Zrange_step_0 in Hn; [|unfold MEMORY; lia].
  apply In_Zrange_step_0 in Hm; [|unfold MEMORY; lia].
  destruct Hn as (kn & Hkn & -> & Ln). destruct Hm as (km & Hkm & -> & Lm).
  apply Gamma2D_block_keep. intros i j Hi Hj E.
  unfold MEMORY in *. nia.
Qed.

Lemma Gamma2D_samples_at (q0 q1 : Z) (samples : list (Z -> Z -> T)) (n m : Z) :
  0 <= n < MEMORY * q0 -> 0 <= m < MEMORY * q1 ->
  forall (average : nat) (gamma : mem T),
    Gamma2D_samples (MEMORY * q0) (MEMORY * q1) average samples gamma
                    (m * (MEMORY * q0) + n)
    = snd (accumulate average (gamma (m * (MEMORY * q0) + n))
                      (map (fun dots => dots n m) samples)).
Proof.
  intros Hn Hm.
  induction samples as [|dots rest IH]; intros average gamma; [reflexivity|].
  cbn [Gamma2D_samples map accumulate].
  rewrite IH, Gamma2D_sample_at by assumption. reflexivity.
Qed.

Lemma Gamma2D_samples_keep (q0 q1 : Z) (samples : list (Z -> Z -> T)) (a : Z) :
  0 <= q0 -> 0 <= q1 ->
  a < 0 \/ MEMORY * q0 * (MEMORY * q1) <= a ->
  forall (average : nat) (gamma : mem T),
    Gamma2D_samples (MEMORY * q0) (MEMORY * q1) average samples gamma a
    = gamma a.
Proof.
  intros Hq0 Hq1 Ha.
  induction samples as [|dots rest IH]; intros average gamma; [reflexivity|].
  cbn [Gamma2D_samples].
  rewrite IH, Gamma2D_sample_keep by assumption. reflexivity.
Qed.

(** X6: when both numbers of moments are multiples of MEMORY, the sample
    loops of Gamma2D leave in the cell [n + N0*m] of the flat array the
    running mean of the products of the [n]-th left vector with the [m]-th
    right vector, and write no cell outside the [N0*N1] cells of the
    array. *)
Theorem Gamma2D_samples_mean (q0 q1 : Z) (samples : list (Z -> Z -> T)) :
  0 <= q0 -> 0 <= q1 ->
  (forall n m, 0 <= n < MEMORY * q0 -> 0 <= m < MEMORY * q1 ->
     Gamma2D_samples (MEMORY * q0) (MEMORY * q1) 0 samples (fun _ => s0)
                     (n + MEMORY * q0 * m)
     = running_mean (map (fun dots => dots n m) samples))
  /\ (forall a, a < 0 \/ MEMORY * q0 * (MEMORY * q1) <= a ->
        Gamma2D_samples (MEMORY * q0) (MEMORY * q1) 0 samples (fun _ => s0) a
        = s0).
Proof.
  intros Hq0 Hq1. split.
  - intros n m Hn Hm.
    replace (n + MEMORY * q0 * m) with (m * (MEMORY * q0) + n) by lia.
    now rewrite Gamma2D_samples_at.
  - intros a Ha. now rewrite Gamma2D_samples_keep.
Qed.

End AccumulatorFacts.

(** * [store_gamma3D] with two equal axes *)

Section TwoEqualAxes.
Context {T : Type} `{ScalarField T}.
Local Open Scope Z_scope.

Add Field scalar_field_two_axes : scalar_field.

(** The loops of lines 583-590, 595-602 and 607-614: two statements on
    the element [(n + N0*m, p)], the second one with the conjugate of the
    element [partner n m p] of the flat array. *)
Lemma for_nmp_two_terms (gamma : mem T) (N0 N1 N2 factor : Z)
      (partner : Z -> Z -> Z -> Z * Z) (n m p : Z) :
  0 <= n < N0 -> 0 <= m < N1 -> 0 <= p < N2 ->
  for_nmp N0 N1 N2
    (fun n m p s =>
       let s := add_entry (N0 * N1) s (n + N0 * m) p
                  (gamma (entry (N0 * N1) (n + N0 * m) p) [/] two) in
       add_entry (N0 * N1) s (n + N0 * m) p
         (of_Z factor [/] two
          [*] myconj (gamma (entry (N0 * N1) (fst (partner n m p))
                                   (snd (partner n m p))))))
    (fun _ => s0) (n + N0 * m + N0 * N1 * p)
  = gamma (n + N0 * m + N0 * N1 * p) [/] two
    [+] of_Z factor [/] two
        [*] myconj (gamma (entry (N0 * N1) (fst (partner n m p))
                                 (snd (partner n m p)))).
Proof.
  intros Hn Hm Hp. pose proof two_nonzero as N2'.
  change (n + N0 * m + N0 * N1 * p) with (entry (N0 * N1) (n + N0 * m) p).
  rewrite (for_nmp_at N0 N1 N2 _
             (fun n m p =>
                [ (entry (N0 * N1) (n + N0 * m) p,
                   fun x => x [+] gamma (entry (N0 * N1) (n + N0 * m) p)
                                  [/] two);
                  (entry (N0 * N1) (n + N0 * m) p,
                   fun x => x [+] of_Z factor [/] two
                              [*] myconj (gamma (entry (N0 * N1)
                                                   (fst (partner n m p))
                                                   (snd (partner n m p))))) ])
             (fun _ => s0) n m p); try assumption.
  - unfold local_effect. cbn [for_each fold_left fst snd].
    rewrite !Z.eqb_refl. field. exact N2'.
  - intros; reflexivity.
  - intros n' m' p' o Ho. cbn [In] in Ho.
    repeat (destruct Ho as [<-|Ho]; [reflexivity|]). contradiction.
Qed.

(** X7: with exactly two equal axis vectors, [store_gamma3D] stores half
    the element plus [factor/2] times the conjugate of a partner element:
    [G_npm] when the first two axes are equal and [N1 = N2], the condition the
    code tests there; [G_mnp] when the first and the last are, [G_pmn] when
    the last two are, both stated for three equal numbers of moments, where
    the conditions the code tests ([N0 = N2] and [N0 = N1]) hold and the
    partner lies inside the array. *)
Theorem store_gamma3D_two_equal_axes (gamma : mem T) (N0 N1 N2 : Z)
        (a b : list Z) (n m p : Z) :
  a <> b -> 0 <= n < N0 -> 0 <= m < N1 -> 0 <= p < N2 ->
  (N1 = N2 ->
   exists storage : mem T,
     store_gamma3D gamma N0 N1 N2 [a; a; b] = Returns storage
     /\ storage (n + N0 * m + N0 * N1 * p)
        = G3 gamma N0 N1 n m p [/] two
          [+] of_Z (factor_of [a; a; b]) [/] two
              [*] myconj (G3 gamma N0 N1 n p m))
  /\ (N0 = N1 -> N0 = N2 ->
      exists storage : mem T,
        store_gamma3D gamma N0 N1 N2 [a; b; a] = Returns storage
        /\ storage (n + N0 * m + N0 * N1 * p)
           = G3 gamma N0 N1 n m p [/] two
             [+] of_Z (factor_of [a; b; a]) [/] two
                 [*] myconj (G3 gamma N0 N1 m n p))
  /\ (N0 = N1 -> N0 = N2 ->
      exists storage : mem T,
        store_gamma3D gamma N0 N1 N2 [b; a; a] = Returns storage
        /\ storage (n + N0 * m + N0 * N1 * p)
           = G3 gamma N0 N1 n m p [/] two
             [+] of_Z (factor_of [b; a; a]) [/] two
                 [*] myconj (G3 gamma N0 N1 p m n)).
Proof.
  intros D Hn Hm Hp.
  assert (D' : b <> a) by congruence.
  split; [|split].
  - intros E. rewrite <- E in *. eexists. split.
    + unfold store_gamma3D; cbn [length nth].
      rewrite ?vec_eqb_refl, ?(vec_eqb_neq a b D), ?(vec_eqb_neq b a D').
      cbn [andb negb]. rewrite ?Z.eqb_refl. reflexivity.
    + rewrite (for_nmp_two_terms gamma N0 N1 N1 _
                 (fun n m p => (n + N0 * p, m)) n m p) by lia.
      reflexivity.
  - intros E1 E2. rewrite <- E1, <- E2 in *. eexists. split.
    + unfold store_gamma3D; cbn [length nth].
      rewrite ?vec_eqb_refl, ?(vec_eqb_neq a b D), ?(vec_eqb_neq b a D').
      cbn [andb negb]. rewrite ?Z.eqb_refl. reflexivity.
    + rewrite (for_nmp_two_terms gamma N0 N0 N0 _
                 (fun n m p => (m + N0 * n, p)) n m p) by lia.
      reflexivity.
  - intros E1 E2. rewrite <- E1, <- E2 in *. eexists. split.
    + unfold store_gamma3D; cbn [length nth].
      rewrite ?vec_eqb_refl, ?(vec_eqb_neq a b D), ?(vec_eqb_neq b a D').
      cbn [andb negb]. rewrite ?Z.eqb_refl. reflexivity.
    + rewrite (for_nmp_two_terms gamma N0 N0 N0 _
                 (fun n m p => (p + N0 * m, n)) n m p) by lia.
      reflexivity.
Qed.

(** X8: with exactly two equal axis vectors and different numbers of
    moments along the two axes the code compares, none of the five blocks of
    [store_gamma3D] runs: the array stored is zero everywhere, whatever was
    accumulated. *)
Theorem store_gamma3D_unequal_moments (gamma : mem T) (N0 N1 N2 : Z)
        (a b : list Z) :
  a <> b ->
  (N1 <> N2 -> store_gamma3D gamma N0 N1 N2 [a; a; b] = Returns (fun _ => s0))
  /\ (N0 <> N2 ->
      store_gamma3D gamma N0 N1 N2 [a; b; a] = Returns (fun _ => s0))
  /\ (N0 <> N1 ->
      store_gamma3D gamma N0 N1 N2 [b; a; a] = Returns (fun _ => s0)).
Proof.
  intros D. assert (D' : b <> a) by congruence.
  split; [|split]; intros E; apply Z.eqb_neq in E;
    unfold store_gamma3D; cbn [length nth];
    rewrite ?vec_eqb_refl, ?(vec_eqb_neq a b D), ?(vec_eqb_neq b a D');
    cbn [andb negb]; rewrite ?E; reflexivity.
Qed.

End TwoEqualAxes.

(** * The accumulators on concrete samples *)

Section AccumulatorExamples.
Local Open Scope Z_scope.

Lemma Gamma1D_samples_mean_witness :
  Gamma1D_samples 4 0 [fun k => IZR k; fun k => IZR (2 * k)] (fun _ => s0) 3
  = running_mean (map (fun dots : Z -> R => dots 3)
                      [fun k => IZR k; fun k => IZR (2 * k)]).
Proof.
  destruct (Gamma1D_samples_mean
              4 [fun k => IZR k; fun k => IZR (2 * k)] 3) as [A _];
    [lia|reflexivity|].
  apply A. lia.
Defined.

Lemma Gamma2D_samples_mean_witness :
  (forall n m, 0 <= n < MEMORY * 1 -> 0 <= m < MEMORY * 2 ->
     Gamma2D_samples (MEMORY * 1) (MEMORY * 2) 0
                     [fun n m => IZR (n + m); fun n m => IZR (n * m)]
                     (fun _ => s0) (n + MEMORY * 1 * m)
     = running_mean (map (fun dots : Z -> Z -> R => dots n m)
                         [fun n m => IZR (n + m); fun n m => IZR (n * m)]))
  /\ (forall a, a < 0 \/ MEMORY * 1 * (MEMORY * 2) <= a ->
        Gamma2D_samples (MEMORY * 1) (MEMORY * 2) 0
                        [fun n m => IZR (n + m); fun n m => IZR (n * m)]
                        (fun _ => s0) a
        = s0).
Proof.
  apply (Gamma2D_samples_mean
           1 2 [fun n m => IZR (n + m); fun n m => IZR (n * m)]); lia.
Defined.

Lemma store_gamma3D_two_equal_axes_witness :
  exists storage : mem R,
    store_gamma3D (fun i => IZR i) 2 3 3 [[0]; [0]; [1]] = Returns storage
    /\ storage (1 + 2 * 2 + 2 * 3 * 0)
       = (G3 (fun i => IZR i) 2 3 1 2 0 [/] two
          [+] of_Z (factor_of [[0]; [0]; [1]]) [/] two
              [*] myconj (G3 (fun i => IZR i) 2 3 1 0 2)).
Proof.
  destruct (store_gamma3D_two_equal_axes
              (fun i => IZR i) 2 3 3 [0] [1] 1 2 0) as [A _];
    try lia; [discriminate|].
  apply A. reflexivity.
Defined.

Lemma store_gamma3D_unequal_moments_witness :
  store_gamma3D (fun i => IZR i) 2 3 4 [[0]; [0]; [1]]
  = Returns (fun _ => s0).
Proof.
  destruct (store_gamma3D_unequal_moments (fun i => IZR i) 2 3 4 [0] [1])
    as [A _]; [discriminate|].
  apply A. discriminate.
Defined.

End AccumulatorExamples.

(** * The accumulator of Gamma3D *)

Section Accumulator3DFacts.
Context {T : Type} `{ScalarField T}.
Local Open Scope Z_scope.

Lemma cell3_inj (N0 N1 a b c a' b' c' : Z) :
  0 <= a < N0 -> 0 <= a' < N0 -> 0 <= b < N1 -> 0 <= b' < N1 ->
  c * N1 * N0 + b * N0 + a = c' * N1 * N0 + b' * N0 + a' ->
  a = a' /\ b = b' /\ c = c'.
Proof.
  intros Ha Ha' Hb Hb' E.
  assert (X : (c * N1 + b) * N0 + a = (c' * N1 + b') * N0 + a') by lia.
  apply cell2_inj in X; try assumption. destruct X as [-> X].
  apply cell2_inj in X; try assumption. destruct X as [-> ->]. auto.
Qed.

Lemma Gamma3D_block_at (N0 N1 : Z) (average : nat) (n m p : Z)
      (tmp : Z -> Z -> T) (gamma : mem T) (i j : Z) :
  0 <= n -> n + MEMORY <= N0 -> 0 <= m -> m + MEMORY <= N1 ->
  0 <= i < MEMORY -> 0 <= j < MEMORY ->
  Gamma3D_block N0 N1 average n m p tmp gamma
                (p * N1 * N0 + (m + j) * N0 + n + i)
  = welford_update average (gamma (p * N1 * N0 + (m + j) * N0 + n + i))
                   (tmp i j).
Proof.
  intros Hn HN Hm HM Hi Hj. unfold Gamma3D_block.
  apply (for_each_apply _ _ _ i
           (fun x => welford_update average x (tmp i j))).
  - apply NoDup_Zrange.
  - apply In_Zrange. exact Hi.
  - intros i' g Hi' Ni. apply In_Zrange in Hi'.
    apply for_each_keep. intros j' g' Hj'. apply In_Zrange in Hj'.
    apply upd_other. intros E.
    assert (X : p * N1 * N0 + (m + j) * N0 + (n + i)
                = p * N1 * N0 + (m + j') * N0 + (n + i')) by lia.
    apply cell3_inj in X; unfold MEMORY in *; lia.
  - intros g. apply (for_each_apply _ _ _ j
                       (fun x => welford_update average x (tmp i j))).
    + apply NoDup_Zrange.
    + apply In_Zrange. exact Hj.
    + intros j' g' Hj' Nj. apply In_Zrange in Hj'. apply upd_other.
      intros E.
      assert (X : p * N1 * N0 + (m + j) * N0 + (n + i)
                  = p * N1 * N0 + (m + j') * N0 + (n + i)) by lia.
      apply cell3_inj in X; unfold MEMORY in *; lia.
    + intros g'. apply upd_same.
Qed.

Lemma Gamma3D_block_keep (N0 N1 : Z) (average : nat) (n m p : Z)
      (tmp : Z -> Z -> T) (gamma : mem T) (a : Z) :
  (forall i j, 0 <= i < MEMORY -> 0 <= j < MEMORY ->
               a <> p * N1 * N0 + (m + j) * N0 + n + i) ->
  Gamma3D_block N0 N1 average n m p tmp gamma a = gamma a.
Proof.
  intros Na. unfold Gamma3D_block.
  apply for_each_keep. intros i g Hi. apply In_Zrange in Hi.
  apply for_each_keep. intros j g' Hj. apply In_Zrange in Hj.
  apply upd_other. apply Na; assumption.
Qed.

Lemma Gamma3D_sample_at (q0 q1 N2 : Z) (average : nat)
      (dots : Z -> Z -> Z -> T) (gamma : mem T) (n m p : Z) :
  0 <= n < MEMORY * q0 -> 0 <= m < MEMORY * q1 -> 0 <= p < N2 ->
  Gamma3D_sample (MEMORY * q0) (MEMORY * q1) N2 average dots gamma
                 (p * (MEMORY * q1) * (MEMORY * q0) + m * (MEMORY * q0) + n)
  = welford_update average
      (gamma (p * (MEMORY * q1) * (MEMORY * q0) + m * (MEMORY * q0) + n))
      (dots n m p).
Proof.
  intros Hn Hm Hp. unfold Gamma3D_sample.
  set (N0 := MEMORY * q0). set (N1 := MEMORY * q1).
  pose proof (Z.div_mod n MEMORY ltac:(unfold MEMORY; lia)) as Qn.
  pose proof (Z.mod_pos_bound n MEMORY ltac:(unfold MEMORY; lia)) as Rn.
  pose proof (Z.div_mod m MEMORY ltac:(unfold MEMORY; lia)) as Qm.
  pose proof (Z.mod_pos_bound m MEMORY ltac:(unfold MEMORY; lia)) as Rm.
  assert (Hq0 : n / MEMORY < q0)
    by (apply Z.div_lt_upper_bound; unfold MEMORY in *; lia).
  assert (Hq1 : m / MEMORY < q1)
    by (apply Z.div_lt_upper_bound; unfold MEMORY in *; lia).
  assert (Hd0 : 0 <= n / MEMORY) by (apply Z.div_pos; unfold MEMORY; lia).
  assert (Hd1 : 0 <= m / MEMORY) by (apply Z.div_pos; unfold MEMORY; lia).
  set (a := p * N1 * N0 + m * N0 + n).
  assert (In0 : In (MEMORY * (n / MEMORY)) (Zrange_step 0 N0 MEMORY)).
  { apply In_Zrange_step_0; [unfold MEMORY; lia|].
    exists (n / MEMORY). unfold N0, MEMORY in *. lia. }
  assert (In1 : In (MEMORY * (m / MEMORY)) (Zrange_step 0 N1 MEMORY)).
  { apply In_Zrange_step_0; [unfold MEMORY; lia|].
    exists (m / MEMORY). unfold N1, MEMORY in *. lia. }
  assert (Other : forall n' m' p' g,
             In n' (Zrange_step 0 N0 MEMORY) ->
             In m' (Zrange_step 0 N1 MEMORY) ->
             (n', m', p')
             <> (MEMORY * (n / MEMORY), MEMORY * (m / MEMORY), p) ->
             Gamma3D_block N0 N1 average n' m' p'
               (fun i j => dots (n' + i) (m' + j) p') g a
             = g a).
  { intros n' m' p' g Hn' Hm' D.
    apply In_Zrange_step_0 in Hn'; [|unfold MEMORY; lia].
    apply In_Zrange_step_0 in Hm'; [|unfold MEMORY; lia].
    destruct Hn' as (kn & Hkn & -> & Ln). destruct Hm' as (km & Hkm & -> & Lm).
    apply Gamma3D_block_keep. intros i j Hi Hj E. unfold a in E.
    assert (X : p * N1 * N0 + m * N0 + n
                = p' * N1 * N0 + (km * MEMORY + j) * N0 + (kn * MEMORY + i))
      by lia.
    apply cell3_inj in X; unfold N0, N1, MEMORY in *; try lia.
    apply D. f_equal; [f_equal|]; lia. }
  apply (for_each_apply _ _ _ (MEMORY * (n / MEMORY))
           (fun x => welford_update average x (dots n m p))).
  - apply NoDup_Zrange_step. unfold MEMORY. lia.
  - exact In0.
  - intros n' g Hn' Nn. apply for_each_keep. intros p' g' Hp'.
    apply for_each_keep. intros m' g'' Hm'.
    apply Other; try assumption. congruence.
  - intros g. apply (for_each_apply _ _ _ p
                       (fun x => welford_update average x (dots n m p))).
    + apply NoDup_Zrange.
    + apply In_Zrange. exact Hp.
    + intros p' g' Hp' Np. apply for_each_keep. intros m' g'' Hm'.
      apply Other; try assumption. congruence.
    + intros g'. apply (for_each_apply _ _ _ (MEMORY * (m / MEMORY))
                          (fun x => welford_update average x (dots n m p))).
      * apply NoDup_Zrange_step. unfold MEMORY. lia.
      * exact In1.
      * intros m' g'' Hm' Nm. apply Other; try assumption. congruence.
      * intros g''. unfold a.
        replace (p * N1 * N0 + m * N0 + n)
          with (p * N1 * N0 + (MEMORY * (m / MEMORY) + m mod MEMORY) * N0
                + MEMORY * (n / MEMORY) + n mod MEMORY) by lia.
        rewrite Gamma3D_block_at; try assumption;
          try (unfold N0, N1, MEMORY in *; lia).
        f_equal. f_equal; lia.
Qed.

Lemma Gamma3D_samples_at (q0 q1 N2 : Z) (samples : list (Z -> Z -> Z -> T))
      (n m p : Z) :
  0 <= n < MEMORY * q0 -> 0 <= m < MEMORY * q1 -> 0 <= p < N2 ->
  forall (average : nat) (gamma : mem T),
    Gamma3D_samples (MEMORY * q0) (MEMORY * q1) N2 average samples gamma
      (p * (MEMORY * q1) * (MEMORY * q0) + m * (MEMORY * q0) + n)
    = snd (accumulate average
             (gamma (p * (MEMORY * q1) * (MEMORY * q0) + m * (MEMORY * q0) + n))
             (map (fun dots => dots n m p) samples)).
Proof.
  intros Hn Hm Hp.
  induction samples as [|dots rest IH]; intros average gamma; [reflexivity|].
  cbn [Gamma3D_samples map accumulate].
  rewrite IH, Gamma3D_sample_at by assumption. reflexivity.
Qed.

(** X9: when the first two numbers of moments are multiples of MEMORY and
    the third is even, the sample loops of Gamma3D leave in the cell
    [n + N0*m + N0*N1*p] of the flat array the running mean of the products
    for the moments [(n, m, p)]. *)
Theorem Gamma3D_samples_mean (q0 q1 N2 : Z)
        (samples : list (Z -> Z -> Z -> T)) (n m p : Z) :
  Z.rem N2 2 = 0 ->
  0 <= n < MEMORY * q0 -> 0 <= m < MEMORY * q1 -> 0 <= p < N2 ->
  Gamma3D_samples (MEMORY * q0) (MEMORY * q1) N2 0 samples (fun _ => s0)
                  (n + MEMORY * q0 * m + MEMORY * q0 * (MEMORY * q1) * p)
  = running_mean (map (fun dots => dots n m p) samples).
Proof.
  intros _ Hn Hm Hp.
  replace (n + MEMORY * q0 * m + MEMORY * q0 * (MEMORY * q1) * p)
    with (p * (MEMORY * q1) * (MEMORY * q0) + m * (MEMORY * q0) + n) by lia.
  now rewrite Gamma3D_samples_at.
Qed.

End Accumulator3DFacts.

Section Accumulator3DExamples.
Local Open Scope Z_scope.

Lemma Gamma3D_samples_mean_witness :
  Gamma3D_samples (MEMORY * 1) (MEMORY * 1) 2 0
                  [fun n m p => IZR (n + m + p); fun n m p => IZR (n * m * p)]
                  (fun _ => s0)
                  (3 + MEMORY * 1 * 4 + MEMORY * 1 * (MEMORY * 1) * 1)
  = running_mean (map (fun dots : Z -> Z -> Z -> R => dots 3 4 1)
                      [fun n m p => IZR (n + m + p);
                       fun n m p => IZR (n * m * p)]).
Proof.
  apply (Gamma3D_samples_mean
           1 1 2 [fun n m p => IZR (n + m + p); fun n m p => IZR (n * m * p)]
           3 4 1); [reflexivity|unfold MEMORY; lia..].
Defined.

End Accumulator3DExamples.

(** * [Multiply2] on any Hamiltonian *)

Section Multiply2Theorems.
Context {T : Type} `{Scalar T}.
Local Open Scope Z_scope.

(** X10: on any Hamiltonian and a domain of at most two orbitals,
    [Multiply2<MULT>] advances the index and
    leaves at every bulk site of the new slot [- MULT psi2] plus [MULT + 1]
    times the hoppings [h.t] applied to [psi1]: the on-site energies, the
    structural disorder, the vacancies and the magnetic field of the
    Hamiltonian have no part in it. *)
Theorem Multiply2_recursion (STRIDE MULT : Z) (sys : System T) (k : nat)
        (i : Z) :
  (k < length (fst sys))%nat ->
  lattice_ok STRIDE (r (thread sys k)) ->
  index_tables_fit (r (thread sys k)) ->
  ring_ok (thread sys k) ->
  bulk (r (thread sys k)) i ->
  (forall ib,
     0 <= ib < NHoppings (h (thread sys k)) (coord_orb (r (thread sys k)) i) ->
     in_slot (r (thread sys k))
             (i + d (h (thread sys k)) ib (coord_orb (r (thread sys k)) i))) ->
  index (thread (Multiply2 MULT sys) k)
  = inc_index (memory (thread sys k)) (index (thread sys k))
  /\ v (thread (Multiply2 MULT sys) k)
       (col (r (thread sys k)) (index (thread (Multiply2 MULT sys) k)) + i)
     = [-] of_Z MULT [*] psi_M2 (thread sys k) i
       [+] ssum (map (fun ib =>
                        of_Z (MULT + 1)
                        [*] t (h (thread sys k)) ib
                              (coord_orb (r (thread sys k)) i)
                        [*] psi_M1 (thread sys k)
                              (i + d (h (thread sys k)) ib
                                     (coord_orb (r (thread sys k)) i)))
                     (Zrange 0 (NHoppings (h (thread sys k))
                                          (coord_orb (r (thread sys k)) i)))).
Proof.
  intros Hk OK Fit R Bi Hs.
  destruct (Multiply2_fields MULT sys k Hk) as (_ & _ & _ & Ei).
  split; [exact Ei|].
  rewrite Ei. change (col (r (thread sys k))
                          (inc_index (memory (thread sys k))
                                     (index (thread sys k))))
    with (phi0_of (thread sys k)).
  apply (Multiply2_bulk_value STRIDE MULT sys k i Hk OK R Bi Hs).
Qed.

End Multiply2Theorems.

Module SmallFactsMore.
Import Small SmallFacts.
Local Open Scope Z_scope.

Lemma ring_ok_small (h : Hamiltonian Z) (memory : Z) :
  2 <= memory -> ring_ok (thread_of h memory).
Proof. intros M. split; simpl; lia. Qed.

(** On the small domain with a vacancy at the site 14, [Multiply2<1>]
    leaves [2 * (3 * 16 + 5 * 9) - 51 = 135] at that site. *)
Lemma Multiply2_recursion_witness :
  index (thread (Multiply2 1 (system_of (with_vacancies []) 2)) 0)
  = inc_index 2 0
  /\ v (thread (Multiply2 1 (system_of (with_vacancies []) 2)) 0)
       (col lattice
            (index (thread (Multiply2 1 (system_of (with_vacancies []) 2)) 0))
        + 14)
     = 135.
Proof.
  destruct (Multiply2_recursion STRIDE 1 (system_of (with_vacancies []) 2)
              0%nat 14) as [Ei Ev].
  - simpl. lia.
  - exact lattice_ok_small.
  - exact tables_fit_small.
  - apply ring_ok_small. lia.
  - exact bulk_14.
  - intros ib Hib. apply hoppings_in_slot; [exact bulk_14|exact Hib].
  - split; [exact Ei|]. exact Ev.
Defined.

End SmallFactsMore.

(** * [Exchange_Boundaries] writes the ghost frame, from the bulk *)

Section FrameFacts.
Context {T : Type} `{Scalar T}.
Local Open Scope Z_scope.

Lemma set_index_range (r : LatticeStructure T) (orbitals x y io : Z) :
  in_domain r x y -> 0 <= io < orbitals ->
  0 <= set_index r x y io < Ld0 r * Ld1 r * orbitals.
Proof.
  intros [Hx Hy] Hio. unfold set_index, basis1, basis2.
  assert (P : 0 < Ld0 r * Ld1 r) by (apply Z.mul_pos_pos; lia).
  assert (0 <= y * Ld0 r) by (apply Z.mul_nonneg_nonneg; lia).
  assert (0 <= io * (Ld0 r * Ld1 r)) by (apply Z.mul_nonneg_nonneg; lia).
  assert ((y + 1) * Ld0 r <= Ld1 r * Ld0 r)
    by (apply Z.mul_le_mono_nonneg_r; lia).
  assert ((io + 1) * (Ld0 r * Ld1 r) <= orbitals * (Ld0 r * Ld1 r))
    by (apply Z.mul_le_mono_nonneg_r; lia).
  lia.
Qed.

(** The cells of a column are the cells of the domain, orbital by
    orbital. *)
Lemma column_cell (r : LatticeStructure T) (orbitals i : Z) :
  0 < Ld0 r -> 0 < Ld1 r ->
  0 <= i < Ld0 r * Ld1 r * orbitals ->
  exists x y io,
    in_domain r x y /\ 0 <= io < orbitals /\ i = set_index r x y io.
Proof.
  intros P0 P1 Hi.
  exists (Z.rem i (Ld0 r)), (Z.rem (Z.quot i (Ld0 r)) (Ld1 r)),
         (Z.quot i (Ld0 r * Ld1 r)).
  unfold in_domain, set_index, basis1, basis2.
  assert (Hi0 : 0 <= i) by lia.
  pose proof (Z.quot_rem' i (Ld0 r)) as E0.
  pose proof (Z.rem_bound_pos i (Ld0 r) Hi0 P0) as B0.
  assert (Q0 : 0 <= Z.quot i (Ld0 r)) by (apply Z.quot_pos; lia).
  pose proof (Z.quot_rem' (Z.quot i (Ld0 r)) (Ld1 r)) as E1.
  pose proof (Z.rem_bound_pos _ (Ld1 r) Q0 P1) as B1.
  assert (Q1 : 0 <= Z.quot (Z.quot i (Ld0 r)) (Ld1 r))
    by (apply Z.quot_pos; lia).
  rewrite <- Z.quot_quot by lia.
  set (x := Z.rem i (Ld0 r)) in *.
  set (q := Z.quot i (Ld0 r)) in *.
  set (y := Z.rem q (Ld1 r)) in *.
  set (io := Z.quot q (Ld1 r)) in *.
  assert (Ei : i = x + y * Ld0 r + io * (Ld0 r * Ld1 r)).
  { rewrite E0 at 1. rewrite E1 at 1. ring. }
  assert (0 <= y * Ld0 r) by (apply Z.mul_nonneg_nonneg; lia).
  assert (Hio : io < orbitals).
  { destruct (Z_lt_le_dec io orbitals) as [L|L]; [exact L|].
    assert (orbitals * (Ld0 r * Ld1 r) <= io * (Ld0 r * Ld1 r))
      by (apply Z.mul_le_mono_nonneg_r; [apply Z.mul_nonneg_nonneg|]; lia).
    lia. }
  repeat split; lia.
Qed.

Lemma bulk_not_frame (r : LatticeStructure T) (orbitals c x y io : Z) :
  NGHOSTS <= x < Ld0 r - NGHOSTS -> NGHOSTS <= y < Ld1 r - NGHOSTS ->
  0 <= io ->
  ~ frame_cell r orbitals c (c + set_index r x y io).
Proof.
  intros Hx Hy Hio (x' & y' & io' & [[Hx' Hy'] F] & Hio' & E).
  assert (E' : set_index r x y io = set_index r x' y' io') by lia.
  apply set_index_inj in E'; unfold NGHOSTS in *; lia.
Qed.

Lemma outside_not_frame (r : LatticeStructure T) (orbitals c a : Z) :
  a < c \/ c + Ld0 r * Ld1 r * orbitals <= a ->
  ~ frame_cell r orbitals c a.
Proof.
  intros Ha (x & y & io & [D F] & Hio & E).
  pose proof (set_index_range r orbitals x y io D Hio). lia.
Qed.

(** A cell is a cell of the ghost frame or it is not. *)
Lemma frame_cell_or_not (r : LatticeStructure T) (orbitals c a : Z) :
  0 < Ld0 r -> 0 < Ld1 r ->
  frame_cell r orbitals c a \/ ~ frame_cell r orbitals c a.
Proof.
  intros P0 P1.
  destruct (Z_lt_le_dec a c) as [Lo|Lo];
    [right; apply outside_not_frame; lia|].
  destruct (Z_lt_le_dec a (c + Ld0 r * Ld1 r * orbitals)) as [Hi|Hi];
    [|right; apply outside_not_frame; lia].
  destruct (column_cell r orbitals (a - c) P0 P1)
    as (x & y & io & [Hx Hy] & Hio & E); [lia|].
  replace a with (c + set_index r x y io) by lia.
  destruct (Z_lt_le_dec x NGHOSTS) as [X0|X0];
    [left; exists x, y, io; unfold in_frame, in_domain; repeat split; lia|].
  destruct (Z_lt_le_dec x (Ld0 r - NGHOSTS)) as [X1|X1];
    [|left; exists x, y, io; unfold in_frame, in_domain; repeat split; lia].
  destruct (Z_lt_le_dec y NGHOSTS) as [Y0|Y0];
    [left; exists x, y, io; unfold in_frame, in_domain; repeat split; lia|].
  destruct (Z_lt_le_dec y (Ld1 r - NGHOSTS)) as [Y1|Y1];
    [|left; exists x, y, io; unfold in_frame, in_domain; repeat split; lia].
  right. apply bulk_not_frame; lia.
Qed.

(** The cells the unpacking loops write are cells of the ghost frame. *)
Lemma ghost_cell_frame (r : LatticeStructure T) (c d b io i ig : Z) :
  exchange_ok r ->
  0 <= io < Orb r -> 0 <= i < max_ r d -> 0 <= ig < NGHOSTS ->
  frame_cell r (Orb r) c (c + ghost_cell r d b io i ig).
Proof.
  intros EX Hio Hi Hig.
  destruct (ghost_cell_coords r EX d b io i ig) as (x & y & E & Hx & Hy & G & _);
    try lia.
  exists x, y, io. split; [|split; [exact Hio|now rewrite E]].
  split; [split; assumption|].
  destruct (d =? 0), (b =? 0); lia.
Qed.

Lemma Exchange_Boundaries_off_frame (sys : System T) (k : nat) (a : Z) :
  (k < length (fst sys))%nat ->
  exchange_ok (r (thread sys k)) ->
  ~ frame_cell (r (thread sys k)) (Orb (r (thread sys k)))
               (col (r (thread sys k)) (index (thread sys k))) a ->
  v (thread (Exchange_Boundaries sys) k) a = v (thread sys k) a.
Proof.
  intros Hk EX N. apply Exchange_Boundaries_keep; [exact Hk|].
  intros d b io i ig Hb Hio Hi Hig E. apply N. rewrite E.
  apply ghost_cell_frame; assumption.
Qed.


Lemma same_frame_cell (r r' : LatticeStructure T) (orbitals c a : Z) :
  same_extents r r' -> frame_cell r orbitals c a -> frame_cell r' orbitals c a.
Proof.
  intros E (x & y & io & F & Hio & Ea).
  exists x, y, io. unfold in_frame, in_domain in *.
  rewrite <- (same_Ld0 E), <- (same_Ld1 E), <- (same_set_index _ _ E).
  auto.
Qed.

(** A cell off the ghost frame of a domain of the extents of [r0]. *)
Lemma off_frame_same (r r0 : LatticeStructure T) (idx a : Z) :
  same_extents r r0 ->
  ~ frame_cell r0 (Orb r0) (col r0 idx) a ->
  ~ frame_cell r (Orb r) (col r idx) a.
Proof.
  intros E N F. apply N. reshape_in E F.
  apply (same_frame_cell _ _ _ _ _ E). exact F.
Qed.

(** Two systems with the same geometry, indices and neighbour maps whose
    vectors agree off the ghost frames of the current columns: after the
    exchange the vectors agree everywhere. *)
Lemma Exchange_Boundaries_from_bulk (r0 : LatticeStructure T)
      (sys1 sys2 : System T) :
  uniform_system r0 sys1 -> uniform_system r0 sys2 -> exchange_ok r0 ->
  Sized r0 = Ld0 r0 * Ld1 r0 * Orb r0 ->
  length (fst sys1) = length (fst sys2) ->
  (forall j, (j < length (fst sys1))%nat ->
     index (thread sys1 j) = index (thread sys2 j)
     /\ block (thread sys1 j) = block (thread sys2 j)
     /\ forall a,
          ~ frame_cell r0 (Orb r0) (col r0 (index (thread sys1 j))) a ->
          v (thread sys1 j) a = v (thread sys2 j) a) ->
  forall k a, (k < length (fst sys1))%nat ->
    v (thread (Exchange_Boundaries sys1) k) a
    = v (thread (Exchange_Boundaries sys2) k) a.
Proof.
  intros U1 U2 EX ES EL Same k a Hk.
  assert (Hk2 : (k < length (fst sys2))%nat) by (rewrite <- EL; exact Hk).
  destruct (U1 k Hk) as [Er1 Bk1]. destruct (U2 k Hk2) as [Er2 Bk2].
  destruct (Same k Hk) as (Ei & Eb & Ev).
  pose proof (ex_Ld0 EX) as L0. pose proof (ex_Ld1 EX) as L1.
  set (c := col r0 (index (thread sys1 k))).
  assert (Off : forall a', ~ frame_cell r0 (Orb r0) c a' ->
                v (thread (Exchange_Boundaries sys1) k) a'
                = v (thread (Exchange_Boundaries sys2) k) a').
  { intros a' N.
    rewrite (Exchange_Boundaries_off_frame sys1 k a' Hk);
      [|apply (same_exchange_ok _ r0 Er1); assumption
       |apply (off_frame_same _ r0 _ _ Er1); assumption].
    rewrite (Exchange_Boundaries_off_frame sys2 k a' Hk2);
      [|apply (same_exchange_ok _ r0 Er2); assumption
       |apply (off_frame_same _ r0 _ _ Er2); rewrite <- Ei; assumption].
    apply Ev. exact N. }
  assert (Source : forall (L : nat) x y io,
             (L < length (fst sys1))%nat ->
             NGHOSTS <= x < Ld0 r0 - NGHOSTS ->
             NGHOSTS <= y < Ld1 r0 - NGHOSTS -> 0 <= io ->
             v (thread sys1 L)
               (col r0 (index (thread sys1 L)) + set_index r0 x y io)
             = v (thread sys2 L)
                 (col r0 (index (thread sys2 L)) + set_index r0 x y io)).
  { intros L x y io HL Hx Hy Hio.
    destruct (Same L HL) as (EiL & _ & EvL). rewrite <- EiL.
    apply EvL. apply bulk_not_frame; assumption. }
  destruct (Z_lt_le_dec a c) as [Lo|Lo];
    [apply Off, outside_not_frame; lia|].
  destruct (Z_lt_le_dec a (c + Sized r0)) as [Hi|Hi];
    [|apply Off, outside_not_frame; lia].
  destruct (column_cell r0 (Orb r0) (a - c))
    as (x & y & io & [Hx Hy] & Hio & E);
    try (unfold NGHOSTS in *; lia).
  replace a with (c + set_index r0 x y io) by lia.
  assert (Gx : forall z L, 3 * NGHOSTS <= L -> 0 <= z < L ->
                 ~ NGHOSTS <= z < L - NGHOSTS ->
                 exists b ig, (b = 0 \/ b = 1) /\ 0 <= ig < NGHOSTS
                              /\ z = ghost_origin b L + ig).
  { intros z L HL Hz N. unfold ghost_origin, NGHOSTS in *.
    destruct (Z_lt_le_dec z 2).
    - exists 0, z. change (0 =? 0) with true. cbv iota. lia.
    - exists 1, (z - (L - 2)). change (1 =? 0) with false. cbv iota. lia. }
  destruct (Hx) as [Hx0 Hx1]. destruct (Hy) as [Hy0 Hy1].
  assert (Dy : NGHOSTS <= y < Ld1 r0 - NGHOSTS
               \/ ~ NGHOSTS <= y < Ld1 r0 - NGHOSTS) by lia.
  assert (Dx : NGHOSTS <= x < Ld0 r0 - NGHOSTS
               \/ ~ NGHOSTS <= x < Ld0 r0 - NGHOSTS) by lia.
  destruct (Exchange_Boundaries_halo r0 sys1 k io U1 EX Hk Hio)
    as (S1 & R1 & C1).
  destruct (Exchange_Boundaries_halo r0 sys2 k io U2 EX Hk2 Hio)
    as (S2 & R2 & C2).
  unfold c. destruct Dy as [By|Gy]; [destruct Dx as [Bx|Gx']|].
  - apply Off. apply bulk_not_frame; try assumption. lia.
  - destruct (Gx x (Ld0 r0) L0 Hx Gx') as (b & ig & Hb & Hig & ->).
    rewrite S1 by assumption. rewrite Ei, S2 by assumption.
    rewrite <- Eb.
    assert (HL : (Z.to_nat (block (thread sys1 k) 0 b)
                  < length (fst sys1))%nat)
      by (specialize (Bk1 0 b); lia).
    assert (Hb' : 1 - b = 0 \/ 1 - b = 1) by lia.
    destruct (origins_range (1 - b) (Ld0 r0) ig Hb' L0 Hig) as (_ & _ & R).
    apply Source; try assumption. lia.
  - destruct (Gx y (Ld1 r0) L1 Hy Gy) as (b1 & ig1 & Hb1 & Hig1 & ->).
    assert (HL1 : (Z.to_nat (block (thread sys1 k) 1 b1)
                   < length (fst sys1))%nat)
      by (specialize (Bk1 1 b1); lia).
    assert (Hb1' : 1 - b1 = 0 \/ 1 - b1 = 1) by lia.
    destruct (origins_range (1 - b1) (Ld1 r0) ig1 Hb1' L1 Hig1)
      as (_ & _ & Ry).
    destruct Dx as [Bx|Gx'].
    + rewrite R1 by assumption. rewrite Ei, R2 by assumption.
      rewrite <- Eb. apply Source; try assumption. lia.
    + destruct (Gx x (Ld0 r0) L0 Hx Gx') as (b0 & ig0 & Hb0 & Hig0 & ->).
      rewrite C1 by assumption. rewrite Ei, C2 by assumption.
      rewrite <- Eb.
      destruct (Same _ HL1) as (_ & EbL & _). rewrite <- EbL.
      destruct (U1 _ HL1) as [_ BL].
      assert (HL0 : (Z.to_nat
                       (block (thread sys1
                                 (Z.to_nat (block (thread sys1 k) 1 b1)))
                              0 b0)
                     < length (fst sys1))%nat)
        by (specialize (BL 0 b0); lia).
      assert (Hb0' : 1 - b0 = 0 \/ 1 - b0 = 1) by lia.
      destruct (origins_range (1 - b0) (Ld0 r0) ig0 Hb0' L0 Hig0)
        as (_ & _ & Rx).
      apply Source; try assumption. lia.
Qed.

Lemma uniform_Exchange_Boundaries (r0 : LatticeStructure T) (sys : System T) :
  uniform_system r0 sys -> uniform_system r0 (Exchange_Boundaries sys).
Proof.
  intros U. rewrite Exchange_Boundaries_unfold.
  apply uniform_exchange_axis, uniform_exchange_axis. exact U.
Qed.

Lemma Exchange_Boundaries_length (sys : System T) :
  length (fst (Exchange_Boundaries sys)) = length (fst sys).
Proof.
  rewrite Exchange_Boundaries_unfold, !exchange_axis_length. reflexivity.
Qed.


End FrameFacts.

(** * [empty_ghosts] *)

Section EmptyGhostsFacts.
Context {T : Type} `{Scalar T}.
Local Open Scope Z_scope.

Add Ring scalar_ring_ghosts : scalar_ring.

(** A trace of statements [*= 0]: the cells it names end at zero, the
    others are kept. *)
Lemma local_effect_zeroing (a : Z) (l : list (cell_op T)) :
  (forall o, In o l -> forall x, snd o x = x [*] s0) ->
  forall x,
    local_effect a l x
    = if existsb (fun o => fst o =? a) l then s0 else x.
Proof.
  induction l as [|o l IH]; intros Hl x; [reflexivity|].
  rewrite local_effect_cons. cbn [existsb].
  rewrite IH by (intros o' Ho'; apply Hl; now right).
  destruct (fst o =? a); cbn [orb].
  - rewrite (Hl o (or_introl eq_refl)).
    destruct (existsb (fun o0 : Z * (T -> T) => fst o0 =? a) l);
      [reflexivity|ring].
  - reflexivity.
Qed.

Lemma side_loop_trace (orbitals L : Z) (addr : Z -> Z -> Z -> Z) (w : mem T) :
  for_each (Zrange 0 orbitals) (fun io =>
    for_each (Zrange 0 L) (fun i =>
      for_each (Zrange 0 NGHOSTS) (fun d w =>
        upd w (addr io i d) (w (addr io i d) [*] s0)))) w
  = exec_ops (side_trace orbitals L addr) w.
Proof.
  unfold side_trace.
  apply (for_each_trace (Zrange 0 orbitals) _
           (fun io => flat_map (fun i =>
              flat_map (fun d => [zero_op (addr io i d)]) (Zrange 0 NGHOSTS))
              (Zrange 0 L))).
  intros io s _.
  apply (for_each_trace (Zrange 0 L) _
           (fun i => flat_map (fun d => [zero_op (addr io i d)])
                              (Zrange 0 NGHOSTS))).
  intros i s' _.
  apply (for_each_trace (Zrange 0 NGHOSTS) _
           (fun d => [zero_op (addr io i d)])).
  intros d s'' _. reflexivity.
Qed.

Lemma In_side_trace (orbitals L : Z) (addr : Z -> Z -> Z -> Z)
      (o : cell_op T) :
  In o (side_trace orbitals L addr)
  <-> exists io i d,
        0 <= io < orbitals /\ 0 <= i < L /\ 0 <= d < NGHOSTS
        /\ o = zero_op (addr io i d).
Proof.
  unfold side_trace. rewrite in_flat_map. split.
  - intros (io & Hio & Ho). apply in_flat_map in Ho.
    destruct Ho as (i & Hi & Ho). apply in_flat_map in Ho.
    destruct Ho as (d & Hd & [<-|[]]).
    apply In_Zrange in Hio, Hi, Hd. exists io, i, d. auto.
  - intros (io & i & d & Hio & Hi & Hd & ->).
    exists io. split; [apply In_Zrange; exact Hio|].
    apply in_flat_map. exists i. split; [apply In_Zrange; exact Hi|].
    apply in_flat_map. exists d. split; [apply In_Zrange; exact Hd|].
    now left.
Qed.

(** The statements of [empty_ghosts], side by side. *)
Lemma empty_ghosts_trace (r : LatticeStructure T) (Ld2 m : Z) (w : mem T) :
  empty_ghosts r Ld2 m w
  = exec_ops
      (side_trace Ld2 (Ld0 r) (fun io i0 d => col r m + set_index r i0 d io)
       ++ side_trace Ld2 (Ld0 r)
            (fun io i0 d => col r m + set_index r i0 (Ld1 r - 1 - d) io)
       ++ side_trace Ld2 (Ld1 r)
            (fun io i1 d => col r m + set_index r d i1 io)
       ++ side_trace Ld2 (Ld1 r)
            (fun io i1 d => col r m + set_index r (Ld0 r - 1 - d) i1 io))
      w.
Proof.
  rewrite !exec_ops_app. unfold empty_ghosts, times_zero. cbv zeta.
  rewrite <- !side_loop_trace. reflexivity.
Qed.

Lemma empty_ghosts_at (r : LatticeStructure T) (Ld2 m : Z) (w : mem T)
      (a : Z) :
  NGHOSTS <= Ld0 r -> NGHOSTS <= Ld1 r ->
  (frame_cell r Ld2 (col r m) a -> empty_ghosts r Ld2 m w a = s0)
  /\ (~ frame_cell r Ld2 (col r m) a -> empty_ghosts r Ld2 m w a = w a).
Proof.
  intros L0 L1. rewrite empty_ghosts_trace, exec_ops_at.
  rewrite local_effect_zeroing.
  2:{ intros o Ho x. repeat (apply in_app_or in Ho; destruct Ho as [Ho|Ho]);
      apply In_side_trace in Ho;
      destruct Ho as (io & i & d & _ & _ & _ & ->); reflexivity. }
  match goal with |- context [existsb ?f ?l] =>
    destruct (existsb f l) eqn:E end.
  - split; [reflexivity|]. intros N. exfalso. apply N.
    apply existsb_exists in E. destruct E as (o & Ho & Eo).
    apply Z.eqb_eq in Eo. subst a.
    repeat (apply in_app_or in Ho; destruct Ho as [Ho|Ho]);
      apply In_side_trace in Ho;
      destruct Ho as (io & i & d & Hio & Hi & Hd & ->); cbn [fst zero_op];
      eexists _, _, io; (split; [|split; [exact Hio|reflexivity]]);
      unfold in_frame, in_domain, NGHOSTS in *; lia.
  - split; [|reflexivity]. intros (x & y & io & [[Hx Hy] F] & Hio & ->).
    exfalso.
    assert (X : existsb (fun o : cell_op T =>
                           fst o =? col r m + set_index r x y io)
                  (side_trace Ld2 (Ld0 r)
                     (fun io i0 d => col r m + set_index r i0 d io)
                   ++ side_trace Ld2 (Ld0 r)
                        (fun io i0 d =>
                           col r m + set_index r i0 (Ld1 r - 1 - d) io)
                   ++ side_trace Ld2 (Ld1 r)
                        (fun io i1 d => col r m + set_index r d i1 io)
                   ++ side_trace Ld2 (Ld1 r)
                        (fun io i1 d =>
                           col r m + set_index r (Ld0 r - 1 - d) i1 io))
                = true).
    { apply existsb_exists.
      exists (zero_op (col r m + set_index r x y io)).
      split; [|apply Z.eqb_refl].
      destruct (Z_lt_le_dec y NGHOSTS) as [Y0|Y0].
      { apply in_or_app. left. apply In_side_trace.
        exists io, x, y. repeat split; lia. }
      apply in_or_app. right.
      destruct (Z_lt_le_dec y (Ld1 r - NGHOSTS)) as [Y1|Y1].
      2:{ apply in_or_app. left. apply In_side_trace.
          exists io, x, (Ld1 r - 1 - y).
          replace (Ld1 r - 1 - (Ld1 r - 1 - y)) with y by lia.
          repeat split; unfold NGHOSTS in *; lia. }
      apply in_or_app. right.
      destruct (Z_lt_le_dec x NGHOSTS) as [X0|X0].
      { apply in_or_app. left. apply In_side_trace.
        exists io, y, x. repeat split; lia. }
      apply in_or_app. right. apply In_side_trace.
      exists io, y, (Ld0 r - 1 - x).
      replace (Ld0 r - 1 - (Ld0 r - 1 - x)) with x by lia.
      repeat split; unfold NGHOSTS in *; lia. }
    apply not_true_iff_false in E. apply E. exact X.
Qed.

(** X13: [empty_ghosts(mem_index)] sets to zero the cells of the column
    [mem_index] within NGHOSTS of a border of the domain, for the orbitals
    below [r.Ld[2]], and changes no other cell: the bulk cells of that column
    and all the cells of the other columns are kept. *)
Theorem empty_ghosts_zeroes_the_frame (r : LatticeStructure T)
        (Ld2 mem_index : Z) (w : mem T) :
  NGHOSTS <= Ld0 r -> NGHOSTS <= Ld1 r ->
  (forall x y io,
      in_frame r x y -> 0 <= io < Ld2 ->
      empty_ghosts r Ld2 mem_index w (col r mem_index + set_index r x y io)
      = s0)
  /\ (forall x y io,
         NGHOSTS <= x < Ld0 r - NGHOSTS -> NGHOSTS <= y < Ld1 r - NGHOSTS ->
         0 <= io ->
         empty_ghosts r Ld2 mem_index w (col r mem_index + set_index r x y io)
         = w (col r mem_index + set_index r x y io))
  /\ (forall a,
         a < col r mem_index \/ col r mem_index + Ld0 r * Ld1 r * Ld2 <= a ->
         empty_ghosts r Ld2 mem_index w a = w a).
Proof.
  intros L0 L1. split; [|split].
  - intros x y io F Hio.
    apply (empty_ghosts_at r Ld2 mem_index w _ L0 L1).
    exists x, y, io. auto.
  - intros x y io Hx Hy Hio.
    apply (empty_ghosts_at r Ld2 mem_index w _ L0 L1).
    apply bulk_not_frame; assumption.
  - intros a Ha.
    apply (empty_ghosts_at r Ld2 mem_index w _ L0 L1).
    apply outside_not_frame. exact Ha.
Qed.

(** ** [empty_ghosts] and [Exchange_Boundaries] *)

Lemma empty_ghosts_system (sys : System T) (k : nat) :
  (k < length (fst sys))%nat ->
  thread (map (fun th => empty_ghosts_of (Orb (r th)) (index th) th) (fst sys),
          snd sys) k
  = empty_ghosts_of (Orb (r (thread sys k))) (index (thread sys k))
                    (thread sys k).
Proof.
  intros Hk.
  apply (exchange_after_local
           (fun th => empty_ghosts_of (Orb (r th)) (index th) th) sys k Hk).
Qed.



End EmptyGhostsFacts.

(** * The exchange and [empty_ghosts] on the pair of threads *)

Module SmallExchange.
Import Small SmallFacts.
Local Open Scope Z_scope.

Lemma sized_small : Sized lattice = Ld0 lattice * Ld1 lattice * Orb lattice.
Proof. reflexivity. Qed.



Lemma empty_ghosts_zeroes_the_frame_witness :
  empty_ghosts lattice 1 0 (fun a => a + 1)
               (col lattice 0 + set_index lattice 5 3 0) = 0
  /\ empty_ghosts lattice 1 0 (fun a => a + 1)
                  (col lattice 0 + set_index lattice 2 3 0)
     = col lattice 0 + set_index lattice 2 3 0 + 1.
Proof.
  destruct (empty_ghosts_zeroes_the_frame lattice 1 0 (fun a => a + 1))
    as (Z0 & B & _).
  - unfold NGHOSTS. simpl. lia.
  - unfold NGHOSTS. simpl. lia.
  - split.
    + apply (Z0 5 3 0); [|lia].
      unfold in_frame, in_domain, NGHOSTS. simpl. lia.
    + apply (B 2 3 0); unfold NGHOSTS; simpl; lia.
Defined.



End SmallExchange.

(** * [initiate_vector] *)

Section InitiateFacts.
Context {T : Type} `{ScalarField T}.
Local Open Scope Z_scope.

Lemma In_bulk_sites (r : LatticeStructure T) (i : Z) :
  In i (bulk_sites r)
  <-> exists x y io,
        NGHOSTS <= x < Ld0 r - NGHOSTS /\ NGHOSTS <= y < Ld1 r - NGHOSTS
        /\ 0 <= io < Orb r /\ i = set_index r x y io.
Proof.
  unfold bulk_sites. rewrite in_flat_map. split.
  - intros (io & Hio & Hi). apply in_flat_map in Hi.
    destruct Hi as (y & Hy & Hi). apply in_map_iff in Hi.
    destruct Hi as (x & <- & Hx). apply In_Zrange in Hio, Hy, Hx.
    exists x, y, io. auto.
  - intros (x & y & io & Hx & Hy & Hio & ->).
    exists io. split; [apply In_Zrange; exact Hio|].
    apply in_flat_map. exists y. split; [apply In_Zrange; exact Hy|].
    apply in_map_iff. exists x. split; [reflexivity|apply In_Zrange; exact Hx].
Qed.

Lemma NoDup_bulk_sites (r : LatticeStructure T) : NoDup (bulk_sites r).
Proof.
  unfold bulk_sites.
  apply NoDup_flat_map; [apply NoDup_Zrange| |].
  - intros io Hio. apply In_Zrange in Hio.
    apply NoDup_flat_map; [apply NoDup_Zrange| |].
    + intros y Hy. apply In_Zrange in Hy.
      apply NoDup_map_on; [|apply NoDup_Zrange].
      intros x x' Hx Hx' E. apply In_Zrange in Hx, Hx'.
      apply set_index_inj in E; unfold NGHOSTS in *; lia.
    + intros y y' i Hy Hy' Hi Hi'. apply In_Zrange in Hy, Hy'.
      apply in_map_iff in Hi, Hi'.
      destruct Hi as (x & <- & Hx). destruct Hi' as (x' & E & Hx').
      apply In_Zrange in Hx, Hx'.
      apply set_index_inj in E; unfold NGHOSTS in *; lia.
  - intros io io' i Hio Hio' Hi Hi'. apply In_Zrange in Hio, Hio'.
    apply in_flat_map in Hi, Hi'.
    destruct Hi as (y & Hy & Hi). destruct Hi' as (y' & Hy' & Hi').
    apply In_Zrange in Hy, Hy'. apply in_map_iff in Hi, Hi'.
    destruct Hi as (x & <- & Hx). destruct Hi' as (x' & E & Hx').
    apply In_Zrange in Hx, Hx'.
    apply set_index_inj in E; unfold NGHOSTS in *; lia.
Qed.

(** The place of a bulk site in the order of the loops. *)
Lemma nth_bulk_sites (r : LatticeStructure T) (x y io : Z) :
  NGHOSTS <= x < Ld0 r - NGHOSTS -> NGHOSTS <= y < Ld1 r - NGHOSTS ->
  0 <= io < Orb r ->
  (bulk_rank r x y io < length (bulk_sites r))%nat
  /\ nth (bulk_rank r x y io) (bulk_sites r) 0 = set_index r x y io
  /\ length (bulk_sites r)
     = Z.to_nat (Orb r * (Ld1 r - 2 * NGHOSTS) * (Ld0 r - 2 * NGHOSTS)).
Proof.
  intros Hx Hy Hio.
  set (W := Z.to_nat (Ld0 r - NGHOSTS - NGHOSTS)).
  set (Hh := Z.to_nat (Ld1 r - NGHOSTS - NGHOSTS)).
  set (row := fun io i1 =>
                map (fun i0 => set_index r i0 i1 io)
                    (Zrange NGHOSTS (Ld0 r - NGHOSTS))).
  set (plane := fun io =>
                  flat_map (row io) (Zrange NGHOSTS (Ld1 r - NGHOSTS))).
  assert (Lrow : forall io i1, length (row io i1) = W).
  { intros. unfold row. now rewrite length_map, length_Zrange_gen. }
  assert (Pl : forall io',
             length (plane io') = (Hh * W)%nat
             /\ forall q j, (q < Hh)%nat -> (j < W)%nat ->
                  nth (q * W + j) (plane io') 0
                  = nth j (row io' (nth q (Zrange NGHOSTS (Ld1 r - NGHOSTS)) 0))
                        0).
  { intros io'.
    destruct (flat_map_uniform (row io') W
                (Zrange NGHOSTS (Ld1 r - NGHOSTS)) 0 0) as [L N].
    - intros i1 _. apply Lrow.
    - rewrite length_Zrange_gen in L, N. fold Hh in L, N. split; assumption. }
  destruct (flat_map_uniform plane (Hh * W) (Zrange 0 (Orb r)) 0 0) as [L N].
  { intros io' _. apply Pl. }
  rewrite length_Zrange_gen in L, N.
  change (flat_map plane (Zrange 0 (Orb r))) with (bulk_sites r) in L, N.
  set (xx := Z.to_nat (x - NGHOSTS)).
  set (yy := Z.to_nat (y - NGHOSTS)).
  set (oo := Z.to_nat io).
  assert (Hxx : (xx < W)%nat) by (unfold xx, W; lia).
  assert (Hyy : (yy < Hh)%nat) by (unfold yy, Hh; lia).
  assert (Hoo : (oo < Z.to_nat (Orb r - 0))%nat) by (unfold oo; lia).
  assert (A1 : 0 <= io * (Ld1 r - 2 * NGHOSTS))
    by (apply Z.mul_nonneg_nonneg; unfold NGHOSTS in *; lia).
  assert (A2 : 0 <= (io * (Ld1 r - 2 * NGHOSTS) + (y - NGHOSTS))
                    * (Ld0 r - 2 * NGHOSTS))
    by (apply Z.mul_nonneg_nonneg; unfold NGHOSTS in *; lia).
  assert (Er : bulk_rank r x y io = (oo * (Hh * W) + (yy * W + xx))%nat).
  { apply Nat2Z.inj. unfold bulk_rank.
    rewrite Z2Nat.id by lia.
    rewrite !Nat2Z.inj_add, !Nat2Z.inj_mul.
    unfold oo, yy, xx, Hh, W. rewrite !Z2Nat.id by (unfold NGHOSTS in *; lia).
    unfold NGHOSTS. ring. }
  assert (Hj : (yy * W + xx < Hh * W)%nat).
  { assert ((yy + 1) * W <= Hh * W)%nat
      by (apply Nat.mul_le_mono_r; lia).
    lia. }
  split; [|split].
  - rewrite Er, L.
    assert ((oo + 1) * (Hh * W) <= Z.to_nat (Orb r - 0) * (Hh * W))%nat
      by (apply Nat.mul_le_mono_r; lia).
    lia.
  - rewrite Er, (N oo (yy * W + xx)%nat Hoo Hj).
    destruct (Pl (nth oo (Zrange 0 (Orb r)) 0)) as [_ Np].
    rewrite (Np yy xx Hyy Hxx).
    rewrite !nth_Zrange_gen by (fold Hh; fold W; lia).
    unfold row.
    rewrite (nth_indep _ 0 (set_index r 0 (NGHOSTS + Z.of_nat yy)
                                      (0 + Z.of_nat oo)))
      by (rewrite length_map, length_Zrange_gen; exact Hxx).
    rewrite (map_nth (fun i0 => set_index r i0 (NGHOSTS + Z.of_nat yy)
                                          (0 + Z.of_nat oo))).
    rewrite nth_Zrange_gen by exact Hxx.
    unfold xx, yy, oo. f_equal; lia.
  - rewrite L. apply Nat2Z.inj.
    rewrite !Nat2Z.inj_mul. unfold Hh, W.
    assert (0 <= Orb r * (Ld1 r - 2 * NGHOSTS))
      by (apply Z.mul_nonneg_nonneg; unfold NGHOSTS in *; lia).
    assert (0 <= Orb r * (Ld1 r - 2 * NGHOSTS) * (Ld0 r - 2 * NGHOSTS))
      by (apply Z.mul_nonneg_nonneg; unfold NGHOSTS in *; lia).
    rewrite !Z2Nat.id by (unfold NGHOSTS in *; lia).
    unfold NGHOSTS. ring.
Qed.

(** The loops of lines 66-69 as one loop over the bulk sites. *)
Lemma fill_bulk_sites (r_ : LatticeStructure T) (c : Z) (val : nat -> T)
      (s : mem T * nat) :
  for_each (Zrange 0 (Orb r_)) (fun io =>
    for_each (Zrange NGHOSTS (Ld1 r_ - NGHOSTS)) (fun i1 =>
      for_each (Zrange NGHOSTS (Ld0 r_ - NGHOSTS)) (fun i0 s =>
        (upd (fst s) (c + set_index r_ i0 i1 io) (val (snd s)),
         S (snd s))))) s
  = for_each (bulk_sites r_)
             (fun i s => (upd (fst s) (c + i) (val (snd s)), S (snd s))) s.
Proof.
  unfold bulk_sites. rewrite for_each_flat_map.
  apply for_each_ext. intros io s1 _. rewrite for_each_flat_map.
  apply for_each_ext. intros i1 s2 _. rewrite for_each_map. reflexivity.
Qed.

(** The loops of lines 71-76: the listed vacancies end at zero. *)
Lemma zero_vacancies_at (NStr c : Z) (h : Hamiltonian T) (w : mem T) (a : Z) :
  ((exists k, listed_vacancy NStr h k /\ a = c + k) ->
   for_each (Zrange 0 NStr) (fun i =>
     for_each (hV_position h i) (fun k v => upd v (c + k) s0)) w a = s0)
  /\ ((forall k, listed_vacancy NStr h k -> a <> c + k) ->
      for_each (Zrange 0 NStr) (fun i =>
        for_each (hV_position h i) (fun k v => upd v (c + k) s0)) w a = w a).
Proof.
  rewrite <- (for_each_flat_map (hV_position h) (Zrange 0 NStr)
                (fun k v => upd v (c + k) s0)).
  assert (G : forall l (w : mem T),
             ((exists k, In k l /\ a = c + k) ->
              for_each l (fun k v => upd v (c + k) s0) w a = s0)
             /\ ((forall k, In k l -> a <> c + k) ->
                 for_each l (fun k v => upd v (c + k) s0) w a = w a)).
  { induction l as [|k l IH]; intros w'.
    - split; [intros (k & [] & _)|reflexivity].
    - rewrite for_each_cons. destruct (IH (upd w' (c + k) s0)) as [I1 I2].
      split.
      + intros (k' & Hk' & E).
        destruct (in_dec Z.eq_dec k' l) as [Hin|Hout].
        * apply I1. exists k'. auto.
        * destruct Hk' as [->|Hk']; [|contradiction].
          destruct (in_dec Z.eq_dec (a - c) l) as [Hin'|Hout'].
          -- apply I1. exists (a - c). split; [exact Hin'|lia].
          -- rewrite I2.
             ++ subst a. apply upd_same.
             ++ intros k'' Hk'' E'. apply Hout'.
                replace (a - c) with k'' by lia. exact Hk''.
      + intros N. rewrite I2 by (intros k' Hk'; apply N; now right).
        apply upd_other. apply N. now left. }
  destruct (G (flat_map (hV_position h) (Zrange 0 NStr)) w) as [G1 G2].
  split.
  - intros (k & (i & Hi & Hk) & E). apply G1. exists k. split; [|exact E].
    apply in_flat_map. exists i. split; [apply In_Zrange; exact Hi|exact Hk].
  - intros N. apply G2. intros k Hk. apply in_flat_map in Hk.
    destruct Hk as (i & Hi & Hk). apply In_Zrange in Hi.
    apply N. exists i. auto.
Qed.

(** X16: on a domain that holds its ghost layers, whose listed vacancies
    are rows of the vector and no more than [Sizet], [initiate_vector] resets
    the index to zero and draws one value per bulk site, in the order of the
    orbitals, then the rows, then the columns; a bulk site that is no listed
    vacancy holds the draw of its place in that order divided by
    [sqrt(Sizet - count)], [count] being the number of listed vacancies;
    every listed vacancy holds zero (a draw taken for it is overwritten);
    every other cell is kept. *)
Theorem initiate_vector_draws (NStr Sizet : Z) (root : Z -> T)
        (draws : nat -> T) (rnd : nat) (th : Thread T) :
  NGHOSTS <= Ld0 (r th) -> NGHOSTS <= Ld1 (r th) ->
  Sized (r th) = Ld0 (r th) * Ld1 (r th) * Orb (r th) ->
  vacancy_count NStr (h th) <= Sizet ->
  (forall k, listed_vacancy NStr (h th) k -> 0 <= k < Sized (r th)) ->
  index (fst (initiate_vector NStr Sizet root draws rnd th)) = 0
  /\ snd (initiate_vector NStr Sizet root draws rnd th)
     = (rnd + length (bulk_sites (r th)))%nat
  /\ (forall x y io,
         NGHOSTS <= x < Ld0 (r th) - NGHOSTS ->
         NGHOSTS <= y < Ld1 (r th) - NGHOSTS ->
         0 <= io < Orb (r th) ->
         ~ listed_vacancy NStr (h th) (set_index (r th) x y io) ->
         v (fst (initiate_vector NStr Sizet root draws rnd th))
           (set_index (r th) x y io)
         = draws (rnd + bulk_rank (r th) x y io)%nat
           [/] root (Sizet - vacancy_count NStr (h th)))
  /\ (forall k, listed_vacancy NStr (h th) k ->
         v (fst (initiate_vector NStr Sizet root draws rnd th)) k = s0)
  /\ (forall a,
         ~ In a (bulk_sites (r th)) -> ~ listed_vacancy NStr (h th) a ->
         v (fst (initiate_vector NStr Sizet root draws rnd th)) a
         = v th a).
Proof.
  intros _ _ _ _ _.
  unfold initiate_vector. cbv zeta. cbn [fst snd index v with_vector].
  change (col (r th) 0) with 0.
  rewrite (fill_bulk_sites (r th) 0
             (fun n => draws n [/] root (Sizet - vacancy_count NStr (h th)))).
  destruct (fill_loop 0
              (fun n => draws n [/] root (Sizet - vacancy_count NStr (h th)))
              (bulk_sites (r th)) (NoDup_bulk_sites (r th)) (v th) rnd)
    as (F1 & F2 & F3).
  split; [reflexivity|]. split; [|split; [|split]].
  - exact F1.
  - intros x y io Hx Hy Hio NV.
    destruct (zero_vacancies_at NStr 0 (h th)
                (fst (for_each (bulk_sites (r th))
                        (fun i s =>
                           (upd (fst s) (0 + i)
                              (draws (snd s)
                               [/] root (Sizet - vacancy_count NStr (h th))),
                            S (snd s))) (v th, rnd)))
                (set_index (r th) x y io)) as [_ K].
    rewrite K by (intros k Hk E; apply NV; replace (set_index (r th) x y io)
                    with k by lia; exact Hk).
    destruct (nth_bulk_sites (r th) x y io Hx Hy Hio) as (R1 & R2 & _).
    rewrite <- R2 at 1.
    apply (F2 (bulk_rank (r th) x y io) R1).
  - intros k Hk.
    apply (zero_vacancies_at NStr 0 (h th)). exists k. split; [exact Hk|lia].
  - intros a NB NV.
    destruct (zero_vacancies_at NStr 0 (h th)
                (fst (for_each (bulk_sites (r th))
                        (fun i s =>
                           (upd (fst s) (0 + i)
                              (draws (snd s)
                               [/] root (Sizet - vacancy_count NStr (h th))),
                            S (snd s))) (v th, rnd))) a) as [_ K].
    rewrite K by (intros k Hk E; apply NV; replace a with k by lia; exact Hk).
    apply F3. intros i Hi E. apply NB. replace a with i by lia. exact Hi.
Qed.

End InitiateFacts.

(** * [initiate_vector] on the small domain *)

Module SmallRealFacts.
Import SmallReal.
Local Open Scope Z_scope.

(** The site [(3, 2)] is the second bulk site in the order of the loops:
    it holds the second draw divided by the root; the vacancy 14, the first
    one, holds zero. *)
Lemma initiate_vector_draws_witness :
  v (fst (initiate_vector 1 4 (fun z => IZR z) (fun n => INR n) 5
                          thread_of_sevens))
    (set_index lattice 3 2 0)
  = (INR (5 + bulk_rank lattice 3 2 0)
     [/] IZR (4 - vacancy_count 1 vacancy))
  /\ v (fst (initiate_vector 1 4 (fun z => IZR z) (fun n => INR n) 5
                             thread_of_sevens)) 14
     = s0.
Proof.
  destruct (initiate_vector_draws 1 4 (fun z => IZR z) (fun n => INR n) 5%nat
              thread_of_sevens) as (_ & _ & D & V & _).
  { unfold NGHOSTS. simpl. lia. }
  { unfold NGHOSTS. simpl. lia. }
  { reflexivity. }
  { vm_compute. discriminate. }
  { intros k (i & Hi & Hk). assert (i = 0) by lia. subst i.
    simpl in Hk. destruct Hk as [<-|[]]. simpl. lia. }
  split.
  - apply (D 3 2 0); unfold NGHOSTS; simpl; try lia.
    intros (i & Hi & Hk). assert (i = 0) by lia. subst i.
    simpl in Hk. destruct Hk as [Hk|[]]. discriminate Hk.
  - apply V. exists 0. split; [lia|]. simpl. now left.
Defined.

End SmallRealFacts.

(** * [Velocity] and [Velocity2]: the operator applied, and the frame *)

Section VelocityTheorems.
Context {T : Type} `{Scalar T}.
Local Open Scope Z_scope.

Variable STRIDE : Z.

Abbreviation local_then_exchange tab phi0 phiM1 sys :=
  (Exchange_Boundaries
     (map (velocity_local STRIDE tab phi0 phiM1) (fst sys), snd sys)).

Lemma ghost_cell_frame_tiled (r : LatticeStructure T) (c d b io i ig : Z) :
  lattice_ok STRIDE r ->
  0 <= io < Orb r -> 0 <= i < max_ r d -> 0 <= ig < NGHOSTS ->
  frame_cell r (Orb r) c (c + ghost_cell r d b io i ig).
Proof.
  intros OK Hio Hi Hig.
  destruct (ghost_cell_slot STRIDE r d b io i ig OK) as (x & y & E & Hx & Hy & G);
    try lia.
  exists x, y, io. rewrite E. unfold in_frame, in_domain. repeat split; lia.
Qed.

(** The exchange that ends [Velocity] keeps what the sweep left in every
    cell that is no cell of the ghost frame of the current column. *)
Lemma velocity_exchange_keep (tab : VelocityTables T)
      (phi0 phiM1 : Thread T -> Z) (sys : System T) (k : nat) (a : Z) :
  (k < length (fst sys))%nat ->
  lattice_ok STRIDE (r (thread sys k)) ->
  ~ frame_cell (r (thread sys k)) (Orb (r (thread sys k)))
               (col (r (thread sys k)) (index (thread sys k))) a ->
  v (thread (local_then_exchange tab phi0 phiM1 sys) k) a
  = velocity_sweep STRIDE (r (thread sys k)) (h (thread sys k)) tab
                   (phi0 (thread sys k)) (phiM1 (thread sys k))
                   (v (thread sys k)) a.
Proof.
  intros Hk OK N.
  destruct (exchange_after_local (velocity_local STRIDE tab phi0 phiM1) sys k Hk)
    as [Eth Elen].
  rewrite Exchange_Boundaries_keep.
  - rewrite Eth. reflexivity.
  - rewrite Elen. exact Hk.
  - rewrite Eth. cbn [r index velocity_local with_vector].
    intros d b io i ig Hb Hio Hi Hig E. apply N. rewrite E.
    apply ghost_cell_frame_tiled; assumption.
Qed.

Lemma velocity_exchange_fields (tab : VelocityTables T)
      (phi0 phiM1 : Thread T -> Z) (sys : System T) (k : nat) :
  (k < length (fst sys))%nat ->
  r (thread (local_then_exchange tab phi0 phiM1 sys) k) = r (thread sys k)
  /\ h (thread (local_then_exchange tab phi0 phiM1 sys) k) = h (thread sys k)
  /\ memory (thread (local_then_exchange tab phi0 phiM1 sys) k)
     = memory (thread sys k)
  /\ index (thread (local_then_exchange tab phi0 phiM1 sys) k)
     = index (thread sys k)
  /\ block (thread (local_then_exchange tab phi0 phiM1 sys) k)
     = block (thread sys k).
Proof.
  intros Hk.
  destruct (exchange_after_local (velocity_local STRIDE tab phi0 phiM1) sys k Hk)
    as [Eth Elen].
  destruct (Exchange_Boundaries_fields
              (map (velocity_local STRIDE tab phi0 phiM1) (fst sys), snd sys) k)
    as (E1 & E2 & E3 & E4 & E5); [rewrite Elen; exact Hk|].
  rewrite E1, E2, E3, E4, E5, Eth. repeat split; reflexivity.
Qed.

Lemma bulk_off_frame (r : LatticeStructure T) (c p i : Z) :
  lattice_ok STRIDE r -> bulk r i ->
  p = c \/ p + Sized r <= c \/ c + Sized r <= p ->
  ~ frame_cell r (Orb r) c (p + i).
Proof.
  intros OK Bi Hp.
  destruct (bulk_tile STRIDE r OK i Bi)
    as (c' & m & k' & l & io & Hc & Hm & Hk' & Hl & Hio & Ei & _).
  pose proof (bulk_in_slot r i Bi) as Si.
  pose proof (ok_stride OK) as PS.
  destruct Hp as [-> | Far].
  - rewrite Ei. apply bulk_not_frame.
    + rewrite (ok_Ld0 OK). unfold NGHOSTS. nia.
    + rewrite (ok_Ld1 OK). unfold NGHOSTS. nia.
    + lia.
  - apply outside_not_frame. rewrite <- (ok_Sized OK). lia.
Qed.

(** What the call leaves at a bulk site of its target. *)
Lemma velocity_exchange_site (tab : VelocityTables T)
      (phi0 phiM1 : Thread T -> Z) (sys : System T) (k : nat) (i : Z) :
  (k < length (fst sys))%nat ->
  lattice_ok STRIDE (r (thread sys k)) ->
  tables_in_slot STRIDE (r (thread sys k)) (h (thread sys k)) ->
  tiles_consistent STRIDE (r (thread sys k)) (h (thread sys k)) ->
  velocity_pointers_ok (thread sys k) (phi0 (thread sys k))
                       (phiM1 (thread sys k)) ->
  bulk (r (thread sys k)) i ->
  v (thread (local_then_exchange tab phi0 phiM1 sys) k)
    (phi0 (thread sys k) + i)
  = Velocity_value STRIDE (r (thread sys k)) (h (thread sys k)) tab
                   (fun j => v (thread sys k) (phiM1 (thread sys k) + j)) i.
Proof.
  intros Hk OK TS TC [Ap Cur] Bi.
  rewrite velocity_exchange_keep;
    [|exact Hk|exact OK|apply bulk_off_frame; assumption].
  rewrite velocity_sweep_as_Multiply.
  rewrite <- (Multiply_value_velocity STRIDE _ _ _ _
                (fun j => v (thread sys k) (phi0 (thread sys k) + j))).
  destruct (bulk_tile STRIDE _ OK i Bi)
    as (c & m & k' & l & io & Hc & Hm & Hk' & Hl & Hio & Ei & _).
  subst i.
  apply (Multiply_sweep_site STRIDE 0 (flat_lattice (r (thread sys k)))
           (velocity_hamiltonian (h (thread sys k)) tab)
           (phi0 (thread sys k)) (phiM1 (thread sys k)) (phi0 (thread sys k))
           (v (thread sys k))
           (lattice_ok_flat STRIDE _ OK)
           (tables_in_slot_velocity STRIDE _ _ tab TS)).
  - split.
    + cbn [Sized flat_lattice]. intros i j Hi Hj. lia.
    + intros N. now contradiction N.
  - exact Hc.
  - exact Hm.
  - exact Hk'.
  - exact Hl.
  - exact Hio.
  - apply tiles_consistent_velocity. exact TC.
Qed.

(** What the call keeps. *)
Lemma velocity_exchange_outside (tab : VelocityTables T)
      (phi0 phiM1 : Thread T -> Z) (sys : System T) (k : nat) (a : Z) :
  (k < length (fst sys))%nat ->
  lattice_ok STRIDE (r (thread sys k)) ->
  tables_in_slot STRIDE (r (thread sys k)) (h (thread sys k)) ->
  (forall i, 0 <= i < Sized (r (thread sys k)) ->
             a <> phi0 (thread sys k) + i) ->
  ~ frame_cell (r (thread sys k)) (Orb (r (thread sys k)))
               (col (r (thread sys k)) (index (thread sys k))) a ->
  v (thread (local_then_exchange tab phi0 phiM1 sys) k) a
  = v (thread sys k) a.
Proof.
  intros Hk OK TS N F.
  rewrite velocity_exchange_keep by assumption.
  rewrite velocity_sweep_as_Multiply.
  apply (frames_Multiply_sweep STRIDE 0 (flat_lattice (r (thread sys k)))
           (velocity_hamiltonian (h (thread sys k)) tab)
           (phi0 (thread sys k)) (phiM1 (thread sys k)) (phi0 (thread sys k))
           (lattice_ok_flat STRIDE _ OK)
           (tables_in_slot_velocity STRIDE _ _ tab TS)).
  exact N.
Qed.

(** X17: on a domain of at most two orbitals,
    [Velocity(phi0, phiM1, axis)] keeps the index and leaves at
    every bulk site of [phi0] the velocity operator of the axis applied to
    [phiM1]: the regular hoppings with the amplitudes [h.hr.V[axis]] and the
    bonds of the patterns anchored in the tiles with the amplitudes
    [V[axis]], no Peierls factor whatever the vector potential, zero at a
    vacancy, plus the bonds of the broken patterns with the amplitudes
    [border_V[axis]], which are added after the vacancies are emptied.  The
    two slots do not overlap and [phi0] is the current column of the calling
    vector or a slot apart from it. *)
Theorem Velocity_bulk_value (V : Z -> VelocityTables T)
        (phi0 phiM1 : Thread T -> Z) (axis : Z) (sys : System T) (k : nat)
        (i : Z) :
  (k < length (fst sys))%nat ->
  lattice_ok STRIDE (r (thread sys k)) ->
  index_tables_fit (r (thread sys k)) ->
  tables_in_slot STRIDE (r (thread sys k)) (h (thread sys k)) ->
  tiles_consistent STRIDE (r (thread sys k)) (h (thread sys k)) ->
  velocity_pointers_ok (thread sys k) (phi0 (thread sys k))
                       (phiM1 (thread sys k)) ->
  bulk (r (thread sys k)) i ->
  index (thread (Velocity STRIDE V phi0 phiM1 axis sys) k)
  = index (thread sys k)
  /\ v (thread (Velocity STRIDE V phi0 phiM1 axis sys) k)
       (phi0 (thread sys k) + i)
     = Velocity_value STRIDE (r (thread sys k)) (h (thread sys k)) (V axis)
                      (fun j => v (thread sys k) (phiM1 (thread sys k) + j)) i.
Proof.
  intros Hk OK Fit TS TC P Bi. split.
  - apply (velocity_exchange_fields (V axis) phi0 phiM1 sys k Hk).
  - apply (velocity_exchange_site (V axis) phi0 phiM1 sys k i); assumption.
Qed.


(** X19: on a domain of at most two orbitals,
    [Velocity2(phi0, phiM1, axis1, axis2)] keeps the index and
    leaves at every bulk site of [phi0] the operator of the tables
    [V2[axis1][axis2]] and [border_V2[axis1][axis2]] applied to [phiM1], in
    the same way: no Peierls factor, zero at a vacancy but for the bonds of
    the broken patterns. *)
Theorem Velocity2_bulk_value (V2 : Z -> Z -> VelocityTables T)
        (phi0 phiM1 : Thread T -> Z) (axis1 axis2 : Z) (sys : System T)
        (k : nat) (i : Z) :
  (k < length (fst sys))%nat ->
  lattice_ok STRIDE (r (thread sys k)) ->
  index_tables_fit (r (thread sys k)) ->
  tables_in_slot STRIDE (r (thread sys k)) (h (thread sys k)) ->
  tiles_consistent STRIDE (r (thread sys k)) (h (thread sys k)) ->
  velocity_pointers_ok (thread sys k) (phi0 (thread sys k))
                       (phiM1 (thread sys k)) ->
  bulk (r (thread sys k)) i ->
  index (thread (Velocity2 STRIDE V2 phi0 phiM1 axis1 axis2 sys) k)
  = index (thread sys k)
  /\ v (thread (Velocity2 STRIDE V2 phi0 phiM1 axis1 axis2 sys) k)
       (phi0 (thread sys k) + i)
     = Velocity_value STRIDE (r (thread sys k)) (h (thread sys k))
                      (V2 axis1 axis2)
                      (fun j => v (thread sys k) (phiM1 (thread sys k) + j)) i.
Proof.
  intros Hk OK Fit TS TC P Bi. split.
  - apply (velocity_exchange_fields (V2 axis1 axis2) phi0 phiM1 sys k Hk).
  - apply (velocity_exchange_site (V2 axis1 axis2) phi0 phiM1 sys k i);
      assumption.
Qed.

End VelocityTheorems.

(** * [VelocityInternalProduct]: the sum over the bulk sites *)

Section VelocityProduct.
Context {T : Type} `{Scalar T}.
Local Open Scope Z_scope.

Add Ring scalar_ring_velocity_product : scalar_ring.

(** ** Sums *)

Lemma for_each_sum {A : Type} (l : list A) (body : A -> T -> T) (c : A -> T) :
  (forall x s, In x l -> body x s = s [+] c x) ->
  forall s, for_each l body s = s [+] ssum (map c l).
Proof.
  induction l as [|x l IH]; intros Hb s.
  - cbn [map ssum]. unfold for_each. cbn [fold_left]. ring.
  - rewrite for_each_cons, IH, Hb by (try (now left); intros; apply Hb; now right).
    cbn [map]. rewrite ssum_cons. ring.
Qed.

Lemma ssum_swap {A B : Type} (f : A -> B -> T) (l1 : list A) (l2 : list B) :
  ssum (map (fun x => ssum (map (f x) l2)) l1)
  = ssum (map (fun y => ssum (map (fun x => f x y) l1)) l2).
Proof.
  induction l1 as [|a l1 IH].
  - cbn [map ssum]. symmetry. apply ssum_map_zero. reflexivity.
  - cbn [map]. rewrite ssum_cons, IH.
    rewrite <- (ssum_map_add (f a)
                  (fun y => ssum (map (fun x => f x y) l1)) l2).
    apply ssum_map_ext. intros y _. now rewrite ssum_cons.
Qed.

Lemma ssum_same_elements {A : Type} (f : A -> T) (l l' : list A) :
  NoDup l -> NoDup l' -> (forall x, In x l <-> In x l') ->
  ssum (map f l) = ssum (map f l').
Proof.
  intros ND. revert l'. induction ND as [|x l Hx ND IH]; intros l' ND' E.
  - destruct l' as [|a l']; [reflexivity|].
    exfalso. apply (E a). now left.
  - assert (Hin : In x l') by (apply E; now left).
    apply in_split in Hin. destruct Hin as (l1 & l2 & ->).
    apply NoDup_remove in ND'. destruct ND' as [ND' Nx].
    rewrite map_app, ssum_app'. cbn [map]. rewrite !ssum_cons.
    rewrite (IH (l1 ++ l2) ND').
    + rewrite map_app, ssum_app'. ring.
    + intros y. split.
      * intros Hy.
        assert (Y : In y (l1 ++ x :: l2)) by (apply E; now right).
        apply in_app_or in Y. apply in_or_app.
        destruct Y as [Y|[Y|Y]]; [now left|subst; contradiction|now right].
      * intros Hy.
        assert (Y : In y (x :: l)).
        { apply E. apply in_app_or in Hy. apply in_or_app.
          destruct Hy; [now left|right; now right]. }
        destruct Y as [Y|Y]; [subst; contradiction|exact Y].
Qed.

(** ** The cells of the tiles *)

Section Tiles.
Variable r : LatticeStructure T.
Variables n0 n1 : Z.
Hypothesis Hn0 : 0 <= n0.
Hypothesis Hn1 : 0 <= n1.
Hypothesis E0 : Ld0 r = 2 * NGHOSTS + STRIDE0 * n0.
Hypothesis E1 : Ld1 r = 2 * NGHOSTS + STRIDE0 * n1.

Lemma tile_start (L n i0 : Z) :
  L = 2 * NGHOSTS + STRIDE0 * n ->
  (In i0 (Zrange_step NGHOSTS (L - NGHOSTS) STRIDE0)
   <-> exists k, 0 <= k < n /\ i0 = NGHOSTS + STRIDE0 * k).
Proof.
  intros E. rewrite In_Zrange_step by (unfold STRIDE0; lia).
  unfold STRIDE0, NGHOSTS in *.
  split; intros (k & Hk & A); exists k; repeat split; lia.
Qed.

Lemma In_tile_cells (io i0 i1 i : Z) :
  In i (tile_cells r (io * basis2 r + i0 + i1 * basis1 r))
  <-> exists kj ki,
        0 <= kj < STRIDE0 /\ 0 <= ki < STRIDE0
        /\ i = set_index r (i0 + ki) (i1 + kj) io.
Proof using Hn0 Hn1 E0 E1.
  unfold tile_cells, set_index, basis2, basis1. rewrite in_flat_map.
  assert (P : 0 < Ld0 r) by (unfold STRIDE0, NGHOSTS in *; lia).
  split.
  - intros (j & Hj & Hi). apply In_Zrange_step in Hj; [|exact P].
    destruct Hj as (kj & Hkj & Ej & Lj). apply In_Zrange in Hi.
    exists kj, (i - j). unfold STRIDE0 in *. repeat split; try lia; nia.
  - intros (kj & ki & Hkj & Hki & ->).
    exists (io * (Ld0 r * Ld1 r) + i0 + i1 * Ld0 r + kj * Ld0 r). split.
    + apply In_Zrange_step; [exact P|]. exists kj.
      unfold STRIDE0 in *. repeat split; try lia; nia.
    + apply In_Zrange. unfold STRIDE0 in *. lia.
Qed.

Lemma In_product_sites (i : Z) :
  In i (product_sites r)
  <-> exists x y io,
        NGHOSTS <= x < Ld0 r - NGHOSTS /\ NGHOSTS <= y < Ld1 r - NGHOSTS
        /\ 0 <= io < Orb r /\ i = set_index r x y io.
Proof using Hn0 Hn1 E0 E1.
  unfold product_sites. rewrite in_flat_map. split.
  - intros (io & Hio & Hi). apply In_Zrange in Hio.
    apply in_flat_map in Hi. destruct Hi as (i1 & Hi1 & Hi).
    apply in_flat_map in Hi. destruct Hi as (i0 & Hi0 & Hi).
    apply (tile_start _ n1 i1 E1) in Hi1. destruct Hi1 as (k1 & Hk1 & ->).
    apply (tile_start _ n0 i0 E0) in Hi0. destruct Hi0 as (k0 & Hk0 & ->).
    apply In_tile_cells in Hi. destruct Hi as (kj & ki & Hkj & Hki & ->).
    eexists. eexists. exists io.
    split; [|split; [|split; [exact Hio|reflexivity]]];
      unfold STRIDE0, NGHOSTS in *; lia.
  - intros (x & y & io & Hx & Hy & Hio & ->).
    exists io. split; [apply In_Zrange; exact Hio|].
    apply in_flat_map. exists (NGHOSTS + STRIDE0 * ((y - NGHOSTS) / STRIDE0)).
    pose proof (Z.div_mod (x - NGHOSTS) STRIDE0) as Dx.
    pose proof (Z.mod_pos_bound (x - NGHOSTS) STRIDE0) as Bx.
    pose proof (Z.div_mod (y - NGHOSTS) STRIDE0) as Dy.
    pose proof (Z.mod_pos_bound (y - NGHOSTS) STRIDE0) as By.
    unfold STRIDE0, NGHOSTS in *.
    split.
    + apply (tile_start _ n1 _ E1). eexists. split; [|reflexivity].
      unfold STRIDE0, NGHOSTS in *. lia.
    + apply in_flat_map. exists (2 + 4 * ((x - 2) / 4)). split.
      * apply (tile_start _ n0 _ E0). eexists. split; [|reflexivity].
        unfold STRIDE0, NGHOSTS in *. lia.
      * apply In_tile_cells. exists ((y - 2) mod 4), ((x - 2) mod 4).
        unfold STRIDE0. split; [lia|]. split; [lia|]. f_equal; lia.
Qed.

Lemma NoDup_tile_cells (j0 : Z) : NoDup (tile_cells r j0).
Proof using Hn0 Hn1 E0 E1.
  assert (P : 4 <= Ld0 r) by (unfold STRIDE0, NGHOSTS in *; lia).
  unfold tile_cells. apply NoDup_flat_map.
  - apply NoDup_Zrange_step. unfold basis1. lia.
  - intros j _. apply NoDup_Zrange.
  - intros j j' i Hj Hj' Hi Hi'. unfold basis1 in *.
    apply In_Zrange_step in Hj, Hj'; try lia.
    destruct Hj as (k & Hk & -> & _). destruct Hj' as (k' & Hk' & -> & _).
    apply In_Zrange in Hi, Hi'. unfold STRIDE0 in *.
    assert (k = k') by nia. now subst.
Qed.

Lemma tile_cell_coords (io i1 i0 i : Z) :
  0 <= io ->
  In i1 (Zrange_step NGHOSTS (Ld1 r - NGHOSTS) STRIDE0) ->
  In i0 (Zrange_step NGHOSTS (Ld0 r - NGHOSTS) STRIDE0) ->
  In i (tile_cells r (io * basis2 r + i0 + i1 * basis1 r)) ->
  exists k0 k1 ki kj,
    i0 = NGHOSTS + STRIDE0 * k0 /\ i1 = NGHOSTS + STRIDE0 * k1
    /\ 0 <= ki < STRIDE0 /\ 0 <= kj < STRIDE0
    /\ NGHOSTS <= i0 + ki < Ld0 r - NGHOSTS
    /\ NGHOSTS <= i1 + kj < Ld1 r - NGHOSTS
    /\ i = set_index r (i0 + ki) (i1 + kj) io.
Proof using Hn0 Hn1 E0 E1.
  intros Hio Hi1 Hi0 Hi.
  apply (tile_start _ n1 i1 E1) in Hi1. destruct Hi1 as (k1 & Hk1 & ->).
  apply (tile_start _ n0 i0 E0) in Hi0. destruct Hi0 as (k0 & Hk0 & ->).
  apply In_tile_cells in Hi. destruct Hi as (kj & ki & Hkj & Hki & ->).
  exists k0, k1, ki, kj. unfold STRIDE0, NGHOSTS in *.
  repeat split; lia.
Qed.

Ltac same_cell C C' :=
  destruct C as (k0 & k1 & ki & kj & -> & -> & Hki & Hkj & Bx & By & ->);
  destruct C'
    as (k0' & k1' & ki' & kj' & A0 & A1 & Hki' & Hkj' & Bx' & By' & Ei);
  apply set_index_inj in Ei; unfold STRIDE0, NGHOSTS in *; try lia.

Lemma NoDup_product_sites : NoDup (product_sites r).
Proof using Hn0 Hn1 E0 E1.
  unfold product_sites.
  apply NoDup_flat_map; [apply NoDup_Zrange| |].
  - intros io Hio. apply In_Zrange in Hio.
    apply NoDup_flat_map;
      [apply NoDup_Zrange_step; unfold STRIDE0; lia| |].
    + intros i1 Hi1.
      apply NoDup_flat_map;
        [apply NoDup_Zrange_step; unfold STRIDE0; lia| |].
      * intros i0 _. apply NoDup_tile_cells.
      * intros i0 i0' i Hi0 Hi0' Hi Hi'.
        pose proof (tile_cell_coords io i1 i0 i (proj1 Hio) Hi1 Hi0 Hi) as C.
        pose proof (tile_cell_coords io i1 i0' i (proj1 Hio) Hi1 Hi0' Hi') as C'.
        same_cell C C'.
    + intros i1 i1' i Hi1 Hi1' Hi Hi'.
      apply in_flat_map in Hi, Hi'.
      destruct Hi as (i0 & Hi0 & Hi). destruct Hi' as (i0' & Hi0' & Hi').
      pose proof (tile_cell_coords io i1 i0 i (proj1 Hio) Hi1 Hi0 Hi) as C.
      pose proof (tile_cell_coords io i1' i0' i (proj1 Hio) Hi1' Hi0' Hi') as C'.
      same_cell C C'.
  - intros io io' i Hio Hio' Hi Hi'. apply In_Zrange in Hio, Hio'.
    apply in_flat_map in Hi, Hi'.
    destruct Hi as (i1 & Hi1 & Hi). destruct Hi' as (i1' & Hi1' & Hi').
    apply in_flat_map in Hi, Hi'.
    destruct Hi as (i0 & Hi0 & Hi). destruct Hi' as (i0' & Hi0' & Hi').
    pose proof (tile_cell_coords io i1 i0 i (proj1 Hio) Hi1 Hi0 Hi) as C.
    pose proof (tile_cell_coords io' i1' i0' i (proj1 Hio') Hi1' Hi0' Hi') as C'.
    same_cell C C'.
Qed.

End Tiles.

End VelocityProduct.

Section VelocityProductTheorem.
Context {T : Type} `{Scalar T}.
Local Open Scope Z_scope.

Add Ring scalar_ring_velocity_product_sum : scalar_ring.

Lemma for_tile_sum (r : LatticeStructure T) (j0 : Z) (c : Z -> T) (s : T) :
  for_tile STRIDE0 r j0 (fun j i sum => sum [+] c i) s
  = s [+] ssum (map c (tile_cells r j0)).
Proof.
  unfold for_tile, tile_cells. cbv zeta.
  rewrite (for_each_sum _ _ (fun j => ssum (map c (Zrange j (j + STRIDE0))))).
  - now rewrite ssum_flat_map.
  - intros j s' _. apply for_each_sum. reflexivity.
Qed.

(** The hoppings of one tile: the loop over [ib] outside the loops over
    the cells adds the share of every cell of the tile. *)
Lemma tile_product (r : LatticeStructure T) (h : Hamiltonian T)
      (tab : VelocityTables T) (bra ket : Z) (v : mem T) (io j0 : Z) (s : T) :
  (forall i, In i (tile_cells r j0) -> coord_orb r i = io) ->
  for_each (Zrange 0 (hr_NHoppings h io)) (fun ib =>
    for_tile STRIDE0 r j0 (fun j i sum =>
      sum [+] myconj (v (bra + i)) [*] hr_V tab ib io
              [*] v (ket + (i + hr_distance h ib io)))) s
  = s [+] ssum (map (velocity_product_term r h tab bra ket v)
                    (tile_cells r j0)).
Proof.
  intros Ho.
  rewrite (for_each_sum _ _
             (fun ib => ssum (map (fun i => myconj (v (bra + i))
                                            [*] hr_V tab ib io
                                            [*] v (ket + (i + hr_distance h ib io)))
                                  (tile_cells r j0)))).
  - f_equal.
    rewrite (ssum_swap (fun ib i => myconj (v (bra + i)) [*] hr_V tab ib io
                                    [*] v (ket + (i + hr_distance h ib io)))).
    apply ssum_map_ext. intros i Hi.
    unfold velocity_product_term, velocity_regular_terms. cbv zeta.
    rewrite (Ho i Hi), matvec_map_row by reflexivity.
    rewrite <- ssum_map_scale. apply ssum_map_ext. intros ib _.
    cbn [coefficient column fst snd]. ring.
  - intros ib s' _. apply for_tile_sum.
Qed.

(** X20: on a domain whose bulk extents are multiples of 4,
    [VelocityInternalProduct(bra, ket, axis)] returns the sum over the bulk
    sites, each taken once, of the conjugate of [bra] at the site times the
    regular hoppings of the site with the amplitudes [h.hr.V[axis]] applied
    to [ket]; the patterns of the structural disorder and the vacancies take
    no part in it. *)
Theorem VelocityInternalProduct_sum (r : LatticeStructure T)
        (h : Hamiltonian T) (tab : VelocityTables T) (bra ket : Z) (v : mem T)
        (n0 n1 : Z) :
  0 <= n0 -> 0 <= n1 ->
  Ld0 r = 2 * NGHOSTS + STRIDE0 * n0 ->
  Ld1 r = 2 * NGHOSTS + STRIDE0 * n1 ->
  VelocityInternalProduct r h tab bra ket v
  = ssum (map (velocity_product_term r h tab bra ket v) (bulk_sites r)).
Proof.
  intros Hn0 Hn1 E0 E1.
  rewrite (ssum_same_elements _ (bulk_sites r) (product_sites r));
    [|apply NoDup_bulk_sites
     |apply (NoDup_product_sites r n0 n1); assumption
     |intros i; rewrite In_bulk_sites,
                (In_product_sites r n0 n1) by assumption; reflexivity].
  unfold VelocityInternalProduct, product_sites.
  rewrite (for_each_sum _ _
    (fun io => ssum (map (velocity_product_term r h tab bra ket v)
      (flat_map (fun i1 =>
         flat_map (fun i0 => tile_cells r (io * basis2 r + i0 + i1 * basis1 r))
                  (Zrange_step NGHOSTS (Ld0 r - NGHOSTS) STRIDE0))
         (Zrange_step NGHOSTS (Ld1 r - NGHOSTS) STRIDE0))))).
  { rewrite ssum_flat_map. ring. }
  intros io s Hio. cbv zeta. apply In_Zrange in Hio.
  rewrite (for_each_sum _ _
    (fun i1 => ssum (map (velocity_product_term r h tab bra ket v)
      (flat_map (fun i0 => tile_cells r (io * basis2 r + i0 + i1 * basis1 r))
                (Zrange_step NGHOSTS (Ld0 r - NGHOSTS) STRIDE0))))).
  { now rewrite ssum_flat_map. }
  intros i1 s1' Hi1.
  rewrite (for_each_sum _ _
    (fun i0 => ssum (map (velocity_product_term r h tab bra ket v)
                         (tile_cells r (io * basis2 r + i0 + i1 * basis1 r))))).
  { now rewrite ssum_flat_map. }
  intros i0 s2 Hi0. apply tile_product.
  intros i Hi.
  destruct (tile_cell_coords r n0 n1 Hn0 Hn1 E0 E1 io i1 i0 i (proj1 Hio)
              Hi1 Hi0 Hi)
    as (k0 & k1 & ki & kj & _ & _ & _ & _ & Bx & By & ->).
  apply coords_of_set_index; unfold NGHOSTS in *; lia.
Qed.

End VelocityProductTheorem.

(** * [Multiply]: the ghost frame of the new slot *)

Section MultiplyHalo.
Context {T : Type} `{Scalar T}.
Local Open Scope Z_scope.

Variable STRIDE : Z.

Lemma uniform_after_local (f : Thread T -> Thread T) (r0 : LatticeStructure T)
      (sys : System T) :
  (forall th, r (f th) = r th /\ block (f th) = block th) ->
  uniform_system r0 sys -> uniform_system r0 (map f (fst sys), snd sys).
Proof.
  intros Hf U j Hj. cbn [fst] in Hj. rewrite length_map in Hj.
  destruct (exchange_after_local f sys j Hj) as [E L].
  rewrite E. destruct (Hf (thread sys j)) as [-> ->].
  destruct (U j Hj) as [A B]. split; [exact A|].
  intros d b. rewrite L. apply B.
Qed.

(** What the sweep of [Multiply] leaves at a bulk site of a thread,
    before the exchange. *)
Lemma Multiply_local_site (MULT : Z) (th : Thread T) (i : Z) :
  lattice_ok STRIDE (r th) ->
  tables_in_slot STRIDE (r th) (h th) ->
  tiles_consistent STRIDE (r th) (h th) ->
  ring_ok th -> bulk (r th) i ->
  v (Multiply_local STRIDE MULT th)
    (col (r th) (index (Multiply_local STRIDE MULT th)) + i)
  = Multiply_value STRIDE MULT (r th) (h th) (psi_M1 th) (psi_M2 th) i.
Proof.
  intros OK TS TC R Bi.
  destruct (bulk_tile STRIDE _ OK i Bi)
    as (c & m & k' & l & io & Hc & Hm & Hk' & Hl & Hio & Ei & _).
  subst i.
  apply (Multiply_sweep_site STRIDE MULT _ _ _ _ _ (v th) OK TS
           (ring_slots_apart _ R) c m k' l io Hc Hm Hk' Hl Hio TC).
Qed.


End MultiplyHalo.

(** * [Velocity] on the small domain *)

Module SmallVelocityFacts.
Import Small SmallFacts SmallVelocity.
Local Open Scope Z_scope.

Lemma pointers_small (h : Hamiltonian Z) :
  velocity_pointers_ok (thread_of h 2) (target (thread_of h 2))
                       (source (thread_of h 2)).
Proof. split; [left; vm_compute; congruence|left; reflexivity]. Qed.

(** Along axis 0, the site 14 of the target receives 3 times the content
    52 of the cell of the site 15 of the source. *)
Lemma Velocity_bulk_value_witness :
  index (thread (Velocity STRIDE tables target source 0 (system_of clean 2)) 0)
  = 0
  /\ v (thread (Velocity STRIDE tables target source 0 (system_of clean 2)) 0)
       14
     = 156.
Proof.
  destruct (Velocity_bulk_value STRIDE tables target source 0
              (system_of clean 2) 0%nat 14) as [Ei Ev].
  - simpl. lia.
  - exact lattice_ok_small.
  - exact tables_fit_small.
  - exact tables_clean.
  - exact consistent_clean.
  - exact (pointers_small clean).
  - exact bulk_14.
  - split; [exact Ei|exact Ev].
Defined.


(** For the axes (1, 1), the site 14 of the target receives 25 times the
    content 45 of the cell of the site 8 of the source. *)
Lemma Velocity2_bulk_value_witness :
  index (thread (Velocity2 STRIDE tables2 target source 1 1
                           (system_of clean 2)) 0)
  = 0
  /\ v (thread (Velocity2 STRIDE tables2 target source 1 1
                          (system_of clean 2)) 0) 14
     = 1125.
Proof.
  destruct (Velocity2_bulk_value STRIDE tables2 target source 1 1
              (system_of clean 2) 0%nat 14) as [Ei Ev].
  - simpl. lia.
  - exact lattice_ok_small.
  - exact tables_fit_small.
  - exact tables_clean.
  - exact consistent_clean.
  - exact (pointers_small clean).
  - exact bulk_14.
  - split; [exact Ei|exact Ev].
Defined.

End SmallVelocityFacts.

(** * [VelocityInternalProduct] on a 4 x 4 bulk *)

Module SmallVelocityProduct.
Import Small SmallVelocity.
Local Open Scope Z_scope.

(** Along axis 0, with ones in [bra] and the number of the cell in [ket],
    the product is 3 times the sum of the numbers of the right neighbours of
    the sixteen bulk sites. *)
Lemma VelocityInternalProduct_sum_witness :
  VelocityInternalProduct lattice8 clean8 (tables 0) 0 64 ones_then_sites
  = 1560.
Proof.
  rewrite (VelocityInternalProduct_sum lattice8 clean8 (tables 0) 0 64
             ones_then_sites 1 1);
    [reflexivity|lia|lia|reflexivity|reflexivity].
Defined.

End SmallVelocityProduct.

(** * The ghost frame after [Multiply] on two threads side by side *)

Module SmallHalo.
Import Small SmallFacts.
Local Open Scope Z_scope.

Lemma pair_well_formed (j : nat) :
  (j < length (fst pair))%nat ->
  lattice_ok STRIDE (r (thread pair j))
  /\ tables_in_slot STRIDE (r (thread pair j)) (h (thread pair j))
  /\ tiles_consistent STRIDE (r (thread pair j)) (h (thread pair j))
  /\ ring_ok (thread pair j).
Proof.
  intros Hj. destruct j as [|[|j]]; [| |simpl in Hj; lia];
    (split; [exact lattice_ok_small
            |split; [exact tables_clean|split; [exact consistent_clean|]]]);
    split; simpl; lia.
Qed.


End SmallHalo.
